(** * A resizable ring buffer (circular-buffer.h): model and verification

    The class [circular_buffer<T>] owns one block of raw storage in which a
    wrap-around window of slots holds live values.  The development models

    - the free store as a finite map from block addresses to lists of slots,
      each slot live ([Some v]) or vacant ([None]);
    - [std::size_t] and [std::ptrdiff_t] as integers with their 64-bit
      wrap-around written out, the byte count [sizeof(T) * capacity] of an
      allocation included;
    - member functions as computations over the fields of [*this] and the
      free store, which either return, propagate an exception, or have
      undefined behaviour;
    - failing allocations and failing copy constructors through a schedule of
      faults carried by the store, and destructor calls and block releases
      through a trace of events. *)

From stdpp Require Import gmap list.
From Stdlib Require Import ZArith Lia.

Local Open Scope Z_scope.

(** ** Machine integers *)

(** [std::size_t] is a 64-bit unsigned integer, [std::ptrdiff_t] its signed
    counterpart. *)
Definition SIZE_MODULUS : Z := 18446744073709551616.
Definition PTRDIFF_MAX : Z := 9223372036854775807.

(** Conversion to [std::size_t], also the result of unsigned arithmetic. *)
Definition to_size_t (z : Z) : Z := z mod SIZE_MODULUS.

(** Conversion to [std::ptrdiff_t] (two's complement). *)
Definition to_ptrdiff_t (z : Z) : Z :=
  let r := z mod SIZE_MODULUS in
  if decide (r ≤ PTRDIFF_MAX) then r else r - SIZE_MODULUS.

(** Addresses of storage blocks; a pointer is an address or [nullptr]. *)
Abbreviation addr := nat (only parsing).
Abbreviation pointer := (option nat) (only parsing).
Abbreviation nullptr := (@None nat) (only parsing).

(** [sizeof(T)]: an element type comes with the size of its objects, at
    least one byte and at most [PTRDIFF_MAX]. *)
Class Sized (T : Type) := {
  sizeof : Z;
  sizeof_pos : 0 < sizeof;
  sizeof_max : sizeof ≤ PTRDIFF_MAX
}.

(** The element type of the concrete buffers below: [int], four bytes, with
    its values written as integers. *)
#[global] Instance sizeof_int : Sized Z :=
  {| sizeof := 4; sizeof_pos := eq_refl; sizeof_max := ltac:(done) |}.

(** ** Position handles: [template_iterator] *)

Module template_iterator.

Record t := mk {
  data_ : pointer;
  pos_ : Z;   (* begin + idx *)
  size_ : Z
}.

(** [operator++] and [operator--] *)
Definition incr (it : t) : t := mk (data_ it) (to_size_t (pos_ it + 1)) (size_ it).
Definition decr (it : t) : t := mk (data_ it) (to_size_t (pos_ it - 1)) (size_ it).

(** [operator+(a, n)] and [operator-(a, n)], [n] a [difference_type]: the
    position is converted to [std::ptrdiff_t], [n] is added or subtracted
    there, and the result is converted back.  The source leaves a signed sum
    or difference that overflows undefined; [add] and [sub] give the
    wrapped-around value there, and [add_defined] and [sub_defined] say that
    the sum or difference does not overflow. *)
Definition add (a : t) (n : Z) : t :=
  mk (data_ a) (to_size_t (to_ptrdiff_t (pos_ a) + n)) (size_ a).
Definition sub (a : t) (n : Z) : t :=
  mk (data_ a) (to_size_t (to_ptrdiff_t (pos_ a) - n)) (size_ a).

Definition add_defined (a : t) (n : Z) : Prop :=
  - PTRDIFF_MAX - 1 ≤ n ≤ PTRDIFF_MAX ∧
  - PTRDIFF_MAX - 1 ≤ to_ptrdiff_t (pos_ a) + n ≤ PTRDIFF_MAX.
Definition sub_defined (a : t) (n : Z) : Prop :=
  - PTRDIFF_MAX - 1 ≤ n ≤ PTRDIFF_MAX ∧
  - PTRDIFF_MAX - 1 ≤ to_ptrdiff_t (pos_ a) - n ≤ PTRDIFF_MAX.

(** [operator-(b, a)]: the unsigned difference read as a signed distance *)
Definition diff (b a : t) : Z := to_ptrdiff_t (to_size_t (pos_ b - pos_ a)).

Definition eqb (left right : t) : bool :=
  bool_decide (data_ left = data_ right) && bool_decide (pos_ left = pos_ right).
Definition neqb (left right : t) : bool := negb (eqb left right).

Definition ltb (a b : t) : bool :=
  bool_decide (data_ a = data_ b) && bool_decide (0 < diff b a).
Definition gtb (a b : t) : bool := ltb b a.
Definition geb (a b : t) : bool := negb (ltb a b).
Definition leb (a b : t) : bool := negb (gtb a b).

End template_iterator.

Abbreviation iterator := template_iterator.t (only parsing).

Section circular_buffer.

Context {T : Type} `{!Sized T}.

(** The most objects a block can hold: the allocator serves no request above
    [PTRDIFF_MAX] bytes. *)
Definition max_slots : Z := PTRDIFF_MAX / sizeof.

(** ** The object, the free store, and computations *)

Record circular_buffer := Buffer {
  data_ : pointer;
  size_ : Z;
  capacity_ : Z;
  begin_ : Z
}.

(** Default member initialisers: [nullptr], 0, 0, 0. *)
Definition default_members : circular_buffer := Buffer nullptr 0 0 0.

Definition set_data_ (p : pointer) (b : circular_buffer) :=
  Buffer p (size_ b) (capacity_ b) (begin_ b).
Definition set_size_ (n : Z) (b : circular_buffer) :=
  Buffer (data_ b) n (capacity_ b) (begin_ b).
Definition set_capacity_ (n : Z) (b : circular_buffer) :=
  Buffer (data_ b) (size_ b) n (begin_ b).
Definition set_begin_ (n : Z) (b : circular_buffer) :=
  Buffer (data_ b) (size_ b) (capacity_ b) n.

(** What an execution leaves behind: blocks obtained and released, and
    destructor calls with the value destroyed. *)
Inductive event :=
  | EvNew (a : addr) (slots : Z)
  | EvDelete (a : addr)
  | EvDestroy (v : T).

Record world := World {
  heap : gmap nat (list (option T));
  faults : list bool;   (* [true]: the next fallible step throws *)
  trace : list event
}.

Definition set_heap (h : gmap nat (list (option T))) (w : world) :=
  World h (faults w) (trace w).
Definition set_faults (f : list bool) (w : world) := World (heap w) f (trace w).
Definition log (e : event) (w : world) := World (heap w) (faults w) (trace w ++ [e]).

(** A member function runs on the fields of [*this] and the store. *)
Record state := State { this : circular_buffer; mem : world }.

Inductive outcome (A : Type) :=
  | Normal (a : A) (s : state)   (* returns [a] *)
  | Thrown (s : state)           (* an exception leaves the function *)
  | Undefined.                   (* undefined behaviour *)
Arguments Normal {A} a s.
Arguments Thrown {A} s.
Arguments Undefined {A}.

Definition M (A : Type) : Type := state → outcome A.

Definition ret {A} (a : A) : M A := λ s, Normal a s.
Definition bind {A B} (m : M A) (f : A → M B) : M B :=
  λ s, match m s with
       | Normal a s' => f a s'
       | Thrown s' => Thrown s'
       | Undefined => Undefined
       end.
Definition throw {A} : M A := λ s, Thrown s.
Definition undefined {A} : M A := λ _, Undefined.

#[local] Instance M_ret : MRet M := @ret.
#[local] Instance M_bind : MBind M := λ A B f m, bind m f.

(** Stack unwinding: when [m] throws, [cleanup] (destructors of the locals)
    runs and the exception goes on.  Destructors are [noexcept]. *)
Definition on_throw {A} (m : M A) (cleanup : M unit) : M A :=
  λ s, match m s with
       | Thrown s' =>
           match cleanup s' with
           | Normal _ s'' => Thrown s''
           | _ => Undefined
           end
       | r => r
       end.

(** A member function called on another object [obj] (a local): it runs with
    [obj] as [*this]; the caller gets the local back. *)
Definition on_object {A} (obj : circular_buffer) (m : M A) : M (A * circular_buffer) :=
  λ s, match m (State obj (mem s)) with
       | Normal a s' => Normal (a, this s') (State (this s) (mem s'))
       | Thrown s' => Thrown (State (this s) (mem s'))
       | Undefined => Undefined
       end.

Definition get_this : M circular_buffer := λ s, Normal (this s) s.
Definition modify_this (f : circular_buffer → circular_buffer) : M unit :=
  λ s, Normal tt (State (f (this s)) (mem s)).
Definition get_world : M world := λ s, Normal (mem s) s.
Definition modify_world (f : world → world) : M unit :=
  λ s, Normal tt (State (this s) (f (mem s))).

(** [a % b] on [std::size_t]; division by zero is undefined. *)
Definition umod (a b : Z) : M Z :=
  if decide (b = 0) then undefined else ret (a mod b).

(** A fallible step consults the schedule. *)
Definition may_throw : M unit :=
  λ s, match faults (mem s) with
       | [] => Normal tt s
       | false :: fs => Normal tt (State (this s) (set_faults fs (mem s)))
       | true :: fs => Thrown (State (this s) (set_faults fs (mem s)))
       end.

(** ** Storage primitives *)

(** [operator new(bytes)]: raw storage of [bytes] bytes, that is, room for
    [bytes / sizeof(T)] objects, all vacant, at an address not in use; or
    [std::bad_alloc], as the schedule says and for every request above
    [PTRDIFF_MAX] bytes. *)
Definition operator_new (bytes : Z) : M pointer :=
  if decide (PTRDIFF_MAX < bytes) then throw
  else
    may_throw;;
    w ← get_world;
    let a := fresh (dom (heap w)) in
    let slots := bytes / sizeof in
    modify_world (λ w, log (EvNew a slots)
                    (set_heap (<[a := replicate (Z.to_nat slots) None]> (heap w)) w));;
    ret (Some a).

(** [operator delete(p)]: nothing for [nullptr]. *)
Definition operator_delete (p : pointer) : M unit :=
  match p with
  | None => ret tt
  | Some a =>
      w ← get_world;
      match heap w !! a with
      | None => undefined
      | Some _ => modify_world (λ w, log (EvDelete a) (set_heap (delete a (heap w)) w))
      end
  end.

(** The value of the live object in slot [i] of the block at [p]. *)
Definition slot_value (w : world) (p : pointer) (i : Z) : option T :=
  a ← p; blk ← heap w !! a;
  if decide (0 ≤ i) then mjoin (blk !! Z.to_nat i) else None.

(** Reading through [data_[i]]. *)
Definition load (p : pointer) (i : Z) : M T :=
  w ← get_world;
  match slot_value w p i with
  | Some v => ret v
  | None => undefined
  end.

(** Overwriting slot [i] of the block at [p], in range. *)
Definition store (p : pointer) (i : Z) (x : option T) : M unit :=
  w ← get_world;
  match p with
  | None => undefined
  | Some a =>
      match heap w !! a with
      | None => undefined
      | Some blk =>
          if decide (0 ≤ i < Z.of_nat (length blk)) then
            modify_world (set_heap (<[a := <[Z.to_nat i := x]> blk]> (heap w)))
          else undefined
      end
  end.

(** [new (p + i) T(val)]: the copy constructor may throw; then slot [i]
    holds a copy of [val]. *)
Definition construct (p : pointer) (i : Z) (val : T) : M unit :=
  w ← get_world;
  match p with
  | None => undefined
  | Some a =>
      match heap w !! a with
      | None => undefined
      | Some blk =>
          if decide (0 ≤ i < Z.of_nat (length blk)) then
            may_throw;; store p i (Some val)
          else undefined
      end
  end.

(** [p[i].~T()]: the slot must hold a live object. *)
Definition destroy (p : pointer) (i : Z) : M unit :=
  v ← load p i;
  store p i None;;
  modify_world (log (EvDestroy v)).

(** [std::swap(p[i], p[j])] on live objects; the element swap does not throw. *)
Definition swap_slots (p : pointer) (i j : Z) : M unit :=
  x ← load p i;
  y ← load p j;
  store p i (Some y);;
  store p j (Some x).

(** ** Handles into the store *)

(** The slot [pos_ % size_] a handle designates. *)
Definition slot_of (it : iterator) : M Z :=
  umod (template_iterator.pos_ it) (template_iterator.size_ it).

(** [*it] as a value *)
Definition deref (it : iterator) : M T :=
  i ← slot_of it; load (template_iterator.data_ it) i.

(** [std::iter_swap(a, b)] *)
Definition iter_swap (a b : iterator) : M unit :=
  i ← slot_of a;
  j ← slot_of b;
  if decide (template_iterator.data_ a = template_iterator.data_ b)
  then swap_slots (template_iterator.data_ a) i j
  else undefined.

(** [std::_Destroy(first, first + n)]: the roll-back of a failed
    [std::uninitialized_copy], in forward order. *)
Fixpoint destroy_range (n : nat) (first : iterator) : M unit :=
  match n with
  | O => ret tt
  | S n' =>
      i ← slot_of first;
      destroy (template_iterator.data_ first) i;;
      destroy_range n' (template_iterator.incr first)
  end.

(** The loop of [std::uninitialized_copy]: [n] elements from [first] are
    copy-constructed at [cur], [cur + 1], ...; if a copy throws, the objects
    built from [d_first] on are destroyed and the exception goes on. *)
Fixpoint uninitialized_copy_loop (n : nat) (first d_first cur : iterator) : M iterator :=
  match n with
  | O => ret cur
  | S n' =>
      v ← deref first;
      i ← slot_of cur;
      on_throw (construct (template_iterator.data_ cur) i v)
        (destroy_range
           (Z.to_nat (to_size_t (template_iterator.pos_ cur - template_iterator.pos_ d_first)))
           d_first);;
      uninitialized_copy_loop n' (template_iterator.incr first) d_first
        (template_iterator.incr cur)
  end.

(** [std::uninitialized_copy(first, last, d_first)].  The loop
    [for (; first != last; ++first, ++cur)] takes
    [last.pos_ - first.pos_] (unsigned) steps over one block. *)
Definition uninitialized_copy (first last d_first : iterator) : M iterator :=
  if decide (template_iterator.data_ first = template_iterator.data_ last) then
    uninitialized_copy_loop
      (Z.to_nat (to_size_t (template_iterator.pos_ last - template_iterator.pos_ first)))
      first d_first d_first
  else undefined.

(** ** Observers of [circular_buffer] *)

Definition size (b : circular_buffer) : Z := size_ b.
Definition empty (b : circular_buffer) : bool := bool_decide (size b = 0).
Definition capacity (b : circular_buffer) : Z := capacity_ b.

Definition begin (b : circular_buffer) : iterator :=
  template_iterator.mk (data_ b) (begin_ b) (capacity b).
Definition end_ (b : circular_buffer) : iterator :=
  template_iterator.add (begin b) (to_ptrdiff_t (size b)).

(** [operator[](index)], [front()] and [back()], as the value read *)
Definition subscript (index : Z) : M T :=
  b ← get_this;
  i ← umod (to_size_t (begin_ b + index)) (capacity b);
  load (data_ b) i.
Definition front : M T :=
  b ← get_this; load (data_ b) (begin_ b).
Definition back : M T :=
  b ← get_this;
  i ← umod (to_size_t (begin_ b + size b - 1)) (capacity b);
  load (data_ b) i.

(** ** Construction, destruction, swap *)

(** [explicit circular_buffer(std::size_t capacity)] (private): no block for
    capacity 0, and otherwise [operator new(sizeof(T) * capacity)], where
    the byte count is a product in [std::size_t] and wraps around. *)
Definition constructor_capacity (capacity : Z) : M unit :=
  p ← (if decide (capacity = 0) then ret nullptr
       else operator_new (to_size_t (sizeof * capacity)));
  modify_this (λ _, Buffer p 0 capacity 0).

(** [swap(left, right)]: all four fields change sides. *)
Definition swap (left right : circular_buffer) : circular_buffer * circular_buffer :=
  (Buffer (data_ right) (size_ right) (capacity_ right) (begin_ right),
   Buffer (data_ left) (size_ left) (capacity_ left) (begin_ left)).

(** [swap] applied to [*this] and [other]; the result is the new [other]. *)
Definition swap_with (other : circular_buffer) : M circular_buffer :=
  b ← get_this;
  modify_this (λ _, (swap b other).1);;
  ret (swap b other).2.

Definition pop_back : M unit :=
  b ← get_this;
  i ← umod (to_size_t (begin_ b + size b - 1)) (capacity b);
  destroy (data_ b) i;;
  modify_this (λ b, set_size_ (to_size_t (size_ b - 1)) b).

Definition pop_front : M unit :=
  b ← get_this;
  destroy (data_ b) (begin_ b);;
  i ← umod (to_size_t (begin_ b + 1)) (capacity b);
  modify_this (set_begin_ i);;
  modify_this (λ b, set_size_ (to_size_t (size_ b - 1)) b).

(** [while (!empty()) pop_back();] with the size as fuel *)
Fixpoint clear_loop (fuel : nat) : M unit :=
  b ← get_this;
  if empty b then ret tt
  else match fuel with
       | O => undefined
       | S fuel' => pop_back;; clear_loop fuel'
       end.

Definition clear : M unit :=
  b ← get_this; clear_loop (Z.to_nat (size b)).

(** [~circular_buffer()] *)
Definition destructor : M unit :=
  clear;;
  b ← get_this;
  operator_delete (data_ b).

(** The destructor of a local [obj] at the end of its scope. *)
Definition destroy_object (obj : circular_buffer) : M unit :=
  on_object obj destructor;; ret tt.

(** ** Growth *)

Definition insert_with_copy (pos : iterator) (val : T) : M iterator :=
  b ← get_this;
  let idx := to_size_t (template_iterator.diff pos (begin b)) in
  '(_, tmp) ← on_object default_members
    (constructor_capacity (if decide (capacity b = 0) then 1 else to_size_t (capacity b * 2)));
  on_throw
    (uninitialized_copy (begin b) (template_iterator.add (begin b) (to_ptrdiff_t idx)) (begin tmp))
    (destroy_object tmp);;
  let tmp := set_size_ (to_size_t (size_ tmp + idx)) tmp in
  i ← umod (to_size_t (begin_ tmp + size tmp)) (capacity tmp);
  on_throw (construct (data_ tmp) i val) (destroy_object tmp);;
  let tmp := set_size_ (to_size_t (size_ tmp + 1)) tmp in
  on_throw
    (uninitialized_copy (template_iterator.add (begin b) (to_ptrdiff_t idx)) (end_ b) (end_ tmp))
    (destroy_object tmp);;
  let tmp := set_size_ (to_size_t (size b + 1)) tmp in
  tmp ← swap_with tmp;
  b ← get_this;
  destroy_object tmp;;
  ret (template_iterator.add (begin b) (to_ptrdiff_t idx)).

(** ** Copying *)

(** [circular_buffer(const circular_buffer& other)].  The delegated-to
    constructor has completed when the copy starts, so a failing copy runs
    the destructor of the new object. *)
Definition copy_constructor (other : circular_buffer) : M unit :=
  constructor_capacity (capacity other);;
  modify_this (set_begin_ (begin_ other));;
  b ← get_this;
  on_throw (uninitialized_copy (begin other) (end_ other) (begin b)) destructor;;
  modify_this (set_size_ (size other)).

(** [operator=(const circular_buffer& other)]; [same_object] is
    [this == &other]. *)
Definition operator_assign (same_object : bool) (other : circular_buffer) : M unit :=
  if same_object then ret tt
  else
    '(_, tmp) ← on_object default_members (copy_constructor other);
    tmp ← swap_with tmp;
    destroy_object tmp.

(** ** Pushing at the ends, reserving *)

Definition push_back (val : T) : M unit :=
  b ← get_this;
  if decide (size b = capacity b) then
    insert_with_copy (end_ b) val;; ret tt
  else
    i ← umod (to_size_t (begin_ b + size b)) (capacity b);
    construct (data_ b) i val;;
    modify_this (λ b, set_size_ (to_size_t (size_ b + 1)) b).

Definition push_front (val : T) : M unit :=
  b ← get_this;
  if decide (size b = capacity b) then
    insert_with_copy (begin b) val;; ret tt
  else
    new_begin ← umod (to_size_t (begin_ b + capacity b - 1)) (capacity b);
    construct (data_ b) new_begin val;;
    modify_this (set_begin_ new_begin);;
    modify_this (λ b, set_size_ (to_size_t (size_ b + 1)) b).

Definition reserve (desired_capacity : Z) : M unit :=
  b ← get_this;
  if decide (capacity b < desired_capacity) then
    '(_, tmp) ← on_object default_members (constructor_capacity desired_capacity);
    on_throw (uninitialized_copy (begin b) (end_ b) (begin tmp)) (destroy_object tmp);;
    let tmp := set_size_ (size b) tmp in
    tmp ← swap_with tmp;
    destroy_object tmp
  else ret tt.

(** ** Insertion and removal at a position *)

(** [for (i = 0; i < idx; ++i) { std::iter_swap(cur, cur + 1); ++cur; }] *)
Fixpoint insert_front_loop (n : nat) (cur : iterator) : M unit :=
  match n with
  | O => ret tt
  | S n' =>
      iter_swap cur (template_iterator.add cur 1);;
      insert_front_loop n' (template_iterator.incr cur)
  end.

(** [for (i = 0; i < size() - idx - 1; ++i) { std::iter_swap(cur, cur - 1); --cur; }] *)
Fixpoint insert_back_loop (n : nat) (cur : iterator) : M unit :=
  match n with
  | O => ret tt
  | S n' =>
      iter_swap cur (template_iterator.sub cur 1);;
      insert_back_loop n' (template_iterator.decr cur)
  end.

Definition insert (pos : iterator) (val : T) : M iterator :=
  b ← get_this;
  if decide (size b = capacity b) then insert_with_copy pos val
  else
    let idx := to_size_t (template_iterator.diff pos (begin b)) in
    (if decide (template_iterator.diff pos (begin b) < template_iterator.diff (end_ b) pos) then
       push_front val;;
       b ← get_this;
       insert_front_loop (Z.to_nat idx) (begin b)
     else
       push_back val;;
       b ← get_this;
       insert_back_loop (Z.to_nat (to_size_t (size b - idx - 1)))
         (template_iterator.sub (end_ b) 1));;
    b ← get_this;
    ret (template_iterator.add (begin b) (to_ptrdiff_t idx)).

(** [while (first > begin()) { --first; --last; std::swap(...); }]; the
    distance from [begin()] to [first] is enough fuel. *)
Fixpoint erase_front_loop (fuel : nat) (first last : iterator) : M (iterator * iterator) :=
  b ← get_this;
  if template_iterator.gtb first (begin b) then
    match fuel with
    | O => undefined
    | S fuel' =>
        let first := template_iterator.decr first in
        let last := template_iterator.decr last in
        i ← umod (template_iterator.pos_ first) (capacity b);
        j ← umod (template_iterator.pos_ last) (capacity b);
        swap_slots (data_ b) i j;;
        erase_front_loop fuel' first last
    end
  else ret (first, last).

(** [while (last < end()) { std::swap(...); ++first; ++last; }]; the
    distance from [last] to [end()] is enough fuel. *)
Fixpoint erase_back_loop (fuel : nat) (first last : iterator) : M (iterator * iterator) :=
  b ← get_this;
  if template_iterator.ltb last (end_ b) then
    match fuel with
    | O => undefined
    | S fuel' =>
        i ← umod (template_iterator.pos_ first) (capacity b);
        j ← umod (template_iterator.pos_ last) (capacity b);
        swap_slots (data_ b) i j;;
        erase_back_loop fuel' (template_iterator.incr first) (template_iterator.incr last)
    end
  else ret (first, last).

(** [for (std::ptrdiff_t i = n; i > 0; i--) pop();] *)
Fixpoint repeat_pop (pop : M unit) (n : nat) : M unit :=
  match n with
  | O => ret tt
  | S n' => pop;; repeat_pop pop n'
  end.

(** [erase(first, last)] *)
Definition erase (first last : iterator) : M iterator :=
  b ← get_this;
  let diff := template_iterator.diff first (begin b) in
  (if decide (template_iterator.diff first (begin b) < template_iterator.diff (end_ b) last) then
     '(first, last) ← erase_front_loop (Z.to_nat diff) first last;
     repeat_pop pop_front (Z.to_nat (template_iterator.diff last first))
   else
     '(first, last) ← erase_back_loop (Z.to_nat (template_iterator.diff (end_ b) last)) first last;
     repeat_pop pop_back (Z.to_nat (template_iterator.diff last first)));;
  b ← get_this;
  ret (template_iterator.add (begin b) diff).

(** [erase(pos)] *)
Definition erase_one (pos : iterator) : M iterator :=
  erase pos (template_iterator.add pos 1).

(** ** The logical sequence and well-formed objects *)

(** The value at logical index [i], through the wrap-around mapping of
    [operator[]]. *)
Definition peek (b : circular_buffer) (w : world) (i : Z) : option T :=
  if decide (capacity b = 0) then None
  else slot_value w (data_ b) (to_size_t (begin_ b + i) mod capacity b).

(** The logical sequence, front to back; [None] when some slot of the
    window is vacant or out of the block. *)
Definition to_list (b : circular_buffer) (w : world) : option (list T) :=
  mapM (λ i : nat, peek b w (Z.of_nat i)) (seq 0 (Z.to_nat (size b))).

(** The block [b] owns: none for capacity 0, and otherwise one of
    [capacity b] slots in the store. *)
Definition owns_block (b : circular_buffer) (w : world) : bool :=
  match data_ b with
  | None => bool_decide (capacity b = 0)
  | Some a =>
      match heap w !! a with
      | None => false
      | Some blk =>
          bool_decide (0 < capacity b) && bool_decide (length blk = Z.to_nat (capacity b))
      end
  end.

(** Well-formed objects: the invariants of the class. *)
Definition wf (b : circular_buffer) (w : world) : bool :=
  bool_decide (0 ≤ size b ≤ capacity b)
  && bool_decide (capacity b ≤ max_slots)
  && bool_decide (0 ≤ begin_ b)
  && bool_decide (begin_ b < capacity b ∨ begin_ b = 0 ∧ capacity b = 0)
  && owns_block b w
  && bool_decide (is_Some (to_list b w)).

(** ** Notions used by the specifications *)

(** [Repr b w l]: the object [b] is well formed in the store [w] and its
    logical sequence is [l]. *)
Definition Repr (b : circular_buffer) (w : world) (l : list T) : Prop :=
  size_ b = Z.of_nat (length l) ∧
  size_ b ≤ capacity_ b ≤ max_slots ∧
  match data_ b with
  | None => capacity_ b = 0 ∧ begin_ b = 0
  | Some a =>
      0 ≤ begin_ b < capacity_ b ∧
      ∃ blk, heap w !! a = Some blk ∧
             length blk = Z.to_nat (capacity_ b) ∧
             ∀ (i : nat) v, l !! i = Some v →
               blk !! Z.to_nat ((begin_ b + Z.of_nat i) mod capacity_ b) = Some (Some v)
  end.

(** [handle b it k]: [it] designates logical position [k] of [b], that is,
    [it] is [begin() + k]. *)
Definition handle (b : circular_buffer) (it : iterator) (k : Z) : Prop :=
  template_iterator.data_ it = data_ b ∧
  template_iterator.size_ it = capacity_ b ∧
  template_iterator.pos_ it = begin_ b + k.

(** [inplace s s' evs]: from [s] to [s'] only the block owned by [*this] was
    written, no block was obtained or released, and [evs] was traced. *)
Definition inplace (s s' : state) (evs : list event) : Prop :=
  data_ (this s') = data_ (this s) ∧
  capacity_ (this s') = capacity_ (this s) ∧
  faults (mem s') = faults (mem s) ∧
  trace (mem s') = trace (mem s) ++ evs ∧
  match data_ (this s) with
  | None => heap (mem s') = heap (mem s)
  | Some a =>
      ∃ blk blk', heap (mem s) !! a = Some blk ∧ length blk' = length blk ∧
                  heap (mem s') = <[a := blk']> (heap (mem s))
  end.

(** What the destructor of an object with sequence [l] traces: the elements
    from the back to the front, then the release of its block. *)
Definition destructor_trace (b : circular_buffer) (l : list T) : list event :=
  (EvDestroy <$> reverse l) ++
  match data_ b with Some a => [EvDelete a] | None => [] end.

Definition release (p : pointer) (h : gmap nat (list (option T))) :=
  match p with Some a => delete a h | None => h end.

(** The state after a fallible step that did not throw. *)
Definition tick (s : state) : state :=
  State (this s) (set_faults (tail (faults (mem s))) (mem s)).

(** The next fallible step throws. *)
Definition next_fails (s : state) : Prop := head (faults (mem s)) = Some true.

(** [fill blk p c xs]: the block [blk] after [xs] has been written to the
    slots [p % c], [(p + 1) % c], ... in turn. *)
Fixpoint fill (blk : list (option T)) (p c : Z) (xs : list (option T)) : list (option T) :=
  match xs with
  | [] => blk
  | x :: xs' => fill (<[Z.to_nat (p mod c) := x]> blk) (p + 1) c xs'
  end.

(** The first of the next [n] fallible steps that throws, if any. *)
Fixpoint first_fault (n : nat) (f : list bool) : option nat :=
  match n with
  | O => None
  | S n' =>
      match f with
      | true :: _ => Some O
      | _ => S <$> first_fault n' (tail f)
      end
  end.

(** A block of [c] vacant slots in which the run from slot [p] holds [l]. *)
Definition run_block (c p : Z) (l : list T) : list (option T) :=
  fill (replicate (Z.to_nat c) None) p c (Some <$> l).


(** The capacity after growth. *)
Definition grown_capacity (c : Z) : Z := if decide (c = 0) then 1 else 2 * c.

(** The capacity after [n] pushes onto a default-constructed buffer: 0, then
    the least power of two that is at least [n]. *)
Definition doubling (n : nat) : Z :=
  if decide (n = O) then 0 else 2 ^ Z.log2_up (Z.of_nat n).

(** The client loop [for (v : vs) c.push_back(v);]. *)
Fixpoint push_back_all (vs : list T) : M unit :=
  match vs with
  | [] => ret tt
  | v :: vs' => push_back v;; push_back_all vs'
  end.

(** [frame s s']: from [s] to [s'] every block other than the one owned by
    [*this] is untouched, and the block [*this] owns afterwards is the old
    one or one that was not in the store. *)
Definition frame (s s' : state) : Prop :=
  (∀ a, data_ (this s) ≠ Some a → is_Some (heap (mem s) !! a) →
        heap (mem s') !! a = heap (mem s) !! a) ∧
  (data_ (this s') = None ∨ data_ (this s') = data_ (this s) ∨
   ∃ a', data_ (this s') = Some a' ∧ heap (mem s) !! a' = None) ∧
  faults (mem s') `suffix_of` faults (mem s).

(** The block and the events of a copy of [other]. *)
Definition copy_of (other : circular_buffer) (a' : nat) : circular_buffer :=
  Buffer (if decide (capacity_ other = 0) then None else Some a')
    (size_ other) (capacity_ other) (begin_ other).

Definition copy_heap (other : circular_buffer) (a' : nat) (l : list T)
    (h : gmap nat (list (option T))) : gmap nat (list (option T)) :=
  if decide (capacity_ other = 0) then h
  else <[a' := run_block (capacity_ other) (begin_ other) l]> h.

Definition copy_trace (other : circular_buffer) (a' : nat) : list event :=
  if decide (capacity_ other = 0) then [] else [EvNew a' (capacity_ other)].

(** ** Programs over several objects *)

(** Objects live under names; the blocks they own are in one store. *)
Record machine := Machine {
  objects : gmap nat circular_buffer;
  mworld : world
}.

(** The public operations that change an object ([size()], [begin()],
    [operator[]] and the other observers change nothing).  Positions are
    given by their logical index. *)
Inductive op :=
  | Default (x : nat)                  (* circular_buffer x; *)
  | Copy (x y : nat)                   (* circular_buffer x(y); *)
  | Assign (x y : nat)                 (* x = y; *)
  | Destroy (x : nat)                  (* the lifetime of x ends *)
  | Swap (x y : nat)                   (* swap(x, y); *)
  | PushBack (x : nat) (v : T)
  | PushFront (x : nat) (v : T)
  | PopBack (x : nat)
  | PopFront (x : nat)
  | Reserve (x : nat) (n : Z)
  | Insert (x : nat) (k : Z) (v : T)   (* x.insert(x.begin() + k, v); *)
  | Erase (x : nat) (k : Z)            (* x.erase(x.begin() + k); *)
  | EraseRange (x : nat) (i j : Z)     (* x.erase(x.begin() + i, x.begin() + j); *)
  | Clear (x : nat).

Inductive result :=
  | Done (m : machine)
  | Raised (m : machine)   (* the call threw; the caller goes on *)
  | UB.

(** A member function [f] called on the object named [x], within its
    precondition [pre]. *)
Definition call {A} (x : nat) (pre : circular_buffer → bool)
    (f : circular_buffer → M A) (m : machine) : result :=
  match objects m !! x with
  | None => UB
  | Some b =>
      if pre b then
        match f b (State b (mworld m)) with
        | Normal _ s' => Done (Machine (<[x := this s']> (objects m)) (mem s'))
        | Thrown s' => Raised (Machine (<[x := this s']> (objects m)) (mem s'))
        | Undefined => UB
        end
      else UB
  end.

(** One operation of a client.  Calls outside their precondition (popping
    from an empty buffer, a position out of range, a name not in scope) are
    undefined behaviour.  The argument of [reserve] is any [std::size_t]. *)
Definition step (o : op) (m : machine) : result :=
  match o with
  | Default x =>
      match objects m !! x with
      | Some _ => UB
      | None => Done (Machine (<[x := default_members]> (objects m)) (mworld m))
      end
  | Copy x y =>
      match objects m !! x, objects m !! y with
      | None, Some other =>
          match copy_constructor other (State default_members (mworld m)) with
          | Normal _ s' => Done (Machine (<[x := this s']> (objects m)) (mem s'))
          | Thrown s' => Raised (Machine (objects m) (mem s'))
          | Undefined => UB
          end
      | _, _ => UB
      end
  | Assign x y =>
      match objects m !! y with
      | Some other =>
          call x (λ _, true) (λ _, operator_assign (bool_decide (x = y)) other) m
      | None => UB
      end
  | Destroy x =>
      match objects m !! x with
      | Some b =>
          match destructor (State b (mworld m)) with
          | Normal _ s' => Done (Machine (delete x (objects m)) (mem s'))
          | _ => UB
          end
      | None => UB
      end
  | Swap x y =>
      match objects m !! x, objects m !! y with
      | Some l, Some r =>
          Done (Machine (<[y := (swap l r).2]> (<[x := (swap l r).1]> (objects m)))
                  (mworld m))
      | _, _ => UB
      end
  | PushBack x v => call x (λ _, true) (λ _, push_back v) m
  | PushFront x v => call x (λ _, true) (λ _, push_front v) m
  | PopBack x => call x (λ b, negb (empty b)) (λ _, pop_back) m
  | PopFront x => call x (λ b, negb (empty b)) (λ _, pop_front) m
  | Reserve x n => call x (λ _, bool_decide (0 ≤ n < SIZE_MODULUS)) (λ _, reserve n) m
  | Insert x k v =>
      call x (λ b, bool_decide (0 ≤ k ≤ size b))
        (λ b, insert (template_iterator.add (begin b) k) v) m
  | Erase x k =>
      call x (λ b, bool_decide (0 ≤ k < size b))
        (λ b, erase_one (template_iterator.add (begin b) k)) m
  | EraseRange x i j =>
      call x (λ b, bool_decide (0 ≤ i ≤ j ≤ size b))
        (λ b, erase (template_iterator.add (begin b) i) (template_iterator.add (begin b) j)) m
  | Clear x => call x (λ _, true) (λ _, clear) m
  end.

(** [fits o]: the byte count [sizeof(T) * n] of the block that the
    reservation [o] asks for does not wrap around in [std::size_t]; every
    other operation fits. *)
Definition fits (o : op) : bool :=
  match o with
  | Reserve _ n => bool_decide (sizeof * n < SIZE_MODULUS)
  | _ => true
  end.

(** The states a client can reach from no object at all and an empty store,
    under any schedule of faults, when every reservation it makes [fits]. *)
Inductive reachable : machine → Prop :=
  | reachable_init f : reachable (Machine ∅ (World ∅ f []))
  | reachable_done o m m' :
      reachable m → fits o = true → step o m = Done m' → reachable m'
  | reachable_raised o m m' :
      reachable m → fits o = true → step o m = Raised m' → reachable m'.

(** A client program whose reservations [fit]: operations run one after the
    other, each returning or throwing. *)
Inductive steps : list op → machine → machine → Prop :=
  | steps_nil m : steps [] m m
  | steps_done o os m m' m'' :
      fits o = true → step o m = Done m' → steps os m' m'' → steps (o :: os) m m''
  | steps_raised o os m m' m'' :
      fits o = true → step o m = Raised m' → steps os m' m'' → steps (o :: os) m m''.

(** The states a client can reach when its reservations are arbitrary: a
    superset of [reachable].  (Where a handle sum overflows
    [std::ptrdiff_t], which the source leaves undefined, [step] goes on with
    the wrapped-around value: that only adds states.) *)
Inductive reachable_any : machine → Prop :=
  | reachable_any_init f : reachable_any (Machine ∅ (World ∅ f []))
  | reachable_any_done o m m' :
      reachable_any m → step o m = Done m' → reachable_any m'
  | reachable_any_raised o m m' :
      reachable_any m → step o m = Raised m' → reachable_any m'.

(** Every object is well formed and no two objects share a block. *)
Definition machine_inv (m : machine) : Prop :=
  (∀ x b, objects m !! x = Some b → ∃ l, Repr b (mworld m) l) ∧
  (∀ x y b c a, x ≠ y → objects m !! x = Some b → objects m !! y = Some c →
                data_ b = Some a → data_ c ≠ Some a).

(** [good s s']: a step on [*this] that keeps it well formed and stays
    within its footprint. *)
Definition good (s s' : state) : Prop :=
  (∃ l', Repr (this s') (mem s') l') ∧ frame s s'.

(** The objects an operation may change. *)
Definition writes (o : op) : list nat :=
  match o with
  | Default x | Copy x _ | Assign x _ | Destroy x
  | PushBack x _ | PushFront x _ | PopBack x | PopFront x
  | Reserve x _ | Insert x _ _ | Erase x _ | EraseRange x _ _ | Clear x => [x]
  | Swap x y => [x; y]
  end.

(** [safe f s]: running [f] from [s] has defined behaviour and, whether it
    returns or throws, takes a [good] step. *)
Definition safe {A} (f : M A) (s : state) : Prop :=
  match f s with
  | Normal _ s' => good s s'
  | Thrown s' => good s s'
  | Undefined => False
  end.

(** [others_kept m m' ws]: the objects not named in [ws] are the same in [m']
    as in [m], with the same logical sequence. *)
Definition others_kept (m m' : machine) (ws : list nat) : Prop :=
  ∀ z c, z ∉ ws → objects m !! z = Some c →
         objects m' !! z = Some c ∧ ∀ l, Repr c (mworld m) l → Repr c (mworld m') l.

(** ** Footprints and preconditions of the operations *)

(** [tight s s']: every block in the store after the step is the block of
    [*this] or was in the store before and was not the block of [*this]:
    the step left no block behind. *)
Definition tight (s s' : state) : Prop :=
  ∀ a, is_Some (heap (mem s') !! a) →
       data_ (this s') = Some a ∨
       (is_Some (heap (mem s) !! a) ∧ data_ (this s) ≠ Some a).

(** [footprint s s']: a [tight] step that did not shrink the capacity and
    kept the block unless the capacity grew. *)
Definition footprint (s s' : state) : Prop :=
  tight s s' ∧
  capacity_ (this s) ≤ capacity_ (this s') ∧
  (capacity_ (this s') = capacity_ (this s) → data_ (this s') = data_ (this s)).

(** [within f s]: wherever [f] returns or throws from [s], it stayed within
    its [footprint]. *)
Definition within {A} (f : M A) (s : state) : Prop :=
  match f s with
  | Normal _ s' => footprint s s'
  | Thrown s' => footprint s s'
  | Undefined => True
  end.

(** Every block of the store belongs to an object. *)
Definition owned (m : machine) : Prop :=
  ∀ a, is_Some (heap (mworld m) !! a) →
       ∃ x b, objects m !! x = Some b ∧ data_ b = Some a.

(** The precondition of an operation: the names it uses are in scope (and
    the name it declares is not), a buffer popped from is not empty,
    positions are within [begin(), end()], and the byte count of a
    reservation does not wrap around. *)
Definition admissible (o : op) (m : machine) : bool :=
  match o with
  | Default x => bool_decide (objects m !! x = None)
  | Copy x y =>
      bool_decide (objects m !! x = None) && bool_decide (is_Some (objects m !! y))
  | Assign x y | Swap x y =>
      bool_decide (is_Some (objects m !! x)) && bool_decide (is_Some (objects m !! y))
  | Destroy x | PushBack x _ | PushFront x _ | Clear x =>
      bool_decide (is_Some (objects m !! x))
  | PopBack x | PopFront x =>
      match objects m !! x with Some b => negb (empty b) | None => false end
  | Reserve x n =>
      bool_decide (is_Some (objects m !! x))
      && bool_decide (0 ≤ n ∧ sizeof * n < SIZE_MODULUS)
  | Insert x k _ =>
      match objects m !! x with
      | Some b => bool_decide (0 ≤ k ≤ size b)
      | None => false
      end
  | Erase x k =>
      match objects m !! x with
      | Some b => bool_decide (0 ≤ k < size b)
      | None => false
      end
  | EraseRange x i j =>
      match objects m !! x with
      | Some b => bool_decide (0 ≤ i ≤ j ≤ size b)
      | None => false
      end
  end.

(** The operations the source marks [nothrow] or [noexcept]. *)
Definition nothrow (o : op) : bool :=
  match o with
  | Default _ | Destroy _ | Swap _ _ | PopBack _ | PopFront _ | Clear _ => true
  | _ => false
  end.

(** The member functions that change the elements of one buffer. *)
Definition element_update (o : op) : bool :=
  match o with
  | PushBack _ _ | PushFront _ _ | PopBack _ | PopFront _ | Reserve _ _
  | Insert _ _ _ | Erase _ _ | EraseRange _ _ _ | Clear _ => true
  | _ => false
  end.

(** ** What holds of the fields whatever the store holds *)

(** [ends f s N E]: if [f] returns [a] from [s], the final state satisfies
    [N a]; if it throws, the final state satisfies [E]. *)
Definition ends {A} (f : M A) (s : state) (N : A → state → Prop) (E : state → Prop) : Prop :=
  match f s with
  | Normal a s' => N a s'
  | Thrown s' => E s'
  | Undefined => True
  end.

(** No block of the store has more slots than the allocator serves. *)
Definition bounded (w : world) : Prop :=
  ∀ a blk, heap w !! a = Some blk → Z.of_nat (length blk) ≤ max_slots.

(** [keeps P f]: wherever [f] returns or throws, the fields of [*this]
    before and after are related by [P], and the store stays [bounded]. *)
Definition keeps {A} (P : circular_buffer → circular_buffer → Prop) (f : M A) : Prop :=
  ∀ s, bounded (mem s) →
       ends f s (λ _ s', P (this s) (this s') ∧ bounded (mem s'))
         (λ s', P (this s) (this s') ∧ bounded (mem s')).

(** [quiet f]: [f] leaves the fields of [*this] as they are. *)
Definition quiet {A} (f : M A) : Prop := keeps eq f.

(** [tame f]: [f] keeps the store [bounded], whatever it does to the fields
    of [*this]. *)
Definition any (b b' : circular_buffer) : Prop := True.
Definition tame {A} (f : M A) : Prop := keeps any f.

(** The invariants of the fields alone: the size is within the capacity,
    the begin offset is within the capacity, and a buffer of capacity 0 owns
    no block. *)
Definition fields_ok (b : circular_buffer) : Prop :=
  0 ≤ size_ b ≤ capacity_ b ∧ capacity_ b < SIZE_MODULUS ∧
  (0 ≤ begin_ b < capacity_ b ∨ begin_ b = 0 ∧ capacity_ b = 0) ∧
  (capacity_ b = 0 → data_ b = nullptr).

Definition state_ok (s : state) : Prop := fields_ok (this s) ∧ bounded (mem s).

(** [sound f s]: wherever [f] returns or throws from [s], it leaves
    [state_ok]. *)
Definition sound {A} (f : M A) (s : state) : Prop := ends f s (λ _, state_ok) state_ok.

(** Every object has [fields_ok] and the store is [bounded]. *)
Definition machine_ok (m : machine) : Prop :=
  (∀ x b, objects m !! x = Some b → fields_ok b) ∧ bounded (mworld m).


(** ** Integer facts *)

Lemma max_slots_range : 0 ≤ max_slots ≤ PTRDIFF_MAX.
Proof.
  unfold max_slots. pose proof sizeof_pos. split.
  - apply Z.div_pos; [by unfold PTRDIFF_MAX|done].
  - apply Z.div_le_upper_bound; [done|]. unfold PTRDIFF_MAX in *. nia.
Qed.

(** A request for [n] objects is above [PTRDIFF_MAX] bytes exactly when [n]
    is above [max_slots]. *)
Lemma max_slots_bytes n : PTRDIFF_MAX < sizeof * n ↔ max_slots < n.
Proof.
  unfold max_slots. pose proof sizeof_pos. split.
  - intros Hb. apply Z.div_lt_upper_bound; [done|lia].
  - intros Hn. destruct (decide (PTRDIFF_MAX < sizeof * n)) as [|Hle]; [done|].
    exfalso. assert (n ≤ PTRDIFF_MAX / sizeof); [|lia].
    apply Z.div_le_lower_bound; [done|lia].
Qed.

Lemma bytes_slots n : sizeof * n / sizeof = n.
Proof. pose proof sizeof_pos. rewrite Z.mul_comm. apply Z.div_mul. lia. Qed.

Ltac unfold_int :=
  pose proof max_slots_range;
  unfold to_size_t, to_ptrdiff_t, SIZE_MODULUS, PTRDIFF_MAX in *.
Ltac solve_int :=
  unfold_int; repeat case_decide; Z.div_mod_to_equations; lia.

Lemma to_size_t_small z : 0 ≤ z < SIZE_MODULUS → to_size_t z = z.
Proof. intros. apply Z.mod_small. done. Qed.

Lemma to_ptrdiff_t_small z : 0 ≤ z ≤ PTRDIFF_MAX → to_ptrdiff_t z = z.
Proof. intros. solve_int. Qed.

Ltac norm_int :=
  repeat first
    [ rewrite Z.add_0_l | rewrite Z.add_0_r
    | rewrite to_size_t_small by (unfold_int; first [lia | Z.div_mod_to_equations; lia])
    | rewrite to_ptrdiff_t_small by (unfold_int; first [lia | Z.div_mod_to_equations; lia]) ].

Lemma to_ptrdiff_t_signed z :
  - PTRDIFF_MAX - 1 ≤ z ≤ PTRDIFF_MAX → to_ptrdiff_t (to_size_t z) = z.
Proof. intros. solve_int. Qed.

Lemma to_size_t_ptrdiff_add x n : to_size_t (to_ptrdiff_t x + n) = to_size_t (x + n).
Proof. solve_int. Qed.

Lemma to_size_t_ptrdiff_sub x n : to_size_t (to_ptrdiff_t x - n) = to_size_t (x - n).
Proof. solve_int. Qed.

Lemma to_ptrdiff_t_range z : - PTRDIFF_MAX - 1 ≤ to_ptrdiff_t z ≤ PTRDIFF_MAX.
Proof. solve_int. Qed.

Lemma to_size_t_ptrdiff z : to_size_t (to_ptrdiff_t z) = to_size_t z.
Proof. solve_int. Qed.

Lemma to_size_t_sub_l a b : to_size_t (to_size_t a - b) = to_size_t (a - b).
Proof. apply Zminus_mod_idemp_l. Qed.

Lemma to_size_t_sub_r a b : to_size_t (a - to_size_t b) = to_size_t (a - b).
Proof. apply Zminus_mod_idemp_r. Qed.

Lemma to_size_t_add_l a b : to_size_t (to_size_t a + b) = to_size_t (a + b).
Proof. apply Zplus_mod_idemp_l. Qed.

Lemma mod_wrap x c :
  0 < c → 0 ≤ x < 2 * c → x mod c = if decide (x < c) then x else x - c.
Proof.
  intros Hc Hx. case_decide.
  - apply Z.mod_small. lia.
  - symmetry. apply (Z.mod_unique_pos _ _ 1); lia.
Qed.

(** ** Running computations *)

Lemma bind_unfold {A B} (m : M A) (f : A → M B) s :
  (m ≫= f) s = match m s with
                | Normal a s' => f a s'
                | Thrown s' => Thrown s'
                | Undefined => Undefined
                end.
Proof. reflexivity. Qed.

Lemma bind_normal {A B} (m : M A) (f : A → M B) s a s' :
  m s = Normal a s' → (m ≫= f) s = f a s'.
Proof. intros H. rewrite bind_unfold, H. done. Qed.

Lemma bind_thrown {A B} (m : M A) (f : A → M B) s s' :
  m s = Thrown s' → (m ≫= f) s = Thrown s'.
Proof. intros H. rewrite bind_unfold, H. done. Qed.

Lemma bind_ret {A B} (a : A) (f : A → M B) s : (ret a ≫= f) s = f a s.
Proof. reflexivity. Qed.

Lemma bind_get_this {B} (f : circular_buffer → M B) s : (get_this ≫= f) s = f (this s) s.
Proof. reflexivity. Qed.

Lemma bind_get_world {B} (f : world → M B) s : (get_world ≫= f) s = f (mem s) s.
Proof. reflexivity. Qed.

Lemma bind_modify_this {B} g (f : unit → M B) s :
  (modify_this g ≫= f) s = f tt (State (g (this s)) (mem s)).
Proof. reflexivity. Qed.

Lemma bind_modify_world {B} g (f : unit → M B) s :
  (modify_world g ≫= f) s = f tt (State (this s) (g (mem s))).
Proof. reflexivity. Qed.

Lemma bind_assoc' {A B C} (m : M A) (f : A → M B) (g : B → M C) s :
  (m ≫= λ a, f a ≫= g) s = ((m ≫= f) ≫= g) s.
Proof. rewrite !bind_unfold. destruct (m s); done. Qed.

Lemma bind_ret_r {A} (m : M A) s : (m ≫= ret) s = m s.
Proof. rewrite bind_unfold. destruct (m s); done. Qed.

Ltac mstep :=
  repeat first
    [ rewrite bind_get_this | rewrite bind_get_world | rewrite bind_modify_this
    | rewrite bind_modify_world | rewrite bind_ret ];
  unfold set_heap, set_faults, log;
  cbn [this mem heap faults trace data_ size_ capacity_ begin_].

(** ** The representation relation *)

Lemma max_slots_lt : 2 * max_slots < SIZE_MODULUS.
Proof. unfold_int. lia. Qed.

Lemma slot_value_block w a blk i :
  heap w !! a = Some blk → 0 ≤ i →
  slot_value w (Some a) i = mjoin (blk !! Z.to_nat i).
Proof.
  intros Hblk Hi. unfold slot_value. simpl. rewrite Hblk. simpl.
  case_decide; [done | lia].
Qed.

Lemma mjoin_Some (x : option (option T)) v : mjoin x = Some v ↔ x = Some (Some v).
Proof. destruct x as [[?|]|]; simpl; naive_solver. Qed.

Lemma peek_block b w a blk i :
  data_ b = Some a → heap w !! a = Some blk → 0 < capacity_ b →
  0 ≤ begin_ b + i < SIZE_MODULUS →
  peek b w i = mjoin (blk !! Z.to_nat ((begin_ b + i) mod capacity_ b)).
Proof.
  intros Ha Hblk Hc Hi. unfold peek, capacity in *. case_decide; [lia|].
  rewrite Ha, to_size_t_small by done.
  apply slot_value_block; [done|]. apply Z.mod_pos_bound. lia.
Qed.

Lemma Repr_wf b w l : Repr b w l → wf b w = true ∧ to_list b w = Some l.
Proof.
  intros (Hsz & Hcap & Hd).
  assert (Hl : to_list b w = Some l).
  { unfold to_list, size. apply mapM_Some_2, Forall2_same_length_lookup_2.
    { rewrite length_seq. lia. }
    intros i j v Hi Hv. apply lookup_seq in Hi as [-> Hi]. simpl.
    destruct (data_ b) as [a|] eqn:Ha.
    - destruct Hd as (Hb & blk & Hblk & Hlen & Hall).
      pose proof max_slots_lt.
      erewrite peek_block; [|done|done|lia|lia].
      apply mjoin_Some. eauto.
    - apply lookup_lt_Some in Hv. lia. }
  split; [|done]. unfold wf, owns_block, size, capacity. rewrite Hl.
  destruct (data_ b) as [a|] eqn:Ha.
  - destruct Hd as (Hb & blk & Hblk & Hlen & Hall). rewrite Hblk.
    repeat (apply andb_true_intro; split); apply bool_decide_eq_true; eauto; lia.
  - repeat (apply andb_true_intro; split); apply bool_decide_eq_true; eauto; lia.
Qed.

Lemma wf_Repr b w l : wf b w = true → to_list b w = Some l → Repr b w l.
Proof.
  unfold wf, owns_block, size, capacity. intros Hwf Hl.
  repeat (apply andb_prop in Hwf as [Hwf ?]).
  repeat match goal with H : bool_decide _ = true |- _ => apply bool_decide_eq_true in H end.
  unfold to_list, size in Hl. apply mapM_Some_1 in Hl.
  pose proof (Forall2_length _ _ _ Hl) as Hlen. rewrite length_seq in Hlen.
  split; [lia|]. split; [lia|].
  destruct (data_ b) as [a|] eqn:Ha.
  - destruct (heap w !! a) as [blk|] eqn:Hblk; [|done].
    match goal with H : _ && _ = true |- _ => apply andb_prop in H as [Hc Hbl] end.
    apply bool_decide_eq_true in Hc, Hbl.
    split; [lia|]. exists blk. split; [done|]. split; [done|].
    intros i v Hv.
    assert (Hi : seq 0 (Z.to_nat (size_ b)) !! i = Some i).
    { apply lookup_seq. apply lookup_lt_Some in Hv. lia. }
    pose proof (Forall2_lookup_lr _ _ _ _ _ _ Hl Hi Hv) as Hp. simpl in Hp.
    pose proof max_slots_lt. apply lookup_lt_Some in Hv.
    erewrite peek_block in Hp; [|done|done|lia|lia].
    by apply mjoin_Some.
  - match goal with H : bool_decide _ = true |- _ => apply bool_decide_eq_true in H end.
    lia.
Qed.

Lemma Repr_iff b w l : Repr b w l ↔ wf b w = true ∧ to_list b w = Some l.
Proof. split; [apply Repr_wf | intros []; by apply wf_Repr]. Qed.

Lemma Repr_size b w l : Repr b w l → size_ b = Z.of_nat (length l).
Proof. by intros []. Qed.

Lemma Repr_null b w l : Repr b w l → capacity_ b = 0 → data_ b = None ∧ l = [] ∧ begin_ b = 0.
Proof.
  intros (Hsz & Hcap & Hd) H0.
  destruct (data_ b); [lia|]. split; [done|]. split; [|lia].
  destruct l; [done|]. simpl in Hsz. lia.
Qed.

(** The block of an object with capacity. *)
Lemma Repr_block b w l :
  Repr b w l → capacity_ b ≠ 0 →
  ∃ a blk, data_ b = Some a ∧ heap w !! a = Some blk ∧
           length blk = Z.to_nat (capacity_ b) ∧
           0 ≤ begin_ b < capacity_ b ∧
           ∀ (i : nat) v, l !! i = Some v →
             blk !! Z.to_nat ((begin_ b + Z.of_nat i) mod capacity_ b) = Some (Some v).
Proof.
  intros (Hsz & Hcap & Hd) H0.
  destruct (data_ b) as [a|]; [|lia].
  destruct Hd as (? & blk & ? & ? & ?). by exists a, blk.
Qed.

(** ** Storage primitives on a known block *)

Lemma load_eq b h f t a blk i v :
  h !! a = Some blk → 0 ≤ i → blk !! Z.to_nat i = Some (Some v) →
  load (Some a) i (State b (World h f t)) = Normal v (State b (World h f t)).
Proof.
  intros Hblk Hi Hv. unfold load. mstep.
  erewrite slot_value_block by done. rewrite Hv. done.
Qed.

Lemma store_eq b h f t a blk i x :
  h !! a = Some blk → 0 ≤ i < Z.of_nat (length blk) →
  store (Some a) i x (State b (World h f t)) =
  Normal tt (State b (World (<[a := <[Z.to_nat i := x]> blk]> h) f t)).
Proof.
  intros Hblk Hi. unfold store. mstep. rewrite Hblk.
  case_decide; [done | lia].
Qed.

Lemma construct_eq b h f t a blk i v :
  h !! a = Some blk → 0 ≤ i < Z.of_nat (length blk) →
  construct (Some a) i v (State b (World h f t)) =
  match f with
  | true :: f' => Thrown (State b (World h f' t))
  | _ => Normal tt (State b (World (<[a := <[Z.to_nat i := Some v]> blk]> h) (tail f) t))
  end.
Proof.
  intros Hblk Hi. unfold construct. mstep. rewrite Hblk.
  case_decide; [|lia]. rewrite bind_unfold. unfold may_throw. cbn [this mem faults].
  destruct f as [|[] f']; mstep; [|done|]; by erewrite store_eq.
Qed.

Lemma destroy_eq b h f t a blk i v :
  h !! a = Some blk → 0 ≤ i → blk !! Z.to_nat i = Some (Some v) →
  destroy (Some a) i (State b (World h f t)) =
  Normal tt (State b (World (<[a := <[Z.to_nat i := None]> blk]> h) f (t ++ [EvDestroy v]))).
Proof.
  intros Hblk Hi Hv. unfold destroy. erewrite bind_normal by by eapply load_eq.
  apply lookup_lt_Some in Hv as Hlt.
  erewrite bind_normal by (eapply store_eq; [done | lia]). done.
Qed.

Lemma operator_delete_eq b h f t a blk :
  h !! a = Some blk →
  operator_delete (Some a) (State b (World h f t)) =
  Normal tt (State b (World (delete a h) f (t ++ [EvDelete a]))).
Proof. intros Hblk. unfold operator_delete. mstep. rewrite Hblk. done. Qed.

Lemma swap_slots_eq b h f t a blk i j x y :
  h !! a = Some blk → 0 ≤ i → 0 ≤ j →
  blk !! Z.to_nat i = Some (Some x) → blk !! Z.to_nat j = Some (Some y) →
  swap_slots (Some a) i j (State b (World h f t)) =
  Normal tt (State b (World
    (<[a := <[Z.to_nat j := Some x]> (<[Z.to_nat i := Some y]> blk)]> h) f t)).
Proof.
  intros Hblk Hi Hj Hx Hy. unfold swap_slots.
  erewrite bind_normal by by eapply load_eq.
  erewrite bind_normal by by eapply load_eq.
  apply lookup_lt_Some in Hx as Hx', Hy as Hy'.
  erewrite bind_normal by (eapply store_eq; [done | lia]).
  erewrite store_eq; [|apply lookup_insert_eq|rewrite length_insert; lia].
  by rewrite insert_insert_eq.
Qed.

Lemma operator_new_eq b h f t n :
  operator_new n (State b (World h f t)) =
  if decide (PTRDIFF_MAX < n) then Thrown (State b (World h f t))
  else match f with
       | true :: f' => Thrown (State b (World h f' t))
       | _ => Normal (Some (fresh (dom h)))
                (State b (World (<[fresh (dom h) := replicate (Z.to_nat (n / sizeof)) None]> h)
                            (tail f) (t ++ [EvNew (fresh (dom h)) (n / sizeof)])))
       end.
Proof.
  unfold operator_new. case_decide; [done|].
  rewrite bind_unfold. unfold may_throw. cbn [this mem faults].
  destruct f as [|[] f']; mstep; done.
Qed.

(** The request of [explicit circular_buffer(capacity)] for [n] objects,
    when [sizeof(T) * n] does not wrap. *)
Lemma operator_new_objects b h f t n :
  0 ≤ n → sizeof * n < SIZE_MODULUS →
  operator_new (to_size_t (sizeof * n)) (State b (World h f t)) =
  if decide (max_slots < n) then Thrown (State b (World h f t))
  else match f with
       | true :: f' => Thrown (State b (World h f' t))
       | _ => Normal (Some (fresh (dom h)))
                (State b (World (<[fresh (dom h) := replicate (Z.to_nat n) None]> h)
                            (tail f) (t ++ [EvNew (fresh (dom h)) n])))
       end.
Proof.
  intros Hn Hfit. pose proof sizeof_pos.
  rewrite to_size_t_small by (split; [nia|done]).
  rewrite operator_new_eq, bytes_slots.
  destruct (decide (max_slots < n)) as [Hbig|Hok].
  - rewrite decide_True by (by apply max_slots_bytes). done.
  - rewrite decide_False by (by rewrite max_slots_bytes). done.
Qed.

Lemma fresh_heap (h : gmap nat (list (option T))) : h !! fresh (dom h) = None.
Proof. apply not_elem_of_dom, is_fresh. Qed.

(** ** Handles of an object *)

Lemma handle_eq b it k k' : handle b it k → k = k' → handle b it k'.
Proof. by intros ? <-. Qed.

Lemma handle_begin b : handle b (begin b) 0.
Proof. unfold handle, begin, capacity. simpl. split_and!; [done..|lia]. Qed.

Lemma handle_add b it k n :
  handle b it k → 0 ≤ begin_ b + k + n < SIZE_MODULUS →
  handle b (template_iterator.add it n) (k + n).
Proof.
  intros (Hd & Hs & Hp) Hr. unfold handle, template_iterator.add. simpl.
  split_and!; [done..|]. rewrite to_size_t_ptrdiff_add, Hp, to_size_t_small; lia.
Qed.

Lemma handle_sub b it k n :
  handle b it k → 0 ≤ begin_ b + k - n < SIZE_MODULUS →
  handle b (template_iterator.sub it n) (k - n).
Proof.
  intros (Hd & Hs & Hp) Hr. unfold handle, template_iterator.sub. simpl.
  split_and!; [done..|]. rewrite to_size_t_ptrdiff_sub, Hp, to_size_t_small; lia.
Qed.

Lemma handle_incr b it k :
  handle b it k → 0 ≤ begin_ b + k + 1 < SIZE_MODULUS →
  handle b (template_iterator.incr it) (k + 1).
Proof.
  intros (Hd & Hs & Hp) Hr. unfold handle, template_iterator.incr. simpl.
  split_and!; [done..|]. rewrite Hp, to_size_t_small; lia.
Qed.

Lemma handle_decr b it k :
  handle b it k → 0 ≤ begin_ b + k - 1 < SIZE_MODULUS →
  handle b (template_iterator.decr it) (k - 1).
Proof.
  intros (Hd & Hs & Hp) Hr. unfold handle, template_iterator.decr. simpl.
  split_and!; [done..|]. rewrite Hp, to_size_t_small; lia.
Qed.

Lemma handle_diff b it1 k1 it2 k2 :
  handle b it1 k1 → handle b it2 k2 →
  - PTRDIFF_MAX - 1 ≤ k2 - k1 ≤ PTRDIFF_MAX →
  template_iterator.diff it2 it1 = k2 - k1.
Proof.
  intros (_ & _ & Hp1) (_ & _ & Hp2) Hr. unfold template_iterator.diff.
  rewrite Hp1, Hp2. replace (begin_ b + k2 - (begin_ b + k1)) with (k2 - k1) by lia.
  unfold_int. repeat case_decide; Z.div_mod_to_equations; lia.
Qed.

Lemma handle_end b w l : Repr b w l → handle b (end_ b) (size_ b).
Proof.
  intros (Hsz & Hcap & Hd). unfold end_, size.
  pose proof max_slots_lt. pose proof max_slots_range.
  assert (0 ≤ begin_ b ≤ capacity_ b) by (destruct (data_ b); lia).
  rewrite to_ptrdiff_t_small by lia.
  apply (handle_add b (begin b) 0 (size_ b)); [apply handle_begin | lia].
Qed.

(** Bounds every well-formed object satisfies. *)
Lemma Repr_bounds b w l :
  Repr b w l →
  0 ≤ size_ b ≤ capacity_ b ∧ capacity_ b ≤ PTRDIFF_MAX ∧
  0 ≤ begin_ b ≤ capacity_ b ∧ (capacity_ b ≠ 0 → begin_ b < capacity_ b).
Proof.
  intros (Hsz & Hcap & Hd). pose proof max_slots_range.
  destruct (data_ b); lia.
Qed.

(** ** The wrap-around mapping *)

Lemma slot_range c bg i : 0 < c → 0 ≤ (bg + i) mod c < c.
Proof. intros. apply Z.mod_pos_bound. lia. Qed.

Lemma slot_inj c bg i j :
  0 ≤ bg < c → 0 ≤ i < c → 0 ≤ j < c →
  Z.to_nat ((bg + i) mod c) = Z.to_nat ((bg + j) mod c) → i = j.
Proof.
  intros Hb Hi Hj. rewrite !mod_wrap by lia. repeat case_decide; lia.
Qed.

(** ** Steps that stay within the owned block *)

Lemma inplace_refl s l : Repr (this s) (mem s) l → inplace s s [].
Proof.
  intros HR. unfold inplace. rewrite app_nil_r. split_and!; try done.
  destruct (data_ (this s)) as [a|] eqn:Ha; [|done].
  destruct HR as (_ & _ & HR). rewrite Ha in HR.
  destruct HR as (_ & blk & Hblk & _). exists blk, blk. by rewrite insert_id.
Qed.

Lemma inplace_trans s1 s2 s3 e1 e2 :
  inplace s1 s2 e1 → inplace s2 s3 e2 → inplace s1 s3 (e1 ++ e2).
Proof.
  intros (Hd & Hc & Hf & Ht & Hh) (Hd2 & Hc2 & Hf2 & Ht2 & Hh2).
  unfold inplace. rewrite Hd in Hh2.
  split_and!; try congruence.
  { by rewrite Ht2, Ht, app_assoc. }
  destruct (data_ (this s1)) as [a|]; [|congruence].
  destruct Hh as (blk & blk' & Hblk & Hlen & Hh).
  destruct Hh2 as (blk2 & blk2' & Hblk2 & Hlen2 & Hh2).
  rewrite Hh, lookup_insert_eq in Hblk2. injection Hblk2 as <-.
  exists blk, blk2'. split_and!; try congruence.
  by rewrite Hh2, Hh, insert_insert_eq.
Qed.

(** A block that [*this] does not own is left alone. *)
Lemma inplace_frame s s' evs a :
  inplace s s' evs → data_ (this s) ≠ Some a →
  heap (mem s') !! a = heap (mem s) !! a.
Proof.
  intros (Hd & Hc & Hf & Ht & Hh) Hne.
  destruct (data_ (this s)) as [a'|]; [|congruence].
  destruct Hh as (blk & blk' & Hblk & Hlen & ->).
  apply lookup_insert_ne. congruence.
Qed.

(** Swapping the slots of two logical positions. *)
Lemma swap_slots_Repr b h f t l (i j : nat) x y :
  Repr b (World h f t) l → l !! i = Some x → l !! j = Some y →
  ∃ s', swap_slots (data_ b) ((begin_ b + Z.of_nat i) mod capacity_ b)
          ((begin_ b + Z.of_nat j) mod capacity_ b) (State b (World h f t)) = Normal tt s' ∧
        this s' = b ∧
        Repr b (mem s') (<[j := x]> (<[i := y]> l)) ∧
        inplace (State b (World h f t)) s' [].
Proof.
  intros HR Hi Hj.
  pose proof (Repr_bounds _ _ _ HR) as (Hs & Hc & Hb & _).
  pose proof (Repr_size _ _ _ HR) as Hsz.
  apply lookup_lt_Some in Hi as Hi', Hj as Hj'.
  assert (Hc0 : capacity_ b ≠ 0) by lia.
  destruct (Repr_block _ _ _ HR Hc0) as (a & blk & Ha & Hblk & Hlen & Hbg & Hall).
  pose proof (slot_range (capacity_ b) (begin_ b) (Z.of_nat i)) as Hri.
  pose proof (slot_range (capacity_ b) (begin_ b) (Z.of_nat j)) as Hrj.
  eexists. split.
  { rewrite Ha. eapply swap_slots_eq; eauto; lia. }
  simpl. split; [done|]. split.
  - destruct HR as (HR1 & HR2 & HR3). split; [|split; [done|]].
    { rewrite !length_insert. done. }
    rewrite Ha. split; [done|]. eexists. split; [apply lookup_insert_eq|].
    split; [by rewrite !length_insert|].
    intros k v Hk.
    destruct (decide (k = j)) as [->|Hkj].
    { rewrite list_lookup_insert_eq in Hk by (rewrite length_insert; lia).
      injection Hk as <-. apply list_lookup_insert_eq. rewrite length_insert. lia. }
    rewrite list_lookup_insert_ne in Hk by done.
    assert (k < length l)%nat.
    { apply lookup_lt_Some in Hk. by rewrite length_insert in Hk. }
    rewrite list_lookup_insert_ne.
    2:{ intros Heq. apply slot_inj in Heq; lia. }
    destruct (decide (k = i)) as [->|Hki].
    { rewrite list_lookup_insert_eq in Hk by lia.
      injection Hk as <-. apply list_lookup_insert_eq. lia. }
    rewrite list_lookup_insert_ne in Hk by done.
    rewrite list_lookup_insert_ne.
    2:{ intros Heq. apply slot_inj in Heq; lia. }
    by apply Hall.
  - unfold inplace. cbn. rewrite Ha, app_nil_r. split_and!; try done.
    exists blk,
      (<[Z.to_nat ((begin_ b + Z.of_nat j) mod capacity_ b) := Some x]>
         (<[Z.to_nat ((begin_ b + Z.of_nat i) mod capacity_ b) := Some y]> blk)).
    split_and!; try done. by rewrite !length_insert.
Qed.

Lemma umod_eq x c s : c ≠ 0 → umod x c s = Normal (x mod c) s.
Proof. intros. unfold umod. case_decide; [lia | done]. Qed.

(** ** Popping at the ends *)

Lemma pop_back_spec s l x :
  Repr (this s) (mem s) (l ++ [x]) →
  ∃ s', pop_back s = Normal tt s' ∧
        this s' = set_size_ (size_ (this s) - 1) (this s) ∧
        Repr (this s') (mem s') l ∧
        inplace s s' [EvDestroy x].
Proof.
  destruct s as [b [h f t]]. cbn [this mem]. intros HR.
  pose proof (Repr_bounds _ _ _ HR) as (Hs & Hc & Hb & _).
  pose proof (Repr_size _ _ _ HR) as Hsz. rewrite length_app in Hsz. simpl in Hsz.
  assert (Hc0 : capacity_ b ≠ 0) by lia.
  destruct (Repr_block _ _ _ HR Hc0) as (a & blk & Ha & Hblk & Hlen & Hbg & Hall).
  simpl in Hblk.
  assert (Hx : blk !! Z.to_nat ((begin_ b + (size_ b - 1)) mod capacity_ b) = Some (Some x)).
  { replace (size_ b - 1) with (Z.of_nat (length l)) by lia. apply Hall.
    rewrite lookup_app_r, Nat.sub_diag by done. done. }
  pose proof (slot_range (capacity_ b) (begin_ b) (size_ b - 1)) as Hr.
  eexists. split.
  { unfold pop_back, size, capacity. mstep.
    erewrite bind_normal by (apply umod_eq; lia).
    rewrite to_size_t_small by (unfold_int; lia).
    replace (begin_ b + size_ b - 1) with (begin_ b + (size_ b - 1)) by lia.
    rewrite Ha. erewrite bind_normal by (eapply destroy_eq; [done | lia | done]).
    unfold modify_this. cbn [this mem]. rewrite to_size_t_small by (unfold_int; lia).
    done. }
  cbn [this mem]. split; [done|]. split.
  - unfold set_size_, Repr. cbn [data_ size_ capacity_ begin_ heap].
    split; [lia|]. split; [pose proof (proj2 (proj1 (proj2 HR))); lia|]. rewrite Ha. split; [done|].
    eexists. split; [apply lookup_insert_eq|]. split; [by rewrite length_insert|].
    intros i v Hi. apply lookup_lt_Some in Hi as Hi'.
    rewrite list_lookup_insert_ne.
    2:{ intros Heq. apply slot_inj in Heq; lia. }
    apply Hall. by rewrite lookup_app_l.
  - unfold inplace. cbn. rewrite Ha. split_and!; try done.
    exists blk, (<[Z.to_nat ((begin_ b + (size_ b - 1)) mod capacity_ b) := None]> blk).
    split_and!; try done. by rewrite length_insert.
Qed.

Lemma pop_front_spec s l x :
  Repr (this s) (mem s) (x :: l) →
  ∃ s', pop_front s = Normal tt s' ∧
        this s' = set_size_ (size_ (this s) - 1)
                    (set_begin_ ((begin_ (this s) + 1) mod capacity_ (this s)) (this s)) ∧
        Repr (this s') (mem s') l ∧
        inplace s s' [EvDestroy x].
Proof.
  destruct s as [b [h f t]]. cbn [this mem]. intros HR.
  pose proof (Repr_bounds _ _ _ HR) as (Hs & Hc & Hb & _).
  pose proof (Repr_size _ _ _ HR) as Hsz. simpl in Hsz.
  assert (Hc0 : capacity_ b ≠ 0) by lia.
  destruct (Repr_block _ _ _ HR Hc0) as (a & blk & Ha & Hblk & Hlen & Hbg & Hall).
  simpl in Hblk.
  assert (Hx : blk !! Z.to_nat (begin_ b) = Some (Some x)).
  { specialize (Hall 0%nat x eq_refl). rewrite Z.add_0_r, Z.mod_small in Hall by lia. done. }
  pose proof (slot_range (capacity_ b) (begin_ b) 1) as Hr.
  eexists. split.
  { unfold pop_front, capacity. mstep.
    rewrite Ha. erewrite bind_normal by (eapply destroy_eq; [done | lia | done]).
    erewrite bind_normal by (apply umod_eq; lia).
    rewrite to_size_t_small by (unfold_int; lia). mstep.
    unfold modify_this. cbn [this mem]. unfold set_begin_ at 1. cbn [size_].
    rewrite to_size_t_small by (unfold_int; lia).
    done. }
  cbn [this mem]. split; [done|]. split.
  - unfold set_size_, set_begin_, Repr. cbn [data_ size_ capacity_ begin_ heap].
    split; [lia|]. split; [pose proof (proj2 (proj1 (proj2 HR))); lia|]. rewrite Ha. split; [lia|].
    eexists. split; [apply lookup_insert_eq|]. split; [by rewrite length_insert|].
    intros i v Hi. apply lookup_lt_Some in Hi as Hi'.
    rewrite Zplus_mod_idemp_l.
    replace (begin_ b + 1 + Z.of_nat i) with (begin_ b + Z.of_nat (S i)) by lia.
    rewrite list_lookup_insert_ne.
    2:{ intros Heq. replace (begin_ b) with ((begin_ b + 0) mod capacity_ b) in Heq at 1
          by (rewrite Z.add_0_r; apply Z.mod_small; lia).
        apply slot_inj in Heq; lia. }
    by apply Hall.
  - unfold inplace. cbn. rewrite Ha. split_and!; try done.
    exists blk, (<[Z.to_nat (begin_ b) := None]> blk).
    split_and!; try done. by rewrite length_insert.
Qed.


Lemma repeat_pop_back_spec r : ∀ s l,
  Repr (this s) (mem s) (l ++ r) →
  ∃ s', repeat_pop pop_back (length r) s = Normal tt s' ∧
        this s' = set_size_ (size_ (this s) - Z.of_nat (length r)) (this s) ∧
        Repr (this s') (mem s') l ∧
        inplace s s' (EvDestroy <$> reverse r).
Proof.
  induction r as [|x r IH] using rev_ind; intros s l HR.
  - rewrite app_nil_r in HR. exists s. split; [done|]. split.
    { destruct s as [[]]; simpl. unfold set_size_. simpl. f_equal. f_equal. lia. }
    split; [done|]. by eapply inplace_refl.
  - rewrite app_assoc in HR.
    destruct (pop_back_spec _ _ _ HR) as (s1 & Hrun & Hthis & HR1 & Hin).
    destruct (IH _ _ HR1) as (s2 & Hrun2 & Hthis2 & HR2 & Hin2).
    exists s2. split.
    { rewrite length_app, Nat.add_comm. simpl. by erewrite bind_normal. }
    split.
    { rewrite Hthis2, Hthis. unfold set_size_. simpl. f_equal.
      rewrite length_app. simpl. lia. }
    split; [done|].
    rewrite reverse_snoc. by apply (inplace_trans _ _ _ [_] _ Hin).
Qed.

(** ** [clear] and the destructor *)

Lemma clear_loop_spec l : ∀ s,
  Repr (this s) (mem s) l →
  ∃ s', clear_loop (length l) s = Normal tt s' ∧
        this s' = set_size_ 0 (this s) ∧
        Repr (this s') (mem s') [] ∧
        inplace s s' (EvDestroy <$> reverse l).
Proof.
  induction l as [|x l IH] using rev_ind; intros s HR.
  - pose proof (Repr_size _ _ _ HR) as Hsz. simpl in Hsz.
    exists s. split.
    { simpl. mstep. unfold empty, size. rewrite Hsz. done. }
    split. { destruct s as [[]]; simpl in *. unfold set_size_. simpl. by subst. }
    split; [done|]. by eapply inplace_refl.
  - pose proof (Repr_size _ _ _ HR) as Hsz. rewrite length_app in Hsz. simpl in Hsz.
    destruct (pop_back_spec _ _ _ HR) as (s1 & Hrun & Hthis & HR1 & Hin).
    destruct (IH _ HR1) as (s2 & Hrun2 & Hthis2 & HR2 & Hin2).
    exists s2. split.
    { rewrite length_app, Nat.add_comm. cbn [length Nat.add clear_loop]. mstep.
      unfold empty, size. rewrite bool_decide_eq_false_2 by lia.
      by erewrite bind_normal. }
    split. { by rewrite Hthis2, Hthis. }
    split; [done|].
    rewrite reverse_snoc. by apply (inplace_trans _ _ _ [_] _ Hin).
Qed.

Lemma clear_spec s l :
  Repr (this s) (mem s) l →
  ∃ s', clear s = Normal tt s' ∧
        this s' = set_size_ 0 (this s) ∧
        Repr (this s') (mem s') [] ∧
        inplace s s' (EvDestroy <$> reverse l).
Proof.
  intros HR. unfold clear. mstep. unfold size.
  rewrite (Repr_size _ _ _ HR), Nat2Z.id. by apply clear_loop_spec.
Qed.

Lemma repeat_pop_front_spec r : ∀ s l,
  Repr (this s) (mem s) (r ++ l) →
  ∃ s', repeat_pop pop_front (length r) s = Normal tt s' ∧
        this s' = set_size_ (size_ (this s) - Z.of_nat (length r))
                    (set_begin_ ((begin_ (this s) + Z.of_nat (length r)) mod capacity_ (this s))
                       (this s)) ∧
        Repr (this s') (mem s') l ∧
        inplace s s' (EvDestroy <$> r).
Proof.
  induction r as [|x r IH]; intros s l HR.
  - exists s. split; [done|]. split.
    { pose proof (Repr_bounds _ _ _ HR) as (Hs & Hc & Hb & Hb').
      destruct s as [[d sz c bg] w]; simpl in *. unfold set_size_, set_begin_. simpl.
      f_equal; [lia|]. rewrite Z.add_0_r.
      destruct (decide (c = 0)) as [->|]; [rewrite Z.mod_0_r; lia|].
      rewrite Z.mod_small; lia. }
    split; [done|]. by eapply inplace_refl.
  - destruct (pop_front_spec _ _ _ HR) as (s1 & Hrun & Hthis & HR1 & Hin).
    destruct (IH _ _ HR1) as (s2 & Hrun2 & Hthis2 & HR2 & Hin2).
    exists s2. split.
    { simpl. by erewrite bind_normal. }
    split.
    { rewrite Hthis2, Hthis. unfold set_size_, set_begin_. simpl. f_equal; [lia|].
      rewrite Zplus_mod_idemp_l. f_equal. lia. }
    split; [done|].
    by apply (inplace_trans _ _ _ [_] _ Hin).
Qed.

Lemma destructor_spec s l :
  Repr (this s) (mem s) l →
  ∃ s', destructor s = Normal tt s' ∧
        heap (mem s') = release (data_ (this s)) (heap (mem s)) ∧
        faults (mem s') = faults (mem s) ∧
        trace (mem s') = trace (mem s) ++ destructor_trace (this s) l.
Proof.
  intros HR. destruct (clear_spec _ _ HR) as (s1 & Hrun & Hthis & HR1 & Hin).
  destruct Hin as (Hd & Hc & Hf & Ht & Hh).
  unfold destructor, destructor_trace, release. erewrite bind_normal by done. mstep.
  rewrite Hd. destruct s1 as [b1 [h1 f1 t1]]. simpl in *.
  destruct (data_ (this s)) as [a|].
  - destruct Hh as (blk & blk' & Hblk & Hlen & ->).
    erewrite operator_delete_eq by apply lookup_insert_eq.
    eexists. split; [done|]. simpl. split_and!; try done.
    + by rewrite delete_insert_eq.
    + by rewrite Ht, app_assoc.
  - eexists. split; [done|]. simpl. split_and!; try done.
    by rewrite app_nil_r.
Qed.

Lemma destroy_object_spec obj s l :
  Repr obj (mem s) l →
  ∃ s', destroy_object obj s = Normal tt s' ∧
        this s' = this s ∧
        heap (mem s') = release (data_ obj) (heap (mem s)) ∧
        faults (mem s') = faults (mem s) ∧
        trace (mem s') = trace (mem s) ++ destructor_trace obj l.
Proof.
  intros HR.
  destruct (destructor_spec (State obj (mem s)) l HR) as (s1 & Hrun & Hh & Hf & Ht).
  unfold destroy_object. rewrite bind_unfold. unfold on_object. rewrite Hrun.
  eexists. split; [done|]. done.
Qed.

(** ** Pushing with spare capacity *)

Lemma Repr_faults b h f f' t t' l : Repr b (World h f t) l → Repr b (World h f' t') l.
Proof. done. Qed.

Lemma Repr_tick s l : Repr (this s) (mem s) l → Repr (this (tick s)) (mem (tick s)) l.
Proof. done. Qed.

Lemma push_back_inplace_spec s l v :
  Repr (this s) (mem s) l → size_ (this s) ≠ capacity_ (this s) →
  if decide (next_fails s) then
    push_back v s = Thrown (tick s)
  else
    ∃ s', push_back v s = Normal tt s' ∧
          this s' = set_size_ (size_ (this s) + 1) (this s) ∧
          Repr (this s') (mem s') (l ++ [v]) ∧
          inplace (tick s) s' [].
Proof.
  destruct s as [b [h f t]]. unfold next_fails, tick. cbn [this mem faults]. intros HR Hne.
  pose proof (Repr_bounds _ _ _ HR) as (Hs & Hc & Hb & _).
  pose proof (Repr_size _ _ _ HR) as Hsz.
  assert (Hc0 : capacity_ b ≠ 0) by lia.
  destruct (Repr_block _ _ _ HR Hc0) as (a & blk & Ha & Hblk & Hlen & Hbg & Hall).
  simpl in Hblk.
  pose proof (slot_range (capacity_ b) (begin_ b) (size_ b)) as Hr.
  assert (Hrun : push_back v (State b (World h f t)) =
    (construct (Some a) ((begin_ b + size_ b) mod capacity_ b) v;;
     modify_this (λ b, set_size_ (to_size_t (size_ b + 1)) b)) (State b (World h f t))).
  { unfold push_back, size, capacity. mstep. case_decide; [done|].
    erewrite bind_normal by (apply umod_eq; lia).
    rewrite to_size_t_small by (unfold_int; lia). by rewrite Ha. }
  rewrite Hrun, bind_unfold. erewrite construct_eq by (done || lia).
  case_decide as Hf.
  { destruct f as [|[] f']; simpl in Hf; try done. }
  match goal with |- context [match f with [] => ?X | _ => _ end] =>
    replace (match f with [] => X | true :: f' => Thrown (State b (World h f' t))
                        | false :: _ => X end) with X
      by (destruct f as [|[] f']; simpl in *; done) end.
  unfold modify_this. cbn [this mem]. rewrite to_size_t_small by (unfold_int; lia).
  eexists. split; [done|].
  cbn [this mem]. split; [done|]. split.
  - unfold set_size_, Repr. cbn [data_ size_ capacity_ begin_ heap].
    rewrite length_app. simpl.
    split; [lia|]. split; [pose proof (proj2 (proj1 (proj2 HR))); lia|]. rewrite Ha. split; [done|].
    eexists. split; [apply lookup_insert_eq|]. split; [by rewrite length_insert|].
    intros i w Hi. apply lookup_lt_Some in Hi as Hi'. rewrite length_app in Hi'. simpl in Hi'.
    destruct (decide (i = length l)) as [->|Hil].
    + rewrite lookup_app_r, Nat.sub_diag in Hi by done. injection Hi as <-.
      rewrite <- Hsz. apply list_lookup_insert_eq. lia.
    + rewrite lookup_app_l in Hi by lia.
      rewrite list_lookup_insert_ne.
      2:{ intros Heq. apply slot_inj in Heq; lia. }
      by apply Hall.
  - unfold inplace. cbn. rewrite Ha, app_nil_r. split_and!; try done.
    exists blk, (<[Z.to_nat ((begin_ b + size_ b) mod capacity_ b) := Some v]> blk).
    split_and!; try done. by rewrite length_insert.
Qed.

Lemma push_front_inplace_spec s l v :
  Repr (this s) (mem s) l → size_ (this s) ≠ capacity_ (this s) →
  if decide (next_fails s) then
    push_front v s = Thrown (tick s)
  else
    ∃ s', push_front v s = Normal tt s' ∧
          this s' = set_size_ (size_ (this s) + 1)
                      (set_begin_ ((begin_ (this s) + capacity_ (this s) - 1)
                                     mod capacity_ (this s)) (this s)) ∧
          Repr (this s') (mem s') (v :: l) ∧
          inplace (tick s) s' [].
Proof.
  destruct s as [b [h f t]]. unfold next_fails, tick. cbn [this mem faults]. intros HR Hne.
  pose proof (Repr_bounds _ _ _ HR) as (Hs & Hc & Hb & _).
  pose proof (Repr_size _ _ _ HR) as Hsz.
  assert (Hc0 : capacity_ b ≠ 0) by lia.
  destruct (Repr_block _ _ _ HR Hc0) as (a & blk & Ha & Hblk & Hlen & Hbg & Hall).
  simpl in Hblk.
  pose proof (slot_range (capacity_ b) (begin_ b) (capacity_ b - 1)) as Hr.
  replace (begin_ b + (capacity_ b - 1)) with (begin_ b + capacity_ b - 1) in Hr by lia.
  set (nb := (begin_ b + capacity_ b - 1) mod capacity_ b) in *.
  assert (Hrun : push_front v (State b (World h f t)) =
    (construct (Some a) nb v;;
     modify_this (set_begin_ nb);;
     modify_this (λ b, set_size_ (to_size_t (size_ b + 1)) b)) (State b (World h f t))).
  { unfold push_front, size, capacity. mstep. case_decide; [done|].
    erewrite bind_normal by (apply umod_eq; lia).
    rewrite to_size_t_small by (unfold_int; lia). by rewrite Ha. }
  rewrite Hrun, bind_unfold. erewrite construct_eq by (done || lia).
  case_decide as Hf.
  { destruct f as [|[] f']; simpl in Hf; try done. }
  match goal with |- context [match f with [] => ?X | _ => _ end] =>
    replace (match f with [] => X | true :: f' => Thrown (State b (World h f' t))
                        | false :: _ => X end) with X
      by (destruct f as [|[] f']; simpl in *; done) end.
  mstep. unfold modify_this. cbn [this mem]. unfold set_begin_ at 1. cbn [size_].
  rewrite to_size_t_small by (unfold_int; lia).
  eexists. split; [done|].
  cbn [this mem]. split; [done|]. split.
  - unfold set_size_, set_begin_, Repr. cbn [data_ size_ capacity_ begin_ heap length].
    split; [lia|]. split; [pose proof (proj2 (proj1 (proj2 HR))); lia|]. rewrite Ha. split; [lia|].
    eexists. split; [apply lookup_insert_eq|]. split; [by rewrite length_insert|].
    intros i w Hi. apply lookup_lt_Some in Hi as Hi'. simpl in Hi'.
    destruct i as [|i].
    + simpl in Hi. injection Hi as <-. rewrite Z.add_0_r, Z.mod_small by lia.
      apply list_lookup_insert_eq. lia.
    + simpl in Hi. unfold nb. rewrite Zplus_mod_idemp_l.
      replace (begin_ b + capacity_ b - 1 + Z.of_nat (S i))
        with (begin_ b + Z.of_nat i + 1 * capacity_ b) by lia.
      rewrite Z_mod_plus_full.
      rewrite list_lookup_insert_ne.
      2:{ intros Heq. replace (begin_ b + capacity_ b - 1)
            with (begin_ b + (capacity_ b - 1)) in Heq by lia.
          apply slot_inj in Heq; lia. }
      by apply Hall.
  - unfold inplace. cbn. rewrite Ha, app_nil_r. split_and!; try done.
    exists blk, (<[Z.to_nat nb := Some v]> blk).
    split_and!; try done. by rewrite length_insert.
Qed.

(** ** Runs of slots *)

Lemma fill_length xs : ∀ blk p c, length (fill blk p c xs) = length blk.
Proof. induction xs as [|x xs IH]; intros; simpl; [done|]. by rewrite IH, length_insert. Qed.

Lemma fill_app xs ys : ∀ blk p c,
  fill blk p c (xs ++ ys) = fill (fill blk p c xs) (p + Z.of_nat (length xs)) c ys.
Proof.
  induction xs as [|x xs IH]; intros; cbn [fill app length].
  - by rewrite Z.add_0_r.
  - rewrite IH. f_equal. lia.
Qed.

Lemma fill_snoc xs y blk p c :
  fill blk p c (xs ++ [y]) =
  <[Z.to_nat ((p + Z.of_nat (length xs)) mod c) := y]> (fill blk p c xs).
Proof. by rewrite fill_app. Qed.

Lemma fill_snoc_fmap (xs : list T) y blk p c :
  fill blk p c (Some <$> (xs ++ [y])) =
  <[Z.to_nat ((p + Z.of_nat (length xs)) mod c) := Some y]> (fill blk p c (Some <$> xs)).
Proof. rewrite fmap_app. simpl. by rewrite fill_snoc, length_fmap. Qed.

Lemma mod_inj c p i j :
  0 < c → 0 ≤ p → 0 ≤ i < c → 0 ≤ j < c →
  Z.to_nat ((p + i) mod c) = Z.to_nat ((p + j) mod c) → i = j.
Proof.
  intros Hc Hp Hi Hj. rewrite <- (Zplus_mod_idemp_l p i), <- (Zplus_mod_idemp_l p j).
  apply slot_inj; [|done..]. apply Z.mod_pos_bound. lia.
Qed.

(** A slot outside the run keeps its content. *)
Lemma fill_lookup_out xs : ∀ blk p c (i : nat),
  (∀ j : nat, (j < length xs)%nat → Z.to_nat ((p + Z.of_nat j) mod c) ≠ i) →
  fill blk p c xs !! i = blk !! i.
Proof.
  induction xs as [|x xs IH] using rev_ind; intros blk p c i Hout; [done|].
  rewrite fill_snoc, list_lookup_insert_ne.
  - apply IH. intros j Hj. apply Hout. rewrite length_app. simpl. lia.
  - apply Hout. rewrite length_app. simpl. lia.
Qed.

(** The slots of a run that does not lap itself hold what was written. *)
Lemma fill_lookup_in xs : ∀ blk p c (j : nat) x,
  0 ≤ p → Z.of_nat (length xs) ≤ c → length blk = Z.to_nat c →
  xs !! j = Some x →
  fill blk p c xs !! Z.to_nat ((p + Z.of_nat j) mod c) = Some x.
Proof.
  induction xs as [|y xs IH] using rev_ind; intros blk p c j x Hp Hc Hlen Hj; [done|].
  rewrite length_app in Hc. simpl in Hc.
  apply lookup_lt_Some in Hj as Hj'. rewrite length_app in Hj'. simpl in Hj'.
  rewrite fill_snoc.
  destruct (decide (j = length xs)) as [->|Hne].
  - rewrite lookup_app_r, Nat.sub_diag in Hj by done. injection Hj as <-.
    apply list_lookup_insert_eq. rewrite fill_length, Hlen.
    pose proof (Z.mod_pos_bound (p + Z.of_nat (length xs)) c). lia.
  - rewrite lookup_app_l in Hj by lia.
    rewrite list_lookup_insert_ne.
    + apply IH; [done | lia | done | done].
    + intros Heq. apply mod_inj in Heq; lia.
Qed.

Lemma fill_insert_commute xs : ∀ blk p c (i : nat) x,
  (∀ j : nat, (j < length xs)%nat → Z.to_nat ((p + Z.of_nat j) mod c) ≠ i) →
  fill (<[i := x]> blk) p c xs = <[i := x]> (fill blk p c xs).
Proof.
  induction xs as [|y xs IH] using rev_ind; intros blk p c i x Hout; [done|].
  rewrite !fill_snoc, IH.
  - apply list_insert_insert_ne, Hout. rewrite length_app. simpl. lia.
  - intros j Hj. apply Hout. rewrite length_app. simpl. lia.
Qed.

(** Writing a run into vacant slots and vacating it again restores the
    block. *)
Lemma fill_restore (xs : list T) : ∀ blk p c,
  0 ≤ p → Z.of_nat (length xs) ≤ c → length blk = Z.to_nat c →
  (∀ j : nat, (j < length xs)%nat → blk !! Z.to_nat ((p + Z.of_nat j) mod c) = Some None) →
  fill (fill blk p c (Some <$> xs)) p c (replicate (length xs) None) = blk.
Proof.
  induction xs as [|y xs IH] using rev_ind; intros blk p c Hp Hc Hlen Hvac; [done|].
  rewrite length_app in Hc, Hvac. simpl in Hc, Hvac.
  rewrite length_app. simpl. rewrite replicate_add. simpl.
  rewrite fmap_app. simpl. rewrite !fill_snoc.
  rewrite length_fmap, length_replicate.
  rewrite fill_insert_commute.
  2:{ intros j Hj. rewrite length_replicate in Hj. intros Heq. apply mod_inj in Heq; lia. }
  rewrite list_insert_insert_eq, IH; [|done|lia|done|].
  - apply list_insert_id. apply Hvac. lia.
  - intros j Hj. apply Hvac. lia.
Qed.

(** ** [std::uninitialized_copy] *)

Lemma destroy_range_spec b0 h f da dc xs : ∀ blk p t,
  0 ≤ p → p + Z.of_nat (length xs) < SIZE_MODULUS →
  Z.of_nat (length xs) ≤ dc → length blk = Z.to_nat dc →
  (∀ (j : nat) x, xs !! j = Some x →
     blk !! Z.to_nat ((p + Z.of_nat j) mod dc) = Some (Some x)) →
  destroy_range (length xs) (template_iterator.mk (Some da) p dc)
    (State b0 (World (<[da := blk]> h) f t)) =
  Normal tt (State b0 (World (<[da := fill blk p dc (replicate (length xs) None)]> h) f
                         (t ++ (EvDestroy <$> xs)))).
Proof.
  induction xs as [|x xs IH]; intros blk p t Hp Hmax Hdc Hlen Hlive.
  - simpl. by rewrite app_nil_r.
  - cbn [length] in *. cbn [destroy_range replicate fill].
    unfold slot_of. cbn [template_iterator.pos_ template_iterator.size_ template_iterator.data_].
    erewrite bind_normal by (apply umod_eq; lia).
    pose proof (Hlive 0%nat x eq_refl) as H0. rewrite Z.add_0_r in H0.
    pose proof (Z.mod_pos_bound p dc).
    erewrite bind_normal by (eapply destroy_eq; [apply lookup_insert_eq | lia | done]).
    rewrite insert_insert_eq.
    unfold template_iterator.incr.
    cbn [template_iterator.pos_ template_iterator.size_ template_iterator.data_].
    rewrite to_size_t_small by lia.
    rewrite IH; [|lia|lia|lia|by rewrite length_insert|].
    + by rewrite <- app_assoc.
    + intros j y Hj. apply lookup_lt_Some in Hj as Hj'.
      replace (p + 1 + Z.of_nat j) with (p + Z.of_nat (S j)) by lia.
      rewrite list_lookup_insert_ne; [by apply Hlive|].
      rewrite <- (Z.add_0_r p) at 1. intros Heq. apply mod_inj in Heq; lia.
Qed.

Lemma first_fault_nil n : first_fault n [] = None.
Proof. induction n as [|n IH]; [done|]. simpl. by rewrite IH. Qed.

Lemma drop_1_tail {A} (f : list A) : drop 1 f = tail f.
Proof. by destruct f. Qed.

Lemma first_fault_S n f :
  first_fault (S n) f = None ↔ head f ≠ Some true ∧ first_fault n (tail f) = None.
Proof.
  simpl. destruct f as [|[] f']; simpl.
  - rewrite first_fault_nil. split; [done|]. done.
  - split; [done|]. by intros [? _].
  - destruct (first_fault n f'); simpl; split; try done. by intros [_ ?].
Qed.

Lemma first_fault_add a : ∀ b f,
  first_fault (a + b) f = None ↔
  first_fault a f = None ∧ first_fault b (drop a f) = None.
Proof.
  induction a as [|a IH]; intros b f.
  - simpl. split; [done|]. by intros [_ ?].
  - change (S a + b)%nat with (S (a + b)). rewrite !first_fault_S, IH.
    replace (drop (S a) f) with (drop a (tail f)); [tauto|].
    destruct f; [|done]. simpl. by destruct a.
Qed.

Lemma drop_nil_faults n : drop n ([] : list bool) = [].
Proof. by destruct n. Qed.

Section copy_loop.
Context (b0 : circular_buffer) (h : gmap nat (list (option T))) (t : list event).
Context (da : nat) (dblk : list (option T)) (dp dc : Z).
Context (src : pointer) (sp sc : Z).

Lemma uninitialized_copy_loop_spec rem : ∀ done f,
  0 ≤ sp → sp + Z.of_nat (length done + length rem) < SIZE_MODULUS →
  0 ≤ dp → dp + Z.of_nat (length done + length rem) < SIZE_MODULUS →
  Z.of_nat (length done + length rem) ≤ dc → length dblk = Z.to_nat dc →
  (∀ j : nat, (j < length done + length rem)%nat →
     dblk !! Z.to_nat ((dp + Z.of_nat j) mod dc) = Some None) →
  (∀ (j : nat) v, rem !! j = Some v →
     ∃ sa sblk, src = Some sa ∧ sa ≠ da ∧ h !! sa = Some sblk ∧ 0 < sc ∧
       sblk !! Z.to_nat ((sp + Z.of_nat (length done + j)) mod sc) = Some (Some v)) →
  uninitialized_copy_loop (length rem)
    (template_iterator.mk src (sp + Z.of_nat (length done)) sc)
    (template_iterator.mk (Some da) dp dc)
    (template_iterator.mk (Some da) (dp + Z.of_nat (length done)) dc)
    (State b0 (World (<[da := fill dblk dp dc (Some <$> done)]> h) f t)) =
  match first_fault (length rem) f with
  | None =>
      Normal (template_iterator.mk (Some da) (dp + Z.of_nat (length done + length rem)) dc)
        (State b0 (World (<[da := fill dblk dp dc (Some <$> (done ++ rem))]> h)
                     (drop (length rem) f) t))
  | Some j =>
      Thrown (State b0 (World (<[da := dblk]> h) (drop (S j) f)
                          (t ++ (EvDestroy <$> (done ++ take j rem)))))
  end.
Proof.
  induction rem as [|x rem IH]; intros done f Hsp Hsmax Hdp Hdmax Hdc Hlen Hvac Hsrc.
  - simpl. rewrite Nat.add_0_r, app_nil_r. done.
  - cbn [length] in *. cbn [uninitialized_copy_loop first_fault].
    destruct (Hsrc 0%nat x eq_refl) as (sa & sblk & -> & Hne & Hsblk & Hsc & Hx).
    rewrite Nat.add_0_r in Hx.
    unfold deref, slot_of.
    cbn [template_iterator.pos_ template_iterator.size_ template_iterator.data_].
    erewrite bind_normal.
    2:{ erewrite bind_normal by (apply umod_eq; lia).
        eapply load_eq; [by rewrite lookup_insert_ne | | done].
        apply Z.mod_pos_bound. lia. }
    erewrite bind_normal by (apply umod_eq; lia).
    pose proof (Z.mod_pos_bound (dp + Z.of_nat (length done)) dc).
    rewrite bind_unfold. unfold on_throw.
    erewrite construct_eq; [|apply lookup_insert_eq|rewrite fill_length; lia].
    destruct f as [|[] f'].
    + (* the schedule is exhausted *)
      cbn [tail]. rewrite insert_insert_eq, <- fill_snoc_fmap.
      unfold template_iterator.incr.
      cbn [template_iterator.pos_ template_iterator.size_ template_iterator.data_].
      rewrite !to_size_t_small by lia.
      replace (sp + Z.of_nat (length done) + 1) with (sp + Z.of_nat (length (done ++ [x])))
        by (rewrite length_app; simpl; lia).
      replace (dp + Z.of_nat (length done) + 1) with (dp + Z.of_nat (length (done ++ [x])))
        by (rewrite length_app; simpl; lia).
      rewrite IH; rewrite ?length_app; cbn [length]; try lia; try done.
      * rewrite first_fault_nil, !drop_nil_faults, <- app_assoc. simpl.
        do 3 f_equal. lia.
      * intros j Hj. apply Hvac. lia.
      * intros j v Hj. destruct (Hsrc (S j) v Hj) as (sa' & sblk' & ? & ? & ? & ? & Hv).
        exists sa', sblk'. split_and!; try done.
        replace (length done + 1 + j)%nat with (length done + S j)%nat by lia. done.
    + (* the copy constructor throws *)
      replace (Z.to_nat (to_size_t (dp + Z.of_nat (length done) - dp))) with (length done).
      2:{ rewrite to_size_t_small; lia. }
      rewrite destroy_range_spec; [|lia|lia|lia|by rewrite fill_length|].
      * rewrite fill_restore; [|lia|lia|done|].
        -- simpl. by rewrite app_nil_r.
        -- intros j Hj. apply Hvac. lia.
      * intros j v Hj. apply fill_lookup_in; [lia|rewrite length_fmap; lia|done|].
        by rewrite list_lookup_fmap, Hj.
    + (* the copy succeeds *)
      cbn [tail]. rewrite insert_insert_eq, <- fill_snoc_fmap.
      unfold template_iterator.incr.
      cbn [template_iterator.pos_ template_iterator.size_ template_iterator.data_].
      rewrite !to_size_t_small by lia.
      replace (sp + Z.of_nat (length done) + 1) with (sp + Z.of_nat (length (done ++ [x])))
        by (rewrite length_app; simpl; lia).
      replace (dp + Z.of_nat (length done) + 1) with (dp + Z.of_nat (length (done ++ [x])))
        by (rewrite length_app; simpl; lia).
      rewrite IH; rewrite ?length_app; cbn [length]; try lia; try done.
      * destruct (first_fault (length rem) f') as [j|]; simpl.
        -- by rewrite <- app_assoc.
        -- rewrite <- app_assoc. simpl. do 3 f_equal. lia.
      * intros j Hj. apply Hvac. lia.
      * intros j v Hj. destruct (Hsrc (S j) v Hj) as (sa' & sblk' & ? & ? & ? & ? & Hv).
        exists sa', sblk'. split_and!; try done.
        replace (length done + 1 + j)%nat with (length done + S j)%nat by lia. done.
Qed.

End copy_loop.

Lemma run_block_length c p l : length (run_block c p l) = Z.to_nat c.
Proof. unfold run_block. by rewrite fill_length, length_replicate. Qed.

Lemma run_block_snoc c p l v :
  run_block c p (l ++ [v]) =
  <[Z.to_nat ((p + Z.of_nat (length l)) mod c) := Some v]> (run_block c p l).
Proof. apply fill_snoc_fmap. Qed.

Lemma run_block_app c p l1 l2 :
  run_block c p (l1 ++ l2) =
  fill (run_block c p l1) (p + Z.of_nat (length l1)) c (Some <$> l2).
Proof. unfold run_block. by rewrite fmap_app, fill_app, length_fmap. Qed.

Lemma run_block_lookup c p l (i : nat) v :
  0 ≤ p → Z.of_nat (length l) ≤ c → l !! i = Some v →
  run_block c p l !! Z.to_nat ((p + Z.of_nat i) mod c) = Some (Some v).
Proof.
  intros Hp Hc Hi. apply fill_lookup_in; [done| |by rewrite length_replicate|].
  - by rewrite length_fmap.
  - by rewrite list_lookup_fmap, Hi.
Qed.

Lemma run_block_vacant c p l (j : nat) :
  0 ≤ p → Z.of_nat (length l) ≤ Z.of_nat j < c →
  run_block c p l !! Z.to_nat ((p + Z.of_nat j) mod c) = Some None.
Proof.
  intros Hp Hj. unfold run_block. rewrite fill_lookup_out.
  - apply lookup_replicate_2. pose proof (Z.mod_pos_bound (p + Z.of_nat j) c). lia.
  - intros i Hi Heq. rewrite length_fmap in Hi. apply mod_inj in Heq; lia.
Qed.

(** An object whose block is a run block. *)
Lemma Repr_run_block a c p l h f t :
  0 ≤ p < c → Z.of_nat (length l) ≤ c → c ≤ max_slots →
  Repr (Buffer (Some a) (Z.of_nat (length l)) c p)
    (World (<[a := run_block c p l]> h) f t) l.
Proof.
  intros Hp Hl Hc. unfold Repr. cbn.
  split; [done|]. split; [lia|]. split; [done|].
  eexists. split; [apply lookup_insert_eq|]. split; [apply run_block_length|].
  intros i v Hi. apply run_block_lookup; [lia|done|done].
Qed.

(** Copying a run of the sequence of an object into a run block that
    already holds [lp], right behind [lp]. *)
Lemma copy_run_spec b0 h f t bs l (ks : nat) vals first last a' c' p lp :
  Repr bs (World h f t) l →
  handle bs first (Z.of_nat ks) → handle bs last (Z.of_nat (ks + length vals)) →
  (ks + length vals ≤ length l)%nat →
  (∀ (j : nat) v, vals !! j = Some v → l !! (ks + j)%nat = Some v) →
  data_ bs ≠ Some a' →
  h !! a' = Some (run_block c' p lp) →
  0 ≤ p → Z.of_nat (length lp + length vals) ≤ c' → p + c' < SIZE_MODULUS →
  uninitialized_copy first last (template_iterator.mk (Some a') (p + Z.of_nat (length lp)) c')
    (State b0 (World h f t)) =
  match first_fault (length vals) f with
  | None =>
      Normal (template_iterator.mk (Some a') (p + Z.of_nat (length lp + length vals)) c')
        (State b0 (World (<[a' := run_block c' p (lp ++ vals)]> h) (drop (length vals) f) t))
  | Some j =>
      Thrown (State b0 (World h (drop (S j) f) (t ++ (EvDestroy <$> take j vals))))
  end.
Proof.
  intros HR (Hfd & Hfs & Hfp) (Hld & Hls & Hlp) Hks Hvals Hne Hblk Hp Hc Hmax.
  pose proof (Repr_bounds _ _ _ HR) as (Hs & Hcap & Hb & Hb').
  pose proof (Repr_size _ _ _ HR) as Hsz.
  destruct first as [fd fp fs], last as [ld lpos ls]. simpl in *. subst.
  unfold uninitialized_copy.
  cbn [template_iterator.pos_ template_iterator.size_ template_iterator.data_].
  case_decide; [|done].
  replace (Z.to_nat (to_size_t (begin_ bs + Z.of_nat (ks + length vals)
                                - (begin_ bs + Z.of_nat ks)))) with (length vals).
  2:{ rewrite to_size_t_small; [lia|]. unfold_int. lia. }
  pose proof (uninitialized_copy_loop_spec b0 h t a' (run_block c' p lp)
                (p + Z.of_nat (length lp)) c' (data_ bs) (begin_ bs + Z.of_nat ks)
                (capacity_ bs) vals [] f) as Hloop.
  cbn [length fmap list_fmap fill] in Hloop. rewrite !Z.add_0_r in Hloop.
  rewrite insert_id in Hloop by done.
  rewrite Hloop; clear Hloop.
  - destruct (first_fault (length vals) f) as [j|].
    + done.
    + rewrite run_block_app. simpl. do 2 f_equal. lia.
  - lia.
  - unfold_int. lia.
  - lia.
  - lia.
  - lia.
  - apply run_block_length.
  - intros j Hj. simpl in Hj.
    replace (p + Z.of_nat (length lp) + Z.of_nat j) with (p + Z.of_nat (length lp + j)) by lia.
    apply run_block_vacant; lia.
  - intros j v Hj. simpl.
    apply lookup_lt_Some in Hj as Hj'.
    assert (Hc0 : capacity_ bs ≠ 0) by lia.
    destruct (Repr_block _ _ _ HR Hc0) as (sa & sblk & Hsa & Hsblk & Hlen & Hbg & Hall).
    exists sa, sblk. split_and!; try done; [congruence|lia|].
    replace (begin_ bs + Z.of_nat ks + Z.of_nat j) with (begin_ bs + Z.of_nat (ks + j)) by lia.
    by apply Hall, Hvals.
Qed.

(** ** Growth: [insert_with_copy] *)

Lemma Repr_frame b w w' l :
  Repr b w l → (∀ a, data_ b = Some a → heap w' !! a = heap w !! a) → Repr b w' l.
Proof.
  intros (Hsz & Hcap & Hd) Hfr. split; [done|]. split; [done|].
  destruct (data_ b) as [a|]; [|done].
  destruct Hd as (Hb & blk & Hblk & Hrest). split; [done|].
  exists blk. split; [|done]. by rewrite Hfr.
Qed.

Lemma Repr_run_block' w a c p l :
  heap w !! a = Some (run_block c p l) →
  0 ≤ p < c → Z.of_nat (length l) ≤ c → c ≤ max_slots →
  Repr (Buffer (Some a) (Z.of_nat (length l)) c p) w l.
Proof.
  intros Hblk Hp Hl Hc. destruct w as [h f t].
  eapply Repr_frame; [by apply (Repr_run_block a c p l h f t)|].
  intros a0 [= <-]. simpl in *. by rewrite lookup_insert_eq.
Qed.

Lemma Repr_max b w l : Repr b w l → capacity_ b ≤ max_slots.
Proof. by intros (_ & [_ ?] & _). Qed.

Lemma max_slots_fits n : n ≤ max_slots → sizeof * n ≤ PTRDIFF_MAX.
Proof.
  intros Hn. pose proof sizeof_pos.
  destruct (decide (PTRDIFF_MAX < sizeof * n)) as [Hbig|]; [|lia].
  apply max_slots_bytes in Hbig. lia.
Qed.

(** Growth from a block that exists never wraps the byte count. *)
Lemma grown_fits c :
  0 ≤ c ≤ max_slots →
  0 ≤ grown_capacity c ∧ sizeof * grown_capacity c < SIZE_MODULUS.
Proof.
  intros [Hc Hmax]. pose proof (max_slots_fits c Hmax) as Hfit.
  pose proof sizeof_pos. pose proof sizeof_max.
  unfold grown_capacity. case_decide; unfold SIZE_MODULUS, PTRDIFF_MAX in *; lia.
Qed.

Lemma constructor_capacity_eq b h f t n :
  0 ≤ n → sizeof * n < SIZE_MODULUS →
  on_object default_members (constructor_capacity n) (State b (World h f t)) =
  if decide (n = 0) then Normal (tt, Buffer None 0 0 0) (State b (World h f t))
  else if decide (max_slots < n) then Thrown (State b (World h f t))
  else match f with
       | true :: f' => Thrown (State b (World h f' t))
       | _ => Normal (tt, Buffer (Some (fresh (dom h))) 0 n 0)
                (State b (World (<[fresh (dom h) := replicate (Z.to_nat n) None]> h)
                            (tail f) (t ++ [EvNew (fresh (dom h)) n])))
       end.
Proof.
  intros Hn0 Hfit.
  unfold on_object, constructor_capacity. cbn [mem this]. rewrite bind_unfold.
  case_decide as Hn.
  - subst. done.
  - rewrite operator_new_objects by done. case_decide; [done|].
    destruct f as [|[] f']; done.
Qed.

(** A local whose block is a run block is destroyed while an exception
    passes. *)
Lemma on_throw_destroy {A} (m : M A) s b h f t a c n l :
  m s = Thrown (State b (World h f t)) →
  h !! a = Some (run_block c 0 l) →
  n = Z.of_nat (length l) →
  0 < c → n ≤ c → c ≤ max_slots →
  on_throw m (destroy_object (Buffer (Some a) n c 0)) s =
  Thrown (State b (World (delete a h) f
                     (t ++ destructor_trace (Buffer (Some a) n c 0) l))).
Proof.
  intros Hm Hblk -> Hc Hl Hmax. unfold on_throw. rewrite Hm.
  destruct (destroy_object_spec (Buffer (Some a) (Z.of_nat (length l)) c 0)
              (State b (World h f t)) l) as (s' & -> & Hthis & Hh & Hf & Ht).
  { apply Repr_run_block'; [done|lia|done|done]. }
  destruct s' as [b' [h' f' t']]. simpl in *. by subst.
Qed.

Lemma on_throw_normal {A} (m : M A) cleanup s a s' :
  m s = Normal a s' → on_throw m cleanup s = Normal a s'.
Proof. intros Hm. unfold on_throw. by rewrite Hm. Qed.

Lemma swap_with_eq other s :
  swap_with other s = Normal (this s) (State other (mem s)).
Proof. destruct s as [[] w], other. reflexivity. Qed.

Lemma first_fault_Some_nonempty n f j : first_fault n f = Some j → f ≠ [].
Proof. intros H ->. by rewrite first_fault_nil in H. Qed.

Lemma suffix_tail (f : list bool) : tail f `suffix_of` f.
Proof. destruct f; [done|]. simpl. by apply suffix_cons_r. Qed.

Lemma insert_with_copy_spec s l pos (k : nat) v :
  Repr (this s) (mem s) l → size_ (this s) = capacity_ (this s) →
  handle (this s) pos (Z.of_nat k) → (k ≤ length l)%nat →
  let c' := grown_capacity (capacity_ (this s)) in
  let a' := fresh (dom (heap (mem s))) in
  match insert_with_copy pos v s with
  | Normal it s' =>
      this s' = Buffer (Some a') (size_ (this s) + 1) c' 0 ∧
      heap (mem s') =
        release (data_ (this s))
          (<[a' := run_block c' 0 (take k l ++ v :: drop k l)]> (heap (mem s))) ∧
      faults (mem s') `suffix_of` faults (mem s) ∧
      trace (mem s') = trace (mem s) ++ [EvNew a' c'] ++ destructor_trace (this s) l ∧
      it = template_iterator.mk (Some a') (Z.of_nat k) c' ∧
      c' ≤ max_slots ∧
      first_fault (S (S (length l))) (faults (mem s)) = None
  | Thrown s' =>
      this s' = this s ∧ heap (mem s') = heap (mem s) ∧
      faults (mem s') `suffix_of` faults (mem s) ∧
      (max_slots < c' ∨ faults (mem s) ≠ [])
  | Undefined => False
  end.
Proof.
  destruct s as [b [h f t]]. cbn [this mem heap faults trace].
  intros HR Hfull Hpos Hk. cbv zeta.
  set (c' := grown_capacity (capacity_ b)). set (a' := fresh (dom h)).
  pose proof (Repr_bounds _ _ _ HR) as (Hs & Hcap & Hb & Hb').
  pose proof (Repr_size _ _ _ HR) as Hsz.
  pose proof (fresh_heap h) as Hfresh. fold a' in Hfresh.
  assert (Hne : data_ b ≠ Some a').
  { intros Ha. destruct HR as (_ & _ & HR). rewrite Ha in HR.
    destruct HR as (_ & blk & Hblk & _). simpl in Hblk. congruence. }
  assert (Hc' : 0 < c' ∧ size_ b + 1 ≤ c').
  { unfold c', grown_capacity. case_decide; lia. }
  assert (Hidx : to_size_t (template_iterator.diff pos (begin b)) = Z.of_nat k).
  { rewrite (handle_diff b (begin b) 0 pos (Z.of_nat k)); [| apply handle_begin | done | unfold_int; lia].
    rewrite to_size_t_small; unfold_int; lia. }
  unfold insert_with_copy. mstep. rewrite Hidx. unfold capacity, size.
  replace (if decide (capacity_ b = 0) then 1 else to_size_t (capacity_ b * 2)) with c'.
  2:{ unfold c', grown_capacity. case_decide; [done|]. rewrite to_size_t_small; unfold_int; lia. }
  rewrite bind_unfold, constructor_capacity_eq
    by (apply grown_fits; split; [lia|exact (Repr_max _ _ _ HR)]).
  case_decide; [lia|].
  case_decide as Hbig.
  { split_and!; try done. by left. }
  destruct (decide (head f = Some true)) as [Hf|Hf].
  { destruct f as [|[] f']; try done. split_and!; try done.
    - by apply suffix_cons_r.
    - by right. }
  match goal with |- context [match f with [] => ?X | _ => _ end] =>
    replace (match f with [] => X | true :: f' => Thrown (State b (World h f' t))
                        | false :: _ => X end) with X
      by (destruct f as [|[] f']; simpl in *; done) end.
  fold a'.
  assert (Hsuf1 : tail f `suffix_of` f) by apply suffix_tail.
  assert (Hnil : f = [] → tail f = []) by (by intros ->).
  remember (tail f) as f1 eqn:Hf1eq.
  set (t1 := t ++ [EvNew a' c']).
  assert (HRany : ∀ X f2 t2, Repr b (World (<[a' := X]> h) f2 t2) l).
  { intros. apply (Repr_frame b (World h f t)); [done|].
    intros a Ha. simpl. rewrite lookup_insert_ne; [done|congruence]. }
  change (replicate (Z.to_nat c') None) with (run_block c' 0 []).
  set (h1 := <[a' := run_block c' 0 []]> h).
  assert (Hlen_take : length (take k l) = k) by (rewrite length_take; lia).
  unfold set_size_, end_, begin, capacity, size. cbn [size_ data_ capacity_ begin_].
  norm_int.
  (* the run before the insertion point *)
  assert (Hhk : handle b (template_iterator.add (begin b) (Z.of_nat k)) (Z.of_nat k)).
  { apply (handle_add b (begin b) 0); [apply handle_begin | unfold_int; lia]. }
  unfold begin, capacity in Hhk.
  assert (Hh1a : h1 !! a' = Some (run_block c' 0 [])) by (unfold h1; by rewrite lookup_insert_eq).
  assert (Hmod : 0 + c' < SIZE_MODULUS) by (unfold_int; lia).
  assert (Htake : ∀ (j : nat) w, take k l !! j = Some w → l !! (0 + j)%nat = Some w).
  { intros j w Hj. by apply lookup_take_Some in Hj as []. }
  pose proof (copy_run_spec b h1 f1 t1 b l 0 (take k l) (begin b)
                (template_iterator.add (begin b) (Z.of_nat k)) a' c' 0 []
                (HRany _ _ _) (handle_begin b)) as Hcopy1.
  rewrite Hlen_take in Hcopy1. cbn [length Nat.add app] in Hcopy1.
  change (Z.of_nat 0) with 0 in Hcopy1. rewrite !Z.add_0_l in Hcopy1.
  specialize (Hcopy1 Hhk ltac:(lia) Htake Hne Hh1a ltac:(lia) ltac:(lia) Hmod).
  unfold begin, capacity in Hcopy1. unfold begin, capacity in Hhk.
  rewrite bind_unfold.
  destruct (first_fault k f1) as [j|] eqn:Hff1.
  { (* a copy before the insertion point throws *)
    erewrite on_throw_destroy; [|exact Hcopy1|exact Hh1a|done|lia|lia|lia].
    cbn [this mem heap faults]. split_and!; try done.
    - unfold h1. by rewrite delete_insert_eq, delete_id.
    - etrans; [apply suffix_drop|done].
    - right. intros ->. apply first_fault_Some_nonempty in Hff1. by apply Hff1, Hnil. }
  erewrite on_throw_normal by exact Hcopy1. clear Hcopy1.
  assert (Hsuf2 : drop k f1 `suffix_of` f) by (etrans; [apply suffix_drop|done]).
  remember (drop k f1) as f2 eqn:Hf2eq.
  unfold h1 in *. clear h1 Hh1a. rewrite insert_insert_eq.
  (* the new element *)
  erewrite bind_normal by (apply umod_eq; lia).
  rewrite Z.mod_small by lia.
  rewrite bind_unfold.
  pose proof (construct_eq b (<[a' := run_block c' 0 (take k l)]> h) f2 t1 a'
                (run_block c' 0 (take k l)) (Z.of_nat k) v) as Hcons.
  rewrite lookup_insert_eq, run_block_length in Hcons.
  specialize (Hcons eq_refl ltac:(lia)).
  destruct (decide (head f2 = Some true)) as [Hf2|Hf2].
  { destruct f2 as [|[] f2']; try done.
    erewrite on_throw_destroy;
      [|exact Hcons|apply lookup_insert_eq|by rewrite Hlen_take|lia|lia|lia].
    cbn [this mem heap faults]. split_and!; try done.
    - by rewrite delete_insert_eq, delete_id.
    - by eapply suffix_cons_l.
    - right. intros ->. by apply suffix_nil_inv in Hsuf2. }
  match type of Hcons with context [match f2 with [] => ?X | _ => _ end] =>
    replace (match f2 with [] => X
                        | true :: f' => Thrown (State b (World (<[a' := run_block c' 0 (take k l)]> h) f' t1))
                        | false :: _ => X end) with X in Hcons
      by (destruct f2 as [|[] f2']; simpl in *; done) end.
  erewrite on_throw_normal by exact Hcons. clear Hcons.
  assert (Hsuf3 : tail f2 `suffix_of` f) by (etrans; [apply suffix_tail|done]).
  remember (tail f2) as f3 eqn:Hf3eq.
  rewrite insert_insert_eq.
  replace (<[Z.to_nat (Z.of_nat k) := Some v]> (run_block c' 0 (take k l)))
    with (run_block c' 0 (take k l ++ [v])).
  2:{ rewrite run_block_snoc, Z.add_0_l, Hlen_take, Z.mod_small by lia. done. }
  (* the run after the insertion point *)
  assert (Hlen_drop : length (drop k l) = (length l - k)%nat) by apply length_drop.
  assert (Hlen_lp : length (take k l ++ [v]) = S k).
  { rewrite length_app, Hlen_take. simpl. lia. }
  assert (Hhe : handle b (template_iterator.add (begin b) (size_ b))
                  (Z.of_nat (k + length (drop k l)))).
  { replace (Z.of_nat (k + length (drop k l))) with (0 + size_ b) by lia.
    apply (handle_add b (begin b) 0); [apply handle_begin | unfold_int; lia]. }
  assert (Hdrop : ∀ (j : nat) w, drop k l !! j = Some w → l !! (k + j)%nat = Some w).
  { intros j w Hj. by rewrite lookup_drop in Hj. }
  pose proof (copy_run_spec b (<[a' := run_block c' 0 (take k l ++ [v])]> h) f3 t1 b l k
                (drop k l) (template_iterator.add (begin b) (Z.of_nat k))
                (template_iterator.add (begin b) (size_ b)) a' c' 0 (take k l ++ [v])
                (HRany _ _ _)) as Hcopy3.
  unfold begin, capacity in Hcopy3, Hhe.
  rewrite lookup_insert_eq in Hcopy3.
  specialize (Hcopy3 Hhk Hhe ltac:(lia) Hdrop Hne eq_refl ltac:(lia) ltac:(lia) Hmod).
  rewrite Hlen_lp, Hlen_drop, <- app_assoc in Hcopy3. cbn [app] in Hcopy3.
  replace (template_iterator.add (template_iterator.mk (Some a') 0 c') (Z.of_nat k + 1))
    with (template_iterator.mk (Some a') (0 + Z.of_nat (S k)) c').
  2:{ unfold template_iterator.add. cbn. f_equal. norm_int. lia. }
  rewrite bind_unfold.
  destruct (first_fault (length l - k) f3) as [j|] eqn:Hff3.
  { erewrite on_throw_destroy;
      [|exact Hcopy3|apply lookup_insert_eq|rewrite Hlen_lp; lia|lia|lia|lia].
    cbn [this mem heap faults]. split_and!; try done.
    - by rewrite delete_insert_eq, delete_id.
    - etrans; [apply suffix_drop|done].
    - right. intros ->. apply first_fault_Some_nonempty in Hff3.
      by apply suffix_nil_inv in Hsuf3. }
  erewrite on_throw_normal by exact Hcopy3. clear Hcopy3.
  rewrite insert_insert_eq.
  (* the new block is adopted and the old one released *)
  erewrite bind_normal by apply swap_with_eq. mstep.
  destruct (destroy_object_spec b
              (State (Buffer (Some a') (size_ b + 1) c' 0)
                 (World (<[a' := run_block c' 0 (take k l ++ v :: drop k l)]> h)
                    (drop (length l - k) f3) t1)) l (HRany _ _ _))
    as (s' & Hrun & Hthis & Hh & Hfs & Ht).
  erewrite bind_normal by exact Hrun.
  unfold ret. cbn [this mem heap faults trace] in *.
  rewrite Hthis, Hh, Hfs, Ht. split_and!; try done.
  - etrans; [apply suffix_drop|done].
  - unfold t1. by rewrite <- app_assoc.
  - unfold template_iterator.add, begin, capacity. cbn. f_equal. norm_int. done.
  - lia.
  - replace (S (S (length l))) with (1 + (k + (1 + (length l - k))))%nat by lia.
    rewrite (first_fault_add 1), (first_fault_add k), (first_fault_add 1).
    rewrite !first_fault_S. cbn [first_fault]. rewrite !drop_1_tail.
    rewrite <- Hf1eq, <- Hf2eq, <- Hf3eq. done.
Qed.
(** ** Element swaps through handles *)

Lemma swap_far {A} (pre mid post : list A) x y :
  <[S (length pre + length mid) := x]> (<[length pre := y]> (pre ++ x :: mid ++ y :: post))
  = pre ++ y :: mid ++ x :: post.
Proof.
  rewrite insert_app_r_alt, Nat.sub_diag by lia. simpl.
  rewrite insert_app_r_alt by lia.
  replace (S (length pre + length mid) - length pre)%nat with (S (length mid)) by lia.
  simpl. rewrite insert_app_r_alt, Nat.sub_diag by lia. done.
Qed.

Lemma swap_far' {A} (pre mid post : list A) x y :
  <[length pre := y]> (<[S (length pre + length mid) := x]> (pre ++ x :: mid ++ y :: post))
  = pre ++ y :: mid ++ x :: post.
Proof. rewrite list_insert_insert_ne by lia. apply swap_far. Qed.

Lemma swap_self {A} (l : list A) i x :
  l !! i = Some x → <[i := x]> (<[i := x]> l) = l.
Proof. intros. rewrite list_insert_insert_eq. by apply list_insert_id. Qed.

Lemma list_snoc_case {A} (l : list A) : l = [] ∨ ∃ l' x, l = l' ++ [x].
Proof. induction l using rev_ind; eauto. Qed.

Lemma lookup_middle' {A} (pre post : list A) x i :
  i = length pre → (pre ++ x :: post) !! i = Some x.
Proof. intros ->. apply list_lookup_middle. done. Qed.

(** [std::swap(data_[i % capacity()], data_[j % capacity()])] for the
    positions [i] and [j] of two handles. *)
Lemma swap_at_spec s l (i j : nat) pi pj x y :
  Repr (this s) (mem s) l → l !! i = Some x → l !! j = Some y →
  pi = begin_ (this s) + Z.of_nat i → pj = begin_ (this s) + Z.of_nat j →
  ∃ s', (∀ B (K : unit → M B),
           (i' ← umod pi (capacity (this s));
            j' ← umod pj (capacity (this s));
            swap_slots (data_ (this s)) i' j' ≫= K) s = K tt s') ∧
        this s' = this s ∧
        Repr (this s') (mem s') (<[j := x]> (<[i := y]> l)) ∧
        inplace s s' [].
Proof.
  intros HR Hi Hj -> ->. destruct s as [b [h f t]]. cbn [this mem] in *.
  pose proof (Repr_bounds _ _ _ HR) as (Hs & Hc & Hb & _).
  pose proof (Repr_size _ _ _ HR) as Hsz.
  apply lookup_lt_Some in Hi as Hi'.
  destruct (swap_slots_Repr b h f t l i j x y HR Hi Hj) as (s' & Hrun & Hthis & HR' & Hin).
  exists s'. split; [|by rewrite Hthis].
  intros B K. unfold capacity.
  erewrite bind_normal by (apply umod_eq; lia).
  erewrite bind_normal by (apply umod_eq; lia).
  by erewrite bind_normal by exact Hrun.
Qed.

Lemma iter_swap_spec s l it1 it2 (i j : nat) x y :
  Repr (this s) (mem s) l →
  handle (this s) it1 (Z.of_nat i) → handle (this s) it2 (Z.of_nat j) →
  l !! i = Some x → l !! j = Some y →
  ∃ s', iter_swap it1 it2 s = Normal tt s' ∧
        this s' = this s ∧
        Repr (this s') (mem s') (<[j := x]> (<[i := y]> l)) ∧
        inplace s s' [].
Proof.
  intros HR (Hd1 & Hs1 & Hp1) (Hd2 & Hs2 & Hp2) Hi Hj.
  destruct (swap_at_spec s l i j _ _ x y HR Hi Hj eq_refl eq_refl) as (s' & Hrun & Hrest).
  exists s'. split; [|done].
  pose proof (Repr_bounds _ _ _ HR) as (Hs & Hc & Hb & _).
  pose proof (Repr_size _ _ _ HR) as Hsz.
  apply lookup_lt_Some in Hi as Hi'.
  specialize (Hrun _ ret).
  unfold iter_swap, slot_of. rewrite Hp1, Hp2, Hs1, Hs2, Hd1, Hd2.
  unfold capacity in Hrun.
  erewrite bind_normal by (apply umod_eq; lia).
  erewrite bind_normal by (apply umod_eq; lia).
  erewrite bind_normal in Hrun by (apply umod_eq; lia).
  erewrite bind_normal in Hrun by (apply umod_eq; lia).
  rewrite bind_ret_r in Hrun.
  case_decide; done.
Qed.

(** ** The rotation loops of [insert] *)

Lemma insert_front_loop_spec mid : ∀ s pre x post cur,
  Repr (this s) (mem s) (pre ++ x :: mid ++ post) →
  handle (this s) cur (Z.of_nat (length pre)) →
  ∃ s', insert_front_loop (length mid) cur s = Normal tt s' ∧
        this s' = this s ∧
        Repr (this s') (mem s') (pre ++ mid ++ x :: post) ∧
        inplace s s' [].
Proof.
  induction mid as [|y mid IH]; intros s pre x post cur HR Hcur.
  - exists s. split_and!; try done. by eapply inplace_refl.
  - pose proof (Repr_bounds _ _ _ HR) as (Hs & Hc & Hb & _).
    pose proof (Repr_size _ _ _ HR) as Hsz.
    rewrite length_app in Hsz. simpl in Hsz. rewrite length_app in Hsz.
    destruct (iter_swap_spec s _ cur (template_iterator.add cur 1)
                (length pre) (S (length pre)) x y HR Hcur) as (s1 & Hrun & Hthis & HR1 & Hin).
    { replace (Z.of_nat (S (length pre))) with (Z.of_nat (length pre) + 1) by lia.
      apply handle_add; [done|unfold_int; lia]. }
    { by apply lookup_middle'. }
    { rewrite (lookup_app_r pre) by lia.
      replace (S (length pre) - length pre)%nat with 1%nat by lia. done. }
    pose proof (swap_far pre [] (mid ++ post) x y) as Hsw.
    cbn [app length] in Hsw, HR1. rewrite Nat.add_0_r in Hsw. rewrite Hsw in HR1. clear Hsw.
    destruct (IH s1 (pre ++ [y]) x post (template_iterator.incr cur)) as (s2 & Hrun2 & Hthis2 & HR2 & Hin2).
    { by rewrite <- app_assoc. }
    { rewrite Hthis, length_app. simpl.
      replace (Z.of_nat (length pre + 1)) with (Z.of_nat (length pre) + 1) by lia.
      apply handle_incr; [done|unfold_int; lia]. }
    exists s2. split_and!.
    + simpl. by erewrite bind_normal.
    + congruence.
    + by rewrite <- app_assoc in HR2.
    + by apply (inplace_trans _ _ _ [] [] Hin).
Qed.

Lemma insert_back_loop_spec mid : ∀ s pre x post cur,
  Repr (this s) (mem s) (pre ++ mid ++ x :: post) →
  handle (this s) cur (Z.of_nat (length pre + length mid)) →
  ∃ s', insert_back_loop (length mid) cur s = Normal tt s' ∧
        this s' = this s ∧
        Repr (this s') (mem s') (pre ++ x :: mid ++ post) ∧
        inplace s s' [].
Proof.
  induction mid as [|y mid IH] using rev_ind; intros s pre x post cur HR Hcur.
  - exists s. split_and!; try done. by eapply inplace_refl.
  - pose proof (Repr_bounds _ _ _ HR) as (Hs & Hc & Hb & _).
    pose proof (Repr_size _ _ _ HR) as Hsz.
    rewrite !length_app in Hsz. simpl in Hsz.
    rewrite length_app in Hcur. simpl in Hcur.
    rewrite <- app_assoc in HR. simpl in HR.
    rewrite app_assoc in HR.
    destruct (iter_swap_spec s _ cur (template_iterator.sub cur 1)
                (S (length (pre ++ mid))) (length (pre ++ mid)) x y HR)
      as (s1 & Hrun & Hthis & HR1 & Hin).
    { rewrite length_app. replace (S (length pre + length mid)) with
        (length pre + (length mid + 1))%nat by lia. done. }
    { rewrite length_app.
      replace (Z.of_nat (length pre + length mid))
        with (Z.of_nat (length pre + (length mid + 1)) - 1) by lia.
      apply handle_sub; [done|unfold_int; lia]. }
    { rewrite lookup_app_r by lia.
      replace (S (length (pre ++ mid)) - length (pre ++ mid))%nat with 1%nat by lia. done. }
    { by apply lookup_middle'. }
    pose proof (swap_far' (pre ++ mid) [] post y x) as Hsw.
    cbn [app length] in Hsw, HR1. rewrite Nat.add_0_r in Hsw. rewrite Hsw in HR1. clear Hsw.
    rewrite <- app_assoc in HR1.
    destruct (IH s1 pre x (y :: post) (template_iterator.decr cur)) as (s2 & Hrun2 & Hthis2 & HR2 & Hin2).
    { done. }
    { rewrite Hthis.
      replace (Z.of_nat (length pre + length mid))
        with (Z.of_nat (length pre + (length mid + 1)) - 1) by lia.
      apply handle_decr; [done|unfold_int; lia]. }
    exists s2. split_and!.
    + rewrite length_app, Nat.add_comm. simpl. by erewrite bind_normal.
    + congruence.
    + by rewrite <- app_assoc.
    + by apply (inplace_trans _ _ _ [] [] Hin).
Qed.

(** ** [insert] with spare capacity *)

Lemma insert_inplace_spec s l pos (k : nat) v :
  Repr (this s) (mem s) l → size_ (this s) ≠ capacity_ (this s) →
  handle (this s) pos (Z.of_nat k) → (k ≤ length l)%nat →
  if decide (next_fails s) then insert pos v s = Thrown (tick s)
  else
    ∃ s', insert pos v s =
            Normal (template_iterator.add (begin (this s')) (Z.of_nat k)) s' ∧
          Repr (this s') (mem s') (take k l ++ v :: drop k l) ∧
          this s' =
            set_size_ (size_ (this s) + 1)
              (if decide (Z.of_nat k < size_ (this s) - Z.of_nat k)
               then set_begin_ ((begin_ (this s) + capacity_ (this s) - 1)
                                  mod capacity_ (this s)) (this s)
               else this s) ∧
          inplace (tick s) s' [].
Proof.
  intros HR Hne Hpos Hk.
  pose proof (Repr_bounds _ _ _ HR) as (Hs & Hc & Hb & _).
  pose proof (Repr_size _ _ _ HR) as Hsz.
  assert (Hidx : template_iterator.diff pos (begin (this s)) = Z.of_nat k).
  { rewrite (handle_diff (this s) (begin (this s)) 0 pos (Z.of_nat k));
      [lia | apply handle_begin | done | unfold_int; lia]. }
  assert (Hend : template_iterator.diff (end_ (this s)) pos = size_ (this s) - Z.of_nat k).
  { rewrite (handle_diff (this s) pos (Z.of_nat k) (end_ (this s)) (size_ (this s)));
      [lia | done | by eapply handle_end | unfold_int; lia]. }
  assert (Hunf : insert pos v s =
    ((if decide (Z.of_nat k < size_ (this s) - Z.of_nat k) then
        push_front v;;
        b ← get_this;
        insert_front_loop k (begin b)
      else
        push_back v;;
        b ← get_this;
        insert_back_loop (Z.to_nat (to_size_t (size b - Z.of_nat k - 1)))
          (template_iterator.sub (end_ b) 1));;
     b ← get_this;
     ret (template_iterator.add (begin b) (Z.of_nat k))) s).
  { unfold insert. mstep. unfold size, capacity. case_decide; [done|].
    rewrite Hidx, Hend. rewrite to_size_t_small by (unfold_int; lia).
    rewrite to_ptrdiff_t_small by (unfold_int; lia). by rewrite Nat2Z.id. }
  rewrite Hunf. clear Hunf.
  rewrite !bind_unfold.
  destruct (decide (Z.of_nat k < size_ (this s) - Z.of_nat k)) as [Hside|Hside].
  - (* towards the front *)
    rewrite bind_unfold.
    pose proof (push_front_inplace_spec s l v HR Hne) as Hpush.
    case_decide as Hf; [by rewrite Hpush|].
    destruct Hpush as (s1 & -> & Hthis1 & HR1 & Hin1).
    mstep.
    destruct (insert_front_loop_spec (take k l) s1 [] v (drop k l) (begin (this s1)))
      as (s2 & Hrun2 & Hthis2 & HR2 & Hin2).
    { simpl. by rewrite take_drop. }
    { apply handle_begin. }
    rewrite length_take, Nat.min_l in Hrun2 by done.
    rewrite Hrun2. mstep.
    exists s2. split_and!; try done.
    + by rewrite Hthis2.
    + by apply (inplace_trans _ _ _ [] [] Hin1).
  - (* towards the back *)
    rewrite bind_unfold.
    pose proof (push_back_inplace_spec s l v HR Hne) as Hpush.
    case_decide as Hf; [by rewrite Hpush|].
    destruct Hpush as (s1 & -> & Hthis1 & HR1 & Hin1).
    mstep. unfold size. rewrite Hthis1. cbn [size_ set_size_].
    rewrite to_size_t_small by (unfold_int; lia).
    replace (Z.to_nat (size_ (this s) + 1 - Z.of_nat k - 1)) with (length (drop k l))
      by (rewrite length_drop; lia).
    rewrite <- Hthis1.
    destruct (insert_back_loop_spec (drop k l) s1 (take k l) v []
                (template_iterator.sub (end_ (this s1)) 1))
      as (s2 & Hrun2 & Hthis2 & HR2 & Hin2).
    { rewrite app_assoc, take_drop. done. }
    { rewrite <- length_app, take_drop.
      replace (Z.of_nat (length l)) with (size_ (this s1) - 1)
        by (rewrite Hthis1; simpl; lia).
      apply handle_sub; [by eapply handle_end|].
      rewrite Hthis1. simpl. unfold_int. lia. }
    rewrite Hrun2. mstep.
    exists s2. split_and!; try done.
    + by rewrite app_nil_r in HR2.
    + by apply (inplace_trans _ _ _ [] [] Hin1).
Qed.

(** ** The loops of [erase] *)

Lemma erase_front_loop_spec A : ∀ s R B first last fuel,
  Repr (this s) (mem s) (A ++ R ++ B) →
  handle (this s) first (Z.of_nat (length A)) →
  handle (this s) last (Z.of_nat (length A + length R)) →
  (length A ≤ fuel)%nat →
  ∃ s' R' first' last',
    erase_front_loop fuel first last s = Normal (first', last') s' ∧
    this s' = this s ∧ length R' = length R ∧
    Repr (this s') (mem s') (R' ++ A ++ B) ∧
    inplace s s' [] ∧
    handle (this s) first' 0 ∧ handle (this s) last' (Z.of_nat (length R)).
Proof.
  induction A as [|x A IH] using rev_ind; intros s R B first last fuel HR Hfirst Hlast Hfuel.
  - exists s, R, first, last. split_and!; try done; [|by eapply inplace_refl].
    destruct fuel; simpl; mstep; unfold template_iterator.gtb, template_iterator.ltb;
      rewrite (handle_diff (this s) (begin (this s)) 0 first 0);
      try done; try apply handle_begin; try (unfold_int; lia);
      rewrite (bool_decide_eq_false_2 (0 < 0 - 0)) by lia; by rewrite andb_false_r.
  - pose proof (Repr_bounds _ _ _ HR) as (Hs & Hc & Hb & _).
    pose proof (Repr_size _ _ _ HR) as Hsz.
    rewrite !length_app in Hsz. rewrite length_app in Hfirst, Hlast, Hfuel.
    cbn [length] in *.
    destruct fuel as [|fuel]; [lia|].
    assert (Hcond : template_iterator.gtb first (begin (this s)) = true).
    { unfold template_iterator.gtb, template_iterator.ltb.
      rewrite (handle_diff (this s) (begin (this s)) 0 first _ (handle_begin _) Hfirst)
        by (unfold_int; lia).
      destruct Hfirst as (-> & _). simpl.
      rewrite bool_decide_eq_true_2 by done. rewrite bool_decide_eq_true_2 by lia. done. }
    cbn [erase_front_loop]. mstep. rewrite Hcond.
    assert (Hfirst' : handle (this s) (template_iterator.decr first) (Z.of_nat (length A))).
    { replace (Z.of_nat (length A)) with (Z.of_nat (length A + 1) - 1) by lia.
      apply handle_decr; [done|unfold_int; lia]. }
    assert (Hlast' : handle (this s) (template_iterator.decr last)
                       (Z.of_nat (length A + length R))).
    { replace (Z.of_nat (length A + length R))
        with (Z.of_nat (length A + 1 + length R) - 1) by lia.
      apply handle_decr; [done|unfold_int; lia]. }
    destruct (list_snoc_case R) as [->|(R0 & y & ->)].
    + (* an empty range: the element is swapped with itself *)
      destruct (swap_at_spec s _ (length A) (length A + 0)
                  (template_iterator.pos_ (template_iterator.decr first))
                  (template_iterator.pos_ (template_iterator.decr last)) x x HR)
        as (s1 & Hrun & Hthis & HR1 & Hin).
      { rewrite <- app_assoc. by apply lookup_middle'. }
      { rewrite <- app_assoc, Nat.add_0_r. by apply lookup_middle'. }
      { apply Hfirst'. }
      { apply Hlast'. }
      rewrite Nat.add_0_r, swap_self in HR1.
      2:{ rewrite <- app_assoc. by apply lookup_middle'. }
      destruct (IH s1 [] (x :: B) (template_iterator.decr first)
                  (template_iterator.decr last) fuel)
        as (s2 & R' & first2 & last2 & Hrun2 & Hthis2 & HlenR & HR2 & Hin2 & Hf2 & Hl2).
      { by rewrite <- app_assoc in HR1. }
      { by rewrite Hthis. }
      { by rewrite Hthis. }
      { lia. }
      exists s2, R', first2, last2. rewrite Hrun.
      split_and!; try done; try congruence.
      * by rewrite <- app_assoc.
      * by apply (inplace_trans _ _ _ [] [] Hin).
    + rewrite length_app in *. cbn [length] in *.
      rewrite <- !app_assoc in HR. cbn [app] in HR.
      destruct (swap_at_spec s _ (length A) (S (length A + length R0))
                  (template_iterator.pos_ (template_iterator.decr first))
                  (template_iterator.pos_ (template_iterator.decr last)) x y HR)
        as (s1 & Hrun & Hthis & HR1 & Hin).
      { by apply lookup_middle'. }
      { rewrite lookup_app_r by lia.
        replace (S (length A + length R0) - length A)%nat with (S (length R0)) by lia.
        simpl. by apply lookup_middle'. }
      { apply Hfirst'. }
      { destruct Hlast' as (_ & _ & ->). f_equal. lia. }
      rewrite swap_far in HR1.
      destruct (IH s1 (y :: R0) (x :: B) (template_iterator.decr first)
                  (template_iterator.decr last) fuel)
        as (s2 & R' & first2 & last2 & Hrun2 & Hthis2 & HlenR & HR2 & Hin2 & Hf2 & Hl2).
      { done. }
      { by rewrite Hthis. }
      { rewrite Hthis. cbn [length].
        replace (Z.of_nat (length A + S (length R0)))
          with (Z.of_nat (length A + (length R0 + 1))) by lia. done. }
      { lia. }
      exists s2, R', first2, last2. rewrite Hrun.
      split_and!; try done; try congruence.
      * simpl in HlenR. lia.
      * by rewrite <- app_assoc.
      * by apply (inplace_trans _ _ _ [] [] Hin).
      * rewrite Hthis in Hl2. simpl in Hl2.
        replace (Z.of_nat (length R0 + 1)) with (Z.of_nat (S (length R0))) by lia. done.
Qed.

Lemma erase_back_loop_spec B : ∀ s A R first last fuel,
  Repr (this s) (mem s) (A ++ R ++ B) →
  handle (this s) first (Z.of_nat (length A)) →
  handle (this s) last (Z.of_nat (length A + length R)) →
  (length B ≤ fuel)%nat →
  ∃ s' R' first' last',
    erase_back_loop fuel first last s = Normal (first', last') s' ∧
    this s' = this s ∧ length R' = length R ∧
    Repr (this s') (mem s') (A ++ B ++ R') ∧
    inplace s s' [] ∧
    handle (this s) first' (Z.of_nat (length A + length B)) ∧
    handle (this s) last' (Z.of_nat (length A + length B + length R)).
Proof.
  induction B as [|x B IH]; intros s A R first last fuel HR Hfirst Hlast Hfuel.
  - pose proof (Repr_bounds _ _ _ HR) as (Hs & Hc & Hb & _).
    pose proof (Repr_size _ _ _ HR) as Hsz.
    rewrite !length_app in Hsz. cbn [length] in *.
    exists s, R, first, last. rewrite !Nat.add_0_r, app_nil_r in *.
    split_and!; try done; [|by eapply inplace_refl].
    destruct fuel; simpl; mstep; unfold template_iterator.ltb;
      rewrite (handle_diff (this s) last _ (end_ (this s)) _ Hlast (handle_end _ _ _ HR))
        by (unfold_int; lia);
      rewrite (bool_decide_eq_false_2 (0 < _)) by lia; by rewrite andb_false_r.
  - pose proof (Repr_bounds _ _ _ HR) as (Hs & Hc & Hb & _).
    pose proof (Repr_size _ _ _ HR) as Hsz.
    rewrite !length_app in Hsz. cbn [length] in *.
    destruct fuel as [|fuel]; [lia|].
    assert (Hcond : template_iterator.ltb last (end_ (this s)) = true).
    { unfold template_iterator.ltb.
      rewrite (handle_diff (this s) last _ (end_ (this s)) _ Hlast (handle_end _ _ _ HR))
        by (unfold_int; lia).
      destruct Hlast as (-> & _). destruct (handle_end _ _ _ HR) as (-> & _).
      rewrite bool_decide_eq_true_2 by done. rewrite bool_decide_eq_true_2 by lia. done. }
    cbn [erase_back_loop]. mstep. rewrite Hcond.
    assert (Hfirst' : handle (this s) (template_iterator.incr first)
                        (Z.of_nat (length (A ++ [x])))).
    { rewrite length_app. simpl.
      replace (Z.of_nat (length A + 1)) with (Z.of_nat (length A) + 1) by lia.
      apply handle_incr; [done|unfold_int; lia]. }
    assert (Hlast' : handle (this s) (template_iterator.incr last)
                       (Z.of_nat (length (A ++ [x]) + length R))).
    { rewrite length_app. simpl.
      replace (Z.of_nat (length A + 1 + length R))
        with (Z.of_nat (length A + length R) + 1) by lia.
      apply handle_incr; [done|unfold_int; lia]. }
    destruct R as [|y R0].
    + (* an empty range: the element is swapped with itself *)
      cbn [app length] in *. rewrite Nat.add_0_r in Hlast.
      destruct (swap_at_spec s _ (length A) (length A)
                  (template_iterator.pos_ first) (template_iterator.pos_ last) x x HR)
        as (s1 & Hrun & Hthis & HR1 & Hin).
      { by apply lookup_middle'. }
      { by apply lookup_middle'. }
      { apply Hfirst. }
      { apply Hlast. }
      rewrite swap_self in HR1 by (by apply lookup_middle').
      destruct (IH s1 (A ++ [x]) [] (template_iterator.incr first)
                  (template_iterator.incr last) fuel)
        as (s2 & R' & first2 & last2 & Hrun2 & Hthis2 & HlenR & HR2 & Hin2 & Hf2 & Hl2).
      { by rewrite <- app_assoc. }
      { by rewrite Hthis. }
      { by rewrite Hthis. }
      { lia. }
      exists s2, R', first2, last2. rewrite Hrun.
      rewrite Hthis, length_app in Hf2, Hl2. cbn [length] in *.
      split_and!; try done; try congruence.
      * by rewrite <- app_assoc in HR2.
      * by apply (inplace_trans _ _ _ [] [] Hin).
      * eapply handle_eq; [exact Hf2|lia].
      * eapply handle_eq; [exact Hl2|lia].
    + cbn [app length] in *.
      destruct (swap_at_spec s _ (length A) (S (length A + length R0))
                  (template_iterator.pos_ first) (template_iterator.pos_ last) y x HR)
        as (s1 & Hrun & Hthis & HR1 & Hin).
      { by apply lookup_middle'. }
      { rewrite lookup_app_r by lia.
        replace (S (length A + length R0) - length A)%nat with (S (length R0)) by lia.
        simpl. by apply lookup_middle'. }
      { apply Hfirst. }
      { destruct Hlast as (_ & _ & ->). f_equal. lia. }
      rewrite swap_far in HR1.
      destruct (IH s1 (A ++ [x]) (R0 ++ [y]) (template_iterator.incr first)
                  (template_iterator.incr last) fuel)
        as (s2 & R' & first2 & last2 & Hrun2 & Hthis2 & HlenR & HR2 & Hin2 & Hf2 & Hl2).
      { rewrite <- !app_assoc. done. }
      { by rewrite Hthis. }
      { rewrite Hthis. eapply handle_eq; [exact Hlast'|].
        rewrite !length_app. simpl. lia. }
      { lia. }
      exists s2, R', first2, last2. rewrite Hrun.
      rewrite Hthis, !length_app in Hf2, Hl2. rewrite length_app in HlenR. cbn [length] in *.
      split_and!; try done; try congruence; try lia.
      * by rewrite <- app_assoc in HR2.
      * by apply (inplace_trans _ _ _ [] [] Hin).
      * eapply handle_eq; [exact Hf2|lia].
      * eapply handle_eq; [exact Hl2|rewrite length_app; simpl; lia].
Qed.

(** ** [erase] *)

Lemma erase_spec s (A R B : list T) first last :
  Repr (this s) (mem s) (A ++ R ++ B) →
  handle (this s) first (Z.of_nat (length A)) →
  handle (this s) last (Z.of_nat (length A + length R)) →
  ∃ s' evs,
    erase first last s =
      Normal (template_iterator.add (begin (this s')) (Z.of_nat (length A))) s' ∧
    Repr (this s') (mem s') (A ++ B) ∧
    this s' =
      set_size_ (size_ (this s) - Z.of_nat (length R))
        (if decide (length A < length B)%nat
         then set_begin_ ((begin_ (this s) + Z.of_nat (length R)) mod capacity_ (this s))
                (this s)
         else this s) ∧
    inplace s s' evs ∧ length evs = length R.
Proof.
  intros HR Hfirst Hlast.
  pose proof (Repr_bounds _ _ _ HR) as (Hs & Hc & Hb & _).
  pose proof (Repr_size _ _ _ HR) as Hsz.
  rewrite !length_app in Hsz.
  assert (Hidx : template_iterator.diff first (begin (this s)) = Z.of_nat (length A)).
  { rewrite (handle_diff (this s) (begin (this s)) 0 first _ (handle_begin _) Hfirst);
      [lia | unfold_int; lia]. }
  assert (Hend : template_iterator.diff (end_ (this s)) last = Z.of_nat (length B)).
  { rewrite (handle_diff (this s) last _ (end_ (this s)) _ Hlast (handle_end _ _ _ HR));
      [lia | unfold_int; lia]. }
  unfold erase. mstep. rewrite Hidx, Hend, !Nat2Z.id.
  rewrite bind_unfold.
  destruct (decide (Z.of_nat (length A) < Z.of_nat (length B))) as [Hside|Hside].
  - rewrite decide_True by lia.
    destruct (erase_front_loop_spec A s R B first last (length A) HR Hfirst Hlast)
      as (s1 & R' & first1 & last1 & Hrun1 & Hthis1 & HlenR & HR1 & Hin1 & Hf1 & Hl1); [done|].
    erewrite bind_normal by exact Hrun1. cbn beta iota.
    rewrite (handle_diff (this s) first1 _ last1 _ Hf1 Hl1) by (unfold_int; lia).
    rewrite Z.sub_0_r, Nat2Z.id, <- HlenR.
    destruct (repeat_pop_front_spec R' s1 (A ++ B) HR1) as (s2 & Hrun2 & Hthis2 & HR2 & Hin2).
    rewrite Hrun2. mstep.
    exists s2, (EvDestroy <$> R'). split_and!; try done.
    + rewrite Hthis2, Hthis1, HlenR. done.
    + by apply (inplace_trans _ _ _ [] _ Hin1).
    + by rewrite length_fmap.
  - rewrite decide_False by lia.
    destruct (erase_back_loop_spec B s A R first last (length B) HR Hfirst Hlast)
      as (s1 & R' & first1 & last1 & Hrun1 & Hthis1 & HlenR & HR1 & Hin1 & Hf1 & Hl1); [done|].
    erewrite bind_normal by exact Hrun1. cbn beta iota.
    rewrite (handle_diff (this s) first1 _ last1 _ Hf1 Hl1) by (unfold_int; lia).
    replace (Z.to_nat (Z.of_nat (length A + length B + length R)
                       - Z.of_nat (length A + length B))) with (length R') by lia.
    rewrite app_assoc in HR1.
    destruct (repeat_pop_back_spec R' s1 (A ++ B) HR1) as (s2 & Hrun2 & Hthis2 & HR2 & Hin2).
    rewrite Hrun2. mstep.
    exists s2, (EvDestroy <$> reverse R'). split_and!; try done.
    + rewrite Hthis2, Hthis1, HlenR. done.
    + by apply (inplace_trans _ _ _ [] _ Hin1).
    + by rewrite length_fmap, length_reverse.
Qed.

(** ** Footprints *)

Lemma inplace_framed s s' evs : inplace s s' evs → frame s s'.
Proof.
  intros Hin. pose proof Hin as (Hd & Hc & Hf & Ht & Hh). split_and!.
  - intros a Hne _. by eapply inplace_frame.
  - right. by left.
  - by rewrite Hf.
Qed.

Lemma tick_inplace_framed s s' evs : inplace (tick s) s' evs → frame s s'.
Proof.
  intros Hin. destruct (inplace_framed _ _ _ Hin) as (H1 & H2 & H3).
  split_and!; try done. etrans; [exact H3|]. apply suffix_tail.
Qed.

Lemma release_lookup p (h : gmap nat (list (option T))) a :
  p ≠ Some a → release p h !! a = h !! a.
Proof.
  intros Hne. destruct p as [a'|]; [|done]. simpl.
  apply lookup_delete_ne. congruence.
Qed.

(** The state after a reallocation: a fresh block [a'] replaces the block
    of [*this]. *)
Lemma realloc_framed s s' a' blk :
  heap (mem s) !! a' = None →
  data_ (this s') = Some a' →
  heap (mem s') = release (data_ (this s)) (<[a' := blk]> (heap (mem s))) →
  faults (mem s') `suffix_of` faults (mem s) →
  frame s s'.
Proof.
  intros Hfresh Hd Hh Hf. split_and!; [|right; right; eauto|done].
  intros a Hne [blk' Hblk]. rewrite Hh, release_lookup by done.
  apply lookup_insert_ne. congruence.
Qed.

Lemma realloc_Repr s s' a' c p l :
  heap (mem s) !! a' = None →
  data_ (this s) ≠ Some a' →
  this s' = Buffer (Some a') (Z.of_nat (length l)) c p →
  heap (mem s') = release (data_ (this s)) (<[a' := run_block c p l]> (heap (mem s))) →
  0 ≤ p < c → Z.of_nat (length l) ≤ c → c ≤ max_slots →
  Repr (this s') (mem s') l.
Proof.
  intros Hfresh Hne Hthis Hh Hp Hl Hc. rewrite Hthis.
  apply Repr_run_block'; try done.
  rewrite Hh, release_lookup by done. apply lookup_insert_eq.
Qed.

Lemma insert_with_copy_Repr s l pos (k : nat) v :
  Repr (this s) (mem s) l → size_ (this s) = capacity_ (this s) →
  handle (this s) pos (Z.of_nat k) → (k ≤ length l)%nat →
  match insert_with_copy pos v s with
  | Normal it s' =>
      Repr (this s') (mem s') (take k l ++ v :: drop k l) ∧
      frame s s' ∧
      capacity_ (this s') = grown_capacity (capacity_ (this s)) ∧
      begin_ (this s') = 0 ∧
      it = template_iterator.add (begin (this s')) (Z.of_nat k) ∧
      first_fault (S (S (length l))) (faults (mem s)) = None
  | Thrown s' =>
      this s' = this s ∧ heap (mem s') = heap (mem s) ∧
      faults (mem s') `suffix_of` faults (mem s) ∧
      (max_slots < grown_capacity (capacity_ (this s)) ∨ faults (mem s) ≠ [])
  | Undefined => False
  end.
Proof.
  intros HR Hfull Hpos Hk.
  pose proof (insert_with_copy_spec s l pos k v HR Hfull Hpos Hk) as Hspec. cbv zeta in Hspec.
  pose proof (Repr_bounds _ _ _ HR) as (Hs & Hc & Hb & _).
  pose proof (Repr_size _ _ _ HR) as Hsz.
  pose proof (fresh_heap (heap (mem s))) as Hfresh.
  assert (Hne : data_ (this s) ≠ Some (fresh (dom (heap (mem s))))).
  { intros Ha. destruct HR as (_ & _ & HR). rewrite Ha in HR.
    destruct HR as (_ & blk & Hblk & _). congruence. }
  destruct (insert_with_copy pos v s) as [it s'|s'|]; [|done..].
  destruct Hspec as (Hthis & Hh & Hf & Ht & Hit & Hmax & Hnofault).
  assert (Hlen : length (take k l ++ v :: drop k l) = S (length l)).
  { rewrite length_app, length_take. cbn [length]. rewrite length_drop. lia. }
  assert (0 < grown_capacity (capacity_ (this s)) ∧
          size_ (this s) + 1 ≤ grown_capacity (capacity_ (this s))).
  { unfold grown_capacity. case_decide; lia. }
  split_and!.
  - eapply realloc_Repr; try done; try lia.
    rewrite Hthis. f_equal. lia.
  - eapply realloc_framed; try done. by rewrite Hthis.
  - by rewrite Hthis.
  - by rewrite Hthis.
  - rewrite Hit, Hthis. unfold template_iterator.add, begin, capacity. cbn.
    f_equal. norm_int. done.
  - done.
Qed.

(** ** [push_back] and [push_front] *)

Lemma push_back_spec s l v :
  Repr (this s) (mem s) l →
  match push_back v s with
  | Normal _ s' =>
      Repr (this s') (mem s') (l ++ [v]) ∧ frame s s' ∧
      capacity_ (this s') =
        (if decide (size_ (this s) = capacity_ (this s))
         then grown_capacity (capacity_ (this s)) else capacity_ (this s)) ∧
      first_fault (if decide (size_ (this s) = capacity_ (this s))
                   then S (S (length l)) else 1%nat) (faults (mem s)) = None
  | Thrown s' =>
      this s' = this s ∧ heap (mem s') = heap (mem s) ∧
      faults (mem s') `suffix_of` faults (mem s) ∧
      (faults (mem s) ≠ [] ∨
       size_ (this s) = capacity_ (this s) ∧
       max_slots < grown_capacity (capacity_ (this s)))
  | Undefined => False
  end.
Proof.
  intros HR. pose proof (Repr_size _ _ _ HR) as Hsz.
  destruct (decide (size_ (this s) = capacity_ (this s))) as [Hfull|Hne].
  - pose proof (insert_with_copy_Repr s l (end_ (this s)) (length l) v HR Hfull) as Hspec.
    rewrite take_ge, drop_ge in Hspec by lia.
    unfold push_back. mstep. unfold size, capacity. rewrite decide_True by done.
    rewrite bind_unfold.
    destruct (insert_with_copy (end_ (this s)) v s) as [it s'|s'|].
    + destruct Hspec as (HR' & Hfr & Hcap & _ & _ & Hnf); [|done|]. 
      { rewrite <- Hsz. by eapply handle_end. }
      done.
    + destruct Hspec as (? & ? & ? & Hwhy); [|done|].
      { rewrite <- Hsz. by eapply handle_end. }
      split_and!; try done. destruct Hwhy; [right|left]; done.
    + apply Hspec; [|done]. rewrite <- Hsz. by eapply handle_end.
  - pose proof (push_back_inplace_spec s l v HR Hne) as Hspec.
    case_decide as Hf.
    + rewrite Hspec. split_and!; try done.
      * apply suffix_tail.
      * left. unfold next_fails in Hf. by destruct (faults (mem s)).
    + destruct Hspec as (s' & -> & Hthis & HR' & Hin). split_and!; try done.
      * by eapply tick_inplace_framed.
      * by rewrite Hthis.
      * apply first_fault_S. split; [done|]. done.
Qed.

Lemma push_front_spec s l v :
  Repr (this s) (mem s) l →
  match push_front v s with
  | Normal _ s' =>
      Repr (this s') (mem s') (v :: l) ∧ frame s s' ∧
      capacity_ (this s') =
        (if decide (size_ (this s) = capacity_ (this s))
         then grown_capacity (capacity_ (this s)) else capacity_ (this s)) ∧
      first_fault (if decide (size_ (this s) = capacity_ (this s))
                   then S (S (length l)) else 1%nat) (faults (mem s)) = None
  | Thrown s' =>
      this s' = this s ∧ heap (mem s') = heap (mem s) ∧
      faults (mem s') `suffix_of` faults (mem s) ∧
      (faults (mem s) ≠ [] ∨
       size_ (this s) = capacity_ (this s) ∧
       max_slots < grown_capacity (capacity_ (this s)))
  | Undefined => False
  end.
Proof.
  intros HR. pose proof (Repr_size _ _ _ HR) as Hsz.
  destruct (decide (size_ (this s) = capacity_ (this s))) as [Hfull|Hne].
  - pose proof (insert_with_copy_Repr s l (begin (this s)) 0 v HR Hfull
                  (handle_begin _)) as Hspec.
    rewrite take_0, drop_0 in Hspec. simpl in Hspec.
    unfold push_front. mstep. unfold size, capacity. rewrite decide_True by done.
    rewrite bind_unfold.
    destruct (insert_with_copy (begin (this s)) v s) as [it s'|s'|].
    + destruct Hspec as (HR' & Hfr & Hcap & _ & _ & Hnf); [lia|]. done.
    + destruct Hspec as (? & ? & ? & Hwhy); [lia|].
      split_and!; try done. destruct Hwhy; [right|left]; done.
    + apply Hspec. lia.
  - pose proof (push_front_inplace_spec s l v HR Hne) as Hspec.
    case_decide as Hf.
    + rewrite Hspec. split_and!; try done.
      * apply suffix_tail.
      * left. unfold next_fails in Hf. by destruct (faults (mem s)).
    + destruct Hspec as (s' & -> & Hthis & HR' & Hin). split_and!; try done.
      * by eapply tick_inplace_framed.
      * by rewrite Hthis.
      * apply first_fault_S. split; [done|]. done.
Qed.

(** ** [reserve] *)

Lemma Repr_fresh b w l : Repr b w l → data_ b ≠ Some (fresh (dom (heap w))).
Proof.
  intros (_ & _ & HR) Ha. rewrite Ha in HR.
  destruct HR as (_ & blk & Hblk & _). pose proof (fresh_heap (heap w)). congruence.
Qed.

Lemma Repr_insert_fresh b h f t l X f2 t2 :
  Repr b (World h f t) l → Repr b (World (<[fresh (dom h) := X]> h) f2 t2) l.
Proof.
  intros HR. apply (Repr_frame b (World h f t)); [done|].
  intros a Ha. simpl. rewrite lookup_insert_ne; [done|].
  pose proof (Repr_fresh _ _ _ HR). simpl in *. congruence.
Qed.

Lemma reserve_spec s l n :
  Repr (this s) (mem s) l →
  (capacity_ (this s) < n → sizeof * n < SIZE_MODULUS) →
  if decide (capacity_ (this s) < n) then
    match reserve n s with
    | Normal _ s' =>
        this s' = Buffer (Some (fresh (dom (heap (mem s))))) (size_ (this s)) n 0 ∧
        heap (mem s') =
          release (data_ (this s))
            (<[fresh (dom (heap (mem s))) := run_block n 0 l]> (heap (mem s))) ∧
        faults (mem s') `suffix_of` faults (mem s) ∧
        trace (mem s') =
          trace (mem s) ++ [EvNew (fresh (dom (heap (mem s)))) n]
            ++ destructor_trace (this s) l ∧
        n ≤ max_slots ∧
        first_fault (S (length l)) (faults (mem s)) = None
    | Thrown s' =>
        this s' = this s ∧ heap (mem s') = heap (mem s) ∧
        faults (mem s') `suffix_of` faults (mem s) ∧
        (max_slots < n ∨ faults (mem s) ≠ [])
    | Undefined => False
    end
  else reserve n s = Normal tt s.
Proof.
  destruct s as [b [h f t]]. cbn [this mem heap faults trace]. intros HR Hfit.
  pose proof (Repr_bounds _ _ _ HR) as (Hs & Hc & Hb & Hb').
  pose proof (Repr_size _ _ _ HR) as Hsz.
  pose proof (Repr_fresh _ _ _ HR) as Hne. cbn [heap] in Hne.
  set (a' := fresh (dom h)) in *.
  unfold reserve. mstep. unfold capacity.
  case_decide as Hn; [|done]. specialize (Hfit Hn).
  rewrite bind_unfold, constructor_capacity_eq by (done || lia).
  case_decide; [lia|].
  case_decide as Hbig.
  { split_and!; try done. by left. }
  destruct (decide (head f = Some true)) as [Hf|Hf].
  { destruct f as [|[] f']; try done. split_and!; try done.
    - by apply suffix_cons_r.
    - by right. }
  match goal with |- context [match f with [] => ?X | _ => _ end] =>
    replace (match f with [] => X | true :: f' => Thrown (State b (World h f' t))
                        | false :: _ => X end) with X
      by (destruct f as [|[] f']; simpl in *; done) end.
  fold a'.
  assert (Hsuf1 : tail f `suffix_of` f) by apply suffix_tail.
  remember (tail f) as f1 eqn:Hf1eq.
  set (t1 := t ++ [EvNew a' n]).
  change (replicate (Z.to_nat n) None) with (run_block n 0 []).
  assert (Hh1a : <[a' := run_block n 0 []]> h !! a' = Some (run_block n 0 []))
    by apply lookup_insert_eq.
  assert (Hmod : 0 + n < SIZE_MODULUS) by (unfold_int; lia).
  assert (Hall : ∀ (j : nat) w, l !! j = Some w → l !! (0 + j)%nat = Some w) by done.
  pose proof (copy_run_spec b (<[a' := run_block n 0 []]> h) f1 t1 b l 0 l (begin b)
                (end_ b) a' n 0 []
                (Repr_insert_fresh _ _ _ _ _ _ _ _ HR) (handle_begin b)) as Hcopy.
  cbn [length Nat.add app] in Hcopy.
  change (Z.of_nat 0) with 0 in Hcopy. rewrite !Z.add_0_l in Hcopy.
  assert (Hhe : handle b (end_ b) (Z.of_nat (length l))).
  { rewrite <- Hsz. by eapply handle_end. }
  specialize (Hcopy Hhe ltac:(lia) Hall Hne Hh1a ltac:(lia) ltac:(lia) Hmod).
  unfold begin, capacity in Hcopy |- *. cbn [data_ begin_ capacity_].
  rewrite bind_unfold.
  destruct (first_fault (length l) f1) as [j|] eqn:Hff.
  { erewrite on_throw_destroy; [|exact Hcopy|exact Hh1a|done|lia|lia|lia].
    cbn [this mem heap faults]. split_and!; try done.
    - fold a'. by rewrite delete_insert_eq, delete_id by apply fresh_heap.
    - etrans; [apply suffix_drop|done].
    - right. intros ->. apply first_fault_Some_nonempty in Hff.
      by apply suffix_nil_inv in Hsuf1. }
  erewrite on_throw_normal by exact Hcopy. clear Hcopy.
  rewrite insert_insert_eq.
  unfold set_size_, size. cbn [data_ size_ capacity_ begin_].
  erewrite bind_normal by apply swap_with_eq. cbn [this mem].
  destruct (destroy_object_spec b
              (State (Buffer (Some a') (size_ b) n 0)
                 (World (<[a' := run_block n 0 l]> h) (drop (length l) f1) t1)) l
              (Repr_insert_fresh _ _ _ _ _ _ _ _ HR))
    as (s' & Hrun & Hthis & Hh & Hfs & Ht).
  rewrite Hrun.
  cbn [this mem heap faults trace] in *.
  rewrite Hthis, Hh, Hfs, Ht. split_and!; try done.
  - etrans; [apply suffix_drop|done].
  - unfold t1. by rewrite <- app_assoc.
  - lia.
  - apply first_fault_S. by rewrite <- Hf1eq.
Qed.

(** ** Copy construction and assignment *)

Lemma constructor_capacity_run b h f t n :
  0 ≤ n → sizeof * n < SIZE_MODULUS →
  constructor_capacity n (State b (World h f t)) =
  if decide (n = 0) then Normal tt (State (Buffer None 0 0 0) (World h f t))
  else if decide (max_slots < n) then Thrown (State b (World h f t))
  else match f with
       | true :: f' => Thrown (State b (World h f' t))
       | _ => Normal tt
                (State (Buffer (Some (fresh (dom h))) 0 n 0)
                   (World (<[fresh (dom h) := replicate (Z.to_nat n) None]> h)
                      (tail f) (t ++ [EvNew (fresh (dom h)) n])))
       end.
Proof.
  intros Hn0 Hfit.
  unfold constructor_capacity. rewrite bind_unfold.
  case_decide as Hn.
  - subst. done.
  - rewrite operator_new_objects by done. case_decide; [done|].
    destruct f as [|[] f']; done.
Qed.

Lemma copy_constructor_spec s other l :
  Repr other (mem s) l →
  match on_object default_members (copy_constructor other) s with
  | Normal (_, c) s' =>
      this s' = this s ∧
      c = copy_of other (fresh (dom (heap (mem s)))) ∧
      heap (mem s') = copy_heap other (fresh (dom (heap (mem s)))) l (heap (mem s)) ∧
      faults (mem s') `suffix_of` faults (mem s) ∧
      trace (mem s') = trace (mem s) ++ copy_trace other (fresh (dom (heap (mem s))))
  | Thrown s' =>
      this s' = this s ∧ heap (mem s') = heap (mem s) ∧
      faults (mem s') `suffix_of` faults (mem s) ∧
      faults (mem s) ≠ []
  | Undefined => False
  end.
Proof.
  destruct s as [b [h f t]]. cbn [this mem heap faults trace]. intros HR.
  pose proof (Repr_bounds _ _ _ HR) as (Hs & Hc & Hb & Hb').
  pose proof (Repr_size _ _ _ HR) as Hsz.
  pose proof (Repr_fresh _ _ _ HR) as Hne. cbn [heap] in Hne.
  set (a' := fresh (dom h)) in *.
  unfold on_object, copy_of, copy_heap, copy_trace. cbn [this mem].
  pose proof (Repr_max _ _ _ HR) as Hmaxs.
  assert (Hfit : sizeof * capacity_ other < SIZE_MODULUS).
  { pose proof (max_slots_fits _ Hmaxs). unfold SIZE_MODULUS, PTRDIFF_MAX in *. lia. }
  unfold copy_constructor. unfold capacity.
  rewrite bind_unfold, constructor_capacity_run by (done || lia).
  destruct (decide (capacity_ other = 0)) as [Hc0|Hc0].
  - destruct (Repr_null _ _ _ HR Hc0) as (Hd & -> & Hbg).
    destruct other as [d sz c bg]. simpl in *. subst.
    cbn. split_and!; try done. by rewrite app_nil_r.
  - rewrite decide_False by lia.
    destruct (decide (head f = Some true)) as [Hf|Hf].
    { destruct f as [|[] f']; try done. cbn. split_and!; try done.
      by apply suffix_cons_r. }
    match goal with |- context [match f with [] => ?X | _ => _ end] =>
      replace (match f with [] => X
                          | true :: f' => Thrown (State default_members (World h f' t))
                          | false :: _ => X end) with X
        by (destruct f as [|[] f']; simpl in *; done) end.
    fold a'.
    assert (Hsuf1 : tail f `suffix_of` f) by apply suffix_tail.
    set (f1 := tail f) in *. clearbody f1.
    set (t1 := t ++ [EvNew a' (capacity_ other)]).
    change (replicate (Z.to_nat (capacity_ other)) None)
      with (run_block (capacity_ other) (begin_ other) []).
    mstep. unfold set_begin_. cbn [data_ size_ capacity_ begin_].
    set (new := Buffer (Some a') 0 (capacity_ other) (begin_ other)).
    assert (Hh1a : <[a' := run_block (capacity_ other) (begin_ other) []]> h !! a'
                   = Some (run_block (capacity_ other) (begin_ other) []))
      by apply lookup_insert_eq.
    assert (Hmod : begin_ other + capacity_ other < SIZE_MODULUS) by (unfold_int; lia).
    assert (Hall : ∀ (j : nat) w, l !! j = Some w → l !! (0 + j)%nat = Some w) by done.
    assert (Hhe : handle other (end_ other) (Z.of_nat (0 + length l))).
    { simpl. rewrite <- Hsz. by eapply handle_end. }
    pose proof (copy_run_spec new (<[a' := run_block (capacity_ other) (begin_ other) []]> h)
                  f1 t1 other l 0 l (begin other) (end_ other) a' (capacity_ other)
                  (begin_ other) []
                  (Repr_insert_fresh _ _ _ _ _ _ _ _ HR) (handle_begin other) Hhe
                  ltac:(simpl; lia) Hall Hne Hh1a ltac:(lia) ltac:(simpl; lia) Hmod) as Hcopy.
    cbn [length Nat.add app] in Hcopy.
    change (Z.of_nat 0) with 0 in Hcopy. rewrite !Z.add_0_r in Hcopy.
    change (begin new) with (template_iterator.mk (Some a') (begin_ other) (capacity_ other)).
    rewrite bind_unfold. unfold on_throw. rewrite Hcopy.
    destruct (first_fault (length l) f1) as [j|] eqn:Hff.
    + destruct (destructor_spec
                  (State new (World (<[a' := run_block (capacity_ other) (begin_ other) []]> h)
                                (drop (S j) f1)
                                (t1 ++ (EvDestroy <$> take j l)))) [])
        as (s' & -> & Hh & Hfs & Ht).
      { apply (Repr_run_block' _ a' (capacity_ other) (begin_ other) []);
          [done|lia|simpl; lia|pose proof max_slots_range; lia]. }
      cbn [this mem heap faults trace release data_ new] in *.
      rewrite Hh, Hfs. split_and!; try done.
      * by rewrite delete_insert_eq, delete_id by apply fresh_heap.
      * etrans; [apply suffix_drop|done].
      * intros ->. apply first_fault_Some_nonempty in Hff.
        by apply suffix_nil_inv in Hsuf1.
    + rewrite insert_insert_eq. unfold modify_this, new, set_size_, size. cbn.
      split_and!; try done.
      etrans; [apply suffix_drop|done].
Qed.

Lemma copy_Repr other l w w' a' :
  Repr other w l →
  heap w !! a' = None →
  heap w' = copy_heap other a' l (heap w) →
  Repr (copy_of other a') w' l ∧ Repr other w' l.
Proof.
  intros HR Hfresh Hh.
  pose proof (Repr_bounds _ _ _ HR) as (Hs & Hc & Hb & Hb').
  pose proof (Repr_size _ _ _ HR) as Hsz.
  pose proof (Repr_max _ _ _ HR) as Hmaxs.
  unfold copy_of, copy_heap in *.
  destruct (decide (capacity_ other = 0)) as [Hc0|Hc0].
  - split; [|by eapply Repr_frame; [done|]; intros; rewrite Hh].
    destruct (Repr_null _ _ _ HR Hc0) as (Hd & -> & Hbg).
    split_and!; simpl in *; lia || done.
  - split.
    + rewrite Hsz. apply Repr_run_block'; try lia.
      rewrite Hh. apply lookup_insert_eq.
    + eapply Repr_frame; [done|]. intros a Ha. rewrite Hh.
      apply lookup_insert_ne. intros ->.
      destruct HR as (_ & _ & HR). rewrite Ha in HR.
      destruct HR as (_ & blk & Hblk & _). congruence.
Qed.

Lemma operator_assign_self other s : operator_assign true other s = Normal tt s.
Proof. done. Qed.

Lemma operator_assign_spec s other l lo :
  Repr (this s) (mem s) l → Repr other (mem s) lo →
  match operator_assign false other s with
  | Normal _ s' =>
      this s' = copy_of other (fresh (dom (heap (mem s)))) ∧
      heap (mem s') =
        release (data_ (this s))
          (copy_heap other (fresh (dom (heap (mem s)))) lo (heap (mem s))) ∧
      faults (mem s') `suffix_of` faults (mem s) ∧
      trace (mem s') =
        trace (mem s) ++ copy_trace other (fresh (dom (heap (mem s))))
          ++ destructor_trace (this s) l
  | Thrown s' =>
      this s' = this s ∧ heap (mem s') = heap (mem s) ∧
      faults (mem s') `suffix_of` faults (mem s) ∧
      faults (mem s) ≠ []
  | Undefined => False
  end.
Proof.
  intros HR HRo. pose proof (copy_constructor_spec s other lo HRo) as Hcopy.
  unfold operator_assign. rewrite bind_unfold.
  destruct (on_object default_members (copy_constructor other) s) as [[[] c] s1|s1|];
    [|done..].
  destruct Hcopy as (Hthis & -> & Hh & Hf & Ht).
  erewrite bind_normal by apply swap_with_eq.
  destruct (destroy_object_spec (this s1)
              (State (copy_of other (fresh (dom (heap (mem s))))) (mem s1)) l)
    as (s' & Hrun & Hthis' & Hh' & Hfs & Ht').
  { rewrite Hthis. eapply Repr_frame; [exact HR|].
    intros a Ha. simpl. rewrite Hh. unfold copy_heap. case_decide; [done|].
    apply lookup_insert_ne. intros Heq.
    pose proof (Repr_fresh _ _ _ HR). congruence. }
  rewrite Hrun. cbn [this mem] in *.
  rewrite Hthis', Hh', Hfs, Ht', Hh, Ht, Hthis. split_and!; try done.
  by rewrite <- app_assoc.
Qed.

(** ** Every operation takes a good step *)

Lemma thrown_good s s' l :
  Repr (this s) (mem s) l →
  this s' = this s → heap (mem s') = heap (mem s) →
  faults (mem s') `suffix_of` faults (mem s) → good s s'.
Proof.
  intros HR Hthis Hh Hf. split.
  - exists l. rewrite Hthis. eapply Repr_frame; [done|]. intros. by rewrite Hh.
  - split_and!; [|right; left; by rewrite Hthis|done].
    intros. by rewrite Hh.
Qed.

Lemma inplace_good s s' evs l' :
  Repr (this s') (mem s') l' → inplace s s' evs → good s s'.
Proof. intros HR Hin. split; [eauto|by eapply inplace_framed]. Qed.

Lemma tick_inplace_good s s' evs l' :
  Repr (this s') (mem s') l' → inplace (tick s) s' evs → good s s'.
Proof. intros HR Hin. split; [eauto|by eapply tick_inplace_framed]. Qed.

Lemma tick_good s l : Repr (this s) (mem s) l → good s (tick s).
Proof.
  intros HR. eapply (thrown_good _ _ l); try done. apply suffix_tail.
Qed.

Lemma push_back_safe s l v : Repr (this s) (mem s) l → safe (push_back v) s.
Proof.
  intros HR. pose proof (push_back_spec s l v HR) as Hspec. unfold safe.
  destruct (push_back v s) as [[] s'|s'|]; [|destruct Hspec as (? & ? & ? & _); by eapply thrown_good|done].
  destruct Hspec as (HR' & Hfr & _). split; eauto.
Qed.

Lemma push_front_safe s l v : Repr (this s) (mem s) l → safe (push_front v) s.
Proof.
  intros HR. pose proof (push_front_spec s l v HR) as Hspec. unfold safe.
  destruct (push_front v s) as [[] s'|s'|]; [|destruct Hspec as (? & ? & ? & _); by eapply thrown_good|done].
  destruct Hspec as (HR' & Hfr & _). split; eauto.
Qed.

Lemma pop_back_safe s l :
  Repr (this s) (mem s) l → size_ (this s) ≠ 0 → safe pop_back s.
Proof.
  intros HR Hne. pose proof (Repr_size _ _ _ HR) as Hsz.
  destruct (list_snoc_case l) as [->|(l' & x & ->)]; [simpl in *; lia|].
  destruct (pop_back_spec s l' x HR) as (s' & Hrun & _ & HR' & Hin).
  unfold safe. rewrite Hrun. by eapply inplace_good.
Qed.

Lemma pop_front_safe s l :
  Repr (this s) (mem s) l → size_ (this s) ≠ 0 → safe pop_front s.
Proof.
  intros HR Hne. pose proof (Repr_size _ _ _ HR) as Hsz.
  destruct l as [|x l']; [simpl in *; lia|].
  destruct (pop_front_spec s l' x HR) as (s' & Hrun & _ & HR' & Hin).
  unfold safe. rewrite Hrun. by eapply inplace_good.
Qed.

Lemma clear_safe s l : Repr (this s) (mem s) l → safe clear s.
Proof.
  intros HR. destruct (clear_spec s l HR) as (s' & Hrun & _ & HR' & Hin).
  unfold safe. rewrite Hrun. by eapply inplace_good.
Qed.

Lemma reserve_safe s l n :
  Repr (this s) (mem s) l → sizeof * n < SIZE_MODULUS → safe (reserve n) s.
Proof.
  intros HR Hfit. pose proof (reserve_spec s l n HR (λ _, Hfit)) as Hspec.
  pose proof (Repr_bounds _ _ _ HR) as (Hs & Hc & Hb & Hb').
  pose proof (Repr_size _ _ _ HR) as Hsz.
  unfold safe. case_decide as Hn.
  - destruct (reserve n s) as [[] s'|s'|]; [|destruct Hspec as (? & ? & ? & _); by eapply thrown_good|done].
    destruct Hspec as (Hthis & Hh & Hf & Ht & Hmax & _). split.
    + exists l. eapply realloc_Repr; try done; try lia.
      * apply fresh_heap.
      * by eapply Repr_fresh.
      * rewrite Hthis. f_equal. done.
    + eapply realloc_framed; try done; [apply fresh_heap|by rewrite Hthis].
  - rewrite Hspec. eapply inplace_good; [done|by eapply inplace_refl].
Qed.

(** [insert] at logical index [k], on either path. *)
Lemma insert_spec s l (k : nat) v :
  Repr (this s) (mem s) l → (k ≤ length l)%nat →
  match insert (template_iterator.add (begin (this s)) (Z.of_nat k)) v s with
  | Normal it s' =>
      Repr (this s') (mem s') (take k l ++ v :: drop k l) ∧ frame s s' ∧
      it = template_iterator.add (begin (this s')) (Z.of_nat k) ∧
      capacity_ (this s') =
        (if decide (size_ (this s) = capacity_ (this s))
         then grown_capacity (capacity_ (this s)) else capacity_ (this s))
  | Thrown s' =>
      this s' = this s ∧ heap (mem s') = heap (mem s) ∧
      faults (mem s') `suffix_of` faults (mem s) ∧
      (faults (mem s) ≠ [] ∨
       size_ (this s) = capacity_ (this s) ∧
       max_slots < grown_capacity (capacity_ (this s)))
  | Undefined => False
  end.
Proof.
  intros HR Hk.
  pose proof (Repr_bounds _ _ _ HR) as (Hs & Hc & Hb & Hb').
  pose proof (Repr_size _ _ _ HR) as Hsz.
  assert (Hpos : handle (this s) (template_iterator.add (begin (this s)) (Z.of_nat k))
                   (Z.of_nat k)).
  { apply (handle_add _ (begin (this s)) 0); [apply handle_begin|unfold_int; lia]. }
  destruct (decide (size_ (this s) = capacity_ (this s))) as [Hfull|Hne].
  - pose proof (insert_with_copy_Repr s l _ k v HR Hfull Hpos Hk) as Hspec.
    unfold insert at 1. mstep. unfold size, capacity. rewrite decide_True by done.
    destruct (insert_with_copy _ v s) as [it s'|s'|]; [|destruct Hspec as (? & ? & ? & []); eauto 10|done].
    destruct Hspec as (HR' & Hfr & Hcap & Hbg & Hit & _). done.
  - pose proof (insert_inplace_spec s l _ k v HR Hne Hpos Hk) as Hspec.
    case_decide as Hf.
    + rewrite Hspec. split_and!; try done.
      * apply suffix_tail.
      * left. unfold next_fails in Hf. by destruct (faults (mem s)).
    + destruct Hspec as (s' & -> & HR' & Hthis & Hin). split_and!; try done.
      * by eapply tick_inplace_framed.
      * rewrite Hthis. by case_decide.
Qed.

Lemma insert_safe s l k v :
  Repr (this s) (mem s) l → 0 ≤ k ≤ size_ (this s) →
  safe (insert (template_iterator.add (begin (this s)) k) v) s.
Proof.
  intros HR Hk. pose proof (Repr_size _ _ _ HR) as Hsz.
  pose proof (insert_spec s l (Z.to_nat k) v HR ltac:(lia)) as Hspec.
  rewrite Z2Nat.id in Hspec by lia. unfold safe.
  destruct (insert _ v s) as [it s'|s'|]; [|destruct Hspec as (? & ? & ? & _); by eapply thrown_good|done].
  destruct Hspec as (HR' & Hfr & _). split; eauto.
Qed.

(** [erase] of the logical indices [i], ..., [j - 1]. *)
Lemma erase_range_spec s l (i j : nat) :
  Repr (this s) (mem s) l → (i ≤ j ≤ length l)%nat →
  ∃ s' evs,
    erase (template_iterator.add (begin (this s)) (Z.of_nat i))
      (template_iterator.add (begin (this s)) (Z.of_nat j)) s =
      Normal (template_iterator.add (begin (this s')) (Z.of_nat i)) s' ∧
    Repr (this s') (mem s') (take i l ++ drop j l) ∧
    this s' =
      set_size_ (size_ (this s) - Z.of_nat (j - i))
        (if decide (i < length l - j)%nat
         then set_begin_ ((begin_ (this s) + Z.of_nat (j - i)) mod capacity_ (this s))
                (this s)
         else this s) ∧
    inplace s s' evs ∧ length evs = (j - i)%nat.
Proof.
  intros HR Hij.
  pose proof (Repr_bounds _ _ _ HR) as (Hs & Hc & Hb & Hb').
  pose proof (Repr_size _ _ _ HR) as Hsz.
  assert (Hl : l = take i l ++ take (j - i) (drop i l) ++ drop j l).
  { rewrite <- (take_drop i l) at 1. f_equal.
    rewrite <- (take_drop (j - i) (drop i l)) at 1. f_equal.
    rewrite drop_drop. f_equal. lia. }
  assert (HlenA : length (take i l) = i) by (rewrite length_take; lia).
  assert (HlenR : length (take (j - i) (drop i l)) = (j - i)%nat).
  { rewrite length_take, length_drop. lia. }
  assert (HlenB : length (drop j l) = (length l - j)%nat) by apply length_drop.
  rewrite Hl in HR.
  destruct (erase_spec s _ _ _
              (template_iterator.add (begin (this s)) (Z.of_nat i))
              (template_iterator.add (begin (this s)) (Z.of_nat j)) HR)
    as (s' & evs & Hrun & HR' & Hthis & Hin & Hlen).
  { rewrite HlenA. apply (handle_add _ (begin (this s)) 0);
      [apply handle_begin|unfold_int; lia]. }
  { rewrite HlenA, HlenR. replace (Z.of_nat (i + (j - i))) with (0 + Z.of_nat j) by lia.
    apply (handle_add _ (begin (this s)) 0); [apply handle_begin|unfold_int; lia]. }
  rewrite HlenA, HlenR, HlenB in *.
  exists s', evs. done.
Qed.

Lemma erase_safe s l i j :
  Repr (this s) (mem s) l → 0 ≤ i ≤ j → j ≤ size_ (this s) →
  safe (erase (template_iterator.add (begin (this s)) i)
          (template_iterator.add (begin (this s)) j)) s.
Proof.
  intros HR Hi Hj. pose proof (Repr_size _ _ _ HR) as Hsz.
  destruct (erase_range_spec s l (Z.to_nat i) (Z.to_nat j) HR ltac:(lia))
    as (s' & evs & Hrun & HR' & _ & Hin & _).
  rewrite !Z2Nat.id in Hrun by lia. unfold safe. rewrite Hrun.
  by eapply inplace_good.
Qed.

Lemma iterator_add_add it k n :
  template_iterator.add (template_iterator.add it k) n = template_iterator.add it (k + n).
Proof.
  unfold template_iterator.add. simpl. f_equal. solve_int.
Qed.

Lemma erase_one_safe s l k :
  Repr (this s) (mem s) l → 0 ≤ k < size_ (this s) →
  safe (erase_one (template_iterator.add (begin (this s)) k)) s.
Proof.
  intros HR Hk. unfold erase_one. rewrite iterator_add_add.
  eapply erase_safe; [done|lia|lia].
Qed.

(** ** Clients: invariants and non-interference *)

Lemma Repr_in_heap b w l a : Repr b w l → data_ b = Some a → is_Some (heap w !! a).
Proof.
  intros (_ & _ & HR) Ha. rewrite Ha in HR. destruct HR as (_ & blk & Hblk & _). eauto.
Qed.

(** Putting a well-formed object [b'] under the name [x]. *)
Lemma insert_inv m x b' w' :
  machine_inv m →
  (∃ l', Repr b' w' l') →
  (∀ z c l, z ≠ x → objects m !! z = Some c → Repr c (mworld m) l → Repr c w' l) →
  (∀ z c a, z ≠ x → objects m !! z = Some c → data_ b' = Some a → data_ c ≠ Some a) →
  machine_inv (Machine (<[x := b']> (objects m)) w') ∧
  others_kept m (Machine (<[x := b']> (objects m)) w') [x].
Proof.
  intros (Hwf & Hdis) HR' Hkeep Hnew.
  split; [split|]; cbn [objects mworld].
  - intros z c. rewrite lookup_insert. case_decide as Hz.
    + intros [= <-]. eauto.
    + intros Hc. destruct (Hwf _ _ Hc) as (l & HRc). exists l. by eapply Hkeep.
  - intros u v bu bv a Huv. rewrite !lookup_insert.
    repeat case_decide; subst; intros Hu Hv Ha; simplify_eq.
    + eapply Hnew; eauto.
    + intros Hbv. eapply (Hnew u bu a); eauto.
    + by eapply (Hdis u v).
  - intros z c Hz Hc. apply not_elem_of_cons in Hz as [Hz _]. cbn [objects mworld].
    rewrite lookup_insert_ne by done. split; [done|]. intros l. by eapply Hkeep.
Qed.

Lemma update_inv m x b s' :
  machine_inv m → objects m !! x = Some b → good (State b (mworld m)) s' →
  machine_inv (Machine (<[x := this s']> (objects m)) (mem s')) ∧
  others_kept m (Machine (<[x := this s']> (objects m)) (mem s')) [x].
Proof.
  intros Hinv Hx (HR' & Hfr1 & Hfr2 & Hfr3). cbn [this mem] in *.
  pose proof Hinv as (Hwf & Hdis).
  apply insert_inv; try done.
  - intros z c l Hz Hc HRc. eapply Repr_frame; [done|].
    intros a Ha. apply Hfr1; [|by eapply Repr_in_heap].
    intros Hb. by eapply (Hdis x z b c a).
  - intros z c a Hz Hc Ha Hca.
    destruct Hfr2 as [Hn|[Hsame|(a' & Ha' & Hfresh)]].
    + congruence.
    + rewrite Hsame in Ha. by eapply (Hdis x z b c a).
    + assert (a' = a) as -> by congruence.
      destruct (Hwf _ _ Hc) as (l & HRc).
      destruct (Repr_in_heap _ _ _ _ HRc Hca) as [? ?]. congruence.
Qed.

Lemma call_sound {A} x pre (f : circular_buffer → M A) m m' :
  machine_inv m →
  (∀ b l, objects m !! x = Some b → Repr b (mworld m) l → pre b = true →
          safe (f b) (State b (mworld m))) →
  call x pre f m = Done m' ∨ call x pre f m = Raised m' →
  machine_inv m' ∧ others_kept m m' [x].
Proof.
  intros Hinv Hsafe Hrun. unfold call in Hrun.
  destruct (objects m !! x) as [b|] eqn:Hx; [|by destruct Hrun].
  destruct (pre b) eqn:Hpre; [|by destruct Hrun].
  destruct (proj1 Hinv _ _ Hx) as (l & HR).
  specialize (Hsafe b l eq_refl HR Hpre). unfold safe in Hsafe.
  destruct (f b (State b (mworld m))) as [a s'|s'|]; [| |by destruct Hrun].
  - destruct Hrun as [[= <-]|[=]]. by apply (update_inv m x b).
  - destruct Hrun as [[=]|[= <-]]. by apply (update_inv m x b).
Qed.

Lemma copy_constructor_run other w l :
  Repr other w l →
  match copy_constructor other (State default_members w) with
  | Normal _ s' =>
      this s' = copy_of other (fresh (dom (heap w))) ∧
      heap (mem s') = copy_heap other (fresh (dom (heap w))) l (heap w) ∧
      faults (mem s') `suffix_of` faults w ∧
      trace (mem s') = trace w ++ copy_trace other (fresh (dom (heap w)))
  | Thrown s' =>
      heap (mem s') = heap w ∧ faults (mem s') `suffix_of` faults w ∧ faults w ≠ []
  | Undefined => False
  end.
Proof.
  intros HR. pose proof (copy_constructor_spec (State default_members w) other l HR) as Hspec.
  unfold on_object in Hspec. cbn [this mem] in Hspec.
  destruct (copy_constructor other (State default_members w)) as [[] s'|s'|];
    cbn [this mem] in *; [|by destruct Hspec as (? & ? & ? & ?)|done].
  by destruct Hspec as (? & ? & ? & ? & ?).
Qed.

Lemma operator_assign_safe b w l other lo :
  Repr b w l → Repr other w lo →
  (data_ other = data_ b → data_ b = None) →
  safe (operator_assign false other) (State b w).
Proof.
  intros HR HRo Hdis.
  pose proof (operator_assign_spec (State b w) other l lo HR HRo) as Hspec.
  cbn [this mem] in Hspec. unfold safe.
  destruct (operator_assign false other (State b w)) as [[] s'|s'|]; [| |done].
  - destruct Hspec as (Hthis & Hh & Hf & Ht).
    pose proof (fresh_heap (heap w)) as Hfresh.
    pose proof (Repr_fresh _ _ _ HR) as Hne.
    destruct (copy_Repr other lo w
                (World (copy_heap other (fresh (dom (heap w))) lo (heap w)) [] [])
                (fresh (dom (heap w))) HRo Hfresh eq_refl) as (HRc & _).
    split.
    + exists lo. rewrite Hthis. eapply Repr_frame; [exact HRc|].
      intros a Ha. cbn [heap]. rewrite Hh. apply release_lookup.
      unfold copy_of in Ha. simpl in Ha. case_decide; [done|]. congruence.
    + cbn [this mem]. split_and!; [| |done].
      * intros a Hna [blk Hblk]. cbn [this mem] in *.
        rewrite Hh, release_lookup by done.
        unfold copy_heap. case_decide; [done|]. apply lookup_insert_ne. congruence.
      * rewrite Hthis. unfold copy_of. simpl. case_decide; [by left|right; right; eauto].
  - destruct Hspec as (? & ? & ? & _). by eapply thrown_good.
Qed.


Lemma same_heap_inv m m' ws :
  machine_inv m → objects m' = objects m → heap (mworld m') = heap (mworld m) →
  machine_inv m' ∧ others_kept m m' ws.
Proof.
  intros (Hwf & Hdis) Ho Hh. split; [split|].
  - intros z c. rewrite Ho. intros Hc. destruct (Hwf _ _ Hc) as (l & HR).
    exists l. eapply Repr_frame; [done|]. intros. by rewrite Hh.
  - rewrite Ho. done.
  - intros z c _ Hc. rewrite Ho. split; [done|]. intros l HR.
    eapply Repr_frame; [done|]. intros. by rewrite Hh.
Qed.

Lemma others_kept_weaken m m' ws ws' :
  others_kept m m' ws → ws ⊆ ws' → others_kept m m' ws'.
Proof. intros H Hs z c Hz. apply H. set_solver. Qed.

Lemma swap_eq (l r : circular_buffer) : swap l r = (r, l).
Proof. by destruct l, r. Qed.

Lemma step_sound o m m' :
  machine_inv m → fits o = true → step o m = Done m' ∨ step o m = Raised m' →
  machine_inv m' ∧ others_kept m m' (writes o).
Proof.
  intros Hinv Hfits Hrun. pose proof Hinv as (Hwf & Hdis).
  destruct o as [x|x y|x y|x|x y|x v|x v|x|x|x n|x k v|x k|x i j|x];
    cbn [step writes] in *.
  - (* Default *)
    destruct (objects m !! x) eqn:Hx; [by destruct Hrun|].
    destruct Hrun as [[= <-]|[=]].
    apply insert_inv; try done.
    exists []. split_and!; simpl; try done. apply max_slots_range.
  - (* Copy *)
    destruct (objects m !! x) eqn:Hx; [by destruct Hrun|].
    destruct (objects m !! y) as [other|] eqn:Hy; [|by destruct Hrun].
    destruct (Hwf _ _ Hy) as (lo & HRo).
    pose proof (copy_constructor_run other (mworld m) lo HRo) as Hspec.
    pose proof (fresh_heap (heap (mworld m))) as Hfresh.
    destruct (copy_constructor other (State default_members (mworld m))) as [[] s'|s'|];
      [| |by destruct Hrun].
    + destruct Hrun as [[= <-]|[=]]. destruct Hspec as (Hthis & Hh & _).
      destruct (copy_Repr other lo (mworld m) (mem s') _ HRo Hfresh Hh) as (HRc & _).
      apply insert_inv; try done.
      * rewrite Hthis. eauto.
      * intros z c l Hz Hc HRc'. eapply Repr_frame; [done|].
        intros a Ha. rewrite Hh. unfold copy_heap. case_decide; [done|].
        apply lookup_insert_ne. intros <-.
        destruct (Repr_in_heap _ _ _ _ HRc' Ha) as [? ?]. congruence.
      * intros z c a Hz Hc Ha Hca. rewrite Hthis in Ha. unfold copy_of in Ha.
        simpl in Ha. case_decide; [done|]. injection Ha as <-.
        destruct (Hwf _ _ Hc) as (l & HRc').
        destruct (Repr_in_heap _ _ _ _ HRc' Hca) as [? ?]. congruence.
    + destruct Hrun as [[=]|[= <-]]. destruct Hspec as (Hh & _).
      by apply same_heap_inv.
  - (* Assign *)
    destruct (objects m !! y) as [other|] eqn:Hy; [|by destruct Hrun].
    eapply call_sound; [done| |exact Hrun].
    intros b l Hb HR _. case_bool_decide as Hxy.
    + unfold safe. rewrite operator_assign_self.
      eapply inplace_good; [done|by eapply inplace_refl].
    + destruct (Hwf _ _ Hy) as (lo & HRo).
      eapply operator_assign_safe; try done.
      intros Heq. destruct (data_ b) as [a|] eqn:Ha; [|done].
      by destruct (Hdis x y b other a).
  - (* Destroy *)
    destruct (objects m !! x) as [b|] eqn:Hx; [|by destruct Hrun].
    destruct (Hwf _ _ Hx) as (l & HR).
    destruct (destructor_spec (State b (mworld m)) l HR) as (s' & Hd & Hh & Hf & Ht).
    rewrite Hd in Hrun. destruct Hrun as [[= <-]|[=]]. cbn [this mem] in *.
    assert (Hkeep : ∀ z c l, z ≠ x → objects m !! z = Some c →
                    Repr c (mworld m) l → Repr c (mem s') l).
    { intros z c lc Hz Hc HRc. eapply Repr_frame; [done|].
      intros a Ha. rewrite Hh. apply release_lookup.
      intros Hb. by eapply (Hdis x z b c a). }
    split; [split|]; cbn [objects mworld].
    + intros z c Hc. apply lookup_delete_Some in Hc as [Hz Hc].
      destruct (Hwf _ _ Hc) as (lc & HRc). exists lc. by eapply Hkeep.
    + intros u v bu bv a Huv Hu Hv.
      apply lookup_delete_Some in Hu as [_ Hu], Hv as [_ Hv]. by eapply Hdis.
    + intros z c Hz Hc. apply not_elem_of_cons in Hz as [Hz _]. cbn [objects mworld].
      rewrite lookup_delete_ne by done. split; [done|]. intros lc. by eapply Hkeep.
  - (* Swap *)
    destruct (objects m !! x) as [l|] eqn:Hx; [|by destruct Hrun].
    destruct (objects m !! y) as [r|] eqn:Hy; [|by destruct Hrun].
    rewrite swap_eq in Hrun. cbn [fst snd] in Hrun.
    destruct Hrun as [[= <-]|[=]].
    split; [split|]; cbn [objects mworld].
    + intros z c. rewrite !lookup_insert. repeat case_decide; subst; intros Hc; simplify_eq;
        eauto.
    + intros u v bu bv a Huv. rewrite !lookup_insert.
      repeat case_decide; subst; intros Hu Hv Ha; simplify_eq; try done;
        match goal with
        | H1 : objects m !! ?p = Some bu, H2 : objects m !! ?q = Some bv |- _ =>
            by eapply (Hdis p q bu bv a)
        end.
    + intros z c Hz Hc. apply not_elem_of_cons in Hz as [Hz Hz'].
      apply not_elem_of_cons in Hz' as [Hz' _]. cbn [objects mworld].
      rewrite !lookup_insert_ne by done. done.
  - eapply call_sound; [exact Hinv| |exact Hrun].
    intros b l _ HR _. exact (push_back_safe (State b (mworld m)) l v HR).
  - eapply call_sound; [exact Hinv| |exact Hrun].
    intros b l _ HR _. exact (push_front_safe (State b (mworld m)) l v HR).
  - eapply call_sound; [exact Hinv| |exact Hrun]. intros b l _ HR Hpre.
    eapply (pop_back_safe (State b (mworld m))); [exact HR|]. unfold empty, size in Hpre.
    apply negb_true_iff, bool_decide_eq_false in Hpre. exact Hpre.
  - eapply call_sound; [exact Hinv| |exact Hrun]. intros b l _ HR Hpre.
    eapply (pop_front_safe (State b (mworld m))); [exact HR|]. unfold empty, size in Hpre.
    apply negb_true_iff, bool_decide_eq_false in Hpre. exact Hpre.
  - eapply call_sound; [exact Hinv| |exact Hrun].
    intros b l _ HR _. cbn [fits] in Hfits. apply bool_decide_eq_true in Hfits.
    exact (reserve_safe (State b (mworld m)) l n HR Hfits).
  - eapply call_sound; [exact Hinv| |exact Hrun]. intros b l _ HR Hpre.
    apply bool_decide_eq_true in Hpre. exact (insert_safe (State b (mworld m)) l k v HR Hpre).
  - eapply call_sound; [exact Hinv| |exact Hrun]. intros b l _ HR Hpre.
    apply bool_decide_eq_true in Hpre. exact (erase_one_safe (State b (mworld m)) l k HR Hpre).
  - eapply call_sound; [exact Hinv| |exact Hrun]. intros b l _ HR Hpre.
    apply bool_decide_eq_true in Hpre. unfold size in Hpre.
    destruct Hpre as (H1 & H2 & H3).
    exact (erase_safe (State b (mworld m)) l i j HR (conj H1 H2) H3).
  - eapply call_sound; [exact Hinv| |exact Hrun].
    intros b l _ HR _. exact (clear_safe (State b (mworld m)) l HR).
Qed.

Lemma init_inv f : machine_inv (Machine ∅ (World ∅ f [])).
Proof. split; intros *; cbn; by rewrite ?lookup_empty. Qed.

Lemma reachable_inv m : reachable m → machine_inv m.
Proof.
  induction 1 as [f|o m m' _ IH Hfits Hstep|o m m' _ IH Hfits Hstep].
  - apply init_inv.
  - by eapply step_sound; [| |left].
  - by eapply step_sound; [| |right].
Qed.

(** ** Field invariants in every reachable state *)

Lemma ends_conseq {A} (f : M A) s (N N' : A → state → Prop) (E E' : state → Prop) :
  ends f s N E → (∀ a s', N a s' → N' a s') → (∀ s', E s' → E' s') → ends f s N' E'.
Proof. unfold ends. destruct (f s); auto. Qed.

Lemma ends_bind {A B} (m : M A) (f : A → M B) s N E :
  ends m s (λ a s', ends (f a) s' N E) E → ends (m ≫= f) s N E.
Proof. unfold ends. rewrite bind_unfold. by destruct (m s). Qed.

Lemma ends_normal {A} (f : M A) s N E a s' : ends f s N E → f s = Normal a s' → N a s'.
Proof. unfold ends. intros H Hf. by rewrite Hf in H. Qed.

Lemma ends_thrown {A} (f : M A) s N E s' : ends f s N E → f s = Thrown s' → E s'.
Proof. unfold ends. intros H Hf. by rewrite Hf in H. Qed.

#[local] Instance any_refl : Reflexive any.
Proof. done. Qed.
#[local] Instance any_trans : Transitive any.
Proof. done. Qed.

Lemma keeps_normal {A} P (f : M A) s a s' :
  keeps P f → bounded (mem s) → f s = Normal a s' → P (this s) (this s') ∧ bounded (mem s').
Proof. intros Hf Hb Hrun. exact (ends_normal _ _ _ _ _ _ (Hf s Hb) Hrun). Qed.

Lemma keeps_thrown {A} P (f : M A) s s' :
  keeps P f → bounded (mem s) → f s = Thrown s' → P (this s) (this s') ∧ bounded (mem s').
Proof. intros Hf Hb Hrun. exact (ends_thrown _ _ _ _ _ (Hf s Hb) Hrun). Qed.

Lemma quiet_tame {A} (f : M A) : quiet f → tame f.
Proof.
  intros Hf s Hb. eapply ends_conseq; [by apply Hf|..]; cbn beta.
  - by intros _ s' (_ & ?).
  - by intros s' (_ & ?).
Qed.

Lemma ends_bind_inv {A B} (m : M A) (f : A → M B) s N E :
  (∀ a s', m s = Normal a s' → ends (f a) s' N E) →
  (∀ s', m s = Thrown s' → E s') →
  ends (m ≫= f) s N E.
Proof.
  intros HN HE. unfold ends. rewrite bind_unfold.
  destruct (m s) as [a s'|s'|]; [by apply HN|by apply HE|done].
Qed.

Lemma on_throw_normal_inv {A} (m : M A) cleanup s a s' :
  on_throw m cleanup s = Normal a s' → m s = Normal a s'.
Proof.
  unfold on_throw. destruct (m s) as [a' s1|s1|]; [done| |done].
  by destruct (cleanup s1) as [[] ?|?|].
Qed.

Section keeps.
Context (P : circular_buffer → circular_buffer → Prop).
Context `{!Reflexive P, !Transitive P}.

Lemma keeps_same {A} (f : M A) :
  (∀ s, match f s with Normal _ s' | Thrown s' => s' = s | Undefined => True end) →
  keeps P f.
Proof.
  intros Hf s Hb. unfold ends. specialize (Hf s).
  destruct (f s) as [a s'|s'|]; [by subst..|done].
Qed.

Lemma keeps_bind {A B} (m : M A) (f : A → M B) :
  keeps P m → (∀ a, keeps P (f a)) → keeps P (m ≫= f).
Proof.
  intros Hm Hf s Hb. apply ends_bind. eapply ends_conseq; [by apply Hm| |done].
  intros a s' (HP & Hb'). eapply ends_conseq; [by apply Hf| |]; cbn beta.
  - intros _ s'' (HP' & Hb''). split; [by etrans|done].
  - intros s'' (HP' & Hb''). split; [by etrans|done].
Qed.

Lemma keeps_on_throw {A} (m : M A) (cleanup : M unit) :
  keeps P m → keeps P cleanup → keeps P (on_throw m cleanup).
Proof.
  intros Hm Hc s Hb. specialize (Hm s Hb). unfold ends, on_throw in *.
  destruct (m s) as [a s'|s'|]; [done| |done].
  destruct Hm as (HP & Hb'). specialize (Hc s' Hb'). unfold ends in Hc.
  destruct (cleanup s') as [[] s''|s''|]; [|done..].
  destruct Hc as (HP' & Hb''). split; [by etrans|done].
Qed.

Lemma keeps_on_object {A} obj (m : M A) : tame m → keeps P (on_object obj m).
Proof.
  intros Hm s Hb. specialize (Hm (State obj (mem s)) Hb). unfold ends, on_object in *.
  destruct (m (State obj (mem s))) as [a s'|s'|]; [| |done]; by destruct Hm.
Qed.

Lemma keeps_ret {A} (a : A) : keeps P (ret a).
Proof. by apply keeps_same. Qed.

Lemma keeps_undefined {A} : keeps P (@undefined A).
Proof. by apply keeps_same. Qed.

Lemma keeps_get_this : keeps P get_this.
Proof. by apply keeps_same. Qed.

Lemma keeps_get_world : keeps P get_world.
Proof. by apply keeps_same. Qed.

Lemma keeps_throw {A} : keeps P (@throw A).
Proof. by apply keeps_same. Qed.

Lemma keeps_umod a b : keeps P (umod a b).
Proof. apply keeps_same. intros s. unfold umod. by case_decide. Qed.

Lemma keeps_may_throw : keeps P may_throw.
Proof.
  intros s Hb. unfold ends, may_throw. destruct (faults (mem s)) as [|[] fs]; by split.
Qed.

Lemma keeps_load p i : keeps P (load p i).
Proof.
  apply keeps_same. intros s. unfold load. rewrite bind_get_world.
  by destruct (slot_value (mem s) p i).
Qed.

Lemma bounded_insert w a blk blk' :
  bounded w → heap w !! a = Some blk → length blk' = length blk →
  bounded (set_heap (<[a := blk']> (heap w)) w).
Proof.
  intros Hb Ha Hlen a' blk''. simpl. destruct (decide (a' = a)) as [->|Hne].
  - rewrite lookup_insert_eq. intros [= <-]. rewrite Hlen. by eapply Hb.
  - rewrite lookup_insert_ne by done. apply Hb.
Qed.

Lemma keeps_store p i x : keeps P (store p i x).
Proof.
  intros s Hb. unfold ends, store. rewrite bind_get_world.
  destruct p as [a|]; [|done]. destruct (heap (mem s) !! a) as [blk|] eqn:Ha; [|done].
  case_decide; [|done]. unfold modify_world. cbn [this mem]. split; [done|].
  eapply bounded_insert; [done..|]. by rewrite length_insert.
Qed.

Lemma keeps_log e : keeps P (modify_world (log e)).
Proof. intros s Hb. unfold ends, modify_world. by split. Qed.

Lemma keeps_construct p i v : keeps P (construct p i v).
Proof.
  unfold construct. apply keeps_bind; [apply keeps_get_world|]. intros w.
  destruct p as [a|]; [|apply keeps_undefined].
  destruct (heap w !! a); [|apply keeps_undefined].
  case_decide; [|apply keeps_undefined].
  apply keeps_bind; [apply keeps_may_throw|]. intros _. apply keeps_store.
Qed.

Lemma keeps_destroy p i : keeps P (destroy p i).
Proof.
  unfold destroy. apply keeps_bind; [apply keeps_load|]. intros v.
  apply keeps_bind; [apply keeps_store|]. intros _. apply keeps_log.
Qed.

Lemma keeps_swap_slots p i j : keeps P (swap_slots p i j).
Proof.
  unfold swap_slots. apply keeps_bind; [apply keeps_load|]. intros x.
  apply keeps_bind; [apply keeps_load|]. intros y.
  apply keeps_bind; apply keeps_store || (intros; apply keeps_store).
Qed.

Lemma keeps_operator_new bytes : keeps P (operator_new bytes).
Proof.
  unfold operator_new. case_decide as Hbig; [apply keeps_throw|].
  apply keeps_bind; [apply keeps_may_throw|]. intros _.
  apply keeps_bind; [apply keeps_get_world|]. intros w.
  apply keeps_bind; [|intros; apply keeps_ret].
  intros s Hb. unfold ends, modify_world. cbn [this mem]. split; [done|].
  intros a blk. simpl. destruct (decide (a = fresh (dom (heap w)))) as [->|Hne].
  - rewrite lookup_insert_eq. intros [= <-]. rewrite length_replicate.
    pose proof sizeof_pos. pose proof max_slots_range.
    destruct (decide (0 ≤ bytes / sizeof)); [|lia].
    rewrite Z2Nat.id by done. unfold max_slots. apply Z.div_le_mono; lia.
  - rewrite lookup_insert_ne by done. apply Hb.
Qed.

Lemma keeps_operator_delete p : keeps P (operator_delete p).
Proof.
  unfold operator_delete. destruct p as [a|]; [|apply keeps_ret].
  apply keeps_bind; [apply keeps_get_world|]. intros w.
  destruct (heap w !! a); [|apply keeps_undefined].
  intros s Hb. unfold ends, modify_world. cbn [this mem]. split; [done|].
  intros a' blk. simpl. intros Hl. apply lookup_delete_Some in Hl as [_ Hl]. by eapply Hb.
Qed.

Lemma keeps_slot_of it : keeps P (slot_of it).
Proof. apply keeps_umod. Qed.

Lemma keeps_deref it : keeps P (deref it).
Proof.
  unfold deref. apply keeps_bind; [apply keeps_slot_of|]. intros; apply keeps_load.
Qed.

Lemma keeps_iter_swap a b : keeps P (iter_swap a b).
Proof.
  unfold iter_swap. apply keeps_bind; [apply keeps_slot_of|]. intros i.
  apply keeps_bind; [apply keeps_slot_of|]. intros j.
  case_decide; [apply keeps_swap_slots|apply keeps_undefined].
Qed.

Lemma keeps_destroy_range n : ∀ first, keeps P (destroy_range n first).
Proof.
  induction n as [|n IH]; intros first; cbn [destroy_range]; [apply keeps_ret|].
  apply keeps_bind; [apply keeps_slot_of|]. intros i.
  apply keeps_bind; [apply keeps_destroy|]. intros _. apply IH.
Qed.

Lemma keeps_uninitialized_copy_loop n :
  ∀ first d_first cur, keeps P (uninitialized_copy_loop n first d_first cur).
Proof.
  induction n as [|n IH]; intros first d_first cur; cbn [uninitialized_copy_loop];
    [apply keeps_ret|].
  apply keeps_bind; [apply keeps_deref|]. intros v.
  apply keeps_bind; [apply keeps_slot_of|]. intros i.
  apply keeps_bind; [|intros _; apply IH].
  apply keeps_on_throw; [apply keeps_construct|apply keeps_destroy_range].
Qed.

Lemma keeps_uninitialized_copy first last d_first :
  keeps P (uninitialized_copy first last d_first).
Proof.
  unfold uninitialized_copy.
  case_decide; [apply keeps_uninitialized_copy_loop|apply keeps_undefined].
Qed.

Lemma keeps_insert_front_loop n : ∀ cur, keeps P (insert_front_loop n cur).
Proof.
  induction n as [|n IH]; intros cur; cbn [insert_front_loop]; [apply keeps_ret|].
  apply keeps_bind; [apply keeps_iter_swap|]. intros _. apply IH.
Qed.

Lemma keeps_insert_back_loop n : ∀ cur, keeps P (insert_back_loop n cur).
Proof.
  induction n as [|n IH]; intros cur; cbn [insert_back_loop]; [apply keeps_ret|].
  apply keeps_bind; [apply keeps_iter_swap|]. intros _. apply IH.
Qed.

Lemma keeps_erase_front_loop fuel : ∀ first last, keeps P (erase_front_loop fuel first last).
Proof.
  induction fuel as [|n IH]; intros first last; cbn [erase_front_loop];
    (apply keeps_bind; [apply keeps_get_this|]; intros b;
     destruct (template_iterator.gtb first (begin b)); [|apply keeps_ret]).
  - apply keeps_undefined.
  - apply keeps_bind; [apply keeps_umod|]. intros i.
    apply keeps_bind; [apply keeps_umod|]. intros j.
    apply keeps_bind; [apply keeps_swap_slots|]. intros _. apply IH.
Qed.

Lemma keeps_erase_back_loop fuel : ∀ first last, keeps P (erase_back_loop fuel first last).
Proof.
  induction fuel as [|n IH]; intros first last; cbn [erase_back_loop];
    (apply keeps_bind; [apply keeps_get_this|]; intros b;
     destruct (template_iterator.ltb last (end_ b)); [|apply keeps_ret]).
  - apply keeps_undefined.
  - apply keeps_bind; [apply keeps_umod|]. intros i.
    apply keeps_bind; [apply keeps_umod|]. intros j.
    apply keeps_bind; [apply keeps_swap_slots|]. intros _. apply IH.
Qed.

End keeps.
(** *** Members that change the fields *)

(** [ka lem]: applies a [keeps] lemma and finds the instances it needs. *)
Ltac ka lem := apply lem; try typeclasses eauto.

Lemma tame_modify_this g : tame (modify_this g).
Proof. intros s Hb. unfold ends, modify_this. by split. Qed.

Lemma tame_constructor_capacity c : tame (constructor_capacity c).
Proof.
  unfold constructor_capacity. ka keeps_bind.
  - case_decide; [ka keeps_ret|ka keeps_operator_new].
  - intros p. apply tame_modify_this.
Qed.

Lemma tame_pop_back : tame pop_back.
Proof.
  unfold pop_back. ka keeps_bind; [ka keeps_get_this|]. intros b.
  ka keeps_bind; [ka keeps_umod|]. intros i.
  ka keeps_bind; [ka keeps_destroy|]. intros _. apply tame_modify_this.
Qed.

Lemma tame_clear_loop fuel : tame (clear_loop fuel).
Proof.
  induction fuel as [|fuel IH]; cbn [clear_loop];
    (ka keeps_bind; [ka keeps_get_this|]; intros b;
     destruct (empty b); [ka keeps_ret|]).
  - ka keeps_undefined.
  - ka keeps_bind; [apply tame_pop_back|]. intros _. apply IH.
Qed.

Lemma tame_destructor : tame destructor.
Proof.
  unfold destructor, clear. ka keeps_bind.
  - ka keeps_bind; [ka keeps_get_this|]. intros b. apply tame_clear_loop.
  - intros _. ka keeps_bind; [ka keeps_get_this|]. intros b.
    ka keeps_operator_delete.
Qed.

Lemma quiet_destroy_object obj : quiet (destroy_object obj).
Proof.
  unfold destroy_object. ka keeps_bind.
  - ka keeps_on_object; apply tame_destructor.
  - intros. ka keeps_ret.
Qed.

Lemma tame_copy_constructor other : tame (copy_constructor other).
Proof.
  unfold copy_constructor.
  ka keeps_bind; [apply tame_constructor_capacity|]. intros _.
  ka keeps_bind; [apply tame_modify_this|]. intros _.
  ka keeps_bind; [ka keeps_get_this|]. intros b.
  ka keeps_bind; [|intros; apply tame_modify_this].
  ka keeps_on_throw; [ka keeps_uninitialized_copy|apply tame_destructor].
Qed.

(** *** Stepping through a member function *)

Lemma ends_get_this {B} (f : circular_buffer → M B) s N E :
  ends (f (this s)) s N E → ends (get_this ≫= f) s N E.
Proof. done. Qed.

Lemma ends_modify_this {B} g (f : unit → M B) s N E :
  ends (f tt) (State (g (this s)) (mem s)) N E → ends (modify_this g ≫= f) s N E.
Proof. done. Qed.

Lemma ends_ret {A} (a : A) s (N : A → state → Prop) E : N a s → ends (ret a) s N E.
Proof. done. Qed.

Lemma ends_undefined {A} s (N : A → state → Prop) E : ends undefined s N E.
Proof. done. Qed.

Lemma ends_umod {B} a b (f : Z → M B) s N E :
  (b ≠ 0 → ends (f (a mod b)) s N E) → ends (umod a b ≫= f) s N E.
Proof. intros H. unfold ends, umod in *. rewrite bind_unfold. case_decide; [done|]. by apply H. Qed.

(** [qstep lem]: runs the first computation of a sequence, which is [quiet]
    by [lem]. *)
Ltac qstep lem :=
  lazymatch goal with
  | Hb : bounded ?w |- ends (_ ≫= _) (State ?b ?w) _ _ =>
      apply ends_bind_inv;
      [ let a := fresh "a" in let s1 := fresh "s" in let H := fresh "Hrun" in
        let b1 := fresh "b" in let w1 := fresh "w" in
        let Ht := fresh "Hthis" in let Hb' := fresh "Hb" in
        intros a s1 H; destruct (keeps_normal eq _ (State b w) a s1 lem Hb H) as (Ht & Hb');
        destruct s1 as [b1 w1]; cbn [this mem] in Ht, Hb' |- *; subst b1
      | let s1 := fresh "s" in let H := fresh "Hrun" in
        let b1 := fresh "b" in let w1 := fresh "w" in
        let Ht := fresh "Hthis" in let Hb' := fresh "Hb" in
        intros s1 H; destruct (keeps_thrown eq _ (State b w) s1 lem Hb H) as (Ht & Hb');
        destruct s1 as [b1 w1]; cbn [this mem] in Ht, Hb' |- *; subst b1 ]
  end.

Lemma fields_ok_size b : fields_ok b → 0 ≤ size_ b < SIZE_MODULUS.
Proof. intros (? & ? & _). lia. Qed.

Lemma pop_back_fields s :
  bounded (mem s) →
  ends pop_back s
    (λ _ s', this s' = set_size_ (to_size_t (size_ (this s) - 1)) (this s) ∧
             bounded (mem s'))
    (λ s', this s' = this s ∧ bounded (mem s')).
Proof.
  destruct s as [b w]. cbn [this mem]. intros Hb. unfold pop_back.
  apply ends_get_this. cbn [this]. apply ends_umod. intros Hc.
  qstep (keeps_destroy eq (data_ b) (to_size_t (begin_ b + size b - 1) mod capacity b));
    [|done].
  by unfold ends, modify_this.
Qed.

Lemma pop_front_fields s :
  bounded (mem s) →
  ends pop_front s
    (λ _ s', capacity_ (this s) ≠ 0 ∧
             this s' = set_size_ (to_size_t (size_ (this s) - 1))
                         (set_begin_ (to_size_t (begin_ (this s) + 1) mod capacity_ (this s))
                            (this s)) ∧
             bounded (mem s'))
    (λ s', this s' = this s ∧ bounded (mem s')).
Proof.
  destruct s as [b w]. cbn [this mem]. intros Hb. unfold pop_front.
  apply ends_get_this. cbn [this].
  qstep (keeps_destroy eq (data_ b) (begin_ b)); [|done].
  apply ends_umod. intros Hc. by unfold ends, modify_this.
Qed.

Lemma pop_back_sound s :
  state_ok s → size_ (this s) ≠ 0 →
  ends pop_back s (λ _ s', state_ok s' ∧ size_ (this s') = size_ (this s) - 1) state_ok.
Proof.
  intros (Hf & Hb) Hne. eapply ends_conseq; [by apply pop_back_fields|..]; cbn beta.
  - intros _ [b' w'] (Ht & Hb'). cbn [this mem] in *. subst b'.
    destruct Hf as (Hs & Hc & Hbg & Hd).
    unfold state_ok, fields_ok. destruct (this s) as [d sz c bg]. simpl in *.
    rewrite to_size_t_small by lia. split_and!; try done; lia.
  - intros [b' w'] (Ht & Hb'). cbn [this mem] in *. subst b'. by split.
Qed.

Lemma pop_front_sound s :
  state_ok s → size_ (this s) ≠ 0 →
  ends pop_front s (λ _ s', state_ok s' ∧ size_ (this s') = size_ (this s) - 1) state_ok.
Proof.
  intros (Hf & Hb) Hne. eapply ends_conseq; [by apply pop_front_fields|..]; cbn beta.
  - intros _ [b' w'] (Hc0 & Ht & Hb'). cbn [this mem] in *. subst b'.
    destruct Hf as (Hs & Hc & Hbg & Hd).
    unfold state_ok, fields_ok. destruct (this s) as [d sz c bg]. simpl in *.
    rewrite to_size_t_small by lia.
    pose proof (Z.mod_pos_bound (to_size_t (bg + 1)) c ltac:(lia)).
    split_and!; try done; lia.
  - intros [b' w'] (Ht & Hb'). cbn [this mem] in *. subst b'. by split.
Qed.

Lemma repeat_pop_sound (pop : M unit) n :
  (∀ s, state_ok s → size_ (this s) ≠ 0 →
        ends pop s (λ _ s', state_ok s' ∧ size_ (this s') = size_ (this s) - 1) state_ok) →
  ∀ s, state_ok s → Z.of_nat n ≤ size_ (this s) → sound (repeat_pop pop n) s.
Proof.
  intros Hpop. induction n as [|n IH]; intros s Hok Hn; cbn [repeat_pop].
  - by apply ends_ret.
  - apply ends_bind. eapply ends_conseq; [apply Hpop; [done|lia]| |done]; cbn beta.
    intros _ s' (Hok' & Hsz). apply IH; [done|lia].
Qed.

Lemma clear_loop_sound fuel : ∀ s, state_ok s → sound (clear_loop fuel) s.
Proof.
  induction fuel as [|fuel IH]; intros s Hok; cbn [clear_loop];
    apply ends_get_this; destruct (empty (this s)) eqn:He;
    try (by apply ends_ret); [done|].
  apply ends_bind. eapply ends_conseq; [apply pop_back_sound; [done|]| |done]; cbn beta.
  - unfold empty, size in He. by apply bool_decide_eq_false in He.
  - intros _ s' (Hok' & _). by apply IH.
Qed.

Lemma clear_sound s : state_ok s → sound clear s.
Proof. intros Hok. unfold clear. apply ends_get_this. by apply clear_loop_sound. Qed.
(** *** Growth, whatever the store holds *)

Ltac keeps_auto :=
  repeat first
    [ apply quiet_destroy_object | apply tame_destructor | apply tame_modify_this
    | apply tame_constructor_capacity | apply tame_copy_constructor
    | ka keeps_uninitialized_copy | ka keeps_construct | ka keeps_destroy
    | ka keeps_insert_front_loop | ka keeps_insert_back_loop
    | ka keeps_erase_front_loop | ka keeps_erase_back_loop
    | ka keeps_umod | ka keeps_get_this | ka keeps_ret
    | ka keeps_on_object | ka keeps_on_throw ].

(** [qstep_by]: as [qstep], finding out by itself why the first computation
    is [quiet]. *)
Ltac qstep_auto :=
  lazymatch goal with
  | Hb : bounded ?w |- ends (?m ≫= _) (State ?b ?w) _ _ =>
      let Hq := fresh "Hq" in
      assert (Hq : quiet m) by (unfold quiet; keeps_auto);
      qstep Hq; clear Hq
  end.

Lemma ends_on_object_bind {A B} obj (m : M A) (f : A * circular_buffer → M B) s
    (NI : A → state → Prop) (EI : state → Prop) N E :
  ends m (State obj (mem s)) NI EI →
  (∀ a s1, NI a s1 → ends (f (a, this s1)) (State (this s) (mem s1)) N E) →
  (∀ s1, EI s1 → E (State (this s) (mem s1))) →
  ends (on_object obj m ≫= f) s N E.
Proof.
  intros Hm HN HE. unfold ends in *. rewrite bind_unfold. unfold on_object.
  destruct (m (State obj (mem s))) as [a s1|s1|]; [by apply HN|by apply HE|done].
Qed.

Lemma ends_swap_with {B} other (f : circular_buffer → M B) s N E :
  ends (f (swap (this s) other).2) (State (swap (this s) other).1 (mem s)) N E →
  ends (swap_with other ≫= f) s N E.
Proof. done. Qed.

Lemma constructor_capacity_fields c s :
  bounded (mem s) →
  ends (constructor_capacity c) s
    (λ _ s', (∃ p, this s' = Buffer p 0 c 0 ∧ (c = 0 → p = nullptr)) ∧ bounded (mem s'))
    (λ s', bounded (mem s')).
Proof.
  destruct s as [b w]. cbn [this mem]. intros Hb. unfold constructor_capacity.
  case_decide as Hc.
  - unfold ends. rewrite bind_ret. unfold modify_this. cbn [this mem].
    split; [by eexists|done].
  - qstep (keeps_operator_new eq (to_size_t (sizeof * c))); [|done].
    unfold ends, modify_this. cbn [this mem]. split; [|done]. by eexists.
Qed.

Lemma slot_value_in_block w p i v :
  bounded w → slot_value w p i = Some v → 0 ≤ i < max_slots.
Proof.
  intros Hb. unfold slot_value. destruct p as [a|]; [|done]. simpl.
  destruct (heap w !! a) as [blk|] eqn:Ha; [|done]. simpl.
  case_decide as Hi; [|done]. intros Hv. apply mjoin_Some in Hv.
  apply lookup_lt_Some in Hv. specialize (Hb _ _ Ha). lia.
Qed.

Lemma deref_in_block it s v s' :
  bounded (mem s) → deref it s = Normal v s' →
  s' = s ∧ template_iterator.pos_ it mod template_iterator.size_ it < max_slots.
Proof.
  intros Hb. unfold deref, slot_of, umod. rewrite bind_unfold.
  case_decide; [done|]. cbn [ret]. unfold load. rewrite bind_get_world.
  destruct (slot_value (mem s) _ _) as [v'|] eqn:Hv; [|done].
  intros [= <- <-]. split; [done|]. by destruct (slot_value_in_block _ _ _ _ Hb Hv).
Qed.

(** A copy that returns has read every source slot within a block. *)
Lemma uninitialized_copy_loop_reads n : ∀ first d_first cur s r s',
  bounded (mem s) → 0 ≤ template_iterator.pos_ first < SIZE_MODULUS →
  uninitialized_copy_loop n first d_first cur s = Normal r s' →
  ∀ j, 0 ≤ j < Z.of_nat n →
       to_size_t (template_iterator.pos_ first + j) mod template_iterator.size_ first
       < max_slots.
Proof.
  induction n as [|n IH]; intros first d_first cur s r s' Hb Hpos Hrun j Hj; [lia|].
  cbn [uninitialized_copy_loop] in Hrun. rewrite bind_unfold in Hrun.
  destruct (deref first s) as [v s1|s1|] eqn:Hd; [|done..].
  destruct (deref_in_block _ _ _ _ Hb Hd) as (-> & Hin).
  destruct (decide (j = 0)) as [->|Hj0].
  { rewrite Z.add_0_r, to_size_t_small by done. done. }
  rewrite bind_unfold in Hrun.
  destruct (slot_of cur s) as [i s1|s1|] eqn:Hslot; [|done..].
  assert (s1 = s) as ->.
  { unfold slot_of, umod in Hslot. case_decide; [done|]. by injection Hslot. }
  rewrite bind_unfold in Hrun.
  destruct (on_throw _ _ s) as [[] s2|s2|] eqn:Hc; [|done..].
  assert (Hb2 : bounded (mem s2)).
  { eapply (keeps_normal eq); [|exact Hb|exact Hc]. unfold quiet. keeps_auto.
    ka keeps_destroy_range. }
  assert (Hpos' : 0 ≤ template_iterator.pos_ (template_iterator.incr first) < SIZE_MODULUS).
  { cbn [template_iterator.incr template_iterator.pos_]. by apply Z.mod_pos_bound. }
  specialize (IH _ _ _ _ _ _ Hb2 Hpos' Hrun (j - 1) ltac:(lia)).
  cbn [template_iterator.incr template_iterator.pos_ template_iterator.size_] in IH.
  rewrite to_size_t_add_l in IH. by replace (template_iterator.pos_ first + 1 + (j - 1))
    with (template_iterator.pos_ first + j) in IH by lia.
Qed.

Lemma uninitialized_copy_reads first last d_first s r s' :
  bounded (mem s) → 0 ≤ template_iterator.pos_ first < SIZE_MODULUS →
  uninitialized_copy first last d_first s = Normal r s' →
  ∀ j, 0 ≤ j < to_size_t (template_iterator.pos_ last - template_iterator.pos_ first) →
       to_size_t (template_iterator.pos_ first + j) mod template_iterator.size_ first
       < max_slots.
Proof.
  intros Hb Hpos Hrun j Hj. unfold uninitialized_copy in Hrun.
  case_decide; [|done].
  eapply uninitialized_copy_loop_reads; [exact Hb|exact Hpos|exact Hrun|].
  rewrite Z2Nat.id; [done|]. apply Z.mod_pos_bound. done.
Qed.

(** The handle [begin() + n]. *)
Lemma add_begin_pos b n :
  template_iterator.pos_ (template_iterator.add (begin b) (to_ptrdiff_t n)) =
  to_size_t (begin_ b + n).
Proof.
  unfold template_iterator.add, begin. cbn [template_iterator.pos_].
  rewrite to_size_t_ptrdiff_add, Z.add_comm, to_size_t_ptrdiff_add. f_equal. lia.
Qed.

Lemma to_size_t_sub_both a b : to_size_t (to_size_t a - to_size_t b) = to_size_t (a - b).
Proof. by rewrite to_size_t_sub_l, to_size_t_sub_r. Qed.

(** A full buffer all of whose elements were read has a capacity that the
    allocator serves. *)
Lemma reads_full b idx :
  fields_ok b → size_ b = capacity_ b → capacity_ b ≠ 0 → 0 ≤ idx ≤ size_ b →
  (∀ j, 0 ≤ j < idx → to_size_t (begin_ b + j) mod capacity_ b < max_slots) →
  (∀ j, 0 ≤ j < size_ b - idx →
        to_size_t (to_size_t (begin_ b + idx) + j) mod capacity_ b < max_slots) →
  capacity_ b ≤ max_slots.
Proof.
  intros (Hs & Hc & Hbg & _) Hfull Hc0 Hidx H1 H2.
  destruct Hbg as [Hbg|[_ ?]]; [|done].
  assert (Hlast : (capacity_ b - 1) mod capacity_ b = capacity_ b - 1)
    by (apply Z.mod_small; lia).
  destruct (decide (capacity_ b - 1 - begin_ b < idx)) as [Hlt|Hge].
  - specialize (H1 (capacity_ b - 1 - begin_ b) ltac:(lia)).
    replace (begin_ b + (capacity_ b - 1 - begin_ b)) with (capacity_ b - 1) in H1 by lia.
    rewrite to_size_t_small, Hlast in H1 by lia. lia.
  - specialize (H2 (capacity_ b - 1 - begin_ b - idx) ltac:(lia)).
    rewrite to_size_t_add_l in H2.
    replace (begin_ b + idx + (capacity_ b - 1 - begin_ b - idx))
      with (capacity_ b - 1) in H2 by lia.
    rewrite to_size_t_small, Hlast in H2 by lia. lia.
Qed.
Lemma insert_with_copy_sound pos v s :
  state_ok s → size_ (this s) = capacity_ (this s) →
  to_size_t (template_iterator.diff pos (begin (this s))) ≤ size_ (this s) →
  sound (insert_with_copy pos v) s.
Proof.
  destruct s as [b w]. cbn [this mem]. intros (Hf & Hb) Hfull Hidx.
  unfold sound, insert_with_copy. apply ends_get_this. cbn [this].
  set (idx := to_size_t (template_iterator.diff pos (begin b))) in *.
  assert (Hidx0 : 0 ≤ idx < SIZE_MODULUS) by (by apply Z.mod_pos_bound).
  set (c2 := if decide (capacity b = 0) then 1 else to_size_t (capacity b * 2)).
  eapply ends_on_object_bind; [by apply constructor_capacity_fields| |].
  2:{ intros s1 Hb1. by split. }
  intros [] [tmp w1] ((p & Htmp & Hp) & Hb1). cbn [this mem] in *. subst tmp.
  pose proof Hf as (Hs & Hc & Hbg & Hd).
  assert (Hbpos : 0 ≤ begin_ b < SIZE_MODULUS) by lia.
  apply ends_bind_inv.
  2:{ intros [b1 w2] Hth.
      eapply (keeps_thrown eq) in Hth as (Ht & Hb2); [|unfold quiet; keeps_auto|done].
      cbn [this mem] in *. subst b1. by split. }
  intros it1 [b1 w2] Hrun1.
  pose proof Hrun1 as Hk1.
  eapply (keeps_normal eq) in Hk1 as (Ht & Hb2); [|unfold quiet; keeps_auto|done].
  cbn [this mem] in Ht, Hb2. subst b1.
  apply on_throw_normal_inv in Hrun1.
  pose proof (uninitialized_copy_reads (begin b) _ _ (State b w1) _ _ Hb1 Hbpos Hrun1)
    as Hreads1.
  rewrite add_begin_pos in Hreads1. cbn [begin template_iterator.pos_ template_iterator.size_] in Hreads1.
  rewrite to_size_t_sub_l, Z.add_simpl_l, (to_size_t_small idx) in Hreads1 by done.
  cbv zeta. cbn [size_ capacity_ begin_ data_ set_size_ capacity size].
  apply ends_umod. intros Hc2.
  qstep_auto; [|by split].
  apply ends_bind_inv.
  2:{ intros [b1 w4] Hth.
      eapply (keeps_thrown eq) in Hth as (Ht & Hb4); [|unfold quiet; keeps_auto|done].
      cbn [this mem] in *. subst b1. by split. }
  intros it2 [b1 w4] Hrun2.
  pose proof Hrun2 as Hk2.
  eapply (keeps_normal eq) in Hk2 as (Ht & Hb4); [|unfold quiet; keeps_auto|done].
  cbn [this mem] in Ht, Hb4. subst b1.
  apply on_throw_normal_inv in Hrun2.
  assert (Hmid : 0 ≤ template_iterator.pos_
                   (template_iterator.add (begin b) (to_ptrdiff_t idx)) < SIZE_MODULUS).
  { rewrite add_begin_pos. by apply Z.mod_pos_bound. }
  pose proof (uninitialized_copy_reads
                (template_iterator.add (begin b) (to_ptrdiff_t idx)) _ _ (State b w0) _ _
                Hb0 Hmid Hrun2) as Hreads2.
  unfold end_ in Hreads2. rewrite !add_begin_pos in Hreads2.
  cbn [template_iterator.add begin template_iterator.size_] in Hreads2.
  rewrite to_size_t_sub_both in Hreads2.
  replace (begin_ b + size b - (begin_ b + idx)) with (size_ b - idx) in Hreads2
    by (unfold size; lia).
  rewrite (to_size_t_small (size_ b - idx)) in Hreads2 by lia.
  apply ends_swap_with. cbn [swap fst snd this mem].
  apply ends_get_this. cbn [this].
  assert (Hok : fields_ok (Buffer p (to_size_t (size_ b + 1)) c2 0)).
  { unfold fields_ok. cbn [size_ capacity_ begin_ data_].
    assert (Hc2' : 0 < c2 < SIZE_MODULUS ∧ size_ b + 1 ≤ c2).
    { unfold c2, capacity in *. case_decide as Hc0; [unfold SIZE_MODULUS; lia|].
      pose proof (reads_full b idx Hf Hfull Hc0 ltac:(lia) Hreads1 Hreads2) as Hmax.
      pose proof max_slots_lt. rewrite to_size_t_small by lia. lia. }
    rewrite to_size_t_small by lia. split_and!; lia. }
  qstep_auto; [|by split]. by apply ends_ret.
Qed.
(** *** The public members, whatever the store holds *)

Lemma idx_add b k :
  to_size_t (template_iterator.diff (template_iterator.add (begin b) k) (begin b)) =
  to_size_t k.
Proof.
  unfold template_iterator.diff, template_iterator.add, begin.
  cbn [template_iterator.pos_].
  rewrite to_size_t_ptrdiff, to_size_t_ptrdiff_add, to_size_t_sub_l, Z.add_simpl_l.
  apply Zmod_mod.
Qed.

Lemma idx_begin b : to_size_t (template_iterator.diff (begin b) (begin b)) = 0.
Proof. unfold template_iterator.diff. by rewrite Z.sub_diag. Qed.

Lemma idx_end b :
  0 ≤ size_ b < SIZE_MODULUS →
  to_size_t (template_iterator.diff (end_ b) (begin b)) = size_ b.
Proof.
  intros Hs. unfold end_. rewrite idx_add, to_size_t_ptrdiff. by apply to_size_t_small.
Qed.

Lemma push_back_sound v s : state_ok s → sound (push_back v) s.
Proof.
  destruct s as [b w]. intros Hok. pose proof Hok as (Hf & Hb). cbn [this mem] in *.
  pose proof Hf as (Hs & Hc & Hbg & Hd).
  unfold sound, push_back. apply ends_get_this. cbn [this]. unfold size, capacity.
  case_decide as Hfull.
  - apply ends_bind. eapply ends_conseq;
      [apply insert_with_copy_sound; [done..|]|by intros|done].
    cbn [this]. rewrite idx_end by lia. lia.
  - apply ends_umod. intros Hc0. qstep_auto; [|by split].
    unfold ends, modify_this. cbn [this mem]. split; [|done].
    unfold fields_ok. cbn [this size_ capacity_ begin_ data_ set_size_].
    rewrite to_size_t_small by lia. split_and!; try done; lia.
Qed.

Lemma push_front_sound v s : state_ok s → sound (push_front v) s.
Proof.
  destruct s as [b w]. intros Hok. pose proof Hok as (Hf & Hb). cbn [this mem] in *.
  pose proof Hf as (Hs & Hc & Hbg & Hd).
  unfold sound, push_front. apply ends_get_this. cbn [this]. unfold size, capacity.
  case_decide as Hfull.
  - apply ends_bind. eapply ends_conseq;
      [apply insert_with_copy_sound; [done..|]|by intros|done].
    cbn [this]. rewrite idx_begin. lia.
  - apply ends_umod. intros Hc0. qstep_auto; [|by split].
    unfold ends, modify_this. cbn [this mem]. split; [|done].
    unfold fields_ok. cbn [this size_ capacity_ begin_ data_ set_size_ set_begin_].
    rewrite to_size_t_small by lia.
    pose proof (Z.mod_pos_bound (to_size_t (begin_ b + capacity_ b - 1)) (capacity_ b)
                  ltac:(lia)).
    split_and!; try done; lia.
Qed.

Lemma insert_sound k v s :
  state_ok s → 0 ≤ k ≤ size_ (this s) →
  sound (insert (template_iterator.add (begin (this s)) k) v) s.
Proof.
  destruct s as [b w]. intros Hok Hk. pose proof Hok as (Hf & Hb). cbn [this mem] in *.
  pose proof Hf as (Hs & Hc & Hbg & Hd).
  unfold sound, insert. apply ends_get_this. cbn [this]. unfold size, capacity.
  case_decide as Hfull.
  - apply insert_with_copy_sound; [done..|]. cbn [this].
    rewrite idx_add, to_size_t_small by lia. lia.
  - apply ends_bind. case_decide.
    + apply ends_bind. eapply ends_conseq; [by apply push_front_sound| |done].
      cbn beta. intros _ [b1 w1] (Hf1 & Hb1). apply ends_get_this. cbn [this mem] in *.
      eapply ends_conseq.
      * apply (keeps_insert_front_loop eq); [typeclasses eauto..|done].
      * cbn beta. intros _ [b2 w2] (Ht & Hb2). cbn [this mem] in *. subst b2.
        apply ends_get_this. by apply ends_ret.
      * cbn beta. intros [b2 w2] (Ht & Hb2). cbn [this mem] in *. by subst b2.
    + apply ends_bind. eapply ends_conseq; [by apply push_back_sound| |done].
      cbn beta. intros _ [b1 w1] (Hf1 & Hb1). apply ends_get_this. cbn [this mem] in *.
      eapply ends_conseq.
      * apply (keeps_insert_back_loop eq); [typeclasses eauto..|done].
      * cbn beta. intros _ [b2 w2] (Ht & Hb2). cbn [this mem] in *. subst b2.
        apply ends_get_this. by apply ends_ret.
      * cbn beta. intros [b2 w2] (Ht & Hb2). cbn [this mem] in *. by subst b2.
Qed.
(** The shifting loops of [erase] keep the distance between their handles. *)
Lemma erase_front_loop_gap fuel : ∀ first last s r s',
  erase_front_loop fuel first last s = Normal r s' →
  to_size_t (template_iterator.pos_ r.2 - template_iterator.pos_ r.1) =
  to_size_t (template_iterator.pos_ last - template_iterator.pos_ first).
Proof.
  induction fuel as [|fuel IH]; intros first last s r s' Hrun;
    cbn [erase_front_loop] in Hrun; rewrite bind_get_this in Hrun;
    destruct (template_iterator.gtb first (begin (this s)));
    try (by injection Hrun as <- _); [done|].
  rewrite bind_unfold in Hrun. destruct (umod _ _ s) as [i s1|s1|]; [|done..].
  rewrite bind_unfold in Hrun. destruct (umod _ _ s1) as [j s2|s2|]; [|done..].
  rewrite bind_unfold in Hrun. destruct (swap_slots _ _ _ s2) as [[] s3|s3|]; [|done..].
  rewrite (IH _ _ _ _ _ Hrun). cbn [template_iterator.decr template_iterator.pos_].
  rewrite to_size_t_sub_both. f_equal. lia.
Qed.

Lemma erase_back_loop_gap fuel : ∀ first last s r s',
  erase_back_loop fuel first last s = Normal r s' →
  to_size_t (template_iterator.pos_ r.2 - template_iterator.pos_ r.1) =
  to_size_t (template_iterator.pos_ last - template_iterator.pos_ first).
Proof.
  induction fuel as [|fuel IH]; intros first last s r s' Hrun;
    cbn [erase_back_loop] in Hrun; rewrite bind_get_this in Hrun;
    destruct (template_iterator.ltb last (end_ (this s)));
    try (by injection Hrun as <- _); [done|].
  rewrite bind_unfold in Hrun. destruct (umod _ _ s) as [i s1|s1|]; [|done..].
  rewrite bind_unfold in Hrun. destruct (umod _ _ s1) as [j s2|s2|]; [|done..].
  rewrite bind_unfold in Hrun. destruct (swap_slots _ _ _ s2) as [[] s3|s3|]; [|done..].
  rewrite (IH _ _ _ _ _ Hrun). cbn [template_iterator.incr template_iterator.pos_].
  rewrite to_size_t_sub_both. f_equal. lia.
Qed.

Lemma erase_sound first last s :
  state_ok s →
  to_ptrdiff_t (to_size_t (template_iterator.pos_ last - template_iterator.pos_ first))
    ≤ size_ (this s) →
  sound (erase first last) s.
Proof.
  destruct s as [b w]. intros Hok Hgap. pose proof Hok as (Hf & Hb). cbn [this mem] in *.
  pose proof (fields_ok_size _ Hf) as Hsz.
  unfold sound, erase. apply ends_get_this. cbn [this]. apply ends_bind.
  assert (Hend : ∀ b' w', fields_ok b' → bounded w' →
            ends (get_this ≫= λ b0, ret (template_iterator.add (begin b0)
                                           (template_iterator.diff first (begin b))))
              (State b' w') (λ _, state_ok) state_ok).
  { intros b' w' Hf' Hb'. apply ends_get_this. by apply ends_ret. }
  case_decide.
  - apply ends_bind_inv.
    2:{ intros [b1 w1] Hth.
        eapply (keeps_thrown eq) in Hth as (Ht & Hb1); [|unfold quiet; keeps_auto|done].
        cbn [this mem] in *. subst b1. by split. }
    intros [first' last'] [b1 w1] Hrun. pose proof Hrun as Hk.
    eapply (keeps_normal eq) in Hk as (Ht & Hb1); [|unfold quiet; keeps_auto|done].
    cbn [this mem] in *. subst b1. apply erase_front_loop_gap in Hrun. cbn [fst snd] in Hrun.
    eapply ends_conseq.
    + apply (repeat_pop_sound pop_front _ pop_front_sound); [by split|].
      cbn [this]. unfold template_iterator.diff. rewrite Hrun. lia.
    + cbn beta. intros _ [b2 w2] (Hf2 & Hb2). by apply Hend.
    + done.
  - apply ends_bind_inv.
    2:{ intros [b1 w1] Hth.
        eapply (keeps_thrown eq) in Hth as (Ht & Hb1); [|unfold quiet; keeps_auto|done].
        cbn [this mem] in *. subst b1. by split. }
    intros [first' last'] [b1 w1] Hrun. pose proof Hrun as Hk.
    eapply (keeps_normal eq) in Hk as (Ht & Hb1); [|unfold quiet; keeps_auto|done].
    cbn [this mem] in *. subst b1. apply erase_back_loop_gap in Hrun. cbn [fst snd] in Hrun.
    eapply ends_conseq.
    + apply (repeat_pop_sound pop_back _ pop_back_sound); [by split|].
      cbn [this]. unfold template_iterator.diff. rewrite Hrun. lia.
    + cbn beta. intros _ [b2 w2] (Hf2 & Hb2). by apply Hend.
    + done.
Qed.

Lemma gap_add b i j :
  to_size_t (template_iterator.pos_ (template_iterator.add (begin b) j) -
             template_iterator.pos_ (template_iterator.add (begin b) i)) =
  to_size_t (j - i).
Proof.
  unfold template_iterator.add, begin. cbn [template_iterator.pos_].
  rewrite !to_size_t_ptrdiff_add, to_size_t_sub_both. f_equal. lia.
Qed.

Lemma to_ptrdiff_t_le z : 0 ≤ z < SIZE_MODULUS → to_ptrdiff_t z ≤ z.
Proof. intros. solve_int. Qed.

Lemma erase_range_sound i j s :
  state_ok s → 0 ≤ i ≤ j ≤ size_ (this s) →
  sound (erase (template_iterator.add (begin (this s)) i)
           (template_iterator.add (begin (this s)) j)) s.
Proof.
  intros Hok Hij. pose proof (fields_ok_size _ (proj1 Hok)).
  apply erase_sound; [done|]. rewrite gap_add, to_size_t_small by lia.
  pose proof (to_ptrdiff_t_le (j - i) ltac:(lia)). lia.
Qed.

Lemma erase_one_sound k s :
  state_ok s → 0 ≤ k < size_ (this s) →
  sound (erase_one (template_iterator.add (begin (this s)) k)) s.
Proof.
  intros Hok Hk. pose proof (fields_ok_size _ (proj1 Hok)).
  unfold erase_one. apply erase_sound; [done|].
  unfold template_iterator.add at 1. cbn [template_iterator.pos_].
  rewrite to_size_t_ptrdiff_add, to_size_t_sub_l, Z.add_simpl_l.
  rewrite to_size_t_small, to_ptrdiff_t_small by (unfold SIZE_MODULUS, PTRDIFF_MAX; lia).
  lia.
Qed.

(** *** Reserving, copying, assigning *)

Lemma reserve_fields n s :
  bounded (mem s) →
  ends (reserve n) s
    (λ _ s', bounded (mem s') ∧
             (this s' = this s ∨
              capacity_ (this s) < n ∧
              ∃ p, this s' = Buffer p (size_ (this s)) n 0 ∧ (n = 0 → p = nullptr)))
    (λ s', bounded (mem s') ∧
           (this s' = this s ∨
            capacity_ (this s) < n ∧
            ∃ p, this s' = Buffer p (size_ (this s)) n 0 ∧ (n = 0 → p = nullptr))).
Proof.
  destruct s as [b w]. cbn [this mem]. intros Hb.
  unfold reserve. apply ends_get_this. cbn [this]. unfold capacity, size.
  case_decide as Hn; [|apply ends_ret; split; [done|by left]].
  eapply ends_on_object_bind; [by apply constructor_capacity_fields| |].
  2:{ intros s1 Hb1. split; [done|by left]. }
  intros [] [tmp w1] ((p & Htmp & Hp) & Hb1). cbn [this mem] in *. subst tmp.
  qstep_auto; [|split; [done|by left]].
  apply ends_swap_with. cbn [swap fst snd this mem set_size_ size_ capacity_ begin_ data_].
  eapply ends_conseq; [by apply quiet_destroy_object|..]; cbn beta.
  - intros _ [b2 w2] (Ht & Hb2). cbn [this mem] in *. subst b2.
    split; [done|]. right. split; [done|]. by exists p.
  - intros [b2 w2] (Ht & Hb2). cbn [this mem] in *. subst b2.
    split; [done|]. right. split; [done|]. by exists p.
Qed.

Lemma reserve_sound n s : state_ok s → 0 ≤ n < SIZE_MODULUS → sound (reserve n) s.
Proof.
  intros (Hf & Hb) Hn. eapply ends_conseq; [by apply reserve_fields|..]; cbn beta.
  - intros _ [b' w'] (Hb' & Hthis). cbn [this mem] in *.
    destruct Hthis as [->|(Hlt & p & -> & Hp)]; [by split|]. split; [|done].
    destruct Hf as (Hs & Hc & Hbg & Hd). unfold fields_ok.
    cbn [this size_ capacity_ begin_ data_]. split_and!; try done; lia.
  - intros [b' w'] (Hb' & Hthis). cbn [this mem] in *.
    destruct Hthis as [->|(Hlt & p & -> & Hp)]; [by split|]. split; [|done].
    destruct Hf as (Hs & Hc & Hbg & Hd). unfold fields_ok.
    cbn [this size_ capacity_ begin_ data_]. split_and!; try done; lia.
Qed.

Lemma copy_constructor_fields other b0 w :
  bounded w → fields_ok other →
  ends (copy_constructor other) (State b0 w)
    (λ _ s', state_ok s') (λ s', bounded (mem s')).
Proof.
  intros Hb Hf. unfold copy_constructor. apply ends_bind.
  eapply ends_conseq; [by apply constructor_capacity_fields| |done]. cbn beta.
  intros _ [tmp w1] ((p & Htmp & Hp) & Hb1). cbn [this mem] in *. subst tmp.
  apply ends_modify_this. apply ends_get_this. cbn [this mem set_begin_ data_ size_ capacity_ begin_].
  apply ends_bind_inv.
  2:{ intros [b1 w2] Hth.
      eapply (keeps_thrown any) in Hth as (_ & Hb2); [done| |done].
      ka keeps_on_throw; [ka keeps_uninitialized_copy|apply tame_destructor]. }
  intros it [b1 w2] Hrun. apply on_throw_normal_inv in Hrun.
  eapply (keeps_normal eq) in Hrun as (Ht & Hb2); [|unfold quiet; keeps_auto|done].
  cbn [this mem] in *. subst b1. unfold ends, modify_this. cbn [this mem]. split; [|done].
  destruct Hf as (Hs & Hc & Hbg & Hd). unfold fields_ok, size, capacity in *.
  cbn [this set_size_ set_begin_ size_ capacity_ begin_ data_]. split_and!; try done; lia.
Qed.

Lemma operator_assign_sound same other s :
  state_ok s → fields_ok other → sound (operator_assign same other) s.
Proof.
  destruct s as [b w]. intros Hok Hfo. pose proof Hok as (Hf & Hb). cbn [this mem] in *.
  unfold sound, operator_assign. destruct same; [by apply ends_ret|].
  eapply ends_on_object_bind; [by apply copy_constructor_fields| |].
  2:{ intros s1 Hb1. by split. }
  intros [] [tmp w1] (Hft & Hb1). cbn [this mem] in *.
  apply ends_swap_with. cbn [swap fst snd this mem].
  assert (Hsame : Buffer (data_ tmp) (size_ tmp) (capacity_ tmp) (begin_ tmp) = tmp)
    by (by destruct tmp).
  rewrite Hsame.
  eapply ends_conseq; [by apply quiet_destroy_object|..]; cbn beta.
  - intros _ [b2 w2] (Ht & Hb2). cbn [this mem] in *. subst b2. by split.
  - intros [b2 w2] (Ht & Hb2). cbn [this mem] in *. subst b2. by split.
Qed.
(** *** Every reachable state *)

Lemma fields_ok_default : fields_ok default_members.
Proof. unfold fields_ok, default_members, SIZE_MODULUS. simpl. split_and!; try done. by right. Qed.

Lemma insert_ok (objs : gmap nat circular_buffer) x b :
  (∀ z c, objs !! z = Some c → fields_ok c) → fields_ok b →
  ∀ z c, <[x := b]> objs !! z = Some c → fields_ok c.
Proof.
  intros Hobj Hf z c. destruct (decide (z = x)) as [->|Hne].
  - rewrite lookup_insert_eq. by intros [= <-].
  - rewrite lookup_insert_ne by done. apply Hobj.
Qed.

Lemma call_ok {A} x pre (f : circular_buffer → M A) m m' :
  machine_ok m →
  (∀ b, objects m !! x = Some b → fields_ok b → pre b = true →
        sound (f b) (State b (mworld m))) →
  call x pre f m = Done m' ∨ call x pre f m = Raised m' → machine_ok m'.
Proof.
  intros (Hobj & Hb) Hf Hrun. unfold call in Hrun.
  destruct (objects m !! x) as [b|] eqn:Hx; [|by destruct Hrun].
  destruct (pre b) eqn:Hpre; [|by destruct Hrun].
  specialize (Hf b eq_refl (Hobj _ _ Hx) Hpre). unfold sound, ends in Hf.
  destruct (f b (State b (mworld m))) as [a s'|s'|]; [| |by destruct Hrun].
  - destruct Hrun as [[= <-]|[=]]. destruct Hf as (Hf' & Hb'). split; [|done].
    cbn [objects]. by apply insert_ok.
  - destruct Hrun as [[=]|[= <-]]. destruct Hf as (Hf' & Hb'). split; [|done].
    cbn [objects]. by apply insert_ok.
Qed.

Lemma step_ok o m m' :
  machine_ok m → step o m = Done m' ∨ step o m = Raised m' → machine_ok m'.
Proof.
  intros Hok Hrun. pose proof Hok as (Hobj & Hb).
  destruct o as [x|x y|x y|x|x y|x v|x v|x|x|x n|x k v|x k|x i j|x];
    cbn [step] in Hrun.
  - (* Default *)
    destruct (objects m !! x); [by destruct Hrun|].
    destruct Hrun as [[= <-]|[=]]. split; [|done]. cbn [objects].
    apply insert_ok; [done|apply fields_ok_default].
  - (* Copy *)
    destruct (objects m !! x); [by destruct Hrun|].
    destruct (objects m !! y) as [other|] eqn:Hy; [|by destruct Hrun].
    pose proof (copy_constructor_fields other default_members (mworld m) Hb (Hobj _ _ Hy))
      as Hcopy.
    unfold ends in Hcopy.
    destruct (copy_constructor other _) as [[] s'|s'|]; [| |by destruct Hrun].
    + destruct Hrun as [[= <-]|[=]]. destruct Hcopy as (Hf' & Hb'). split; [|done].
      cbn [objects]. by apply insert_ok.
    + destruct Hrun as [[=]|[= <-]]. by split.
  - (* Assign *)
    destruct (objects m !! y) as [other|] eqn:Hy; [|by destruct Hrun].
    eapply call_ok; [exact Hok| |exact Hrun]. intros b _ Hf _. cbn beta.
    apply operator_assign_sound; [by split|by eapply Hobj].
  - (* Destroy *)
    destruct (objects m !! x) as [b|] eqn:Hx; [|by destruct Hrun].
    pose proof (tame_destructor (State b (mworld m)) Hb) as Hd. unfold ends in Hd.
    destruct (destructor _) as [[] s'|s'|]; [|by destruct Hrun..].
    destruct Hrun as [[= <-]|[=]]. destruct Hd as (_ & Hb'). split; [|done].
    cbn [objects]. intros z c Hz. apply lookup_delete_Some in Hz as [_ Hz]. by eapply Hobj.
  - (* Swap *)
    destruct (objects m !! x) as [l|] eqn:Hx; [|by destruct Hrun].
    destruct (objects m !! y) as [r|] eqn:Hy; [|by destruct Hrun].
    rewrite swap_eq in Hrun. cbn [fst snd] in Hrun.
    destruct Hrun as [[= <-]|[=]]. split; [|done]. cbn [objects].
    apply insert_ok; [apply insert_ok|]; eauto.
  - eapply call_ok; [exact Hok| |exact Hrun]. intros b _ Hf _.
    apply push_back_sound. by split.
  - eapply call_ok; [exact Hok| |exact Hrun]. intros b _ Hf _.
    apply push_front_sound. by split.
  - eapply call_ok; [exact Hok| |exact Hrun]. intros b _ Hf Hpre.
    unfold empty, size in Hpre. apply negb_true_iff, bool_decide_eq_false in Hpre.
    eapply ends_conseq; [apply pop_back_sound; [by split|done]|..]; cbn beta;
      [by intros _ s' (? & _)|done].
  - eapply call_ok; [exact Hok| |exact Hrun]. intros b _ Hf Hpre.
    unfold empty, size in Hpre. apply negb_true_iff, bool_decide_eq_false in Hpre.
    eapply ends_conseq; [apply pop_front_sound; [by split|done]|..]; cbn beta;
      [by intros _ s' (? & _)|done].
  - eapply call_ok; [exact Hok| |exact Hrun]. intros b _ Hf Hpre.
    apply bool_decide_eq_true in Hpre. apply reserve_sound; [by split|done].
  - eapply call_ok; [exact Hok| |exact Hrun]. intros b _ Hf Hpre.
    apply bool_decide_eq_true in Hpre.
    exact (insert_sound k v (State b (mworld m)) (conj Hf Hb) Hpre).
  - eapply call_ok; [exact Hok| |exact Hrun]. intros b _ Hf Hpre.
    apply bool_decide_eq_true in Hpre.
    exact (erase_one_sound k (State b (mworld m)) (conj Hf Hb) Hpre).
  - eapply call_ok; [exact Hok| |exact Hrun]. intros b _ Hf Hpre.
    apply bool_decide_eq_true in Hpre. unfold size in Hpre.
    exact (erase_range_sound i j (State b (mworld m)) (conj Hf Hb) Hpre).
  - eapply call_ok; [exact Hok| |exact Hrun]. intros b _ Hf _.
    apply clear_sound. by split.
Qed.

Lemma reachable_any_ok m : reachable_any m → machine_ok m.
Proof.
  induction 1 as [f|o m m' _ IH Hstep|o m m' _ IH Hstep].
  - split; [intros x b; cbn; by rewrite lookup_empty|].
    intros a blk. cbn. by rewrite lookup_empty.
  - eapply step_ok; [exact IH|by left].
  - eapply step_ok; [exact IH|by right].
Qed.

Lemma reachable_reachable_any m : reachable m → reachable_any m.
Proof.
  induction 1 as [f|o m m' _ IH _ Hstep|o m m' _ IH _ Hstep].
  - apply reachable_any_init.
  - by eapply reachable_any_done.
  - by eapply reachable_any_raised.
Qed.
(** ** A reservation that throws, whatever the size asked for *)

Section touches.
Context (a' : nat).




















End touches.





(** ** The specification of the container *)

Lemma deref_handle s l it (k : nat) v :
  Repr (this s) (mem s) l → handle (this s) it (Z.of_nat k) → l !! k = Some v →
  deref it s = Normal v s.
Proof.
  intros HR (Hd & Hs & Hp) Hk. destruct s as [b [h f t]]. cbn [this mem] in *.
  pose proof (Repr_bounds _ _ _ HR) as (Hsz & Hc & Hb & _).
  pose proof (Repr_size _ _ _ HR) as Hlen.
  apply lookup_lt_Some in Hk as Hk'.
  assert (Hc0 : capacity_ b ≠ 0) by lia.
  destruct (Repr_block _ _ _ HR Hc0) as (a & blk & Ha & Hblk & _ & _ & Hall).
  unfold deref, slot_of. rewrite Hs, Hp, Hd, Ha.
  erewrite bind_normal by (apply umod_eq; lia).
  eapply load_eq; [done| |by apply Hall].
  apply Z.mod_pos_bound. lia.
Qed.

Lemma handle_index b it k :
  handle b it k → 0 ≤ k ≤ PTRDIFF_MAX →
  template_iterator.diff it (begin b) = k.
Proof.
  intros Hh Hk. rewrite (handle_diff b (begin b) 0 it k (handle_begin b) Hh); unfold_int; lia.
Qed.

Lemma handle_at b w l (k : nat) :
  Repr b w l → (k ≤ length l)%nat →
  handle b (template_iterator.add (begin b) (Z.of_nat k)) (Z.of_nat k).
Proof.
  intros HR Hk.
  pose proof (Repr_bounds _ _ _ HR) as (Hsz & Hc & Hb & _).
  pose proof (Repr_size _ _ _ HR) as Hlen.
  apply (handle_add b (begin b) 0); [apply handle_begin|unfold_int; lia].
Qed.

(** C1: with spare capacity, [insert(pos, v)] at logical index [k] (when the
    copy of [v] does not throw) yields the sequence with [v] inserted at
    index [k]; it pushes at the front, which shows as the begin offset
    stepping back by one slot (modulo the capacity), exactly when
    [k < size() - k], and otherwise at the back, which leaves the begin
    offset alone; the handle it returns is at logical index [k] and
    designates [v]. *)
Theorem insert_with_spare_capacity (s : state) (l : list T) (k : nat) (v : T) :
  wf (this s) (mem s) = true → to_list (this s) (mem s) = Some l →
  size (this s) < capacity (this s) → (k ≤ length l)%nat →
  ¬ next_fails s →
  ∃ it s',
    insert (template_iterator.add (begin (this s)) (Z.of_nat k)) v s = Normal it s' ∧
    wf (this s') (mem s') = true ∧
    to_list (this s') (mem s') = Some (take k l ++ v :: drop k l) ∧
    size (this s') = size (this s) + 1 ∧
    capacity (this s') = capacity (this s) ∧
    begin_ (this s') =
      (if decide (Z.of_nat k < size (this s) - Z.of_nat k)
       then (begin_ (this s) + capacity (this s) - 1) mod capacity (this s)
       else begin_ (this s)) ∧
    (begin_ (this s') ≠ begin_ (this s) ↔ Z.of_nat k < size (this s) - Z.of_nat k) ∧
    template_iterator.diff it (begin (this s')) = Z.of_nat k ∧
    deref it s' = Normal v s'.
Proof.
  intros Hwf Hl Hspare Hk Hnf. unfold size, capacity in *.
  pose proof (wf_Repr _ _ _ Hwf Hl) as HR.
  pose proof (Repr_bounds _ _ _ HR) as (Hsz & Hc & Hb & Hb').
  pose proof (Repr_size _ _ _ HR) as Hlen.
  pose proof (insert_inplace_spec s l _ k v HR ltac:(lia) (handle_at _ _ _ k HR Hk) Hk)
    as Hspec.
  rewrite decide_False in Hspec by done.
  destruct Hspec as (s' & Hrun & HR' & Hthis & Hin).
  destruct (Repr_wf _ _ _ HR') as (Hwf' & Hl').
  assert (Hlen' : length (take k l ++ v :: drop k l) = S (length l)).
  { rewrite length_app, length_take. cbn [length]. rewrite length_drop. lia. }
  assert (Hit : handle (this s') (template_iterator.add (begin (this s')) (Z.of_nat k))
                  (Z.of_nat k)).
  { eapply handle_at; [done|]. lia. }
  eexists _, s'. split; [exact Hrun|].
  split_and!; try done.
  - rewrite Hthis. done.
  - rewrite Hthis. simpl. by case_decide.
  - rewrite Hthis. simpl. by case_decide.
  - rewrite Hthis. simpl. case_decide as Hside; simpl; [|by split].
    split; [done|]. intros _.
    rewrite mod_wrap by lia. case_decide; lia.
  - apply handle_index; [done|]. unfold_int. lia.
  - eapply deref_handle; [done|done|].
    apply lookup_middle'. rewrite length_take. lia.
Qed.

(** C2: [erase(first, last)] on the valid range of logical indices
    [i, j) removes exactly the elements of that range and keeps the others
    in their order (the sequence becomes [take i l ++ drop j l]), leaves the
    capacity unchanged, and returns the handle at logical index [i], which
    designates the element that followed the range, when there is one. *)
Theorem erase_range_removes (s : state) (l : list T) (i j : nat) :
  wf (this s) (mem s) = true → to_list (this s) (mem s) = Some l →
  (i ≤ j ≤ length l)%nat →
  ∃ it s',
    erase (template_iterator.add (begin (this s)) (Z.of_nat i))
      (template_iterator.add (begin (this s)) (Z.of_nat j)) s = Normal it s' ∧
    wf (this s') (mem s') = true ∧
    to_list (this s') (mem s') = Some (take i l ++ drop j l) ∧
    capacity (this s') = capacity (this s) ∧
    size (this s') = size (this s) - Z.of_nat (j - i) ∧
    template_iterator.diff it (begin (this s')) = Z.of_nat i ∧
    it = template_iterator.add (begin (this s')) (Z.of_nat i) ∧
    (∀ v, l !! j = Some v → deref it s' = Normal v s').
Proof.
  intros Hwf Hl Hij. unfold size, capacity in *.
  pose proof (wf_Repr _ _ _ Hwf Hl) as HR.
  pose proof (Repr_bounds _ _ _ HR) as (Hsz & Hc & Hb & Hb').
  pose proof (Repr_size _ _ _ HR) as Hlen.
  destruct (erase_range_spec s l i j HR Hij) as (s' & evs & Hrun & HR' & Hthis & Hin & Hevs).
  destruct (Repr_wf _ _ _ HR') as (Hwf' & Hl').
  assert (Hlen' : length (take i l ++ drop j l) = (length l - (j - i))%nat).
  { rewrite length_app, length_take, length_drop. lia. }
  assert (Hit : handle (this s') (template_iterator.add (begin (this s')) (Z.of_nat i))
                  (Z.of_nat i)).
  { eapply handle_at; [done|]. lia. }
  eexists _, s'. split; [exact Hrun|].
  split_and!; try done.
  - rewrite Hthis. simpl. by case_decide.
  - rewrite Hthis. done.
  - apply handle_index; [done|]. unfold_int. lia.
  - intros v Hv. eapply deref_handle; [done|done|].
    rewrite lookup_app_r by (rewrite length_take; lia).
    rewrite length_take, lookup_drop. rewrite <- Hv. f_equal. lia.
Qed.

(** C10: [erase(pos, pos)] at a valid position of logical index [k] leaves
    the object as it was (size, capacity, begin offset, block), its logical
    sequence unchanged, destroys nothing, and returns [pos] itself, the
    handle at logical index [k]. *)
Theorem erase_empty_range (s : state) (l : list T) (k : nat) :
  wf (this s) (mem s) = true → to_list (this s) (mem s) = Some l →
  (k ≤ length l)%nat →
  ∃ it s',
    erase (template_iterator.add (begin (this s)) (Z.of_nat k))
      (template_iterator.add (begin (this s)) (Z.of_nat k)) s = Normal it s' ∧
    this s' = this s ∧
    wf (this s') (mem s') = true ∧
    to_list (this s') (mem s') = Some l ∧
    trace (mem s') = trace (mem s) ∧
    it = template_iterator.add (begin (this s)) (Z.of_nat k) ∧
    template_iterator.diff it (begin (this s')) = Z.of_nat k.
Proof.
  intros Hwf Hl Hk.
  pose proof (wf_Repr _ _ _ Hwf Hl) as HR.
  pose proof (Repr_bounds _ _ _ HR) as (Hsz & Hc & Hb & Hb').
  pose proof (Repr_size _ _ _ HR) as Hlen.
  destruct (erase_range_spec s l k k HR ltac:(lia)) as (s' & evs & Hrun & HR' & Hthis & Hin & Hevs).
  rewrite take_drop in HR'.
  destruct (Repr_wf _ _ _ HR') as (Hwf' & Hl').
  assert (Hsame : this s' = this s).
  { rewrite Hthis. destruct (this s) as [d sz c bg]. unfold set_size_, set_begin_.
    simpl in *. rewrite Nat.sub_diag, Z.sub_0_r, Z.add_0_r.
    case_decide; [|done]. f_equal. apply Z.mod_small. lia. }
  rewrite Nat.sub_diag in Hevs. apply nil_length_inv in Hevs as ->.
  destruct Hin as (_ & _ & _ & Ht & _). rewrite app_nil_r in Ht.
  eexists _, s'. split; [exact Hrun|].
  rewrite Hsame in *. split_and!; try done.
  apply handle_index; [|unfold_int; lia].
  by eapply handle_at.
Qed.

(** C9: the assignment [c = c] does nothing: the object (size, capacity,
    begin offset, block), the store of blocks, and the trace of allocations
    and destructions are as they were. *)
Theorem self_assignment_is_noop (m : machine) (x : nat) (b : circular_buffer) :
  objects m !! x = Some b →
  step (Assign x x) m = Done m ∧
  ∀ s, operator_assign (bool_decide (x = x)) b s = Normal tt s.
Proof.
  intros Hx. split.
  - unfold step, call. rewrite Hx. rewrite bool_decide_eq_true_2 by done.
    rewrite operator_assign_self. cbn [this mem].
    rewrite insert_id by done. by destruct m.
  - intros s. rewrite bool_decide_eq_true_2 by done. apply operator_assign_self.
Qed.

(** C8: in every state a client can reach by any sequence of operations,
    under any schedule of failures and with reservations of any size, every
    buffer has [size() <= capacity()], and a buffer of capacity 0 has size 0
    and owns no block.  Where every reservation made on the way [fits], the
    buffer is moreover well formed. *)
Theorem reachable_size_le_capacity (m : machine) (x : nat) (b : circular_buffer) :
  reachable_any m → objects m !! x = Some b →
  0 ≤ size b ≤ capacity b ∧
  (capacity b = 0 → size b = 0 ∧ data_ b = nullptr) ∧
  (reachable m → wf b (mworld m) = true).
Proof.
  intros Hreach Hx.
  destruct (proj1 (reachable_any_ok m Hreach) x b Hx) as (Hs & Hc & Hbg & Hd).
  unfold size, capacity. split_and!; [lia..| |].
  - intros Hc0. split; [lia|by apply Hd].
  - intros Hfit. destruct (proj1 (reachable_inv m Hfit) x b Hx) as (l & HR).
    by destruct (Repr_wf _ _ _ HR).
Qed.




(** C7, as the code has it: the destructor destroys the live elements from
    the back to the front (the element at logical index [size() - 1] first,
    the one at index 0 last) and then releases the block, once, when the
    buffer owns one. *)
Theorem destructor_back_to_front (s : state) (l : list T) :
  wf (this s) (mem s) = true → to_list (this s) (mem s) = Some l →
  ∃ s', destructor s = Normal tt s' ∧
        trace (mem s') =
          trace (mem s) ++ (EvDestroy <$> reverse l) ++
          match data_ (this s) with Some a => [EvDelete a] | None => [] end ∧
        heap (mem s') = release (data_ (this s)) (heap (mem s)).
Proof.
  intros Hwf Hl. pose proof (wf_Repr _ _ _ Hwf Hl) as HR.
  destruct (destructor_spec s l HR) as (s' & Hrun & Hh & _ & Ht).
  exists s'. by split_and!.
Qed.

(** *** Copies are independent *)

Lemma others_kept_refl m ws : others_kept m m ws.
Proof. by intros z c _ Hc. Qed.

Lemma others_kept_trans m1 m2 m3 ws1 ws2 :
  others_kept m1 m2 ws1 → others_kept m2 m3 ws2 → others_kept m1 m3 (ws1 ++ ws2).
Proof.
  intros H12 H23 z c Hz Hc. rewrite elem_of_app in Hz.
  destruct (H12 z c ltac:(tauto) Hc) as (Hc2 & Hl2).
  destruct (H23 z c ltac:(tauto) Hc2) as (Hc3 & Hl3).
  split; [done|]. intros l Hl. by apply Hl3, Hl2.
Qed.

Lemma steps_sound os m m' :
  machine_inv m → steps os m m' →
  machine_inv m' ∧ others_kept m m' (os ≫= writes).
Proof.
  intros Hinv Hsteps.
  induction Hsteps as [m|o os m m1 m2 Hfits Hstep _ IH|o os m m1 m2 Hfits Hstep _ IH].
  - split; [done|]. apply others_kept_refl.
  - destruct (step_sound o m m1 Hinv Hfits (or_introl Hstep)) as (Hinv1 & Hkept1).
    destruct (IH Hinv1) as (Hinv2 & Hkept2). split; [done|].
    by eapply others_kept_trans.
  - destruct (step_sound o m m1 Hinv Hfits (or_intror Hstep)) as (Hinv1 & Hkept1).
    destruct (IH Hinv1) as (Hinv2 & Hkept2). split; [done|].
    by eapply others_kept_trans.
Qed.

Lemma steps_keep os m m' z c l :
  machine_inv m → steps os m m' → (∀ o, o ∈ os → z ∉ writes o) →
  objects m !! z = Some c → Repr c (mworld m) l →
  objects m' !! z = Some c ∧ to_list c (mworld m') = Some l.
Proof.
  intros Hinv Hsteps Hz Hc HR.
  destruct (steps_sound os m m' Hinv Hsteps) as (_ & Hkept).
  destruct (Hkept z c) as (Hc' & Hl'); [|done|].
  - rewrite list_elem_of_bind. intros (o & Ho & Hin). by eapply Hz.
  - split; [done|]. by apply Repr_wf, Hl'.
Qed.

(** C6: copy construction [circular_buffer x(y)] has defined behaviour.  When
    it returns, [x] has the capacity, the begin offset, the size and the
    logical sequence of [y], in a block of its own; [y] is as it was; and
    the copy is deep: whatever a client does afterwards to objects other
    than [x] leaves [x] and its sequence as they are, and whatever it does
    to objects other than [y] leaves [y] and its sequence as they are.  When
    it throws, no object has changed.  It returns when no failure is
    scheduled. *)
Theorem copy_is_deep (m : machine) (x y : nat) (other : circular_buffer) (l : list T) :
  reachable m → objects m !! x = None → objects m !! y = Some other →
  to_list other (mworld m) = Some l →
  match step (Copy x y) m with
  | Done m' =>
      ∃ c, objects m' !! x = Some c ∧ objects m' !! y = Some other ∧
           capacity c = capacity other ∧ begin_ c = begin_ other ∧
           size c = size other ∧
           to_list c (mworld m') = Some l ∧ to_list other (mworld m') = Some l ∧
           (∀ a, data_ c = Some a → data_ other ≠ Some a) ∧
           ∀ os m'', steps os m' m'' →
             ((∀ o, o ∈ os → x ∉ writes o) →
              objects m'' !! x = Some c ∧ to_list c (mworld m'') = Some l) ∧
             ((∀ o, o ∈ os → y ∉ writes o) →
              objects m'' !! y = Some other ∧ to_list other (mworld m'') = Some l)
  | Raised m' =>
      objects m' = objects m ∧ to_list other (mworld m') = Some l ∧
      faults (mworld m) ≠ []
  | UB => False
  end.
Proof.
  intros Hreach Hx Hy Hl.
  pose proof (reachable_inv m Hreach) as Hinv.
  destruct (proj1 Hinv y other Hy) as (lo & HR).
  assert (lo = l) as ->.
  { destruct (Repr_wf _ _ _ HR) as (_ & Hlo). congruence. }
  assert (Hxy : x ≠ y) by congruence.
  pose proof (step_sound (Copy x y) m) as Hsound.
  cbn [step] in *. rewrite Hx, Hy in *.
  pose proof (copy_constructor_run other (mworld m) l HR) as Hspec.
  pose proof (fresh_heap (heap (mworld m))) as Hfresh.
  destruct (copy_constructor other (State default_members (mworld m))) as [[] s'|s'|];
    [| |done].
  - destruct Hspec as (Hthis & Hh & _).
    destruct (copy_Repr other l (mworld m) (mem s') _ HR Hfresh Hh) as (HRc & HRo).
    destruct (Hsound _ Hinv eq_refl (or_introl eq_refl)) as (Hinv' & _).
    rewrite <- Hthis in HRc.
    exists (this s'). cbn [objects mworld].
    assert (Hcx : <[x:=this s']> (objects m) !! x = Some (this s'))
      by apply lookup_insert_eq.
    assert (Hcy : <[x:=this s']> (objects m) !! y = Some other)
      by (by rewrite lookup_insert_ne).
    split_and!; try done; try (by rewrite Hthis).
    + by apply Repr_wf.
    + by apply Repr_wf.
    + intros a Ha Hoa. rewrite Hthis in Ha. unfold copy_of in Ha. simpl in Ha.
      case_decide; [done|]. injection Ha as <-.
      destruct (Repr_in_heap _ _ _ _ HR Hoa) as [? ?]. congruence.
    + intros os m'' Hsteps. split; intros Hw.
      * by eapply (steps_keep os _ m'' x).
      * by eapply (steps_keep os _ m'' y).
  - destruct Hspec as (Hh & _ & Hf). cbn [objects mworld]. split_and!; try done.
    apply Repr_wf. eapply Repr_frame; [done|]. intros. by rewrite Hh.
Qed.

(** *** Growth *)

Lemma grown_capacity_max c : 0 ≤ c → grown_capacity c = Z.max 1 (2 * c).
Proof. intros. unfold grown_capacity. case_decide; lia. Qed.

Lemma insert_with_copy_block s l pos (k : nat) v it s' :
  Repr (this s) (mem s) l → size_ (this s) = capacity_ (this s) →
  handle (this s) pos (Z.of_nat k) → (k ≤ length l)%nat →
  insert_with_copy pos v s = Normal it s' →
  capacity_ (this s') = Z.max 1 (2 * capacity_ (this s)) ∧
  ∃ a blk, data_ (this s') = Some a ∧ heap (mem s) !! a = None ∧
           heap (mem s') !! a = Some blk ∧
           length blk = Z.to_nat (Z.max 1 (2 * capacity_ (this s))).
Proof.
  intros HR Hfull Hpos Hk Hrun.
  pose proof (insert_with_copy_spec s l pos k v HR Hfull Hpos Hk) as Hspec.
  cbv zeta in Hspec. rewrite Hrun in Hspec.
  destruct Hspec as (Hthis & Hh & _).
  pose proof (Repr_bounds _ _ _ HR) as (Hsz & _).
  rewrite <- grown_capacity_max by lia.
  rewrite Hthis. cbn [capacity_ data_]. split; [done|].
  eexists _, _. split; [done|]. split; [apply fresh_heap|]. split.
  - rewrite Hh, release_lookup by (by eapply Repr_fresh). apply lookup_insert_eq.
  - apply run_block_length.
Qed.

Lemma doubling_succ n :
  doubling (S n) =
  if decide (Z.of_nat n = doubling n) then grown_capacity (doubling n) else doubling n.
Proof.
  unfold doubling. rewrite (decide_False (P := S n = O)) by done.
  destruct (decide (n = O)) as [->|Hn].
  - rewrite decide_True by done. done.
  - pose proof (Z.log2_up_nonneg (Z.of_nat n)) as He.
    assert (Hpos : 0 < 2 ^ Z.log2_up (Z.of_nat n)) by (apply Z.pow_pos_nonneg; lia).
    assert (Hspec : 2 ^ Z.pred (Z.log2_up (Z.of_nat n)) < Z.of_nat n ∨ n = 1%nat).
    { destruct (decide (n = 1%nat)) as [->|]; [by right|left].
      apply Z.log2_up_spec. lia. }
    assert (Hle : Z.of_nat n ≤ 2 ^ Z.log2_up (Z.of_nat n)).
    { destruct (decide (n = 1%nat)) as [->|]; [done|].
      apply Z.log2_up_spec. lia. }
    case_decide as Hfull.
    + unfold grown_capacity. rewrite decide_False by lia.
      rewrite (Z.log2_up_unique (Z.of_nat (S n)) (Z.succ (Z.log2_up (Z.of_nat n)))).
      * rewrite Z.pow_succ_r by done. lia.
      * lia.
      * rewrite Z.pred_succ, Z.pow_succ_r by done. lia.
    + rewrite (Z.log2_up_unique (Z.of_nat (S n)) (Z.log2_up (Z.of_nat n))); [done| |].
      * destruct Hspec as [Hspec| ->]; [|done].
        destruct (decide (Z.log2_up (Z.of_nat n) = 0)) as [H0|]; [|lia].
        rewrite H0 in *. simpl in *. lia.
      * destruct Hspec as [Hspec| ->]; [lia|done].
Qed.

Lemma doubling_nonneg n : 0 ≤ doubling n.
Proof.
  unfold doubling. case_decide; [done|]. apply Z.pow_nonneg. lia.
Qed.

Lemma doubling_mono n : doubling n ≤ doubling (S n).
Proof.
  rewrite doubling_succ. pose proof (doubling_nonneg n).
  unfold grown_capacity. repeat case_decide; lia.
Qed.

Lemma push_back_all_snoc vs v s :
  push_back_all (vs ++ [v]) s = (push_back_all vs;; push_back v) s.
Proof.
  revert s. induction vs as [|a vs IH]; intros s; simpl.
  - rewrite bind_ret, bind_unfold. by destruct (push_back v s) as [[] ?|?|].
  - rewrite !bind_unfold. destruct (push_back a s) as [[] s1|s1|]; [|done..].
    rewrite IH. by rewrite bind_unfold.
Qed.

Lemma push_back_all_spec vs s :
  this s = default_members → faults (mem s) = [] →
  doubling (length vs) ≤ max_slots →
  ∃ s', push_back_all vs s = Normal tt s' ∧
        Repr (this s') (mem s') vs ∧ faults (mem s') = [] ∧
        capacity_ (this s') = doubling (length vs).
Proof.
  intros Hthis Hf. induction vs as [|v vs IH] using rev_ind; intros Hlen.
  - exists s. pose proof max_slots_range.
    split_and!; try done; rewrite Hthis; done.
  - rewrite length_app, Nat.add_1_r in Hlen.
    pose proof (doubling_mono (length vs)) as Hmono.
    destruct IH as (s1 & Hrun & HR & Hf1 & Hcap); [lia|].
    rewrite push_back_all_snoc. erewrite bind_normal by exact Hrun.
    pose proof (push_back_spec s1 vs v HR) as Hspec.
    pose proof (Repr_size _ _ _ HR) as Hsz.
    destruct (push_back v s1) as [[] s2|s2|]; [| |done].
    + destruct Hspec as (HR2 & (_ & _ & Hsuf) & Hcap2 & _).
      exists s2. split_and!; try done.
      * rewrite Hf1 in Hsuf. by apply suffix_nil_inv in Hsuf.
      * rewrite Hcap2, length_app, Nat.add_1_r, doubling_succ, <- Hcap, <- Hsz.
        done.
    + destruct Hspec as (_ & _ & _ & [?|[Hfull Hmax]]); [done|].
      exfalso. rewrite doubling_succ, <- Hcap, <- Hsz, decide_True in Hlen by done.
      lia.
Qed.

(** C3: when [push_back], [push_front] or [insert] finds the buffer full
    ([size() == capacity()]) and returns, the buffer owns a block that was
    not in the store before, of exactly [max(1, 2 * capacity())] slots, and
    that is its new capacity; and each of the three does return when no
    failure is scheduled and the allocator can serve that many slots.
    [push_back] changes the capacity exactly when the buffer is full.  So
    [n] pushes onto a default-constructed buffer, with no failure scheduled
    and the last capacity within what the allocator serves, return and leave
    the capacity at [doubling n]: 0 before the first push, then 1, 2, 4, 4,
    8, 8, 8, 8, 16, ... *)
Theorem growth_doubles_capacity (s : state) (l : list T) (v : T) (k : nat) :
  wf (this s) (mem s) = true → to_list (this s) (mem s) = Some l →
  (k ≤ length l)%nat →
  (size (this s) = capacity (this s) →
   (∀ it s',
      push_back v s = Normal tt s' ∨ push_front v s = Normal tt s' ∨
      insert (template_iterator.add (begin (this s)) (Z.of_nat k)) v s = Normal it s' →
      capacity (this s') = Z.max 1 (2 * capacity (this s)) ∧
      ∃ a blk, data_ (this s') = Some a ∧ heap (mem s) !! a = None ∧
               heap (mem s') !! a = Some blk ∧
               length blk = Z.to_nat (Z.max 1 (2 * capacity (this s)))) ∧
   (faults (mem s) = [] → Z.max 1 (2 * capacity (this s)) ≤ max_slots →
    (∃ s', push_back v s = Normal tt s') ∧
    (∃ s', push_front v s = Normal tt s') ∧
    (∃ it s',
       insert (template_iterator.add (begin (this s)) (Z.of_nat k)) v s = Normal it s'))) ∧
  (∀ s', push_back v s = Normal tt s' →
     (capacity (this s') ≠ capacity (this s) ↔ size (this s) = capacity (this s))) ∧
  (this s = default_members → faults (mem s) = [] →
   ∀ vs, doubling (length vs) ≤ max_slots →
     ∃ s', push_back_all vs s = Normal tt s' ∧
           to_list (this s') (mem s') = Some vs ∧
           capacity (this s') = doubling (length vs)) ∧
  doubling <$> seq 0 10 = [0; 1; 2; 4; 4; 8; 8; 8; 8; 16].
Proof.
  intros Hwf Hl Hk. unfold size, capacity.
  pose proof (wf_Repr _ _ _ Hwf Hl) as HR.
  pose proof (Repr_bounds _ _ _ HR) as (Hsz & Hc & Hb & Hb').
  pose proof (Repr_size _ _ _ HR) as Hlen.
  pose proof (push_back_spec s l v HR) as Hback.
  split_and!.
  - intros Hfull. split.
    + intros it s' [Hrun|[Hrun|Hrun]].
      * unfold push_back in Hrun. rewrite bind_get_this in Hrun.
        unfold size, capacity in Hrun. rewrite decide_True in Hrun by done.
        rewrite bind_unfold in Hrun.
        destruct (insert_with_copy (end_ (this s)) v s) as [it' s1|s1|] eqn:Hgrow;
          [|done..].
        injection Hrun as <-.
        eapply (insert_with_copy_block s l _ (length l)); try done.
        rewrite <- Hlen. by eapply handle_end.
      * unfold push_front in Hrun. rewrite bind_get_this in Hrun.
        unfold size, capacity in Hrun. rewrite decide_True in Hrun by done.
        rewrite bind_unfold in Hrun.
        destruct (insert_with_copy (begin (this s)) v s) as [it' s1|s1|] eqn:Hgrow;
          [|done..].
        injection Hrun as <-.
        eapply (insert_with_copy_block s l _ 0); try done; [|lia].
        apply handle_begin.
      * unfold insert in Hrun. rewrite bind_get_this in Hrun.
        unfold size, capacity in Hrun. rewrite decide_True in Hrun by done.
        eapply (insert_with_copy_block s l _ k); try done.
        by eapply handle_at.
    + intros Hf Hmax. rewrite <- grown_capacity_max in Hmax by lia.
      assert (Hgrow : ∀ pos (j : nat), handle (this s) pos (Z.of_nat j) →
                (j ≤ length l)%nat → ∃ it s', insert_with_copy pos v s = Normal it s').
      { intros pos j Hpos Hj.
        pose proof (insert_with_copy_spec s l pos j v HR Hfull Hpos Hj) as Hspec.
        cbv zeta in Hspec.
        destruct (insert_with_copy pos v s) as [it s'|s'|]; [by eexists _, _| |done].
        destruct Hspec as (_ & _ & _ & [?|?]); [lia|done]. }
      split_and!.
      * destruct (Hgrow (end_ (this s)) (length l)) as (it & s' & Hrun); [|lia|].
        { rewrite <- Hlen. by eapply handle_end. }
        exists s'. unfold push_back. rewrite bind_get_this.
        unfold size, capacity. rewrite decide_True by done.
        by rewrite bind_unfold, Hrun.
      * destruct (Hgrow (begin (this s)) 0%nat) as (it & s' & Hrun); [|lia|].
        { apply handle_begin. }
        exists s'. unfold push_front. rewrite bind_get_this.
        unfold size, capacity. rewrite decide_True by done.
        by rewrite bind_unfold, Hrun.
      * destruct (Hgrow (template_iterator.add (begin (this s)) (Z.of_nat k)) k)
          as (it & s' & Hrun); [|done|].
        { by eapply handle_at. }
        exists it, s'. unfold insert. rewrite bind_get_this.
        unfold size, capacity. by rewrite decide_True by done.
  - intros s' Hrun. rewrite Hrun in Hback. destruct Hback as (_ & _ & -> & _).
    unfold grown_capacity. repeat case_decide; split; intros; try done; lia.
  - intros Hthis Hf vs Hvs.
    destruct (push_back_all_spec vs s Hthis Hf Hvs) as (s' & Hrun & HR' & _ & Hcap).
    exists s'. split_and!; try done. by apply Repr_wf.
  - by vm_compute.
Qed.

(** ** The ends of the buffer *)

(** [push_back(v)], when it returns, has appended [v]: the sequence is
    [l ++ [v]] and the size is one more.  With spare capacity it touches
    nothing but the size (block, capacity and begin offset stay), and it
    returns unless the copy of [v] throws. *)
Theorem push_back_appends (s : state) (l : list T) (v : T) :
  wf (this s) (mem s) = true → to_list (this s) (mem s) = Some l →
  (∀ s', push_back v s = Normal tt s' →
     wf (this s') (mem s') = true ∧
     to_list (this s') (mem s') = Some (l ++ [v]) ∧
     size (this s') = size (this s) + 1 ∧
     (size (this s) < capacity (this s) →
      this s' = set_size_ (size (this s) + 1) (this s))) ∧
  (size (this s) < capacity (this s) → ¬ next_fails s →
   ∃ s', push_back v s = Normal tt s').
Proof.
  intros Hwf Hl. unfold size, capacity.
  pose proof (wf_Repr _ _ _ Hwf Hl) as HR.
  pose proof (Repr_size _ _ _ HR) as Hlen.
  split.
  - intros s' Hrun.
    pose proof (push_back_spec s l v HR) as Hspec. rewrite Hrun in Hspec.
    destruct Hspec as (HR' & _). destruct (Repr_wf _ _ _ HR') as (Hwf' & Hl').
    split_and!; try done.
    + rewrite (Repr_size _ _ _ HR'), Hlen, length_app. simpl. lia.
    + intros Hspare.
      pose proof (push_back_inplace_spec s l v HR ltac:(lia)) as Hin.
      case_decide; [congruence|].
      destruct Hin as (s1 & Hrun1 & Hthis & _). congruence.
  - intros Hspare Hnf.
    pose proof (push_back_inplace_spec s l v HR ltac:(lia)) as Hin.
    rewrite decide_False in Hin by done.
    destruct Hin as (s1 & Hrun1 & _). by exists s1.
Qed.

(** [push_front(v)], when it returns, has prepended [v]: the sequence is
    [v :: l] and the size is one more.  With spare capacity the begin offset
    steps back by one slot, wrapping from slot 0 to the last slot; block and
    capacity stay; and it returns unless the copy of [v] throws. *)
Theorem push_front_prepends (s : state) (l : list T) (v : T) :
  wf (this s) (mem s) = true → to_list (this s) (mem s) = Some l →
  (∀ s', push_front v s = Normal tt s' →
     wf (this s') (mem s') = true ∧
     to_list (this s') (mem s') = Some (v :: l) ∧
     size (this s') = size (this s) + 1 ∧
     (size (this s) < capacity (this s) →
      this s' =
        set_size_ (size (this s) + 1)
          (set_begin_ (if decide (begin_ (this s) = 0) then capacity (this s) - 1
                       else begin_ (this s) - 1) (this s)))) ∧
  (size (this s) < capacity (this s) → ¬ next_fails s →
   ∃ s', push_front v s = Normal tt s').
Proof.
  intros Hwf Hl. unfold size, capacity.
  pose proof (wf_Repr _ _ _ Hwf Hl) as HR.
  pose proof (Repr_size _ _ _ HR) as Hlen.
  pose proof (Repr_bounds _ _ _ HR) as (Hsz & Hc & Hb & Hb').
  split.
  - intros s' Hrun.
    pose proof (push_front_spec s l v HR) as Hspec. rewrite Hrun in Hspec.
    destruct Hspec as (HR' & _). destruct (Repr_wf _ _ _ HR') as (Hwf' & Hl').
    split_and!; try done.
    + rewrite (Repr_size _ _ _ HR'), Hlen. simpl. lia.
    + intros Hspare.
      pose proof (push_front_inplace_spec s l v HR ltac:(lia)) as Hin.
      case_decide; [congruence|].
      destruct Hin as (s1 & Hrun1 & Hthis & _).
      replace s' with s1 by congruence. rewrite Hthis. do 2 f_equal.
      rewrite mod_wrap by lia. repeat case_decide; lia.
  - intros Hspare Hnf.
    pose proof (push_front_inplace_spec s l v HR ltac:(lia)) as Hin.
    rewrite decide_False in Hin by done.
    destruct Hin as (s1 & Hrun1 & _). by exists s1.
Qed.

(** [pop_back()] on a buffer whose sequence ends with [x] returns, never
    throws, destroys exactly [x], and leaves the sequence without its last
    element; block, capacity and begin offset stay. *)
Theorem pop_back_removes_last (s : state) (l : list T) (x : T) :
  wf (this s) (mem s) = true → to_list (this s) (mem s) = Some (l ++ [x]) →
  ∃ s', pop_back s = Normal tt s' ∧
        wf (this s') (mem s') = true ∧
        to_list (this s') (mem s') = Some l ∧
        this s' = set_size_ (size (this s) - 1) (this s) ∧
        trace (mem s') = trace (mem s) ++ [EvDestroy x] ∧
        faults (mem s') = faults (mem s).
Proof.
  intros Hwf Hl. pose proof (wf_Repr _ _ _ Hwf Hl) as HR.
  destruct (pop_back_spec s l x HR) as (s' & Hrun & Hthis & HR' & Hin).
  destruct (Repr_wf _ _ _ HR') as (Hwf' & Hl').
  destruct Hin as (_ & _ & Hf & Ht & _).
  exists s'. by split_and!.
Qed.

(** [pop_front()] on a buffer whose sequence starts with [x] returns, never
    throws, destroys exactly [x], and leaves the rest of the sequence; the
    begin offset moves forward by one slot, wrapping from the last slot to
    slot 0; block and capacity stay. *)
Theorem pop_front_removes_first (s : state) (l : list T) (x : T) :
  wf (this s) (mem s) = true → to_list (this s) (mem s) = Some (x :: l) →
  ∃ s', pop_front s = Normal tt s' ∧
        wf (this s') (mem s') = true ∧
        to_list (this s') (mem s') = Some l ∧
        this s' =
          set_size_ (size (this s) - 1)
            (set_begin_ (if decide (begin_ (this s) = capacity (this s) - 1) then 0
                         else begin_ (this s) + 1) (this s)) ∧
        trace (mem s') = trace (mem s) ++ [EvDestroy x] ∧
        faults (mem s') = faults (mem s).
Proof.
  intros Hwf Hl. pose proof (wf_Repr _ _ _ Hwf Hl) as HR.
  pose proof (Repr_size _ _ _ HR) as Hlen. simpl in Hlen.
  pose proof (Repr_bounds _ _ _ HR) as (Hsz & Hc & Hb & Hb').
  destruct (pop_front_spec s l x HR) as (s' & Hrun & Hthis & HR' & Hin).
  destruct (Repr_wf _ _ _ HR') as (Hwf' & Hl').
  destruct Hin as (_ & _ & Hf & Ht & _).
  exists s'. split_and!; try done.
  rewrite Hthis. unfold size, capacity. do 2 f_equal.
  case_decide as Hlast.
  - rewrite Hlast. replace (capacity_ (this s) - 1 + 1) with (capacity_ (this s)) by lia.
    apply Z.mod_same. lia.
  - apply Z.mod_small. lia.
Qed.

(** ** Element access *)

Lemma subscript_eq s l (i : nat) v :
  Repr (this s) (mem s) l → l !! i = Some v →
  subscript (Z.of_nat i) s = Normal v s.
Proof.
  intros HR Hi. destruct s as [b [h f t]]. cbn [this mem] in *.
  pose proof (Repr_bounds _ _ _ HR) as (Hsz & Hc & Hb & _).
  pose proof (Repr_size _ _ _ HR) as Hlen.
  apply lookup_lt_Some in Hi as Hi'.
  assert (Hc0 : capacity_ b ≠ 0) by lia.
  destruct (Repr_block _ _ _ HR Hc0) as (a & blk & Ha & Hblk & _ & _ & Hall).
  unfold subscript. mstep. unfold capacity.
  rewrite to_size_t_small by (unfold_int; lia).
  erewrite bind_normal by (apply umod_eq; lia).
  rewrite Ha. eapply load_eq; [done| |by apply Hall].
  apply Z.mod_pos_bound. lia.
Qed.

(** On a well-formed buffer with sequence [l], [operator[](i)] with
    [i < size()] reads [l !! i], and so does [*(begin() + i)]; [front()]
    reads the first element and [back()] the last.  None of them changes
    anything. *)
Theorem element_access (s : state) (l : list T) :
  wf (this s) (mem s) = true → to_list (this s) (mem s) = Some l →
  (∀ (i : nat) v, l !! i = Some v →
     subscript (Z.of_nat i) s = Normal v s ∧
     deref (template_iterator.add (begin (this s)) (Z.of_nat i)) s = Normal v s) ∧
  (∀ x, head l = Some x → front s = Normal x s) ∧
  (∀ x, last l = Some x → back s = Normal x s).
Proof.
  intros Hwf Hl. pose proof (wf_Repr _ _ _ Hwf Hl) as HR.
  pose proof (Repr_bounds _ _ _ HR) as (Hsz & Hc & Hb & Hb').
  pose proof (Repr_size _ _ _ HR) as Hlen.
  split_and!.
  - intros i v Hi. split; [by eapply subscript_eq|].
    apply lookup_lt_Some in Hi as Hi'.
    eapply deref_handle; [done| |done]. eapply handle_at; [done|lia].
  - intros x Hx. destruct l as [|x' l']; [done|]. injection Hx as ->.
    pose proof (subscript_eq s (x :: l') 0 x HR eq_refl) as Hsub.
    simpl in Hlen.
    unfold subscript in Hsub. rewrite bind_get_this in Hsub.
    rewrite Z.add_0_r, to_size_t_small in Hsub by (unfold_int; lia).
    unfold capacity in Hsub.
    erewrite bind_normal in Hsub by (apply umod_eq; lia).
    rewrite Z.mod_small in Hsub by lia.
    unfold front. by rewrite bind_get_this.
  - intros x Hx. apply last_Some in Hx as (l' & ->).
    rewrite length_app in Hlen. simpl in Hlen.
    pose proof (subscript_eq s (l' ++ [x]) (length l') x HR) as Hsub.
    rewrite lookup_app_r, Nat.sub_diag in Hsub by lia.
    specialize (Hsub eq_refl).
    unfold subscript in Hsub. rewrite bind_get_this in Hsub.
    unfold back. rewrite bind_get_this. unfold size.
    replace (begin_ (this s) + size_ (this s) - 1)
      with (begin_ (this s) + Z.of_nat (length l')) by lia.
    done.
Qed.

(** [clear()] returns and never throws; it destroys the elements from the
    back to the front and leaves the buffer empty, with the block, the
    capacity and the begin offset it had: nothing is released. *)
Theorem clear_keeps_block (s : state) (l : list T) :
  wf (this s) (mem s) = true → to_list (this s) (mem s) = Some l →
  ∃ s', clear s = Normal tt s' ∧
        this s' = set_size_ 0 (this s) ∧
        wf (this s') (mem s') = true ∧
        to_list (this s') (mem s') = Some [] ∧
        trace (mem s') = trace (mem s) ++ (EvDestroy <$> reverse l) ∧
        faults (mem s') = faults (mem s) ∧
        dom (heap (mem s')) = dom (heap (mem s)).
Proof.
  intros Hwf Hl. pose proof (wf_Repr _ _ _ Hwf Hl) as HR.
  destruct (clear_spec s l HR) as (s' & Hrun & Hthis & HR' & Hin).
  destruct (Repr_wf _ _ _ HR') as (Hwf' & Hl').
  destruct Hin as (_ & _ & Hf & Ht & Hh).
  exists s'. split_and!; try done.
  destruct (data_ (this s)) as [a|]; [|by rewrite Hh].
  destruct Hh as (blk & blk' & Hblk & _ & ->).
  rewrite dom_insert_L. apply elem_of_dom_2 in Hblk.
  by apply subseteq_union_1_L, singleton_subseteq_l.
Qed.

(** ** Insertion into a full buffer, removal of one element *)

(** [insert(pos, v)] at logical index [k] of a full buffer, when it
    returns, has moved the elements into a fresh block with [v] at index
    [k]: the sequence is [take k l ++ v :: drop k l], the run starts at slot
    0, the returned handle is at index [k] and designates [v]; the old
    elements were destroyed and the old block released.  It returns when no
    failure is scheduled and the allocator can serve the grown block. *)
Theorem insert_when_full (s : state) (l : list T) (k : nat) (v : T) :
  wf (this s) (mem s) = true → to_list (this s) (mem s) = Some l →
  size (this s) = capacity (this s) → (k ≤ length l)%nat →
  (∀ it s',
     insert (template_iterator.add (begin (this s)) (Z.of_nat k)) v s = Normal it s' →
     wf (this s') (mem s') = true ∧
     to_list (this s') (mem s') = Some (take k l ++ v :: drop k l) ∧
     begin_ (this s') = 0 ∧
     size (this s') = size (this s) + 1 ∧
     template_iterator.diff it (begin (this s')) = Z.of_nat k ∧
     deref it s' = Normal v s' ∧
     (∀ a, data_ (this s) = Some a → heap (mem s') !! a = None) ∧
     ∃ a', data_ (this s') = Some a' ∧
           trace (mem s') =
             trace (mem s) ++ [EvNew a' (capacity (this s'))] ++
             (EvDestroy <$> reverse l) ++
             match data_ (this s) with Some a => [EvDelete a] | None => [] end) ∧
  (faults (mem s) = [] → Z.max 1 (2 * capacity (this s)) ≤ max_slots →
   ∃ it s',
     insert (template_iterator.add (begin (this s)) (Z.of_nat k)) v s = Normal it s').
Proof.
  intros Hwf Hl Hfull Hk. unfold size, capacity in *.
  pose proof (wf_Repr _ _ _ Hwf Hl) as HR.
  pose proof (Repr_bounds _ _ _ HR) as (Hsz & Hc & Hb & Hb').
  pose proof (Repr_size _ _ _ HR) as Hlen.
  pose proof (handle_at _ _ _ k HR Hk) as Hpos.
  assert (Hins : insert (template_iterator.add (begin (this s)) (Z.of_nat k)) v s =
                 insert_with_copy (template_iterator.add (begin (this s)) (Z.of_nat k)) v s).
  { unfold insert. rewrite bind_get_this. unfold size, capacity.
    by rewrite decide_True. }
  rewrite Hins.
  pose proof (insert_with_copy_spec s l _ k v HR Hfull Hpos Hk) as Hspec.
  pose proof (insert_with_copy_Repr s l _ k v HR Hfull Hpos Hk) as Hrepr.
  cbv zeta in Hspec.
  assert (Hlen' : length (take k l ++ v :: drop k l) = S (length l)).
  { rewrite length_app, length_take. cbn [length]. rewrite length_drop. lia. }
  split.
  - intros it s' Hrun. rewrite Hrun in Hspec, Hrepr.
    destruct Hspec as (Hthis & Hh & _ & Ht & _).
    destruct Hrepr as (HR' & _ & _ & Hbg & Hit & _).
    destruct (Repr_wf _ _ _ HR') as (Hwf' & Hl').
    assert (Hit' : handle (this s') it (Z.of_nat k)).
    { rewrite Hit. eapply handle_at; [done|lia]. }
    split_and!; try done.
    + by rewrite Hthis.
    + apply handle_index; [done|unfold_int; lia].
    + eapply deref_handle; [done|done|].
      apply lookup_middle'. rewrite length_take. lia.
    + intros a Ha. rewrite Hh, Ha. simpl. apply lookup_delete_eq.
    + eexists. split; [by rewrite Hthis|]. rewrite Ht, Hthis. done.
  - intros Hf Hmax.
    destruct (insert_with_copy _ v s) as [it s'|s'|]; [by eexists _, _| |done].
    destruct Hspec as (_ & _ & _ & [Hbig|?]); [|done].
    rewrite grown_capacity_max in Hbig by lia. lia.
Qed.

(** [erase(pos)] at logical index [k < size()] returns (exchanging two
    elements is taken not to throw, and nothing else in it can); it removes
    exactly the element at index [k], keeps the others in order,
    leaves the capacity alone, and returns the handle at index [k]: the
    element that followed the erased one or, when the last element was
    erased, [end()]. *)
Theorem erase_one_removes (s : state) (l : list T) (k : nat) (x : T) :
  wf (this s) (mem s) = true → to_list (this s) (mem s) = Some l →
  l !! k = Some x →
  ∃ it s',
    erase_one (template_iterator.add (begin (this s)) (Z.of_nat k)) s = Normal it s' ∧
    wf (this s') (mem s') = true ∧
    to_list (this s') (mem s') = Some (delete k l) ∧
    size (this s') = size (this s) - 1 ∧
    capacity (this s') = capacity (this s) ∧
    faults (mem s') = faults (mem s) ∧
    it = template_iterator.add (begin (this s')) (Z.of_nat k) ∧
    (∀ v, l !! S k = Some v → deref it s' = Normal v s') ∧
    (S k = length l → template_iterator.eqb it (end_ (this s')) = true).
Proof.
  intros Hwf Hl Hx. unfold size, capacity.
  pose proof (wf_Repr _ _ _ Hwf Hl) as HR.
  pose proof (Repr_bounds _ _ _ HR) as (Hsz & Hc & Hb & Hb').
  pose proof (Repr_size _ _ _ HR) as Hlen.
  apply lookup_lt_Some in Hx as Hk.
  destruct (erase_range_spec s l k (S k) HR ltac:(lia))
    as (s' & evs & Hrun & HR' & Hthis & Hin & Hevs).
  unfold erase_one. rewrite iterator_add_add.
  replace (Z.of_nat k + 1) with (Z.of_nat (S k)) by lia. rewrite Hrun.
  rewrite <- delete_take_drop in HR'.
  destruct (Repr_wf _ _ _ HR') as (Hwf' & Hl').
  pose proof (Repr_size _ _ _ HR') as Hlen'.
  rewrite length_delete in Hlen' by eauto.
  pose proof (Repr_bounds _ _ _ HR') as (Hsz' & Hc' & Hbd' & _).
  assert (Hit : handle (this s') (template_iterator.add (begin (this s')) (Z.of_nat k))
                  (Z.of_nat k)).
  { apply (handle_add _ (begin (this s')) 0); [apply handle_begin|unfold_int; lia]. }
  eexists _, s'. split; [done|].
  destruct Hin as (_ & Hcap & Hf & _).
  split_and!; try done.
  - rewrite Hthis. simpl. lia.
  - intros v Hv. eapply deref_handle; [done|done|].
    rewrite list_lookup_delete_ge by lia. done.
  - intros Hlast. unfold end_, size. rewrite Hlen'.
    replace (Z.of_nat (length l - 1)) with (Z.of_nat k) by lia.
    rewrite to_ptrdiff_t_small by (unfold_int; lia).
    unfold template_iterator.eqb. by rewrite !bool_decide_eq_true_2.
Qed.

(** ** Operations composed *)

(** A push undone by the pop at the same end gives the sequence back; when
    the push had spare capacity, the object is exactly as before (size,
    capacity, begin offset and block). *)
Theorem push_pop_round_trip (s : state) (l : list T) (v : T) :
  wf (this s) (mem s) = true → to_list (this s) (mem s) = Some l →
  (∀ s1, push_back v s = Normal tt s1 →
     ∃ s2, pop_back s1 = Normal tt s2 ∧
           wf (this s2) (mem s2) = true ∧
           to_list (this s2) (mem s2) = Some l ∧
           (size (this s) < capacity (this s) → this s2 = this s)) ∧
  (∀ s1, push_front v s = Normal tt s1 →
     ∃ s2, pop_front s1 = Normal tt s2 ∧
           wf (this s2) (mem s2) = true ∧
           to_list (this s2) (mem s2) = Some l ∧
           (size (this s) < capacity (this s) → this s2 = this s)).
Proof.
  intros Hwf Hl. unfold size, capacity.
  pose proof (wf_Repr _ _ _ Hwf Hl) as HR.
  pose proof (Repr_bounds _ _ _ HR) as (Hsz & Hc & Hb & Hb').
  split.
  - intros s1 Hrun.
    pose proof (push_back_spec s l v HR) as Hspec. rewrite Hrun in Hspec.
    destruct Hspec as (HR1 & _).
    destruct (pop_back_spec s1 l v HR1) as (s2 & Hpop & Hthis2 & HR2 & _).
    destruct (Repr_wf _ _ _ HR2) as (Hwf2 & Hl2).
    exists s2. split_and!; try done.
    intros Hspare.
    pose proof (push_back_inplace_spec s l v HR ltac:(lia)) as Hin.
    case_decide; [congruence|].
    destruct Hin as (s1' & Hrun1 & Hthis1 & _).
    replace s1' with s1 in * by congruence.
    rewrite Hthis2, Hthis1. destruct (this s) as [d sz c bg]. unfold set_size_. simpl.
    f_equal. lia.
  - intros s1 Hrun.
    pose proof (push_front_spec s l v HR) as Hspec. rewrite Hrun in Hspec.
    destruct Hspec as (HR1 & _).
    destruct (pop_front_spec s1 l v HR1) as (s2 & Hpop & Hthis2 & HR2 & _).
    destruct (Repr_wf _ _ _ HR2) as (Hwf2 & Hl2).
    exists s2. split_and!; try done.
    intros Hspare.
    pose proof (push_front_inplace_spec s l v HR ltac:(lia)) as Hin.
    case_decide; [congruence|].
    destruct Hin as (s1' & Hrun1 & Hthis1 & _).
    replace s1' with s1 in * by congruence.
    rewrite Hthis2, Hthis1. destruct (this s) as [d sz c bg].
    unfold set_size_, set_begin_. simpl in *. f_equal; [lia|].
    rewrite Zplus_mod_idemp_l.
    replace (bg + c - 1 + 1) with (bg + 1 * c) by lia.
    rewrite Z.mod_add by lia. apply Z.mod_small. lia.
Qed.

(** Erasing the element that [insert] has just put in, through the handle
    [insert] returned, gives the sequence back. *)
Theorem insert_erase_round_trip (s : state) (l : list T) (k : nat) (v : T) :
  wf (this s) (mem s) = true → to_list (this s) (mem s) = Some l →
  (k ≤ length l)%nat →
  ∀ it s1,
    insert (template_iterator.add (begin (this s)) (Z.of_nat k)) v s = Normal it s1 →
    ∃ it' s2,
      erase_one it s1 = Normal it' s2 ∧
      wf (this s2) (mem s2) = true ∧
      to_list (this s2) (mem s2) = Some l ∧
      size (this s2) = size (this s) ∧
      capacity (this s2) = capacity (this s1).
Proof.
  intros Hwf Hl Hk it s1 Hrun. unfold size, capacity.
  pose proof (wf_Repr _ _ _ Hwf Hl) as HR.
  pose proof (insert_spec s l k v HR Hk) as Hspec. rewrite Hrun in Hspec.
  destruct Hspec as (HR1 & _ & -> & _).
  assert (Hlen1 : length (take k l ++ v :: drop k l) = S (length l)).
  { rewrite length_app, length_take. cbn [length]. rewrite length_drop. lia. }
  destruct (erase_range_spec s1 _ k (S k) HR1 ltac:(lia))
    as (s2 & evs & Hrun2 & HR2 & Hthis2 & Hin & _).
  unfold erase_one. rewrite iterator_add_add.
  replace (Z.of_nat k + 1) with (Z.of_nat (S k)) by lia. rewrite Hrun2.
  assert (Hback : delete k (take k l ++ v :: drop k l) = l).
  { pose proof (delete_middle (take k l) (drop k l) v) as Hmid.
    rewrite length_take, Nat.min_l in Hmid by lia. rewrite Hmid. apply take_drop. }
  rewrite <- delete_take_drop, Hback in HR2.
  destruct (Repr_wf _ _ _ HR2) as (Hwf2 & Hl2).
  eexists _, s2. split_and!; try done.
  - by rewrite (Repr_size _ _ _ HR2), (Repr_size _ _ _ HR).
  - by destruct Hin as (_ & ? & _).
Qed.

Lemma push_back_all_inplace vs s l :
  Repr (this s) (mem s) l → faults (mem s) = [] →
  size_ (this s) + Z.of_nat (length vs) ≤ capacity_ (this s) →
  ∃ s', push_back_all vs s = Normal tt s' ∧
        Repr (this s') (mem s') (l ++ vs) ∧
        this s' = set_size_ (size_ (this s) + Z.of_nat (length vs)) (this s) ∧
        trace (mem s') = trace (mem s) ∧ faults (mem s') = [].
Proof.
  revert s l. induction vs as [|v vs IH]; intros s l HR Hf Hroom.
  - exists s. rewrite app_nil_r. split_and!; try done.
    destruct (this s). unfold set_size_. simpl. f_equal. lia.
  - simpl in Hroom |- *.
    pose proof (push_back_inplace_spec s l v HR ltac:(lia)) as Hin.
    rewrite decide_False in Hin by (unfold next_fails; by rewrite Hf).
    destruct Hin as (s1 & Hrun1 & Hthis1 & HR1 & (_ & _ & Hf1 & Ht1 & _)).
    erewrite bind_normal by exact Hrun1.
    simpl in Hf1, Ht1. rewrite Hf in Hf1. simpl in Hf1. rewrite app_nil_r in Ht1.
    destruct (IH s1 (l ++ [v]) HR1 Hf1) as (s2 & Hrun2 & HR2 & Hthis2 & Ht2 & Hf2).
    { rewrite Hthis1. simpl. lia. }
    exists s2. rewrite <- app_assoc in HR2. split_and!; try done.
    + rewrite Hthis2, Hthis1. unfold set_size_. simpl. f_equal. lia.
    + by rewrite Ht2.
Qed.

Lemma reserve_returns s l n :
  Repr (this s) (mem s) l → faults (mem s) = [] → n ≤ max_slots →
  ∃ s1, reserve n s = Normal tt s1 ∧ Repr (this s1) (mem s1) l ∧
        faults (mem s1) = [] ∧ n ≤ capacity_ (this s1) ∧
        size_ (this s1) = size_ (this s).
Proof.
  intros HR Hf Hmax.
  assert (Hfit : sizeof * n < SIZE_MODULUS).
  { pose proof (max_slots_fits n Hmax). unfold SIZE_MODULUS, PTRDIFF_MAX in *. lia. }
  pose proof (reserve_spec s l n HR (λ _, Hfit)) as Hspec.
  pose proof (Repr_bounds _ _ _ HR) as (Hsz & Hc & Hb & Hb').
  pose proof (Repr_size _ _ _ HR) as Hlen.
  case_decide as Hn.
  - destruct (reserve n s) as [[] s1|s1|]; [| |done].
    + destruct Hspec as (Hthis & Hh & Hsuf & _).
      exists s1. split_and!; try done.
      * eapply realloc_Repr; try done; try lia.
        -- apply fresh_heap.
        -- by eapply Repr_fresh.
        -- rewrite Hthis. f_equal. done.
      * rewrite Hf in Hsuf. by apply suffix_nil_inv in Hsuf.
      * rewrite Hthis. simpl. lia.
      * by rewrite Hthis.
    + destruct Hspec as (_ & _ & _ & [?|?]); [lia|done].
  - exists s. split_and!; try done. lia.
Qed.

(** After [reserve(n)] of [n] slots that the allocator serves ([n] objects
    take at most [PTRDIFF_MAX] bytes, so the byte count does not wrap
    around), pushing values at the back while the size stays within [n]
    never reallocates: the pushes return, the sequence grows by the values
    pushed, and block, capacity and begin offset stay as [reserve] left
    them, with nothing allocated, destroyed or released. *)
Theorem reserve_then_push_back (s : state) (l vs : list T) (n : Z) :
  wf (this s) (mem s) = true → to_list (this s) (mem s) = Some l →
  faults (mem s) = [] → n ≤ max_slots →
  size (this s) + Z.of_nat (length vs) ≤ n →
  ∃ s1 s2,
    reserve n s = Normal tt s1 ∧ push_back_all vs s1 = Normal tt s2 ∧
    wf (this s2) (mem s2) = true ∧
    to_list (this s2) (mem s2) = Some (l ++ vs) ∧
    data_ (this s2) = data_ (this s1) ∧
    capacity (this s2) = capacity (this s1) ∧
    begin_ (this s2) = begin_ (this s1) ∧
    trace (mem s2) = trace (mem s1).
Proof.
  intros Hwf Hl Hf Hmax Hroom. unfold size, capacity in *.
  pose proof (wf_Repr _ _ _ Hwf Hl) as HR.
  destruct (reserve_returns s l n HR Hf Hmax) as (s1 & Hrun1 & HR1 & Hf1 & Hn & Hsz1).
  destruct (push_back_all_inplace vs s1 l HR1 Hf1 ltac:(lia))
    as (s2 & Hrun2 & HR2 & Hthis2 & Ht2 & _).
  destruct (Repr_wf _ _ _ HR2) as (Hwf2 & Hl2).
  exists s1, s2. split_and!; try done; by rewrite Hthis2.
Qed.

(** ** Position handles *)

(** Handle arithmetic, where the sum or difference that the source computes
    in [std::ptrdiff_t] does not overflow: adding a distance and then
    subtracting it (or the other way round) gives the handle back, the step
    back does not overflow either, and the distance between a handle and
    the handle [n] further is [n]; [operator++] and [operator--], which
    count in [std::size_t], are [+ 1] and [- 1] and undo each other. *)
Theorem iterator_arithmetic (it : iterator) (n : Z) :
  0 ≤ template_iterator.pos_ it < SIZE_MODULUS →
  (template_iterator.add_defined it n →
   template_iterator.sub_defined (template_iterator.add it n) n ∧
   template_iterator.sub (template_iterator.add it n) n = it ∧
   template_iterator.diff (template_iterator.add it n) it = n) ∧
  (template_iterator.sub_defined it n →
   template_iterator.add_defined (template_iterator.sub it n) n ∧
   template_iterator.add (template_iterator.sub it n) n = it ∧
   template_iterator.diff it (template_iterator.sub it n) = n) ∧
  (template_iterator.add_defined it 1 →
   template_iterator.incr it = template_iterator.add it 1) ∧
  (template_iterator.sub_defined it 1 →
   template_iterator.decr it = template_iterator.sub it 1) ∧
  template_iterator.decr (template_iterator.incr it) = it ∧
  template_iterator.incr (template_iterator.decr it) = it.
Proof.
  intros Hpos. destruct it as [d p c]. simpl in Hpos.
  unfold template_iterator.add_defined, template_iterator.sub_defined,
    template_iterator.sub, template_iterator.add, template_iterator.incr,
    template_iterator.decr, template_iterator.diff. simpl.
  pose proof (to_ptrdiff_t_range p) as Hq.
  assert (Hp : to_size_t p = p) by (by apply to_size_t_small).
  assert (Hqp : to_size_t (to_ptrdiff_t p) = p) by (by rewrite to_size_t_ptrdiff).
  split_and!.
  - intros (Hn & Hsum).
    rewrite (to_ptrdiff_t_signed (to_ptrdiff_t p + n)) by done.
    replace (to_ptrdiff_t p + n - n) with (to_ptrdiff_t p) by lia.
    rewrite Hqp. split; [split; [exact Hn|exact Hq]|]. split; [reflexivity|].
    rewrite <- Hqp at 2. rewrite to_size_t_sub_l, to_size_t_sub_r.
    replace (to_ptrdiff_t p + n - to_ptrdiff_t p) with n by lia.
    by rewrite to_ptrdiff_t_signed.
  - intros (Hn & Hsum).
    rewrite (to_ptrdiff_t_signed (to_ptrdiff_t p - n)) by done.
    replace (to_ptrdiff_t p - n + n) with (to_ptrdiff_t p) by lia.
    rewrite Hqp. split; [split; [exact Hn|exact Hq]|]. split; [reflexivity|].
    rewrite <- Hqp at 1. rewrite to_size_t_sub_r, to_size_t_sub_l.
    replace (to_ptrdiff_t p - (to_ptrdiff_t p - n)) with n by lia.
    by rewrite to_ptrdiff_t_signed.
  - intros _. by rewrite to_size_t_ptrdiff_add.
  - intros _. by rewrite to_size_t_ptrdiff_sub.
  - rewrite to_size_t_sub_l, Z.add_simpl_r. by rewrite Hp.
  - rewrite to_size_t_add_l, Z.sub_simpl_r. by rewrite Hp.
Qed.

Lemma handle_unique b it it' k : handle b it k → handle b it' k → it = it'.
Proof.
  intros (Hd & Hs & Hp) (Hd' & Hs' & Hp'). destruct it, it'. simpl in *. congruence.
Qed.

Lemma handle_iter_incr b w l (i : nat) :
  Repr b w l → (i ≤ length l)%nat →
  handle b (Nat.iter i template_iterator.incr (begin b)) (Z.of_nat i).
Proof.
  intros HR. pose proof (Repr_bounds _ _ _ HR) as (Hsz & Hc & Hb & _).
  pose proof (Repr_size _ _ _ HR) as Hlen.
  induction i as [|i IH]; intros Hi; [apply handle_begin|].
  simpl. replace (Z.of_nat (S i)) with (Z.of_nat i + 1) by lia.
  apply handle_incr; [apply IH; lia|]. unfold_int. lia.
Qed.

Lemma handle_iter_decr b w l (i : nat) :
  Repr b w l → (i ≤ length l)%nat →
  handle b (Nat.iter i template_iterator.decr (end_ b)) (Z.of_nat (length l - i)).
Proof.
  intros HR. pose proof (Repr_bounds _ _ _ HR) as (Hsz & Hc & Hb & _).
  pose proof (Repr_size _ _ _ HR) as Hlen.
  induction i as [|i IH]; intros Hi.
  - simpl. rewrite Nat.sub_0_r, <- Hlen. by eapply handle_end.
  - simpl. replace (Z.of_nat (length l - S i)) with (Z.of_nat (length l - i) - 1) by lia.
    apply handle_decr; [apply IH; lia|]. unfold_int. lia.
Qed.

(** The handles [begin() + i] of one buffer, for [0 <= i <= size()], are
    ordered as their indices: the distance between two of them is the
    difference of the indices, [==] holds exactly for equal indices and
    [<], [<=], [>], [>=] exactly as for the indices.  [end()] is at distance
    [size()] from [begin()], and equals it exactly when the buffer is
    empty. *)
Theorem iterator_order (s : state) (l : list T) (i j : nat) :
  wf (this s) (mem s) = true → to_list (this s) (mem s) = Some l →
  (i ≤ length l)%nat → (j ≤ length l)%nat →
  let a := template_iterator.add (begin (this s)) (Z.of_nat i) in
  let b := template_iterator.add (begin (this s)) (Z.of_nat j) in
  template_iterator.diff b a = Z.of_nat j - Z.of_nat i ∧
  template_iterator.eqb a b = bool_decide (i = j) ∧
  template_iterator.neqb a b = bool_decide (i ≠ j) ∧
  template_iterator.ltb a b = bool_decide (i < j)%nat ∧
  template_iterator.leb a b = bool_decide (i ≤ j)%nat ∧
  template_iterator.gtb a b = bool_decide (j < i)%nat ∧
  template_iterator.geb a b = bool_decide (j ≤ i)%nat ∧
  template_iterator.diff (end_ (this s)) (begin (this s)) = size (this s) ∧
  template_iterator.eqb (begin (this s)) (end_ (this s)) = empty (this s).
Proof.
  intros Hwf Hl Hi Hj a b.
  pose proof (wf_Repr _ _ _ Hwf Hl) as HR.
  pose proof (Repr_bounds _ _ _ HR) as (Hsz & Hc & Hb & _).
  pose proof (Repr_size _ _ _ HR) as Hlen.
  pose proof (handle_at _ _ _ i HR Hi) as Ha. fold a in Ha.
  pose proof (handle_at _ _ _ j HR Hj) as Hb'. fold b in Hb'.
  clearbody a b.
  pose proof (handle_end _ _ _ HR) as He.
  assert (Hab : template_iterator.diff b a = Z.of_nat j - Z.of_nat i).
  { apply (handle_diff (this s)); [done..|unfold_int; lia]. }
  assert (Hba : template_iterator.diff a b = Z.of_nat i - Z.of_nat j).
  { apply (handle_diff (this s)); [done..|unfold_int; lia]. }
  assert (Hdata : template_iterator.data_ a = template_iterator.data_ b).
  { destruct Ha as (-> & _), Hb' as (-> & _). done. }
  assert (Heq : template_iterator.eqb a b = bool_decide (i = j)).
  { unfold template_iterator.eqb. rewrite bool_decide_eq_true_2 by done. simpl.
    destruct Ha as (_ & _ & ->), Hb' as (_ & _ & ->).
    apply bool_decide_ext. lia. }
  assert (Hlt : template_iterator.ltb a b = bool_decide (i < j)%nat).
  { unfold template_iterator.ltb. rewrite bool_decide_eq_true_2 by done. simpl.
    rewrite Hab. apply bool_decide_ext. lia. }
  assert (Hgt : template_iterator.ltb b a = bool_decide (j < i)%nat).
  { unfold template_iterator.ltb. rewrite bool_decide_eq_true_2 by done. simpl.
    rewrite Hba. apply bool_decide_ext. lia. }
  split_and!; try done.
  - unfold template_iterator.neqb. rewrite Heq.
    repeat case_bool_decide; done.
  - unfold template_iterator.leb, template_iterator.gtb. rewrite Hgt.
    repeat case_bool_decide; try done; lia.
  - unfold template_iterator.geb. rewrite Hlt.
    repeat case_bool_decide; try done; lia.
  - rewrite (handle_diff (this s) _ 0 _ (size_ (this s)) (handle_begin _) He);
      unfold size; unfold_int; lia.
  - unfold template_iterator.eqb, empty, size.
    destruct (handle_begin (this s)) as (-> & _ & ->), He as (-> & _ & ->).
    rewrite bool_decide_eq_true_2 by done. simpl. apply bool_decide_ext. lia.
Qed.

(** Walking from [begin()] with [operator++] visits the elements in order:
    after [i < size()] steps the handle is not [end()] and designates
    element [i]; after [size()] steps it is [end()].  Walking back from
    [end()] with [operator--] visits them in reverse and reaches [begin()]
    after [size()] steps. *)
Theorem iterator_traversal (s : state) (l : list T) :
  wf (this s) (mem s) = true → to_list (this s) (mem s) = Some l →
  (∀ (i : nat) v, l !! i = Some v →
     deref (Nat.iter i template_iterator.incr (begin (this s))) s = Normal v s ∧
     template_iterator.neqb (Nat.iter i template_iterator.incr (begin (this s)))
       (end_ (this s)) = true ∧
     deref (Nat.iter (length l - i) template_iterator.decr (end_ (this s))) s =
       Normal v s) ∧
  Nat.iter (length l) template_iterator.incr (begin (this s)) = end_ (this s) ∧
  Nat.iter (length l) template_iterator.decr (end_ (this s)) = begin (this s).
Proof.
  intros Hwf Hl.
  pose proof (wf_Repr _ _ _ Hwf Hl) as HR.
  pose proof (Repr_bounds _ _ _ HR) as (Hsz & Hc & Hb & _).
  pose proof (Repr_size _ _ _ HR) as Hlen.
  pose proof (handle_end _ _ _ HR) as He.
  split_and!.
  - intros i v Hi. apply lookup_lt_Some in Hi as Hi'.
    pose proof (handle_iter_incr _ _ _ i HR ltac:(lia)) as Hit.
    pose proof (handle_iter_decr _ _ _ (length l - i) HR ltac:(lia)) as Hback.
    replace (length l - (length l - i))%nat with i in Hback by lia.
    split_and!.
    + by eapply deref_handle.
    + unfold template_iterator.neqb, template_iterator.eqb.
      destruct Hit as (_ & _ & ->), He as (_ & _ & ->).
      rewrite (bool_decide_eq_false_2 (_ + _ = _ + _)) by lia.
      by rewrite andb_false_r.
    + by eapply deref_handle.
  - eapply handle_unique; [by eapply handle_iter_incr|]. by rewrite <- Hlen.
  - eapply handle_unique; [by eapply (handle_iter_decr _ _ _ (length l))|].
    rewrite Nat.sub_diag. apply handle_begin.
Qed.

(** ** No block is left behind *)

Lemma inplace_footprint s s' evs : inplace s s' evs → footprint s s'.
Proof.
  intros (Hd & Hc & _ & _ & Hh). split; [|split; [lia|done]].
  intros a Ha. destruct (data_ (this s)) as [a0|] eqn:Hd0.
  - destruct Hh as (blk & blk' & Hblk & _ & Hh). rewrite Hh in Ha.
    destruct (decide (a = a0)) as [->|Hne]; [by left|right].
    rewrite lookup_insert_ne in Ha by done. split; [done|congruence].
  - right. rewrite Hh in Ha. done.
Qed.

Lemma tick_inplace_footprint s s' evs : inplace (tick s) s' evs → footprint s s'.
Proof. intros Hin. exact (inplace_footprint (tick s) s' evs Hin). Qed.

Lemma thrown_footprint s s' :
  this s' = this s → heap (mem s') = heap (mem s) → footprint s s'.
Proof.
  intros Hthis Hh. split; [|rewrite Hthis; split; [lia|done]].
  intros a Ha. rewrite Hthis, Hh in *.
  destruct (decide (data_ (this s) = Some a)); [by left|by right].
Qed.

Lemma realloc_tight s s' a' blk :
  data_ (this s') = Some a' →
  heap (mem s') = release (data_ (this s)) (<[a' := blk]> (heap (mem s))) →
  tight s s'.
Proof.
  intros Hd Hh a Ha. rewrite Hh in Ha.
  destruct (decide (a = a')) as [->|Hne]; [by left|right].
  destruct (data_ (this s)) as [a0|]; simpl in Ha.
  - destruct (decide (a0 = a)) as [->|Hne0].
    + rewrite lookup_delete_eq in Ha. by destruct Ha.
    + rewrite lookup_delete_ne, lookup_insert_ne in Ha by done. split; [done|congruence].
  - rewrite lookup_insert_ne in Ha by done. done.
Qed.

Lemma insert_with_copy_within s l pos (k : nat) v :
  Repr (this s) (mem s) l → size_ (this s) = capacity_ (this s) →
  handle (this s) pos (Z.of_nat k) → (k ≤ length l)%nat →
  within (insert_with_copy pos v) s.
Proof.
  intros HR Hfull Hpos Hk.
  pose proof (insert_with_copy_spec s l pos k v HR Hfull Hpos Hk) as Hspec.
  cbv zeta in Hspec. unfold within.
  pose proof (Repr_bounds _ _ _ HR) as (Hsz & _).
  pose proof (Repr_fresh _ _ _ HR) as Hfresh.
  destruct (insert_with_copy pos v s) as [it s'|s'|]; [| |done].
  - destruct Hspec as (Hthis & Hh & _). split.
    + eapply realloc_tight; [|done]. by rewrite Hthis.
    + rewrite Hthis. cbn [capacity_ data_]. unfold grown_capacity.
      split; case_decide; lia.
  - destruct Hspec as (Hthis & Hh & _). by apply thrown_footprint.
Qed.

Lemma push_back_within s l v : Repr (this s) (mem s) l → within (push_back v) s.
Proof.
  intros HR. pose proof (Repr_size _ _ _ HR) as Hlen.
  destruct (decide (size_ (this s) = capacity_ (this s))) as [Hfull|Hne].
  - pose proof (insert_with_copy_within s l (end_ (this s)) (length l) v HR Hfull) as Hw.
    unfold within in *. unfold push_back. rewrite bind_get_this. unfold size, capacity.
    rewrite decide_True by done. rewrite bind_unfold.
    destruct (insert_with_copy (end_ (this s)) v s) as [it s'|s'|]; [| |done].
    + apply Hw; [|done]. rewrite <- Hlen. by eapply handle_end.
    + apply Hw; [|done]. rewrite <- Hlen. by eapply handle_end.
  - pose proof (push_back_inplace_spec s l v HR Hne) as Hspec. unfold within.
    case_decide.
    + rewrite Hspec. by apply thrown_footprint.
    + destruct Hspec as (s' & -> & _ & _ & Hin). by eapply tick_inplace_footprint.
Qed.

Lemma push_front_within s l v : Repr (this s) (mem s) l → within (push_front v) s.
Proof.
  intros HR. pose proof (Repr_size _ _ _ HR) as Hlen.
  destruct (decide (size_ (this s) = capacity_ (this s))) as [Hfull|Hne].
  - pose proof (insert_with_copy_within s l (begin (this s)) 0 v HR Hfull
                  (handle_begin _) ltac:(lia)) as Hw.
    unfold within in *. unfold push_front. rewrite bind_get_this. unfold size, capacity.
    rewrite decide_True by done. rewrite bind_unfold.
    by destruct (insert_with_copy (begin (this s)) v s) as [it s'|s'|].
  - pose proof (push_front_inplace_spec s l v HR Hne) as Hspec. unfold within.
    case_decide.
    + rewrite Hspec. by apply thrown_footprint.
    + destruct Hspec as (s' & -> & _ & _ & Hin). by eapply tick_inplace_footprint.
Qed.

Lemma insert_within s l (k : nat) v :
  Repr (this s) (mem s) l → (k ≤ length l)%nat →
  within (insert (template_iterator.add (begin (this s)) (Z.of_nat k)) v) s.
Proof.
  intros HR Hk. pose proof (handle_at _ _ _ k HR Hk) as Hpos.
  destruct (decide (size_ (this s) = capacity_ (this s))) as [Hfull|Hne].
  - pose proof (insert_with_copy_within s l _ k v HR Hfull Hpos Hk) as Hw.
    unfold within in *. unfold insert. rewrite bind_get_this.
    unfold size, capacity. by rewrite decide_True by done.
  - pose proof (insert_inplace_spec s l _ k v HR Hne Hpos Hk) as Hspec. unfold within.
    case_decide.
    + rewrite Hspec. by apply thrown_footprint.
    + destruct Hspec as (s' & -> & _ & _ & Hin). by eapply tick_inplace_footprint.
Qed.

Lemma erase_within s l (i j : nat) :
  Repr (this s) (mem s) l → (i ≤ j ≤ length l)%nat →
  within (erase (template_iterator.add (begin (this s)) (Z.of_nat i))
            (template_iterator.add (begin (this s)) (Z.of_nat j))) s.
Proof.
  intros HR Hij.
  destruct (erase_range_spec s l i j HR Hij) as (s' & evs & Hrun & _ & _ & Hin & _).
  unfold within. rewrite Hrun. by eapply inplace_footprint.
Qed.

Lemma reserve_within s l n :
  Repr (this s) (mem s) l → sizeof * n < SIZE_MODULUS → within (reserve n) s.
Proof.
  intros HR Hfit. pose proof (reserve_spec s l n HR (λ _, Hfit)) as Hspec. unfold within.
  case_decide as Hn.
  - destruct (reserve n s) as [[] s'|s'|]; [| |done].
    + destruct Hspec as (Hthis & Hh & _). split.
      * eapply realloc_tight; [|done]. by rewrite Hthis.
      * rewrite Hthis. cbn [capacity_ data_]. split; lia.
    + destruct Hspec as (Hthis & Hh & _). by apply thrown_footprint.
  - rewrite Hspec. by apply thrown_footprint.
Qed.

Lemma pop_back_within s l :
  Repr (this s) (mem s) l → size_ (this s) ≠ 0 → within pop_back s.
Proof.
  intros HR Hne. pose proof (Repr_size _ _ _ HR) as Hsz.
  destruct (list_snoc_case l) as [->|(l' & x & ->)]; [simpl in *; lia|].
  destruct (pop_back_spec s l' x HR) as (s' & Hrun & _ & _ & Hin).
  unfold within. rewrite Hrun. by eapply inplace_footprint.
Qed.

Lemma pop_front_within s l :
  Repr (this s) (mem s) l → size_ (this s) ≠ 0 → within pop_front s.
Proof.
  intros HR Hne. pose proof (Repr_size _ _ _ HR) as Hsz.
  destruct l as [|x l']; [simpl in *; lia|].
  destruct (pop_front_spec s l' x HR) as (s' & Hrun & _ & _ & Hin).
  unfold within. rewrite Hrun. by eapply inplace_footprint.
Qed.

Lemma clear_within s l : Repr (this s) (mem s) l → within clear s.
Proof.
  intros HR. destruct (clear_spec s l HR) as (s' & Hrun & _ & _ & Hin).
  unfold within. rewrite Hrun. by eapply inplace_footprint.
Qed.

Lemma call_footprint {A} x pre (f : circular_buffer → M A) m m' b :
  objects m !! x = Some b →
  (pre b = true → within (f b) (State b (mworld m))) →
  call x pre f m = Done m' ∨ call x pre f m = Raised m' →
  ∃ s', objects m' = <[x := this s']> (objects m) ∧ mworld m' = mem s' ∧
        footprint (State b (mworld m)) s'.
Proof.
  intros Hx Hw Hrun. unfold call in Hrun. rewrite Hx in Hrun.
  destruct (pre b); [|by destruct Hrun]. specialize (Hw eq_refl). unfold within in Hw.
  destruct (f b (State b (mworld m))) as [a s'|s'|]; [| |by destruct Hrun].
  - destruct Hrun as [[= <-]|[=]]. by exists s'.
  - destruct Hrun as [[=]|[= <-]]. by exists s'.
Qed.

(** The step of a member function that updates the elements of [x]. *)
Lemma step_footprint o m m' :
  machine_inv m → fits o = true → element_update o = true →
  step o m = Done m' ∨ step o m = Raised m' →
  ∃ x b s', writes o = [x] ∧ objects m !! x = Some b ∧
            objects m' = <[x := this s']> (objects m) ∧ mworld m' = mem s' ∧
            footprint (State b (mworld m)) s'.
Proof.
  intros (Hwf & _) Hfits Hop Hrun.
  assert (Hscope : ∀ x pre (f : circular_buffer → M unit),
             call x pre f m = Done m' ∨ call x pre f m = Raised m' →
             ∃ b l, objects m !! x = Some b ∧ Repr b (mworld m) l).
  { intros x pre f Hc. unfold call in Hc.
    destruct (objects m !! x) as [b|] eqn:Hx; [|by destruct Hc].
    destruct (Hwf _ _ Hx) as (l & HR). eauto. }
  assert (Hscope' : ∀ x pre (f : circular_buffer → M iterator),
             call x pre f m = Done m' ∨ call x pre f m = Raised m' →
             ∃ b l, objects m !! x = Some b ∧ Repr b (mworld m) l).
  { intros x pre f Hc. unfold call in Hc.
    destruct (objects m !! x) as [b|] eqn:Hx; [|by destruct Hc].
    destruct (Hwf _ _ Hx) as (l & HR). eauto. }
  destruct o as [x|x y|x y|x|x y|x v|x v|x|x|x n|x k v|x k|x i j|x];
    try discriminate Hop; cbn [step writes] in *.
  - destruct (Hscope _ _ _ Hrun) as (b & l & Hx & HR).
    eapply (call_footprint x _ _ m m' b Hx) in Hrun as (s' & ?);
      [by exists x, b, s'|].
    intros _. exact (push_back_within (State b (mworld m)) l v HR).
  - destruct (Hscope _ _ _ Hrun) as (b & l & Hx & HR).
    eapply (call_footprint x _ _ m m' b Hx) in Hrun as (s' & ?);
      [by exists x, b, s'|].
    intros _. exact (push_front_within (State b (mworld m)) l v HR).
  - destruct (Hscope _ _ _ Hrun) as (b & l & Hx & HR).
    eapply (call_footprint x _ _ m m' b Hx) in Hrun as (s' & ?);
      [by exists x, b, s'|].
    intros Hpre. unfold empty, size in Hpre.
    apply negb_true_iff, bool_decide_eq_false in Hpre.
    exact (pop_back_within (State b (mworld m)) l HR Hpre).
  - destruct (Hscope _ _ _ Hrun) as (b & l & Hx & HR).
    eapply (call_footprint x _ _ m m' b Hx) in Hrun as (s' & ?);
      [by exists x, b, s'|].
    intros Hpre. unfold empty, size in Hpre.
    apply negb_true_iff, bool_decide_eq_false in Hpre.
    exact (pop_front_within (State b (mworld m)) l HR Hpre).
  - destruct (Hscope _ _ _ Hrun) as (b & l & Hx & HR).
    eapply (call_footprint x _ _ m m' b Hx) in Hrun as (s' & ?);
      [by exists x, b, s'|].
    intros _. cbn [fits] in Hfits. apply bool_decide_eq_true in Hfits.
    exact (reserve_within (State b (mworld m)) l n HR Hfits).
  - destruct (Hscope' _ _ _ Hrun) as (b & l & Hx & HR).
    eapply (call_footprint x _ _ m m' b Hx) in Hrun as (s' & ?);
      [by exists x, b, s'|].
    intros Hpre. apply bool_decide_eq_true in Hpre. unfold size in Hpre.
    pose proof (Repr_size _ _ _ HR) as Hlen.
    pose proof (insert_within (State b (mworld m)) l (Z.to_nat k) v HR ltac:(lia)) as Hw.
    rewrite Z2Nat.id in Hw by lia. exact Hw.
  - destruct (Hscope' _ _ _ Hrun) as (b & l & Hx & HR).
    eapply (call_footprint x _ _ m m' b Hx) in Hrun as (s' & ?);
      [by exists x, b, s'|].
    intros Hpre. apply bool_decide_eq_true in Hpre. unfold size in Hpre.
    pose proof (Repr_size _ _ _ HR) as Hlen.
    pose proof (erase_within (State b (mworld m)) l (Z.to_nat k) (S (Z.to_nat k)) HR
                  ltac:(lia)) as Hw.
    unfold erase_one. rewrite iterator_add_add. cbn [this] in Hw.
    replace (Z.of_nat (S (Z.to_nat k))) with (k + 1) in Hw by lia.
    rewrite Z2Nat.id in Hw by lia. exact Hw.
  - destruct (Hscope' _ _ _ Hrun) as (b & l & Hx & HR).
    eapply (call_footprint x _ _ m m' b Hx) in Hrun as (s' & ?);
      [by exists x, b, s'|].
    intros Hpre. apply bool_decide_eq_true in Hpre. unfold size in Hpre.
    pose proof (Repr_size _ _ _ HR) as Hlen.
    pose proof (erase_within (State b (mworld m)) l (Z.to_nat i) (Z.to_nat j) HR
                  ltac:(lia)) as Hw.
    rewrite !Z2Nat.id in Hw by lia. exact Hw.
  - destruct (Hscope _ _ _ Hrun) as (b & l & Hx & HR).
    eapply (call_footprint x _ _ m m' b Hx) in Hrun as (s' & ?);
      [by exists x, b, s'|].
    intros _. exact (clear_within (State b (mworld m)) l HR).
Qed.

Lemma update_owned m x b s' :
  owned m → objects m !! x = Some b → tight (State b (mworld m)) s' →
  owned (Machine (<[x := this s']> (objects m)) (mem s')).
Proof.
  intros Hown Hx Htight a Ha. cbn [objects mworld] in *.
  destruct (Htight a Ha) as [Hd|[Hold Hne]]; cbn [this mem] in *.
  - exists x, (this s'). by rewrite lookup_insert_eq.
  - destruct (Hown a Hold) as (z & c & Hz & Hc).
    exists z, c. split; [|done]. rewrite lookup_insert_ne; [done|].
    intros <-. congruence.
Qed.

Lemma operator_assign_tight b w l other lo :
  Repr b w l → Repr other w lo →
  match operator_assign false other (State b w) with
  | Normal _ s' => tight (State b w) s'
  | Thrown s' => tight (State b w) s'
  | Undefined => False
  end.
Proof.
  intros HR HRo.
  pose proof (operator_assign_spec (State b w) other l lo HR HRo) as Hspec.
  cbn [this mem] in Hspec.
  destruct (operator_assign false other (State b w)) as [[] s'|s'|]; [| |done].
  - destruct Hspec as (Hthis & Hh & _). intros a Ha. cbn [this mem].
    rewrite Hh in Ha. rewrite Hthis. unfold copy_of, copy_heap in *. cbn [data_].
    assert (Hrel : ∀ h : gmap nat (list (option T)),
               is_Some (release (data_ b) h !! a) → is_Some (h !! a) ∧ data_ b ≠ Some a).
    { intros h Hr. destruct (data_ b) as [a0|]; simpl in Hr; [|done].
      destruct (decide (a0 = a)) as [->|Hne].
      - rewrite lookup_delete_eq in Hr. by destruct Hr.
      - rewrite lookup_delete_ne in Hr by done. split; [done|congruence]. }
    apply Hrel in Ha as [Ha Hne]. case_decide; [by right|].
    destruct (decide (a = fresh (dom (heap w)))) as [->|Hfr]; [by left|right].
    rewrite lookup_insert_ne in Ha by done. done.
  - destruct Hspec as (Hthis & Hh & _).
    by apply (thrown_footprint (State b w) s').
Qed.

Lemma step_owned o m m' :
  machine_inv m → owned m → fits o = true →
  step o m = Done m' ∨ step o m = Raised m' → owned m'.
Proof.
  intros Hinv Hown Hfits Hrun. pose proof Hinv as (Hwf & Hdis).
  destruct (element_update o) eqn:Hop.
  { destruct (step_footprint o m m' Hinv Hfits Hop Hrun)
      as (x & b & s' & _ & Hx & Hobj & Hw & Htight & _).
    destruct m' as [objs' w']. cbn [objects mworld] in *. subst.
    by eapply update_owned. }
  destruct o as [x|x y|x y|x|x y|x v|x v|x|x|x n|x k v|x k|x i j|x];
    try discriminate Hop; cbn [step] in *.
  - (* Default *)
    destruct (objects m !! x) eqn:Hx; [by destruct Hrun|].
    destruct Hrun as [[= <-]|[=]]. intros a Ha. cbn [objects mworld] in *.
    destruct (Hown a Ha) as (z & c & Hz & Hc). exists z, c. split; [|done].
    rewrite lookup_insert_ne; [done|]. intros <-. congruence.
  - (* Copy *)
    destruct (objects m !! x) eqn:Hx; [by destruct Hrun|].
    destruct (objects m !! y) as [other|] eqn:Hy; [|by destruct Hrun].
    destruct (Hwf _ _ Hy) as (lo & HRo).
    pose proof (copy_constructor_run other (mworld m) lo HRo) as Hspec.
    destruct (copy_constructor other (State default_members (mworld m))) as [[] s'|s'|];
      [| |by destruct Hrun].
    + destruct Hrun as [[= <-]|[=]]. destruct Hspec as (Hthis & Hh & _).
      intros a Ha. cbn [objects mworld] in *. rewrite Hh in Ha.
      unfold copy_heap in Ha.
      assert (Hold : is_Some (heap (mworld m) !! a) →
                     ∃ z c, <[x := this s']> (objects m) !! z = Some c ∧ data_ c = Some a).
      { intros Hin. destruct (Hown a Hin) as (z & c & Hz & Hc). exists z, c.
        split; [|done]. rewrite lookup_insert_ne; [done|]. intros <-. congruence. }
      case_decide as Hc0; [by apply Hold|].
      destruct (decide (a = fresh (dom (heap (mworld m))))) as [->|Hne].
      * exists x, (this s'). rewrite lookup_insert_eq. split; [done|].
        rewrite Hthis. unfold copy_of. cbn [data_]. by rewrite decide_False.
      * rewrite lookup_insert_ne in Ha by done. by apply Hold.
    + destruct Hrun as [[=]|[= <-]]. destruct Hspec as (Hh & _).
      intros a Ha. cbn [objects mworld] in *. rewrite Hh in Ha. by apply Hown.
  - (* Assign *)
    destruct (objects m !! y) as [other|] eqn:Hy; [|by destruct Hrun].
    unfold call in Hrun. destruct (objects m !! x) as [b|] eqn:Hx; [|by destruct Hrun].
    destruct (Hwf _ _ Hx) as (l & HR). destruct (Hwf _ _ Hy) as (lo & HRo).
    assert (Htight : match operator_assign (bool_decide (x = y)) other (State b (mworld m)) with
                     | Normal _ s' => tight (State b (mworld m)) s'
                     | Thrown s' => tight (State b (mworld m)) s'
                     | Undefined => False
                     end).
    { case_bool_decide.
      - rewrite operator_assign_self. by apply (thrown_footprint (State b (mworld m))).
      - by eapply operator_assign_tight. }
    destruct (operator_assign (bool_decide (x = y)) other (State b (mworld m)))
      as [[] s'|s'|]; [| |done].
    + destruct Hrun as [[= <-]|[=]]. by eapply update_owned.
    + destruct Hrun as [[=]|[= <-]]. by eapply update_owned.
  - (* Destroy *)
    destruct (objects m !! x) as [b|] eqn:Hx; [|by destruct Hrun].
    destruct (Hwf _ _ Hx) as (l & HR).
    destruct (destructor_spec (State b (mworld m)) l HR) as (s' & Hd & Hh & _).
    rewrite Hd in Hrun. destruct Hrun as [[= <-]|[=]]. cbn [this mem] in *.
    intros a Ha. cbn [objects mworld] in *. rewrite Hh in Ha.
    assert (Hin : is_Some (heap (mworld m) !! a) ∧ data_ b ≠ Some a).
    { destruct (data_ b) as [a0|]; simpl in Ha; [|done].
      destruct (decide (a0 = a)) as [->|Hne].
      - rewrite lookup_delete_eq in Ha. by destruct Ha.
      - rewrite lookup_delete_ne in Ha by done. split; [done|congruence]. }
    destruct Hin as (Hin & Hne). destruct (Hown a Hin) as (z & c & Hz & Hc).
    exists z, c. split; [|done]. rewrite lookup_delete_ne; [done|].
    intros <-. congruence.
  - (* Swap *)
    destruct (objects m !! x) as [l|] eqn:Hx; [|by destruct Hrun].
    destruct (objects m !! y) as [r|] eqn:Hy; [|by destruct Hrun].
    rewrite swap_eq in Hrun. cbn [fst snd] in Hrun.
    destruct Hrun as [[= <-]|[=]]. intros a Ha. cbn [objects mworld] in *.
    destruct (Hown a Ha) as (z & c & Hz & Hc).
    destruct (decide (z = x)) as [->|Hzx].
    { exists y, c. rewrite lookup_insert_eq. split; [congruence|done]. }
    destruct (decide (z = y)) as [->|Hzy].
    { exists x, c. destruct (decide (x = y)) as [->|Hxy]; [done|].
      rewrite lookup_insert_ne, lookup_insert_eq by done. split; [congruence|done]. }
    exists z, c. by rewrite !lookup_insert_ne.
Qed.

Lemma reachable_owned m : reachable m → owned m.
Proof.
  induction 1 as [f|o m m' Hreach IH Hfits Hstep|o m m' Hreach IH Hfits Hstep].
  - intros a Ha. cbn in Ha. rewrite lookup_empty in Ha. by destruct Ha.
  - eapply step_owned; [by apply reachable_inv|done|done|by left].
  - eapply step_owned; [by apply reachable_inv|done|done|by right].
Qed.

(** No block leaks and none is shared: in every state that a client whose
    reservations [fit] can reach, whatever failed on the way, each block of
    the store is the block of exactly one live buffer and has as many slots
    as that buffer's capacity; so once every buffer is destroyed, the store
    is empty. *)
Theorem no_block_leaks (m : machine) :
  reachable m →
  (∀ a blk, heap (mworld m) !! a = Some blk →
     ∃ x b, objects m !! x = Some b ∧ data_ b = Some a ∧
            length blk = Z.to_nat (capacity b) ∧
            ∀ y c, objects m !! y = Some c → data_ c = Some a → y = x) ∧
  (objects m = ∅ → heap (mworld m) = ∅).
Proof.
  intros Hreach. pose proof (reachable_inv m Hreach) as (Hwf & Hdis).
  pose proof (reachable_owned m Hreach) as Hown. split.
  - intros a blk Hblk. destruct (Hown a ltac:(eauto)) as (x & b & Hx & Hb).
    exists x, b. split_and!; try done.
    + destruct (Hwf _ _ Hx) as (l & (_ & _ & HR)). rewrite Hb in HR.
      destruct HR as (_ & blk' & Hblk' & Hlen & _). unfold capacity. congruence.
    + intros y c Hy Hc. destruct (decide (y = x)) as [->|Hne]; [done|].
      by destruct (Hdis y x c b a).
  - intros Hempty. apply map_empty. intros a.
    destruct (heap (mworld m) !! a) as [blk|] eqn:Hblk; [|done].
    destruct (Hown a ltac:(eauto)) as (x & b & Hx & _).
    rewrite Hempty, lookup_empty in Hx. done.
Qed.

(** A member function that pushes, pops, inserts, erases, reserves or
    clears never shrinks the capacity of its buffer, and it keeps the block
    (so handles and references stay meaningful) unless the capacity grew;
    the other buffers are as they were. *)
Theorem capacity_never_shrinks (o : op) (m m' : machine) (x : nat)
    (b b' : circular_buffer) :
  reachable m → element_update o = true →
  step o m = Done m' ∨ step o m = Raised m' →
  objects m !! x = Some b → objects m' !! x = Some b' →
  capacity b ≤ capacity b' ∧
  (capacity b' = capacity b → data_ b' = data_ b) ∧
  (x ∉ writes o → b' = b).
Proof.
  intros Hreach Hop Hrun Hx Hx'. pose proof (reachable_inv m Hreach) as Hinv.
  destruct (fits o) eqn:Hfits.
  - destruct (step_footprint o m m' Hinv Hfits Hop Hrun)
      as (z & c & s' & Hwr & Hz & Hobj & Hw & _ & Hcap & Hdata).
    cbn [this] in *. rewrite Hobj in Hx'. unfold capacity.
    destruct (decide (x = z)) as [->|Hne].
    + rewrite lookup_insert_eq in Hx'. injection Hx' as <-.
      replace b with c by congruence. split_and!; try done.
      rewrite Hwr. intros Hnot. by destruct Hnot; left.
    + rewrite lookup_insert_ne in Hx' by done.
      replace b' with b by congruence. done.
  - (* a reservation whose byte count wraps around *)
    destruct o as [z|z y|z y|z|z y|z v|z v|z|z|z n|z k v|z k|z i j|z];
      try discriminate Hfits.
    pose proof (proj2 (reachable_any_ok m (reachable_reachable_any m Hreach))) as Hb.
    cbn [step writes] in *. unfold call in Hrun.
    destruct (objects m !! z) as [c|] eqn:Hz; [|by destruct Hrun].
    destruct (bool_decide (0 ≤ n < SIZE_MODULUS)); [|by destruct Hrun].
    pose proof (reserve_fields n (State c (mworld m)) Hb) as Hres. unfold ends in Hres.
    assert (Hobj : ∃ s', objects m' = <[z := this s']> (objects m) ∧
              (this s' = c ∨ capacity_ c < n ∧
               ∃ p, this s' = Buffer p (size_ c) n 0 ∧ (n = 0 → p = nullptr))).
    { destruct (reserve n _) as [[] s'|s'|]; [| |by destruct Hrun].
      - destruct Hrun as [[= <-]|[=]]. exists s'. split; [done|]. by destruct Hres.
      - destruct Hrun as [[=]|[= <-]]. exists s'. split; [done|]. by destruct Hres. }
    destruct Hobj as (s' & Hobj & Hthis). cbn [this] in Hthis.
    rewrite Hobj in Hx'. unfold capacity.
    destruct (decide (x = z)) as [->|Hne].
    + rewrite lookup_insert_eq in Hx'. injection Hx' as <-.
      replace b with c by congruence.
      split_and!.
      * destruct Hthis as [->|(Hlt & p & -> & _)]; [done|]. simpl. lia.
      * destruct Hthis as [->|(Hlt & p & -> & _)]; [done|]. simpl. lia.
      * intros Hnot. by destruct Hnot; left.
    + rewrite lookup_insert_ne in Hx' by done.
      replace b' with b by congruence. done.
Qed.

(** ** Defined behaviour *)

Lemma call_safe {A} x pre (f : circular_buffer → M A) m b :
  objects m !! x = Some b → pre b = true → safe (f b) (State b (mworld m)) →
  ∃ m', call x pre f m = Done m' ∨ call x pre f m = Raised m'.
Proof.
  intros Hx Hpre Hsafe. unfold call. rewrite Hx, Hpre. unfold safe in Hsafe.
  destruct (f b (State b (mworld m))) as [a s'|s'|]; [eauto..|done].
Qed.

Lemma call_normal {A} x pre (f : circular_buffer → M A) m b a s' :
  objects m !! x = Some b → pre b = true → f b (State b (mworld m)) = Normal a s' →
  ∃ m', call x pre f m = Done m'.
Proof. intros Hx Hpre Hrun. unfold call. rewrite Hx, Hpre, Hrun. eauto. Qed.

Lemma call_out_of_scope {A} x pre (f : circular_buffer → M A) m :
  objects m !! x = None → call x pre f m = UB.
Proof. intros Hx. unfold call. by rewrite Hx. Qed.

Lemma call_outside {A} x pre (f : circular_buffer → M A) m b :
  objects m !! x = Some b → pre b = false → call x pre f m = UB.
Proof. intros Hx Hpre. unfold call. by rewrite Hx, Hpre. Qed.

Lemma is_Some_lookup_false (objs : gmap nat circular_buffer) x :
  bool_decide (is_Some (objs !! x)) = false → objs !! x = None.
Proof.
  intros H. apply bool_decide_eq_false in H. by apply eq_None_not_Some.
Qed.

Lemma is_Some_lookup_true (objs : gmap nat circular_buffer) x :
  bool_decide (is_Some (objs !! x)) = true → ∃ b, objs !! x = Some b.
Proof. intros H. by apply bool_decide_eq_true in H. Qed.

Lemma step_admissible o m :
  machine_inv m → admissible o m = true →
  ∃ m', step o m = Done m' ∨ (nothrow o = false ∧ step o m = Raised m').
Proof.
  intros Hinv Hadm. pose proof Hinv as (Hwf & Hdis).
  assert (Hweak : ∀ r, nothrow o = false →
            (∃ m', r = Done m' ∨ r = Raised m') →
            ∃ m', r = Done m' ∨ (nothrow o = false ∧ r = Raised m')).
  { intros r Hno (m' & [?|?]); eauto. }
  assert (Hstrong : ∀ r, (∃ m', r = Done m') →
            ∃ m', r = Done m' ∨ (nothrow o = false ∧ r = Raised m')).
  { intros r (m' & ?). eauto. }
  destruct o as [x|x y|x y|x|x y|x v|x v|x|x|x n|x k v|x k|x i j|x];
    cbn [step admissible] in *.
  - (* Default *)
    apply bool_decide_eq_true in Hadm. rewrite Hadm. eauto.
  - (* Copy *)
    apply andb_prop in Hadm as [Hx Hy]. apply bool_decide_eq_true in Hx.
    apply is_Some_lookup_true in Hy as (other & Hy). rewrite Hx, Hy.
    destruct (Hwf _ _ Hy) as (lo & HRo).
    pose proof (copy_constructor_run other (mworld m) lo HRo) as Hspec.
    destruct (copy_constructor other (State default_members (mworld m))) as [[] s'|s'|];
      [eauto..|done].
  - (* Assign *)
    apply andb_prop in Hadm as [Hx Hy].
    apply is_Some_lookup_true in Hx as (b & Hx).
    apply is_Some_lookup_true in Hy as (other & Hy). rewrite Hy.
    apply Hweak; [done|]. eapply call_safe; [done..|].
    destruct (Hwf _ _ Hx) as (l & HR). destruct (Hwf _ _ Hy) as (lo & HRo).
    case_bool_decide as Hxy.
    + unfold safe. rewrite operator_assign_self.
      eapply inplace_good; [done|by eapply inplace_refl].
    + eapply operator_assign_safe; try done.
      intros Heq. destruct (data_ b) as [a|] eqn:Ha; [|done].
      by destruct (Hdis x y b other a).
  - (* Destroy *)
    apply is_Some_lookup_true in Hadm as (b & Hx). rewrite Hx.
    destruct (Hwf _ _ Hx) as (l & HR).
    destruct (destructor_spec (State b (mworld m)) l HR) as (s' & -> & _). eauto.
  - (* Swap *)
    apply andb_prop in Hadm as [Hx Hy].
    apply is_Some_lookup_true in Hx as (b & ->).
    apply is_Some_lookup_true in Hy as (c & ->). eauto.
  - (* PushBack *)
    apply is_Some_lookup_true in Hadm as (b & Hx). destruct (Hwf _ _ Hx) as (l & HR).
    apply Hweak; [done|]. eapply call_safe; [done..|].
    exact (push_back_safe (State b (mworld m)) l v HR).
  - (* PushFront *)
    apply is_Some_lookup_true in Hadm as (b & Hx). destruct (Hwf _ _ Hx) as (l & HR).
    apply Hweak; [done|]. eapply call_safe; [done..|].
    exact (push_front_safe (State b (mworld m)) l v HR).
  - (* PopBack *)
    destruct (objects m !! x) as [b|] eqn:Hx; [|done]. destruct (Hwf _ _ Hx) as (l & HR).
    pose proof (Repr_size _ _ _ HR) as Hsz.
    assert (Hne : size_ b ≠ 0).
    { unfold empty, size in Hadm. by apply negb_true_iff, bool_decide_eq_false in Hadm. }
    destruct (list_snoc_case l) as [->|(l' & e & ->)]; [simpl in *; lia|].
    destruct (pop_back_spec (State b (mworld m)) l' e HR) as (s' & Hrun & _).
    apply Hstrong. by eapply call_normal.
  - (* PopFront *)
    destruct (objects m !! x) as [b|] eqn:Hx; [|done]. destruct (Hwf _ _ Hx) as (l & HR).
    pose proof (Repr_size _ _ _ HR) as Hsz.
    assert (Hne : size_ b ≠ 0).
    { unfold empty, size in Hadm. by apply negb_true_iff, bool_decide_eq_false in Hadm. }
    destruct l as [|e l']; [simpl in *; lia|].
    destruct (pop_front_spec (State b (mworld m)) l' e HR) as (s' & Hrun & _).
    apply Hstrong. by eapply call_normal.
  - (* Reserve *)
    apply andb_prop in Hadm as [Hx Hn].
    apply is_Some_lookup_true in Hx as (b & Hx). destruct (Hwf _ _ Hx) as (l & HR).
    apply bool_decide_eq_true in Hn as [Hn0 Hfit].
    apply Hweak; [done|]. eapply call_safe; [done| |].
    { apply bool_decide_eq_true. pose proof sizeof_pos. split; [done|nia]. }
    exact (reserve_safe (State b (mworld m)) l n HR Hfit).
  - (* Insert *)
    destruct (objects m !! x) as [b|] eqn:Hx; [|done]. destruct (Hwf _ _ Hx) as (l & HR).
    apply Hweak; [done|]. eapply call_safe; [done..|].
    apply bool_decide_eq_true in Hadm.
    exact (insert_safe (State b (mworld m)) l k v HR Hadm).
  - (* Erase *)
    destruct (objects m !! x) as [b|] eqn:Hx; [|done]. destruct (Hwf _ _ Hx) as (l & HR).
    apply Hweak; [done|]. eapply call_safe; [done..|].
    apply bool_decide_eq_true in Hadm.
    exact (erase_one_safe (State b (mworld m)) l k HR Hadm).
  - (* EraseRange *)
    destruct (objects m !! x) as [b|] eqn:Hx; [|done]. destruct (Hwf _ _ Hx) as (l & HR).
    apply Hweak; [done|]. eapply call_safe; [done..|].
    apply bool_decide_eq_true in Hadm. unfold size in Hadm.
    destruct Hadm as (H1 & H2 & H3).
    exact (erase_safe (State b (mworld m)) l i j HR (conj H1 H2) H3).
  - (* Clear *)
    apply is_Some_lookup_true in Hadm as (b & Hx). destruct (Hwf _ _ Hx) as (l & HR).
    destruct (clear_spec (State b (mworld m)) l HR) as (s' & Hrun & _).
    apply Hstrong. by eapply call_normal.
Qed.

Lemma step_inadmissible o m : admissible o m = false → fits o = true → step o m = UB.
Proof.
  intros Hadm Hfits.
  destruct o as [x|x y|x y|x|x y|x v|x v|x|x|x n|x k v|x k|x i j|x];
    cbn [step admissible] in *.
  - apply bool_decide_eq_false in Hadm. by destruct (objects m !! x).
  - apply andb_false_iff in Hadm as [Hx|Hy].
    + apply bool_decide_eq_false in Hx. by destruct (objects m !! x).
    + apply is_Some_lookup_false in Hy. rewrite Hy. by destruct (objects m !! x).
  - apply andb_false_iff in Hadm as [Hx|Hy].
    + apply is_Some_lookup_false in Hx.
      destruct (objects m !! y); [|done]. by apply call_out_of_scope.
    + apply is_Some_lookup_false in Hy. by rewrite Hy.
  - apply is_Some_lookup_false in Hadm. by rewrite Hadm.
  - apply andb_false_iff in Hadm as [Hx|Hy].
    + apply is_Some_lookup_false in Hx. by rewrite Hx.
    + apply is_Some_lookup_false in Hy. rewrite Hy. by destruct (objects m !! x).
  - apply is_Some_lookup_false in Hadm. by apply call_out_of_scope.
  - apply is_Some_lookup_false in Hadm. by apply call_out_of_scope.
  - destruct (objects m !! x) as [b|] eqn:Hx; [|by apply call_out_of_scope].
    by eapply call_outside.
  - destruct (objects m !! x) as [b|] eqn:Hx; [|by apply call_out_of_scope].
    by eapply call_outside.
  - apply andb_false_iff in Hadm as [Hx|Hn].
    + apply is_Some_lookup_false in Hx. by apply call_out_of_scope.
    + destruct (objects m !! x) as [b|] eqn:Hx; [|by apply call_out_of_scope].
      eapply call_outside; [done|]. cbn [fits] in Hfits.
      apply bool_decide_eq_true in Hfits. apply bool_decide_eq_false in Hn.
      apply bool_decide_eq_false. lia.
  - destruct (objects m !! x) as [b|] eqn:Hx; [|by apply call_out_of_scope].
    by eapply call_outside.
  - destruct (objects m !! x) as [b|] eqn:Hx; [|by apply call_out_of_scope].
    by eapply call_outside.
  - destruct (objects m !! x) as [b|] eqn:Hx; [|by apply call_out_of_scope].
    by eapply call_outside.
  - apply is_Some_lookup_false in Hadm. by apply call_out_of_scope.
Qed.

(** In every state that a client whose reservations [fit] can reach, an
    operation called within its precondition has defined behaviour: it
    accesses no slot outside its block, reads no vacant slot and releases no
    block twice.  It returns or, unless the source marks it [nothrow] or
    [noexcept], throws.  Outside the precondition the behaviour is
    undefined; nothing is said there of a reservation that does not fit. *)
Theorem operations_defined (o : op) (m : machine) :
  reachable m →
  if admissible o m
  then ∃ m', step o m = Done m' ∨ (nothrow o = false ∧ step o m = Raised m')
  else fits o = true → step o m = UB.
Proof.
  intros Hreach. destruct (admissible o m) eqn:Hadm.
  - apply step_admissible; [by apply reachable_inv|done].
  - by apply step_inadmissible.
Qed.

(** ** Swap and assignment *)

(** [swap(x, y)] returns, exchanges the two buffers field by field and so
    exchanges their sequences, without touching the store, the other
    objects or any element; doing it twice restores the state, and
    [swap(x, x)] changes nothing. *)
Theorem swap_exchanges (m : machine) (x y : nat) (bx c : circular_buffer) :
  objects m !! x = Some bx → objects m !! y = Some c →
  ∃ m', step (Swap x y) m = Done m' ∧
        objects m' !! x = Some c ∧ objects m' !! y = Some bx ∧
        mworld m' = mworld m ∧
        to_list c (mworld m') = to_list c (mworld m) ∧
        to_list bx (mworld m') = to_list bx (mworld m) ∧
        (∀ z, z ≠ x → z ≠ y → objects m' !! z = objects m !! z) ∧
        step (Swap x y) m' = Done m ∧
        (x = y → m' = m).
Proof.
  intros Hx Hy. cbn [step]. rewrite Hx, Hy, swap_eq. cbn [fst snd].
  eexists. split; [done|]. cbn [objects mworld].
  assert (Hx' : <[y:=bx]> (<[x:=c]> (objects m)) !! x = Some c).
  { destruct (decide (x = y)) as [->|Hne].
    - rewrite lookup_insert_eq. congruence.
    - by rewrite lookup_insert_ne, lookup_insert_eq. }
  assert (Hback : <[y:=c]> (<[x:=bx]> (<[y:=bx]> (<[x:=c]> (objects m)))) = objects m).
  { apply map_eq. intros z.
    destruct (decide (z = y)) as [->|Hzy]; [by rewrite lookup_insert_eq|].
    rewrite lookup_insert_ne by done.
    destruct (decide (z = x)) as [->|Hzx]; [by rewrite lookup_insert_eq|].
    by rewrite !lookup_insert_ne. }
  split_and!; try done.
  - apply lookup_insert_eq.
  - intros z Hzx Hzy. by rewrite !lookup_insert_ne.
  - rewrite Hx', lookup_insert_eq, swap_eq. cbn [fst snd objects mworld].
    rewrite Hback. by destruct m.
  - intros ->. replace c with bx by congruence.
    rewrite insert_insert_eq, insert_id by done. by destruct m.
Qed.

(** The assignment [x = y] between two different buffers has defined
    behaviour.  When it returns, [x] has the capacity, the begin offset, the
    size and the sequence of [y] in a block of its own, [y] is as it was,
    the old elements of [x] were destroyed and its old block released.
    When it throws, [x] and [y] are as before the call, with the blocks
    they had. *)
Theorem assignment_copies (m : machine) (x y : nat) (b other : circular_buffer)
    (l lo : list T) :
  reachable m → x ≠ y →
  objects m !! x = Some b → objects m !! y = Some other →
  to_list b (mworld m) = Some l → to_list other (mworld m) = Some lo →
  match step (Assign x y) m with
  | Done m' =>
      ∃ c, objects m' !! x = Some c ∧ objects m' !! y = Some other ∧
           capacity c = capacity other ∧ begin_ c = begin_ other ∧
           size c = size other ∧
           wf c (mworld m') = true ∧
           to_list c (mworld m') = Some lo ∧
           to_list other (mworld m') = Some lo ∧
           (∀ a, data_ c = Some a → data_ other ≠ Some a) ∧
           (∀ a, data_ b = Some a → heap (mworld m') !! a = None) ∧
           ∃ evs, trace (mworld m') =
                    trace (mworld m) ++ evs ++ (EvDestroy <$> reverse l) ++
                    match data_ b with Some a => [EvDelete a] | None => [] end
  | Raised m' =>
      objects m' = objects m ∧ heap (mworld m') = heap (mworld m) ∧
      to_list b (mworld m') = Some l ∧ to_list other (mworld m') = Some lo
  | UB => False
  end.
Proof.
  intros Hreach Hxy Hx Hy Hl Hlo.
  pose proof (reachable_inv m Hreach) as Hinv. pose proof Hinv as (Hwf & Hdis).
  destruct (Hwf _ _ Hx) as (l0 & HR). destruct (Hwf _ _ Hy) as (lo0 & HRo).
  assert (l0 = l) as -> by (destruct (Repr_wf _ _ _ HR); congruence).
  assert (lo0 = lo) as -> by (destruct (Repr_wf _ _ _ HRo); congruence).
  pose proof (step_sound (Assign x y) m) as Hsound.
  cbn [step] in *. rewrite Hy in *. unfold call in *. rewrite Hx in *.
  rewrite bool_decide_eq_false_2 in * by done.
  pose proof (operator_assign_spec (State b (mworld m)) other l lo HR HRo) as Hspec.
  cbn [this mem] in Hspec.
  pose proof (fresh_heap (heap (mworld m))) as Hfresh.
  pose proof (Repr_fresh _ _ _ HR) as Hne.
  destruct (operator_assign false other (State b (mworld m))) as [[] s'|s'|]; [| |done].
  - destruct Hspec as (Hthis & Hh & _ & Ht).
    destruct (Hsound _ Hinv eq_refl (or_introl eq_refl)) as (_ & Hkept).
    destruct (Hkept y other) as (Hy' & HRo'); [|done|].
    { intros Hin. apply list_elem_of_singleton in Hin. done. }
    cbn [objects mworld] in *.
    destruct (copy_Repr other lo (mworld m)
                (World (copy_heap other (fresh (dom (heap (mworld m)))) lo
                          (heap (mworld m))) [] [])
                (fresh (dom (heap (mworld m)))) HRo Hfresh eq_refl) as (HRc & _).
    assert (HR' : Repr (this s') (mem s') lo).
    { rewrite Hthis. eapply Repr_frame; [exact HRc|].
      intros a Ha. cbn [heap]. rewrite Hh. apply release_lookup.
      unfold copy_of in Ha. simpl in Ha. case_decide; [done|]. congruence. }
    destruct (Repr_wf _ _ _ HR') as (Hwf' & Hl').
    exists (this s'). split_and!; try done; try (by rewrite Hthis).
    + apply lookup_insert_eq.
    + by apply Repr_wf, HRo'.
    + intros a Ha Hoa. rewrite Hthis in Ha. unfold copy_of in Ha. simpl in Ha.
      case_decide; [done|]. injection Ha as <-.
      destruct (Repr_in_heap _ _ _ _ HRo Hoa) as [? ?]. congruence.
    + intros a Ha. rewrite Hh, Ha. simpl. apply lookup_delete_eq.
    + eexists. rewrite Ht. unfold destructor_trace. done.
  - destruct Hspec as (Hthis & Hh & _). cbn [objects mworld].
    split_and!; try done.
    + rewrite Hthis. by apply insert_id.
    + apply Repr_wf. eapply Repr_frame; [done|]. intros. by rewrite Hh.
    + apply Repr_wf. eapply Repr_frame; [done|]. intros. by rewrite Hh.
Qed.

(** ** A buffer without storage *)

(** On a buffer of capacity 0, such as a default-constructed one,
    [pop_back()], [pop_front()], [front()], [back()] and [operator[]] have
    undefined behaviour: the code checks nothing, takes the slot index modulo
    the capacity and reads through the null block pointer. *)
Theorem access_without_storage_undefined (s : state) :
  wf (this s) (mem s) = true → capacity (this s) = 0 →
  pop_back s = Undefined ∧ pop_front s = Undefined ∧
  front s = Undefined ∧ back s = Undefined ∧
  ∀ i, subscript i s = Undefined.
Proof.
  intros Hwf Hc. unfold capacity in Hc.
  assert (Hd : data_ (this s) = None).
  { unfold wf, owns_block, capacity in Hwf.
    repeat (apply andb_prop in Hwf as [Hwf ?]).
    destruct (data_ (this s)) as [a|]; [|done].
    destruct (heap (mem s) !! a); [|done].
    match goal with H : _ && _ = true |- _ => apply andb_prop in H as [Hpos _] end.
    apply bool_decide_eq_true in Hpos. lia. }
  assert (Humod : ∀ x, umod x (capacity_ (this s)) s = Undefined).
  { intros x. unfold umod. by rewrite decide_True. }
  split_and!.
  - unfold pop_back. rewrite bind_get_this, bind_unfold. unfold capacity.
    by rewrite Humod.
  - unfold pop_front. rewrite bind_get_this, Hd. by rewrite bind_unfold.
  - unfold front. rewrite bind_get_this, Hd. done.
  - unfold back. rewrite bind_get_this, bind_unfold. unfold capacity.
    by rewrite Humod.
  - intros i. unfold subscript. rewrite bind_get_this, bind_unfold. unfold capacity.
    by rewrite Humod.
Qed.

(** ** Positional operations at the ends *)

Lemma handle_end_pred b w l :
  Repr b w l → l ≠ [] →
  handle b (template_iterator.sub (end_ b) 1) (Z.of_nat (length l) - 1).
Proof.
  intros HR Hne. pose proof (Repr_bounds _ _ _ HR) as (Hsz & Hc & Hb & _).
  pose proof (Repr_size _ _ _ HR) as Hlen.
  assert (0 < length l)%nat by (destruct l; [done|simpl; lia]).
  rewrite <- Hlen. apply handle_sub; [by eapply handle_end|]. unfold_int. lia.
Qed.

Lemma diff_end_begin b w l :
  Repr b w l → template_iterator.diff (end_ b) (begin b) = size_ b.
Proof.
  intros HR. pose proof (Repr_bounds _ _ _ HR) as (Hsz & Hc & Hb & _).
  rewrite (handle_diff b _ 0 _ (size_ b) (handle_begin _) (handle_end _ _ _ HR));
    unfold_int; lia.
Qed.

Lemma diff_self b it k : handle b it k → template_iterator.diff it it = 0.
Proof.
  intros Hit. rewrite (handle_diff b it k it k Hit Hit); unfold_int; lia.
Qed.

Lemma push_back_full s v :
  size_ (this s) = capacity_ (this s) →
  push_back v s = (insert_with_copy (end_ (this s)) v;; ret tt) s.
Proof.
  intros Hfull. unfold push_back. rewrite bind_get_this. unfold size, capacity.
  by rewrite decide_True.
Qed.

Lemma push_front_full s v :
  size_ (this s) = capacity_ (this s) →
  push_front v s = (insert_with_copy (begin (this s)) v;; ret tt) s.
Proof.
  intros Hfull. unfold push_front. rewrite bind_get_this. unfold size, capacity.
  by rewrite decide_True.
Qed.

(** [insert(end(), v)] is [push_back(v)], returning [end() - 1]; and on a
    buffer that is not empty, [insert(begin(), v)] is [push_front(v)],
    returning [begin()]: same outcome, same state, whether it returns or
    throws, in place or growing. *)
Theorem insert_at_ends (s : state) (l : list T) (v : T) :
  wf (this s) (mem s) = true → to_list (this s) (mem s) = Some l →
  insert (end_ (this s)) v s =
    (push_back v;; b ← get_this; ret (template_iterator.sub (end_ b) 1)) s ∧
  (l ≠ [] →
   insert (begin (this s)) v s = (push_front v;; b ← get_this; ret (begin b)) s).
Proof.
  intros Hwf Hl. pose proof (wf_Repr _ _ _ Hwf Hl) as HR.
  pose proof (Repr_bounds _ _ _ HR) as (Hsz & Hc & Hb & Hb').
  pose proof (Repr_size _ _ _ HR) as Hlen.
  pose proof (handle_end _ _ _ HR) as Hend. rewrite Hlen in Hend.
  assert (Hlen1 : ∀ k, (k ≤ length l)%nat →
            length (take k l ++ v :: drop k l) = S (length l)).
  { intros k Hk. rewrite length_app, length_take. cbn [length]. rewrite length_drop. lia. }
  split.
  - unfold insert. rewrite bind_get_this. unfold size, capacity. cbv zeta.
    destruct (decide (size_ (this s) = capacity_ (this s))) as [Hfull|Hne].
    + pose proof (insert_with_copy_Repr s l _ (length l) v HR Hfull Hend ltac:(lia)) as Hspec.
      rewrite (bind_unfold (push_back v)), (push_back_full s v Hfull), bind_unfold.
      destruct (insert_with_copy (end_ (this s)) v s) as [it s'|s'|]; [|done..].
      destruct Hspec as (HR' & _ & _ & _ & -> & _).
      cbn [ret]. rewrite bind_get_this. unfold ret. f_equal.
      eapply handle_unique; [eapply handle_at; [done|rewrite Hlen1; lia]|].
      replace (Z.of_nat (length l))
        with (Z.of_nat (length (take (length l) l ++ v :: drop (length l) l)) - 1)
        by (rewrite Hlen1; lia).
      eapply handle_end_pred; [done|]. by destruct (take (length l) l).
    + rewrite (diff_end_begin _ _ _ HR), (diff_self _ _ _ Hend).
      rewrite decide_False by lia. rewrite <- bind_assoc'.
      rewrite !(bind_unfold (push_back v)).
      pose proof (push_back_inplace_spec s l v HR Hne) as Hspec.
      case_decide.
      * by rewrite Hspec.
      * destruct Hspec as (s' & -> & Hthis & HR' & _).
        rewrite <- bind_assoc'. rewrite !bind_get_this. rewrite Hthis at 1.
        cbn [size_ set_size_].
        rewrite (to_size_t_small (size_ (this s))) by (unfold_int; lia).
        replace (size_ (this s) + 1 - size_ (this s) - 1) with 0 by lia.
        change (Z.to_nat (to_size_t 0)) with 0%nat. cbn [insert_back_loop].
        rewrite bind_ret, bind_get_this. unfold ret. f_equal.
        rewrite to_ptrdiff_t_small by (unfold_int; lia).
        rewrite Hlen.
        eapply handle_unique; [eapply handle_at; [done|rewrite length_app; simpl; lia]|].
        replace (Z.of_nat (length l)) with (Z.of_nat (length (l ++ [v])) - 1)
          by (rewrite length_app; simpl; lia).
        eapply handle_end_pred; [done|]. by destruct l.
  - intros Hne0. assert (0 < length l)%nat by (destruct l; [done|simpl; lia]).
    unfold insert. rewrite bind_get_this. unfold size, capacity. cbv zeta.
    destruct (decide (size_ (this s) = capacity_ (this s))) as [Hfull|Hne].
    + pose proof (insert_with_copy_Repr s l _ 0 v HR Hfull (handle_begin _) ltac:(lia))
        as Hspec.
      rewrite (bind_unfold (push_front v)), (push_front_full s v Hfull), bind_unfold.
      destruct (insert_with_copy (begin (this s)) v s) as [it s'|s'|]; [|done..].
      destruct Hspec as (HR' & _ & _ & _ & -> & _).
      cbn [ret]. rewrite bind_get_this. unfold ret. f_equal.
      eapply handle_unique; [eapply (handle_at _ _ _ 0); [done|lia]|apply handle_begin].
    + rewrite (diff_self _ _ _ (handle_begin (this s))).
      pose proof (diff_end_begin _ _ _ HR) as Hd. rewrite Hd.
      rewrite decide_True by lia. rewrite <- bind_assoc'.
      rewrite !(bind_unfold (push_front v)).
      pose proof (push_front_inplace_spec s l v HR Hne) as Hspec.
      case_decide.
      * by rewrite Hspec.
      * destruct Hspec as (s' & -> & Hthis & HR' & _).
        rewrite <- bind_assoc'. rewrite !bind_get_this.
        change (Z.to_nat (to_size_t 0)) with 0%nat. cbn [insert_front_loop].
        rewrite bind_ret, bind_get_this. unfold ret. f_equal.
        change (to_ptrdiff_t (to_size_t 0)) with 0.
        eapply handle_unique; [eapply (handle_at _ _ _ 0); [done|simpl; lia]|].
        apply handle_begin.
Qed.

(** [erase(end() - 1)] is [pop_back()], returning [end()]; [erase(begin())]
    is [pop_front()], returning [begin()], when the buffer holds at least
    two elements, and [pop_back()] when it holds exactly one (the tie goes
    to the back): same outcome and same state. *)
Theorem erase_at_ends (s : state) (l : list T) :
  wf (this s) (mem s) = true → to_list (this s) (mem s) = Some l → l ≠ [] →
  erase_one (template_iterator.sub (end_ (this s)) 1) s =
    (pop_back;; b ← get_this; ret (end_ b)) s ∧
  erase_one (begin (this s)) s =
    ((if decide (length l = 1%nat) then pop_back else pop_front);;
     b ← get_this; ret (begin b)) s.
Proof.
  intros Hwf Hl Hne0. pose proof (wf_Repr _ _ _ Hwf Hl) as HR.
  pose proof (Repr_bounds _ _ _ HR) as (Hsz & Hc & Hb & Hb').
  pose proof (Repr_size _ _ _ HR) as Hlen.
  assert (Hpos : (0 < length l)%nat) by (destruct l; [done|simpl; lia]).
  pose proof (handle_end _ _ _ HR) as Hend. rewrite Hlen in Hend.
  pose proof (handle_end_pred _ _ _ HR Hne0) as Hlast.
  pose proof (handle_begin (this s)) as Hbegin.
  assert (Hone : ∀ it k, handle (this s) it k → 0 ≤ k < Z.of_nat (length l) →
            handle (this s) (template_iterator.add it 1) (k + 1)).
  { intros it k Hit Hk. apply handle_add; [done|unfold_int; lia]. }
  split.
  - unfold erase_one, erase. rewrite bind_get_this. cbv zeta.
    pose proof (Hone _ _ Hlast ltac:(lia)) as Hlast1.
    replace (Z.of_nat (length l) - 1 + 1) with (Z.of_nat (length l)) in Hlast1 by lia.
    rewrite (handle_unique _ _ _ _ Hlast1 Hend).
    rewrite (handle_diff _ _ _ _ _ Hbegin Hlast) by (unfold_int; lia).
    rewrite (diff_self _ _ _ Hend).
    rewrite decide_False by lia.
    change (Z.to_nat 0) with 0%nat. cbn [erase_back_loop].
    rewrite <- !bind_assoc'. rewrite bind_get_this.
    assert (Hlt : template_iterator.ltb (end_ (this s)) (end_ (this s)) = false).
    { unfold template_iterator.ltb. rewrite (diff_self _ _ _ Hend).
      rewrite (bool_decide_eq_false_2 (0 < 0)) by lia. apply andb_false_r. }
    rewrite Hlt, bind_ret.
    rewrite (handle_diff _ _ _ _ _ Hlast Hend) by (unfold_int; lia).
    replace (Z.of_nat (length l) - (Z.of_nat (length l) - 1)) with 1 by lia.
    change (Z.to_nat 1) with 1%nat. cbn [repeat_pop].
    rewrite <- !bind_assoc'. rewrite !(bind_unfold pop_back).
    destruct (list_snoc_case l) as [->|(l' & x & ->)]; [done|].
    destruct (pop_back_spec s l' x HR) as (s' & -> & Hthis & HR' & _).
    rewrite bind_ret, !bind_get_this. unfold ret. f_equal.
    replace (Z.of_nat (length (l' ++ [x])) - 1 - 0) with (Z.of_nat (length l'))
      by (rewrite length_app; simpl; lia).
    eapply handle_unique; [eapply handle_at; [done|lia]|].
    rewrite <- (Repr_size _ _ _ HR'). by eapply handle_end.
  - unfold erase_one, erase. rewrite bind_get_this. cbv zeta.
    pose proof (Hone _ _ Hbegin ltac:(lia)) as Hsecond. simpl in Hsecond.
    rewrite (diff_self _ _ _ Hbegin).
    rewrite (handle_diff _ _ _ _ _ Hsecond Hend) by (unfold_int; lia).
    pose proof (handle_diff _ _ _ _ _ Hbegin Hsecond ltac:(unfold_int; lia)) as Hdist.
    destruct (decide (length l = 1%nat)) as [Hlen1|Hlen1].
    + rewrite decide_False by lia.
      replace (Z.of_nat (length l) - (0 + 1)) with 0 by lia.
      change (Z.to_nat 0) with 0%nat. cbn [erase_back_loop].
      rewrite <- !bind_assoc'. rewrite bind_get_this.
      assert (Hlt : template_iterator.ltb (template_iterator.add (begin (this s)) 1)
                      (end_ (this s)) = false).
      { unfold template_iterator.ltb.
        rewrite (handle_diff _ _ _ _ _ Hsecond Hend) by (unfold_int; lia).
        rewrite (bool_decide_eq_false_2 (0 < _)) by lia. apply andb_false_r. }
      rewrite Hlt, bind_ret. rewrite Hdist.
      change (Z.to_nat (0 + 1 - 0)) with 1%nat. cbn [repeat_pop].
      rewrite <- !bind_assoc'. rewrite !(bind_unfold pop_back).
      destruct (list_snoc_case l) as [->|(l' & x & ->)]; [done|].
      destruct (pop_back_spec s l' x HR) as (s' & -> & Hthis & HR' & _).
      rewrite bind_ret, !bind_get_this. unfold ret. f_equal.
      eapply handle_unique; [|apply handle_begin].
      eapply (handle_at _ _ _ 0); [done|lia].
    + rewrite decide_True by lia.
      change (Z.to_nat 0) with 0%nat. cbn [erase_front_loop].
      rewrite <- !bind_assoc'. rewrite bind_get_this.
      assert (Hgt : template_iterator.gtb (begin (this s)) (begin (this s)) = false).
      { unfold template_iterator.gtb, template_iterator.ltb.
        rewrite (diff_self _ _ _ Hbegin).
        rewrite (bool_decide_eq_false_2 (0 < 0)) by lia. apply andb_false_r. }
      rewrite Hgt, bind_ret. rewrite Hdist.
      change (Z.to_nat (0 + 1 - 0)) with 1%nat. cbn [repeat_pop].
      rewrite <- !bind_assoc'. rewrite !(bind_unfold pop_front).
      destruct l as [|x l']; [done|].
      destruct (pop_front_spec s l' x HR) as (s' & -> & Hthis & HR' & _).
      rewrite bind_ret, !bind_get_this. unfold ret. f_equal.
      eapply handle_unique; [|apply handle_begin].
      eapply (handle_at _ _ _ 0); [done|lia].
Qed.

(** [erase(first, last)] closes the gap from the shorter side: when fewer
    elements precede the range than follow it, the begin offset advances by
    the number of elements erased (modulo the capacity), so the elements
    after the range keep their slots; otherwise (ties included) the begin
    offset stays, so the elements before the range keep theirs.  The block
    is never replaced. *)
Theorem erase_shifts_shorter_side (s : state) (l : list T) (i j : nat) :
  wf (this s) (mem s) = true → to_list (this s) (mem s) = Some l →
  (i ≤ j ≤ length l)%nat →
  ∃ it s',
    erase (template_iterator.add (begin (this s)) (Z.of_nat i))
      (template_iterator.add (begin (this s)) (Z.of_nat j)) s = Normal it s' ∧
    data_ (this s') = data_ (this s) ∧
    begin_ (this s') =
      (if decide (i < length l - j)%nat
       then (begin_ (this s) + Z.of_nat (j - i)) mod capacity (this s)
       else begin_ (this s)) ∧
    ∀ (t : nat) v, (take i l ++ drop j l) !! t = Some v →
      subscript (Z.of_nat t) s' = Normal v s' ∧
      subscript (Z.of_nat (if decide (t < i)%nat then t else t + (j - i))%nat) s =
        Normal v s ∧
      ((i < length l - j)%nat → (i ≤ t)%nat →
       (begin_ (this s') + Z.of_nat t) mod capacity (this s) =
       (begin_ (this s) + Z.of_nat (t + (j - i))) mod capacity (this s)).
Proof.
  intros Hwf Hl Hij. unfold capacity.
  pose proof (wf_Repr _ _ _ Hwf Hl) as HR.
  pose proof (Repr_bounds _ _ _ HR) as (Hsz & Hc & Hb & Hb').
  destruct (erase_range_spec s l i j HR Hij) as (s' & evs & Hrun & HR' & Hthis & Hin & _).
  eexists _, s'. split; [exact Hrun|].
  assert (Hbegin : begin_ (this s') =
            if decide (i < length l - j)%nat
            then (begin_ (this s) + Z.of_nat (j - i)) mod capacity_ (this s)
            else begin_ (this s)).
  { rewrite Hthis. by case_decide. }
  split_and!; try done.
  - by destruct Hin as (? & _).
  - intros t v Ht. split_and!.
    + by eapply subscript_eq.
    + eapply subscript_eq; [done|]. destruct (decide (t < i)%nat) as [Hti|Hti].
      * rewrite lookup_app_l in Ht by (rewrite length_take; lia).
        by rewrite lookup_take_lt in Ht.
      * rewrite lookup_app_r in Ht by (rewrite length_take; lia).
        rewrite length_take, lookup_drop in Ht. rewrite <- Ht. f_equal. lia.
    + intros Hfront Hti. rewrite Hbegin, decide_True by done.
      rewrite Zplus_mod_idemp_l. f_equal. lia.
Qed.

(** Copying a buffer of capacity 0 allocates nothing and cannot fail: the
    copy is a default-constructed buffer and the store, the fault schedule
    and the trace are untouched. *)
Theorem copy_without_storage (m : machine) (x y : nat) (other : circular_buffer) :
  reachable m → objects m !! x = None → objects m !! y = Some other →
  capacity other = 0 →
  step (Copy x y) m = Done (Machine (<[x := default_members]> (objects m)) (mworld m)).
Proof.
  intros Hreach Hx Hy Hc0. unfold capacity in Hc0.
  destruct (proj1 (reachable_inv m Hreach) y other Hy) as (l & HR).
  destruct (Repr_null _ _ _ HR Hc0) as (Hd & -> & Hbg).
  pose proof (Repr_size _ _ _ HR) as Hsz.
  destruct other as [d sz c bg]. simpl in *. subst.
  cbn [step]. rewrite Hx, Hy. destruct (mworld m) as [h f t] eqn:Hw.
  unfold copy_constructor.
  rewrite bind_unfold, constructor_capacity_run by (rewrite ?Z.mul_0_r; done).
  cbn. done.
Qed.

End circular_buffer.


Arguments circular_buffer : clear implicits.
Arguments world : clear implicits.
Arguments state : clear implicits.
Arguments event : clear implicits.
Arguments outcome : clear implicits.
Arguments M : clear implicits.
Arguments Normal {T A} a s.
Arguments Thrown {T A} s.
Arguments Undefined {T A}.
Arguments EvNew {T} a slots.
Arguments EvDelete {T} a.

(** * The theorems at concrete buffers of integers

    The buffer used below owns block 0 of four slots, with the run
    [1; 2; 3] starting at slot 3: slots [2; 3; vacant; 1]. *)

Lemma insert_with_spare_capacity_witness :
  ∃ it s',
    insert (template_iterator.add (template_iterator.mk (Some 0%nat) 3 4) 1) 9
      (State (Buffer (Some 0%nat) 3 4 3)
         (World {[0%nat := [Some 2; Some 3; None; Some 1]]} [] [])) = Normal it s' ∧
    to_list (this s') (mem s') = Some [1; 9; 2; 3] ∧
    begin_ (this s') = 2.
Proof.
  destruct (insert_with_spare_capacity
              (State (Buffer (Some 0%nat) 3 4 3)
                 (World {[0%nat := [Some 2; Some 3; None; Some 1]]} [] []))
              [1; 2; 3] 1 9)
    as (it & s' & Hrun & _ & Hl & _ & _ & Hb & _).
  - vm_compute. reflexivity.
  - vm_compute. reflexivity.
  - vm_compute. reflexivity.
  - simpl. lia.
  - vm_compute. discriminate.
  - exists it, s'. split; [exact Hrun|]. split; [exact Hl|]. exact Hb.
Defined.

Lemma erase_range_removes_witness :
  ∃ it s',
    erase (template_iterator.add (template_iterator.mk (Some 0%nat) 3 4) 1)
      (template_iterator.add (template_iterator.mk (Some 0%nat) 3 4) 2)
      (State (Buffer (Some 0%nat) 3 4 3)
         (World {[0%nat := [Some 2; Some 3; None; Some 1]]} [] [])) = Normal it s' ∧
    to_list (this s') (mem s') = Some [1; 3] ∧
    capacity (this s') = 4 ∧
    deref it s' = Normal 3 s'.
Proof.
  destruct (erase_range_removes
              (State (Buffer (Some 0%nat) 3 4 3)
                 (World {[0%nat := [Some 2; Some 3; None; Some 1]]} [] []))
              [1; 2; 3] 1 2)
    as (it & s' & Hrun & _ & Hl & Hc & _ & _ & _ & Hv).
  - vm_compute. reflexivity.
  - vm_compute. reflexivity.
  - simpl. lia.
  - exists it, s'. split; [exact Hrun|]. split; [exact Hl|]. split; [exact Hc|].
    apply Hv. reflexivity.
Defined.

Lemma erase_empty_range_witness :
  ∃ it s',
    erase (template_iterator.add (template_iterator.mk (Some 0%nat) 3 4) 1)
      (template_iterator.add (template_iterator.mk (Some 0%nat) 3 4) 1)
      (State (Buffer (Some 0%nat) 3 4 3)
         (World {[0%nat := [Some 2; Some 3; None; Some 1]]} [] [])) = Normal it s' ∧
    this s' = Buffer (Some 0%nat) 3 4 3 ∧
    to_list (this s') (mem s') = Some [1; 2; 3] ∧
    it = template_iterator.mk (Some 0%nat) 4 4.
Proof.
  destruct (erase_empty_range
              (State (Buffer (Some 0%nat) 3 4 3)
                 (World {[0%nat := [Some 2; Some 3; None; Some 1]]} [] []))
              [1; 2; 3] 1)
    as (it & s' & Hrun & Hthis & _ & Hl & _ & Hit & _).
  - vm_compute. reflexivity.
  - vm_compute. reflexivity.
  - simpl. lia.
  - exists it, s'. split; [exact Hrun|]. split; [exact Hthis|]. split; [exact Hl|].
    exact Hit.
Defined.

Lemma self_assignment_is_noop_witness :
  step (Assign 0 0)
    (Machine {[0%nat := Buffer (Some 0%nat) 3 4 3]}
       (World {[0%nat := [Some 2; Some 3; None; Some 1]]} [] [])) =
  Done
    (Machine {[0%nat := Buffer (Some 0%nat) 3 4 3]}
       (World {[0%nat := [Some 2; Some 3; None; Some 1]]} [] [])).
Proof.
  apply (self_assignment_is_noop
           (Machine {[0%nat := Buffer (Some 0%nat) 3 4 3]}
              (World {[0%nat := [Some 2; Some 3; None; Some 1]]} [] []))
           0%nat (Buffer (Some 0%nat) 3 4 3)).
  vm_compute. reflexivity.
Defined.

(** C8 at a buffer of [int] after [reserve(2^62)], whose byte count wraps
    around to 0. *)
Lemma reachable_size_le_capacity_witness :
  reachable_any
    (Machine {[0%nat := Buffer (Some 0%nat) 0 (2 ^ 62) 0]}
       (World (T:=Z) {[0%nat := []]} [] [EvNew 0%nat 0])) ∧
  0 ≤ size (Buffer (Some 0%nat) 0 (2 ^ 62) 0) ≤ capacity (Buffer (Some 0%nat) 0 (2 ^ 62) 0).
Proof.
  assert (Hreach : reachable_any
            (Machine {[0%nat := Buffer (Some 0%nat) 0 (2 ^ 62) 0]}
               (World (T:=Z) {[0%nat := []]} [] [EvNew 0%nat 0]))).
  { apply (reachable_any_done (Reserve 0 (2 ^ 62))
             (Machine {[0%nat := Buffer nullptr 0 0 0]} (World ∅ [] []))).
    - apply (reachable_any_done (Default 0) (Machine ∅ (World ∅ [] []))).
      + apply (reachable_any_init []).
      + vm_compute. reflexivity.
    - vm_compute. reflexivity. }
  split; [exact Hreach|].
  destruct (reachable_size_le_capacity
              (Machine {[0%nat := Buffer (Some 0%nat) 0 (2 ^ 62) 0]}
                 (World {[0%nat := []]} [] [EvNew 0%nat 0]))
              0%nat (Buffer (Some 0%nat) 0 (2 ^ 62) 0) Hreach) as (Hle & _).
  - vm_compute. reflexivity.
  - exact Hle.
Defined.




Lemma destructor_back_to_front_witness :
  ∃ s',
    destructor
      (State (Buffer (Some 0%nat) 3 4 3)
         (World {[0%nat := [Some 2; Some 3; None; Some 1]]} [] [])) = Normal tt s' ∧
    trace (mem s') = [EvDestroy 3; EvDestroy 2; EvDestroy 1; EvDelete 0%nat] ∧
    heap (mem s') = ∅.
Proof.
  destruct (destructor_back_to_front
              (State (Buffer (Some 0%nat) 3 4 3)
                 (World {[0%nat := [Some 2; Some 3; None; Some 1]]} [] []))
              [1; 2; 3]) as (s' & Hrun & Ht & Hh).
  - vm_compute. reflexivity.
  - vm_compute. reflexivity.
  - exists s'. split; [exact Hrun|]. split; [exact Ht|]. rewrite Hh. reflexivity.
Defined.

(** C7, as the specification words it, fails: the destructor of the buffer
    holding [1; 2] destroys 2 before 1. *)
Lemma destructor_not_front_to_back :
  to_list (Buffer (Some 0%nat) 2 2 0) (World {[0%nat := [Some 1; Some 2]]} [] []) =
    Some [1; 2] ∧
  ∃ s',
    destructor
      (State (Buffer (Some 0%nat) 2 2 0) (World {[0%nat := [Some 1; Some 2]]} [] [])) =
      Normal tt s' ∧
    trace (mem s') = [EvDestroy 2; EvDestroy 1; EvDelete 0%nat] ∧
    trace (mem s') ≠ (EvDestroy <$> [1; 2]) ++ [EvDelete 0%nat].
Proof.
  split; [vm_compute; reflexivity|].
  eexists. split; [vm_compute; reflexivity|].
  split; [reflexivity|]. cbn. discriminate.
Qed.

Lemma copy_is_deep_witness :
  ∃ m' c,
    step (Copy 1 0)
      (Machine {[0%nat := Buffer (Some 0%nat) 1 1 0]}
         (World {[0%nat := [Some 5]]} [] [EvNew 0%nat 1])) = Done m' ∧
    objects m' !! 1%nat = Some c ∧
    capacity c = 1 ∧
    to_list c (mworld m') = Some [5] ∧
    ∀ m'', steps [PushBack 0 6; PopFront 0] m' m'' →
           objects m'' !! 1%nat = Some c ∧ to_list c (mworld m'') = Some [5].
Proof.
  assert (Hreach : reachable
            (Machine {[0%nat := Buffer (Some 0%nat) 1 1 0]}
               (World {[0%nat := [Some 5]]} [] [EvNew 0%nat 1]))).
  { apply (reachable_done (PushBack 0 5)
             (Machine {[0%nat := Buffer nullptr 0 0 0]} (World ∅ [] []))).
    - apply (reachable_done (Default 0) (Machine ∅ (World ∅ [] []))).
      + apply (reachable_init []).
      + reflexivity.
      + vm_compute. reflexivity.
    - reflexivity.
    - vm_compute. reflexivity. }
  pose proof (copy_is_deep
                (Machine {[0%nat := Buffer (Some 0%nat) 1 1 0]}
                   (World {[0%nat := [Some 5]]} [] [EvNew 0%nat 1]))
                1%nat 0%nat (Buffer (Some 0%nat) 1 1 0) [5] Hreach) as Hcopy.
  assert (Hrun : step (Copy 1 0)
            (Machine {[0%nat := Buffer (Some 0%nat) 1 1 0]}
               (World {[0%nat := [Some 5]]} [] [EvNew 0%nat 1])) =
          Done (Machine {[0%nat := Buffer (Some 0%nat) 1 1 0;
                          1%nat := Buffer (Some 1%nat) 1 1 0]}
                  (World {[0%nat := [Some 5]; 1%nat := [Some 5]]} []
                     [EvNew 0%nat 1; EvNew 1%nat 1]))).
  { vm_compute. reflexivity. }
  rewrite Hrun in Hcopy.
  destruct Hcopy as (c & Hc & _ & Hcap & _ & _ & Hl & _ & _ & Hdeep).
  - vm_compute. reflexivity.
  - vm_compute. reflexivity.
  - vm_compute. reflexivity.
  - eexists _, c. split; [reflexivity|]. split; [exact Hc|]. split; [exact Hcap|].
    split; [exact Hl|]. intros m'' Hsteps.
    apply (Hdeep _ _ Hsteps). intros o Ho.
    apply elem_of_cons in Ho as [->|Ho].
    { cbn [writes]. intros Hin. apply list_elem_of_singleton in Hin. discriminate. }
    apply elem_of_cons in Ho as [->|Ho].
    { cbn [writes]. intros Hin. apply list_elem_of_singleton in Hin. discriminate. }
    by apply elem_of_nil in Ho.
Defined.

Lemma growth_doubles_capacity_witness :
  (∃ s', push_back 7 (State default_members (World ∅ [] [])) = Normal tt s' ∧
         capacity (this s') = 1) ∧
  ∃ s', push_back_all [1; 2; 3; 4; 5] (State default_members (World ∅ [] [])) =
          Normal tt s' ∧
        to_list (this s') (mem s') = Some [1; 2; 3; 4; 5] ∧
        capacity (this s') = 8.
Proof.
  destruct (growth_doubles_capacity (State default_members (World ∅ [] [])) [] 7 0)
    as (Hgrow & _ & Hseq & _).
  - vm_compute. reflexivity.
  - vm_compute. reflexivity.
  - simpl. lia.
  - split.
    + destruct Hgrow as (Hcap & Hprog); [reflexivity|].
      destruct Hprog as ((s' & Hrun) & _); [reflexivity|vm_compute; discriminate|].
      exists s'. split; [exact Hrun|].
      destruct (Hcap (template_iterator.mk None 0 0) s' (or_introl Hrun)) as (-> & _).
      reflexivity.
    + destruct (Hseq eq_refl eq_refl [1; 2; 3; 4; 5]) as (s' & Hrun & Hl & Hcap).
      * vm_compute. discriminate.
      * exists s'. split; [exact Hrun|]. split; [exact Hl|]. rewrite Hcap. reflexivity.
Defined.

(** * The further theorems at concrete buffers of integers *)

Lemma push_back_appends_witness :
  ∃ s',
    push_back 9
      (State (Buffer (Some 0%nat) 3 4 3)
         (World {[0%nat := [Some 2; Some 3; None; Some 1]]} [] [])) = Normal tt s' ∧
    to_list (this s') (mem s') = Some [1; 2; 3; 9] ∧
    this s' = Buffer (Some 0%nat) 4 4 3.
Proof.
  destruct (push_back_appends
              (State (Buffer (Some 0%nat) 3 4 3)
                 (World {[0%nat := [Some 2; Some 3; None; Some 1]]} [] []))
              [1; 2; 3] 9) as (Hpost & Hprog).
  - vm_compute. reflexivity.
  - vm_compute. reflexivity.
  - destruct Hprog as (s' & Hrun); [vm_compute; reflexivity|vm_compute; discriminate|].
    destruct (Hpost s' Hrun) as (_ & Hl & _ & Hthis).
    exists s'. split; [exact Hrun|]. split; [exact Hl|].
    apply Hthis. vm_compute. reflexivity.
Defined.

Lemma push_front_prepends_witness :
  ∃ s',
    push_front 9
      (State (Buffer (Some 0%nat) 3 4 3)
         (World {[0%nat := [Some 2; Some 3; None; Some 1]]} [] [])) = Normal tt s' ∧
    to_list (this s') (mem s') = Some [9; 1; 2; 3] ∧
    this s' = Buffer (Some 0%nat) 4 4 2.
Proof.
  destruct (push_front_prepends
              (State (Buffer (Some 0%nat) 3 4 3)
                 (World {[0%nat := [Some 2; Some 3; None; Some 1]]} [] []))
              [1; 2; 3] 9) as (Hpost & Hprog).
  - vm_compute. reflexivity.
  - vm_compute. reflexivity.
  - destruct Hprog as (s' & Hrun); [vm_compute; reflexivity|vm_compute; discriminate|].
    destruct (Hpost s' Hrun) as (_ & Hl & _ & Hthis).
    exists s'. split; [exact Hrun|]. split; [exact Hl|].
    apply Hthis. vm_compute. reflexivity.
Defined.

Lemma pop_back_removes_last_witness :
  ∃ s',
    pop_back
      (State (Buffer (Some 0%nat) 3 4 3)
         (World {[0%nat := [Some 2; Some 3; None; Some 1]]} [] [])) = Normal tt s' ∧
    to_list (this s') (mem s') = Some [1; 2] ∧
    trace (mem s') = [EvDestroy 3].
Proof.
  destruct (pop_back_removes_last
              (State (Buffer (Some 0%nat) 3 4 3)
                 (World {[0%nat := [Some 2; Some 3; None; Some 1]]} [] []))
              [1; 2] 3) as (s' & Hrun & _ & Hl & _ & Ht & _).
  - vm_compute. reflexivity.
  - vm_compute. reflexivity.
  - exists s'. split; [exact Hrun|]. split; [exact Hl|exact Ht].
Defined.

Lemma pop_front_removes_first_witness :
  ∃ s',
    pop_front
      (State (Buffer (Some 0%nat) 3 4 3)
         (World {[0%nat := [Some 2; Some 3; None; Some 1]]} [] [])) = Normal tt s' ∧
    to_list (this s') (mem s') = Some [2; 3] ∧
    this s' = Buffer (Some 0%nat) 2 4 0.
Proof.
  destruct (pop_front_removes_first
              (State (Buffer (Some 0%nat) 3 4 3)
                 (World {[0%nat := [Some 2; Some 3; None; Some 1]]} [] []))
              [2; 3] 1) as (s' & Hrun & _ & Hl & Hthis & _).
  - vm_compute. reflexivity.
  - vm_compute. reflexivity.
  - exists s'. split; [exact Hrun|]. split; [exact Hl|exact Hthis].
Defined.

Lemma element_access_witness :
  subscript 2
    (State (Buffer (Some 0%nat) 3 4 3)
       (World {[0%nat := [Some 2; Some 3; None; Some 1]]} [] [])) =
  Normal 3
    (State (Buffer (Some 0%nat) 3 4 3)
       (World {[0%nat := [Some 2; Some 3; None; Some 1]]} [] [])) ∧
  front
    (State (Buffer (Some 0%nat) 3 4 3)
       (World {[0%nat := [Some 2; Some 3; None; Some 1]]} [] [])) =
  Normal 1
    (State (Buffer (Some 0%nat) 3 4 3)
       (World {[0%nat := [Some 2; Some 3; None; Some 1]]} [] [])).
Proof.
  destruct (element_access
              (State (Buffer (Some 0%nat) 3 4 3)
                 (World {[0%nat := [Some 2; Some 3; None; Some 1]]} [] []))
              [1; 2; 3]) as (Hsub & Hfront & _).
  - vm_compute. reflexivity.
  - vm_compute. reflexivity.
  - split.
    + apply (Hsub 2%nat 3). reflexivity.
    + apply Hfront. reflexivity.
Defined.

Lemma clear_keeps_block_witness :
  ∃ s',
    clear
      (State (Buffer (Some 0%nat) 3 4 3)
         (World {[0%nat := [Some 2; Some 3; None; Some 1]]} [] [])) = Normal tt s' ∧
    this s' = Buffer (Some 0%nat) 0 4 3 ∧
    trace (mem s') = [EvDestroy 3; EvDestroy 2; EvDestroy 1].
Proof.
  destruct (clear_keeps_block
              (State (Buffer (Some 0%nat) 3 4 3)
                 (World {[0%nat := [Some 2; Some 3; None; Some 1]]} [] []))
              [1; 2; 3]) as (s' & Hrun & Hthis & _ & _ & Ht & _).
  - vm_compute. reflexivity.
  - vm_compute. reflexivity.
  - exists s'. split; [exact Hrun|]. split; [exact Hthis|exact Ht].
Defined.

Lemma insert_when_full_witness :
  ∃ it s',
    insert (template_iterator.add (template_iterator.mk (Some 0%nat) 1 2) 1) 9
      (State (Buffer (Some 0%nat) 2 2 1) (World {[0%nat := [Some 2; Some 1]]} [] [])) =
      Normal it s' ∧
    to_list (this s') (mem s') = Some [1; 9; 2] ∧
    begin_ (this s') = 0 ∧
    deref it s' = Normal 9 s'.
Proof.
  destruct (insert_when_full
              (State (Buffer (Some 0%nat) 2 2 1)
                 (World {[0%nat := [Some 2; Some 1]]} [] []))
              [1; 2] 1 9) as (Hpost & Hprog).
  - vm_compute. reflexivity.
  - vm_compute. reflexivity.
  - reflexivity.
  - simpl. lia.
  - destruct Hprog as (it & s' & Hrun); [reflexivity|vm_compute; discriminate|].
    destruct (Hpost it s' Hrun) as (_ & Hl & Hb & _ & _ & Hd & _).
    exists it, s'. split; [exact Hrun|]. split; [exact Hl|]. split; [exact Hb|exact Hd].
Defined.

Lemma erase_one_removes_witness :
  ∃ it s',
    erase_one (template_iterator.add (template_iterator.mk (Some 0%nat) 3 4) 1)
      (State (Buffer (Some 0%nat) 3 4 3)
         (World {[0%nat := [Some 2; Some 3; None; Some 1]]} [] [])) = Normal it s' ∧
    to_list (this s') (mem s') = Some [1; 3] ∧
    deref it s' = Normal 3 s'.
Proof.
  destruct (erase_one_removes
              (State (Buffer (Some 0%nat) 3 4 3)
                 (World {[0%nat := [Some 2; Some 3; None; Some 1]]} [] []))
              [1; 2; 3] 1 2) as (it & s' & Hrun & _ & Hl & _ & _ & _ & _ & Hd & _).
  - vm_compute. reflexivity.
  - vm_compute. reflexivity.
  - reflexivity.
  - exists it, s'. split; [exact Hrun|]. split; [exact Hl|]. apply Hd. reflexivity.
Defined.

Lemma push_pop_round_trip_witness :
  ∃ s1 s2,
    push_front 9
      (State (Buffer (Some 0%nat) 3 4 3)
         (World {[0%nat := [Some 2; Some 3; None; Some 1]]} [] [])) = Normal tt s1 ∧
    pop_front s1 = Normal tt s2 ∧
    to_list (this s2) (mem s2) = Some [1; 2; 3] ∧
    this s2 = Buffer (Some 0%nat) 3 4 3.
Proof.
  destruct (push_pop_round_trip
              (State (Buffer (Some 0%nat) 3 4 3)
                 (World {[0%nat := [Some 2; Some 3; None; Some 1]]} [] []))
              [1; 2; 3] 9) as (_ & Hfront).
  - vm_compute. reflexivity.
  - vm_compute. reflexivity.
  - destruct (Hfront
                (State (Buffer (Some 0%nat) 4 4 2)
                   (World {[0%nat := [Some 2; Some 3; Some 9; Some 1]]} [] [])))
      as (s2 & Hpop & _ & Hl & Hthis).
    + vm_compute. reflexivity.
    + eexists _, s2. split; [vm_compute; reflexivity|]. split; [exact Hpop|].
      split; [exact Hl|]. apply Hthis. vm_compute. reflexivity.
Defined.

Lemma insert_erase_round_trip_witness :
  ∃ it s1 it' s2,
    insert (template_iterator.add (template_iterator.mk (Some 0%nat) 3 4) 1) 9
      (State (Buffer (Some 0%nat) 3 4 3)
         (World {[0%nat := [Some 2; Some 3; None; Some 1]]} [] [])) = Normal it s1 ∧
    erase_one it s1 = Normal it' s2 ∧
    to_list (this s2) (mem s2) = Some [1; 2; 3].
Proof.
  destruct (insert_with_spare_capacity
              (State (Buffer (Some 0%nat) 3 4 3)
                 (World {[0%nat := [Some 2; Some 3; None; Some 1]]} [] []))
              [1; 2; 3] 1 9) as (it & s1 & Hrun & _).
  - vm_compute. reflexivity.
  - vm_compute. reflexivity.
  - vm_compute. reflexivity.
  - simpl. lia.
  - vm_compute. discriminate.
  - destruct (insert_erase_round_trip
                (State (Buffer (Some 0%nat) 3 4 3)
                   (World {[0%nat := [Some 2; Some 3; None; Some 1]]} [] []))
                [1; 2; 3] 1 9) with (4 := Hrun) as (it' & s2 & Herase & _ & Hl & _).
    + vm_compute. reflexivity.
    + vm_compute. reflexivity.
    + simpl. lia.
    + exists it, s1, it', s2. split; [exact Hrun|]. split; [exact Herase|exact Hl].
Defined.

Lemma reserve_then_push_back_witness :
  ∃ s1 s2,
    reserve 6
      (State (Buffer (Some 0%nat) 3 4 3)
         (World {[0%nat := [Some 2; Some 3; None; Some 1]]} [] [])) = Normal tt s1 ∧
    push_back_all [7; 8] s1 = Normal tt s2 ∧
    to_list (this s2) (mem s2) = Some [1; 2; 3; 7; 8] ∧
    capacity (this s2) = capacity (this s1) ∧
    trace (mem s2) = trace (mem s1).
Proof.
  destruct (reserve_then_push_back
              (State (Buffer (Some 0%nat) 3 4 3)
                 (World {[0%nat := [Some 2; Some 3; None; Some 1]]} [] []))
              [1; 2; 3] [7; 8] 6)
    as (s1 & s2 & Hres & Hpush & _ & Hl & _ & Hc & _ & Ht).
  - vm_compute. reflexivity.
  - vm_compute. reflexivity.
  - reflexivity.
  - vm_compute. discriminate.
  - vm_compute. discriminate.
  - exists s1, s2. split; [exact Hres|]. split; [exact Hpush|]. split; [exact Hl|].
    split; [exact Hc|exact Ht].
Defined.

Lemma iterator_arithmetic_witness :
  template_iterator.sub
    (template_iterator.add (template_iterator.mk (Some 0%nat) 3 4) (-5)) (-5) =
  template_iterator.mk (Some 0%nat) 3 4 ∧
  template_iterator.diff
    (template_iterator.add (template_iterator.mk (Some 0%nat) 3 4) (-5))
    (template_iterator.mk (Some 0%nat) 3 4) = -5.
Proof.
  destruct (iterator_arithmetic (template_iterator.mk (Some 0%nat) 3 4) (-5))
    as (Hadd & _).
  - vm_compute. split; [discriminate|reflexivity].
  - destruct Hadd as (_ & Hround & Hdiff).
    + vm_compute. split; split; discriminate.
    + split; [exact Hround|exact Hdiff].
Defined.

Lemma iterator_order_witness :
  template_iterator.ltb
    (template_iterator.add (template_iterator.mk (Some 0%nat) 3 4) 1)
    (template_iterator.add (template_iterator.mk (Some 0%nat) 3 4) 2) = true ∧
  template_iterator.diff
    (end_ (Buffer (Some 0%nat) 3 4 3)) (begin (Buffer (Some 0%nat) 3 4 3)) = 3.
Proof.
  destruct (iterator_order
              (State (Buffer (Some 0%nat) 3 4 3)
                 (World {[0%nat := [Some 2; Some 3; None; Some 1]]} [] []))
              [1; 2; 3] 1 2) as (_ & _ & _ & Hlt & _ & _ & _ & Hsize & _).
  - vm_compute. reflexivity.
  - vm_compute. reflexivity.
  - simpl. lia.
  - simpl. lia.
  - split; [exact Hlt|exact Hsize].
Defined.

Lemma iterator_traversal_witness :
  deref
    (template_iterator.incr
       (template_iterator.incr (begin (Buffer (Some 0%nat) 3 4 3))))
    (State (Buffer (Some 0%nat) 3 4 3)
       (World {[0%nat := [Some 2; Some 3; None; Some 1]]} [] [])) =
  Normal 3
    (State (Buffer (Some 0%nat) 3 4 3)
       (World {[0%nat := [Some 2; Some 3; None; Some 1]]} [] [])) ∧
  Nat.iter 3 template_iterator.incr (begin (Buffer (Some 0%nat) 3 4 3)) =
  end_ (Buffer (Some 0%nat) 3 4 3).
Proof.
  destruct (iterator_traversal
              (State (Buffer (Some 0%nat) 3 4 3)
                 (World {[0%nat := [Some 2; Some 3; None; Some 1]]} [] []))
              [1; 2; 3]) as (Hvisit & Hend & _).
  - vm_compute. reflexivity.
  - vm_compute. reflexivity.
  - split; [|exact Hend].
    destruct (Hvisit 2%nat 3 eq_refl) as (Hd & _). exact Hd.
Defined.

Lemma access_without_storage_undefined_witness :
  pop_back (State default_members (World (T:=Z) ∅ [] [])) = Undefined ∧
  front (State default_members (World (T:=Z) ∅ [] [])) = Undefined.
Proof.
  destruct (access_without_storage_undefined
              (State default_members (World (T:=Z) ∅ [] [])))
    as (Hpop & _ & Hfront & _).
  - vm_compute. reflexivity.
  - reflexivity.
  - split; [exact Hpop|exact Hfront].
Defined.

Lemma insert_at_ends_witness :
  insert (end_ (Buffer (Some 0%nat) 3 4 3)) 9
    (State (Buffer (Some 0%nat) 3 4 3)
       (World {[0%nat := [Some 2; Some 3; None; Some 1]]} [] [])) =
  bind (push_back 9) (λ _, bind get_this (λ b, ret (template_iterator.sub (end_ b) 1)))
    (State (Buffer (Some 0%nat) 3 4 3)
       (World {[0%nat := [Some 2; Some 3; None; Some 1]]} [] [])).
Proof.
  destruct (insert_at_ends
              (State (Buffer (Some 0%nat) 3 4 3)
                 (World {[0%nat := [Some 2; Some 3; None; Some 1]]} [] []))
              [1; 2; 3] 9) as (Hback & _).
  - vm_compute. reflexivity.
  - vm_compute. reflexivity.
  - exact Hback.
Defined.

Lemma erase_at_ends_witness :
  erase_one (begin (Buffer (Some 0%nat) 3 4 3))
    (State (Buffer (Some 0%nat) 3 4 3)
       (World {[0%nat := [Some 2; Some 3; None; Some 1]]} [] [])) =
  bind pop_front (λ _, bind get_this (λ b, ret (begin b)))
    (State (Buffer (Some 0%nat) 3 4 3)
       (World {[0%nat := [Some 2; Some 3; None; Some 1]]} [] [])).
Proof.
  destruct (erase_at_ends
              (State (Buffer (Some 0%nat) 3 4 3)
                 (World {[0%nat := [Some 2; Some 3; None; Some 1]]} [] []))
              [1; 2; 3]) as (_ & Hfront).
  - vm_compute. reflexivity.
  - vm_compute. reflexivity.
  - discriminate.
  - exact Hfront.
Defined.

Lemma erase_shifts_shorter_side_witness :
  ∃ it s',
    erase (template_iterator.add (template_iterator.mk (Some 0%nat) 3 4) 0)
      (template_iterator.add (template_iterator.mk (Some 0%nat) 3 4) 1)
      (State (Buffer (Some 0%nat) 3 4 3)
         (World {[0%nat := [Some 2; Some 3; None; Some 1]]} [] [])) = Normal it s' ∧
    begin_ (this s') = 0 ∧
    subscript 0 s' = Normal 2 s'.
Proof.
  destruct (erase_shifts_shorter_side
              (State (Buffer (Some 0%nat) 3 4 3)
                 (World {[0%nat := [Some 2; Some 3; None; Some 1]]} [] []))
              [1; 2; 3] 0 1) as (it & s' & Hrun & _ & Hb & Hel).
  - vm_compute. reflexivity.
  - vm_compute. reflexivity.
  - simpl. lia.
  - exists it, s'. split; [exact Hrun|]. split; [exact Hb|].
    destruct (Hel 0%nat 2 eq_refl) as (Hsub & _). exact Hsub.
Defined.

Lemma no_block_leaks_witness :
  ∃ x b,
    objects
      (Machine {[0%nat := Buffer (Some 0%nat) 1 1 0]}
         (World {[0%nat := [Some 5]]} [] [EvNew 0%nat 1])) !! x = Some b ∧
    data_ b = Some 0%nat.
Proof.
  assert (Hreach : reachable
            (Machine {[0%nat := Buffer (Some 0%nat) 1 1 0]}
               (World {[0%nat := [Some 5]]} [] [EvNew 0%nat 1]))).
  { apply (reachable_done (PushBack 0 5)
             (Machine {[0%nat := Buffer nullptr 0 0 0]} (World ∅ [] []))).
    - apply (reachable_done (Default 0) (Machine ∅ (World ∅ [] []))).
      + apply (reachable_init []).
      + reflexivity.
      + vm_compute. reflexivity.
    - reflexivity.
    - vm_compute. reflexivity. }
  destruct (no_block_leaks _ Hreach) as (Hown & _).
  destruct (Hown 0%nat [Some 5]) as (x & b & Hx & Hb & _).
  - vm_compute. reflexivity.
  - exists x, b. split; [exact Hx|exact Hb].
Defined.

Lemma capacity_never_shrinks_witness :
  capacity (Buffer (Some 0%nat) 1 1 0) ≤ capacity (Buffer (Some 1%nat) 2 2 0).
Proof.
  assert (Hreach : reachable
            (Machine {[0%nat := Buffer (Some 0%nat) 1 1 0]}
               (World {[0%nat := [Some 5]]} [] [EvNew 0%nat 1]))).
  { apply (reachable_done (PushBack 0 5)
             (Machine {[0%nat := Buffer nullptr 0 0 0]} (World ∅ [] []))).
    - apply (reachable_done (Default 0) (Machine ∅ (World ∅ [] []))).
      + apply (reachable_init []).
      + reflexivity.
      + vm_compute. reflexivity.
    - reflexivity.
    - vm_compute. reflexivity. }
  destruct (capacity_never_shrinks (PushBack 0 6)
              (Machine {[0%nat := Buffer (Some 0%nat) 1 1 0]}
                 (World {[0%nat := [Some 5]]} [] [EvNew 0%nat 1]))
              (Machine {[0%nat := Buffer (Some 1%nat) 2 2 0]}
                 (World {[1%nat := [Some 5; Some 6]]} []
                    [EvNew 0%nat 1; EvNew 1%nat 2; EvDestroy 5; EvDelete 0%nat]))
              0%nat (Buffer (Some 0%nat) 1 1 0) (Buffer (Some 1%nat) 2 2 0) Hreach)
    as (Hle & _).
  - reflexivity.
  - left. vm_compute. reflexivity.
  - vm_compute. reflexivity.
  - vm_compute. reflexivity.
  - exact Hle.
Defined.

Lemma operations_defined_witness :
  ∃ m',
    step (PopBack 0)
      (Machine {[0%nat := Buffer (Some 0%nat) 1 1 0]}
         (World {[0%nat := [Some 5]]} [] [EvNew 0%nat 1])) = Done m'.
Proof.
  assert (Hreach : reachable
            (Machine {[0%nat := Buffer (Some 0%nat) 1 1 0]}
               (World {[0%nat := [Some 5]]} [] [EvNew 0%nat 1]))).
  { apply (reachable_done (PushBack 0 5)
             (Machine {[0%nat := Buffer nullptr 0 0 0]} (World ∅ [] []))).
    - apply (reachable_done (Default 0) (Machine ∅ (World ∅ [] []))).
      + apply (reachable_init []).
      + reflexivity.
      + vm_compute. reflexivity.
    - reflexivity.
    - vm_compute. reflexivity. }
  pose proof (operations_defined (PopBack 0) _ Hreach) as Hdef.
  assert (Hadm : admissible (PopBack 0)
            (Machine {[0%nat := Buffer (Some 0%nat) 1 1 0]}
               (World {[0%nat := [Some 5]]} [] [EvNew 0%nat 1])) = true).
  { vm_compute. reflexivity. }
  rewrite Hadm in Hdef. destruct Hdef as (m' & [Hdone|[Hno _]]).
  - exists m'. exact Hdone.
  - discriminate Hno.
Defined.

Lemma swap_exchanges_witness :
  ∃ m',
    step (Swap 0 1)
      (Machine {[0%nat := Buffer (Some 0%nat) 1 1 0; 1%nat := Buffer nullptr 0 0 0]}
         (World {[0%nat := [Some 5]]} [] [])) = Done m' ∧
    objects m' !! 1%nat = Some (Buffer (Some 0%nat) 1 1 0) ∧
    to_list (Buffer (Some 0%nat) 1 1 0) (mworld m') = Some [5].
Proof.
  destruct (swap_exchanges
              (Machine {[0%nat := Buffer (Some 0%nat) 1 1 0; 1%nat := Buffer nullptr 0 0 0]}
                 (World {[0%nat := [Some 5]]} [] []))
              0%nat 1%nat (Buffer (Some 0%nat) 1 1 0) (Buffer nullptr 0 0 0))
    as (m' & Hrun & _ & Hy & _ & _ & Hl & _).
  - vm_compute. reflexivity.
  - vm_compute. reflexivity.
  - exists m'. split; [exact Hrun|]. split; [exact Hy|]. rewrite Hl.
    vm_compute. reflexivity.
Defined.

Lemma assignment_copies_witness :
  ∃ m' c,
    step (Assign 1 0)
      (Machine {[0%nat := Buffer (Some 0%nat) 1 1 0; 1%nat := Buffer nullptr 0 0 0]}
         (World {[0%nat := [Some 5]]} [] [EvNew 0%nat 1])) = Done m' ∧
    objects m' !! 1%nat = Some c ∧
    to_list c (mworld m') = Some [5] ∧
    capacity c = 1.
Proof.
  assert (Hreach : reachable
            (Machine {[0%nat := Buffer (Some 0%nat) 1 1 0; 1%nat := Buffer nullptr 0 0 0]}
               (World {[0%nat := [Some 5]]} [] [EvNew 0%nat 1]))).
  { apply (reachable_done (Default 1)
             (Machine {[0%nat := Buffer (Some 0%nat) 1 1 0]}
                (World {[0%nat := [Some 5]]} [] [EvNew 0%nat 1]))).
    - apply (reachable_done (PushBack 0 5)
               (Machine {[0%nat := Buffer nullptr 0 0 0]} (World ∅ [] []))).
      + apply (reachable_done (Default 0) (Machine ∅ (World ∅ [] []))).
        * apply (reachable_init []).
        * reflexivity.
        * vm_compute. reflexivity.
      + reflexivity.
      + vm_compute. reflexivity.
    - reflexivity.
    - vm_compute. reflexivity. }
  pose proof (assignment_copies
                (Machine {[0%nat := Buffer (Some 0%nat) 1 1 0;
                           1%nat := Buffer nullptr 0 0 0]}
                   (World {[0%nat := [Some 5]]} [] [EvNew 0%nat 1]))
                1%nat 0%nat (Buffer nullptr 0 0 0) (Buffer (Some 0%nat) 1 1 0)
                [] [5] Hreach) as Hassign.
  assert (Hrun : step (Assign 1 0)
            (Machine {[0%nat := Buffer (Some 0%nat) 1 1 0; 1%nat := Buffer nullptr 0 0 0]}
               (World {[0%nat := [Some 5]]} [] [EvNew 0%nat 1])) =
          Done (Machine {[0%nat := Buffer (Some 0%nat) 1 1 0;
                          1%nat := Buffer (Some 1%nat) 1 1 0]}
                  (World {[0%nat := [Some 5]; 1%nat := [Some 5]]} []
                     [EvNew 0%nat 1; EvNew 1%nat 1]))).
  { vm_compute. reflexivity. }
  rewrite Hrun in Hassign.
  destruct Hassign as (c & Hc & _ & Hcap & _ & _ & _ & Hl & _).
  - discriminate.
  - vm_compute. reflexivity.
  - vm_compute. reflexivity.
  - vm_compute. reflexivity.
  - vm_compute. reflexivity.
  - eexists _, c. split; [reflexivity|]. split; [exact Hc|]. split; [exact Hl|exact Hcap].
Defined.

Lemma copy_without_storage_witness :
  step (Copy 1 0) (Machine {[0%nat := Buffer nullptr 0 0 0]} (World (T:=Z) ∅ [true] [])) =
  Done
    (Machine {[0%nat := Buffer nullptr 0 0 0; 1%nat := Buffer nullptr 0 0 0]}
       (World ∅ [true] [])).
Proof.
  assert (Hreach : reachable
            (Machine {[0%nat := Buffer nullptr 0 0 0]} (World (T:=Z) ∅ [true] []))).
  { apply (reachable_done (Default 0) (Machine ∅ (World ∅ [true] []))).
    - apply (reachable_init [true]).
    - reflexivity.
    - vm_compute. reflexivity. }
  rewrite (copy_without_storage _ 1%nat 0%nat (Buffer nullptr 0 0 0) Hreach).
  - vm_compute. reflexivity.
  - vm_compute. reflexivity.
  - vm_compute. reflexivity.
  - reflexivity.
Defined.
